(** * TOON codec (tone): a shallow embedding of the encoder and the decoder

    The Python sources under [src/tone] are embedded function by function.
    Python strings are lists of characters; a character is a code point
    below 256 (the Latin-1 range), which is where every structural
    character of the format lives.  Exceptions are values of [PyError]
    returned through [result]. *)

From Stdlib Require Import String Ascii.
From Stdlib Require Import DecimalString DecimalZ DecimalN Decimal DecimalPos DecimalFacts.
From Stdlib Require Import List ZArith Lia Bool Arith PeanoNat Sorted.
Import ListNotations.

(** ** Host primitives: the parts of Python's [str] the sources call *)

Module Py.

Definition str := list ascii.

Definition lit (s : string) : str := list_ascii_of_string s.
Definition chr (n : nat) : ascii := ascii_of_nat n.
Definition ord (c : ascii) : nat := nat_of_ascii c.
Definition ceq (a b : ascii) : bool := Ascii.eqb a b.

Definition seq_eqb (a b : str) : bool :=
  if list_eq_dec ascii_dec a b then true else false.

(** [c.isspace()] for a code point below 256. *)
Definition isspace (c : ascii) : bool :=
  let n := ord c in
  ((9 <=? n) && (n <=? 13)) || ((28 <=? n) && (n <=? 32))
  || (n =? 133) || (n =? 160).

Definition isdigit (c : ascii) : bool :=
  let n := ord c in (48 <=? n) && (n <=? 57).

(** [s.lstrip()], [s.rstrip()], [s.strip()] without arguments. *)
Fixpoint lstrip (s : str) : str :=
  match s with
  | [] => []
  | c :: r => if isspace c then lstrip r else s
  end.

Definition rstrip (s : str) : str := rev (lstrip (rev s)).
Definition strip (s : str) : str := rstrip (lstrip s).

(** [c in s] for a one-character string [c]. *)
Definition contains (c : ascii) (s : str) : bool := existsb (ceq c) s.

Fixpoint startswith (s prefix : str) : bool :=
  match prefix, s with
  | [], _ => true
  | p :: ps, c :: cs => ceq p c && startswith cs ps
  | _ :: _, [] => false
  end.

Definition endswith_char (s : str) (c : ascii) : bool :=
  match rev s with
  | l :: _ => ceq l c
  | [] => false
  end.

(** [s[:-1]] *)
Definition drop_last (s : str) : str := removelast s.

(** [s.replace(old, new)] for a one-character [old]. *)
Definition replace (old : ascii) (new : str) (s : str) : str :=
  flat_map (fun c => if ceq c old then new else [c]) s.

(** [s.find(c, start)]: the index of the first [c] at or after [start]. *)
Fixpoint find_from (c : ascii) (s : str) (pos : nat) : option nat :=
  match s with
  | [] => None
  | x :: r => if ceq x c then Some pos else find_from c r (S pos)
  end.

Definition find (s : str) (c : ascii) (start : nat) : option nat :=
  find_from c (skipn start s) start.

(** [s[a:b]] and [s[a:]] for non-negative bounds. *)
Definition slice (s : str) (a b : nat) : str := firstn (b - a) (skipn a s).
Definition slice_from (s : str) (a : nat) : str := skipn a s.

(** [sep.join(parts)] *)
Fixpoint join (sep : str) (parts : list str) : str :=
  match parts with
  | [] => []
  | [p] => p
  | p :: ps => p ++ sep ++ join sep ps
  end.

(** [s.split(c)] for a one-character separator: never the empty list. *)
Fixpoint split_acc (c : ascii) (s : str) (cur : str) : list str :=
  match s with
  | [] => [rev cur]
  | x :: r => if ceq x c then rev cur :: split_acc c r [] else split_acc c r (x :: cur)
  end.

Definition split (c : ascii) (s : str) : list str := split_acc c s [].

(** [s.lower()] on code points below 256. *)
Definition lower_char (c : ascii) : ascii :=
  let n := ord c in
  if ((65 <=? n) && (n <=? 90)) || ((192 <=? n) && (n <=? 222) && negb (n =? 215))
  then chr (n + 32) else c.

Definition lower (s : str) : str := map lower_char s.

Definition is_ascii_letter (c : ascii) : bool :=
  let n := ord c in ((65 <=? n) && (n <=? 90)) || ((97 <=? n) && (n <=? 122)).

(** [c.isalnum()] on code points below 256: what the regex class [\w] matches,
    the underscore apart. *)
Definition isalnum (c : ascii) : bool :=
  let n := ord c in
  is_ascii_letter c || isdigit c
  || (n =? 170) || (n =? 178) || (n =? 179) || (n =? 181) || (n =? 185) || (n =? 186)
  || ((188 <=? n) && (n <=? 190))
  || ((192 <=? n) && (n <=? 214)) || ((216 <=? n) && (n <=? 246)) || (248 <=? n).

(** [re.match] of a pattern anchored by [^] and [$]: [$] matches at the end of
    the string and also just before a newline that ends the string.  [full]
    decides whether the pattern between the anchors consumes a whole string. *)
Definition re_match_anchored (full : str -> bool) (s : str) : bool :=
  full s || (endswith_char s (chr 10) && full (drop_last s)).

Definition is_empty (s : str) : bool :=
  match s with [] => true | _ => false end.

End Py.

Import Py.

(** ** Exceptions and results *)

Inductive PyError : Type :=
| InvalidEscape            (* SyntaxError: invalid escape sequence *)
| UnterminatedString       (* SyntaxError: missing closing quote *)
| UnexpectedCharactersAfterQuote
| MissingColon             (* SyntaxError: missing colon after key *)
| InvalidArrayLength       (* TypeError of parse_bracket_segment *)
| EmptyInput               (* ValueError of decode *)
| NoContent                (* ReferenceError of decode_value_from_lines *)
| ExpectedListItem
| TabInIndentation (line_number : nat)
| IndentationNotMultiple (line_number : nat)
| LengthMismatch
| RowWidthMismatch
| BlankLineInsideArray
| ExtraRowsAfterDeclaredLength
| ExtraItemsAfterDeclaredLength
| ZeroDivision             (* indent_size = 0 *)
| IndexOutOfRange          (* IndexError / KeyError of the host *)
| Overflow                 (* OverflowError: int too large for a float *)
| OutOfFuel.               (* the recursion bound of the embedding, never a Python error *)

Inductive result (A : Type) : Type :=
| Ok (a : A)
| Err (e : PyError).

Arguments Ok {A} a.
Arguments Err {A} e.

Definition bind {A B} (r : result A) (k : A -> result B) : result B :=
  match r with
  | Ok a => k a
  | Err e => Err e
  end.

Notation "x <- r ;; k" := (bind r (fun x => k))
  (at level 61, r at next level, right associativity).

Definition is_ok {A} (r : result A) : bool :=
  match r with Ok _ => true | Err _ => false end.

(** ** tone/constants.py *)

Definition LIST_ITEM_MARKER : str := lit "-".
Definition LIST_ITEM_PREFIX : str := lit "- ".
Definition COMMA : ascii := ","%char.
Definition COLON : ascii := ":"%char.
Definition SPACE : ascii := " "%char.
Definition PIPE : ascii := "|"%char.
Definition HASH : ascii := "#"%char.
Definition HYPHEN : ascii := "-"%char.
Definition OPEN_BRACKET : ascii := "["%char.
Definition CLOSE_BRACKET : ascii := "]"%char.
Definition OPEN_BRACE : ascii := "{"%char.
Definition CLOSE_BRACE : ascii := "}"%char.
Definition NULL_LITERAL : str := lit "null".
Definition TRUE_LITERAL : str := lit "true".
Definition FALSE_LITERAL : str := lit "false".
Definition BACKSLASH : ascii := chr 92.
Definition DOUBLE_QUOTE : ascii := chr 34.
Definition NEWLINE : ascii := chr 10.
Definition CARRIAGE_RETURN : ascii := chr 13.
Definition TAB : ascii := chr 9.
Definition DEFAULT_DELIMITER : ascii := COMMA.

(** ** tone/shared/string_utils.py *)

Definition escape_string (value : str) : str :=
  replace TAB [BACKSLASH; "t"%char]
    (replace CARRIAGE_RETURN [BACKSLASH; "r"%char]
      (replace NEWLINE [BACKSLASH; "n"%char]
        (replace DOUBLE_QUOTE [BACKSLASH; DOUBLE_QUOTE]
          (replace BACKSLASH [BACKSLASH; BACKSLASH] value)))).

(** The loop of [unescape_string]: [rest] is [value[i:]], [acc] the list
    [result] joined so far. *)
Fixpoint unescape_loop (rest : str) (acc : str) : result str :=
  match rest with
  | [] => Ok acc
  | c :: tl =>
      if ceq c BACKSLASH then
        match tl with
        | [] => Err InvalidEscape
        | next_char :: tl' =>
            if ceq next_char "n"%char then unescape_loop tl' (acc ++ [NEWLINE])
            else if ceq next_char "t"%char then unescape_loop tl' (acc ++ [TAB])
            else if ceq next_char "r"%char then unescape_loop tl' (acc ++ [CARRIAGE_RETURN])
            else if ceq next_char BACKSLASH then unescape_loop tl' (acc ++ [BACKSLASH])
            else if ceq next_char DOUBLE_QUOTE then unescape_loop tl' (acc ++ [DOUBLE_QUOTE])
            else Err InvalidEscape
        end
      else unescape_loop tl (acc ++ [c])
  end.

Definition unescape_string (value : str) : result str := unescape_loop value [].

(** The loop of [find_closing_quote]: [rest] is [content[i:]]. *)
Fixpoint find_closing_quote_loop (rest : str) (i : nat) : option nat :=
  match rest with
  | [] => None
  | c :: tl =>
      match tl with
      | _ :: tl' =>
          if ceq c BACKSLASH then find_closing_quote_loop tl' (i + 2)
          else if ceq c DOUBLE_QUOTE then Some i
          else find_closing_quote_loop tl (i + 1)
      | [] => if ceq c DOUBLE_QUOTE then Some i else None
      end
  end.

(** [None] stands for the source's -1. *)
Definition find_closing_quote (content : str) (start : nat) : option nat :=
  find_closing_quote_loop (skipn (start + 1) content) (start + 1).

(** The loop of [find_unquoted_char]. *)
Fixpoint find_unquoted_char_loop (rest : str) (char : ascii) (in_quotes : bool) (i : nat)
  : option nat :=
  match rest with
  | [] => None
  | c :: tl =>
      match tl with
      | _ :: tl' =>
          if ceq c BACKSLASH && in_quotes then find_unquoted_char_loop tl' char in_quotes (i + 2)
          else if ceq c DOUBLE_QUOTE then find_unquoted_char_loop tl char (negb in_quotes) (i + 1)
          else if ceq c char && negb in_quotes then Some i
          else find_unquoted_char_loop tl char in_quotes (i + 1)
      | [] =>
          if ceq c DOUBLE_QUOTE then None
          else if ceq c char && negb in_quotes then Some i
          else None
      end
  end.

Definition find_unquoted_char (content : str) (char : ascii) (start : nat) : option nat :=
  find_unquoted_char_loop (skipn start content) char false start.

(** ** Escape codec: facts about [escape_string] and [unescape_string] *)

Section EscapeCodec.

(** What the chained [replace] calls of [escape_string] do to one character. *)
Definition escape_char (c : ascii) : str :=
  if ceq c BACKSLASH then [BACKSLASH; BACKSLASH]
  else if ceq c DOUBLE_QUOTE then [BACKSLASH; DOUBLE_QUOTE]
  else if ceq c NEWLINE then [BACKSLASH; "n"%char]
  else if ceq c CARRIAGE_RETURN then [BACKSLASH; "r"%char]
  else if ceq c TAB then [BACKSLASH; "t"%char]
  else [c].

(** The five characters the codec rewrites. *)
Definition is_escaped_char (c : ascii) : bool :=
  ceq c BACKSLASH || ceq c DOUBLE_QUOTE || ceq c NEWLINE
  || ceq c CARRIAGE_RETURN || ceq c TAB.

(** The characters that may follow a backslash: n t r \ and the double quote. *)
Definition valid_escape_successor (c : ascii) : bool :=
  ceq c "n"%char || ceq c "t"%char || ceq c "r"%char
  || ceq c BACKSLASH || ceq c DOUBLE_QUOTE.

Ltac each_char c := destruct c as [[] [] [] [] [] [] [] []].

Lemma replace_app old new a b :
  replace old new (a ++ b) = replace old new a ++ replace old new b.
Proof. unfold replace. apply flat_map_app. Qed.

Lemma replace_flat_map old new (f : ascii -> str) s :
  replace old new (flat_map f s) = flat_map (fun c => replace old new (f c)) s.
Proof.
  induction s as [|c s IH]; simpl; [reflexivity|].
  rewrite replace_app, IH. reflexivity.
Qed.

Lemma escape_string_flat_map s : escape_string s = flat_map escape_char s.
Proof.
  unfold escape_string.
  unfold replace at 5.
  rewrite !replace_flat_map.
  apply flat_map_ext. intro c. each_char c; reflexivity.
Qed.

Lemma escape_string_app a b :
  escape_string (a ++ b) = escape_string a ++ escape_string b.
Proof. rewrite !escape_string_flat_map. apply flat_map_app. Qed.

Lemma escape_char_plain c : is_escaped_char c = false -> escape_char c = [c].
Proof. each_char c; simpl; intro H; try reflexivity; discriminate H. Qed.

Lemma unescape_loop_escape s : forall x acc,
  unescape_loop (flat_map escape_char s ++ x) acc = unescape_loop x (acc ++ s).
Proof.
  induction s as [|c s IH]; intros x acc; simpl.
  - now rewrite app_nil_r.
  - rewrite <- app_assoc.
    replace (acc ++ c :: s) with ((acc ++ [c]) ++ s) by now rewrite <- app_assoc.
    rewrite <- IH.
    each_char c; reflexivity.
Qed.

Lemma unescape_escape s : unescape_string (escape_string s) = Ok s.
Proof.
  unfold unescape_string. rewrite escape_string_flat_map.
  rewrite <- (app_nil_r (flat_map escape_char s)).
  now rewrite unescape_loop_escape.
Qed.

(** Continuing a scan that succeeded on a prefix. *)
Lemma unescape_loop_app_ok : forall n pre x acc u,
  length pre <= n ->
  unescape_loop pre acc = Ok u ->
  unescape_loop (pre ++ x) acc = unescape_loop x u.
Proof.
  induction n as [|n IH]; intros pre x acc u Hn H.
  - destruct pre; [|simpl in Hn; lia]. simpl in H. now inversion H.
  - destruct pre as [|c tl]; [simpl in H; now inversion H|].
    simpl in *. destruct (ceq c BACKSLASH).
    + destruct tl as [|d tl']; [discriminate|]. simpl in *.
      repeat match goal with
      | H : (if ?b then _ else _) = Ok _ |- _ => destruct b
      end; try discriminate; apply IH; auto; lia.
    + apply IH; auto; lia.
Qed.

(** A run of [n] backslashes. *)
Definition backslashes (n : nat) : str := repeat BACKSLASH n.

(** The next character, if any, cannot complete an escape. *)
Definition no_valid_successor (rest : str) : Prop :=
  match rest with
  | [] => True
  | c :: _ => valid_escape_successor c = false
  end.

(** [pre] does not end in a backslash (so a run starting after it is maximal
    on its left). *)
Definition not_after_backslash (pre : str) : Prop :=
  match rev pre with
  | [] => True
  | c :: _ => ceq c BACKSLASH = false
  end.

(** The input holds a maximal run of an odd number of backslashes whose last
    one is followed by the end of input or by a character outside
    n, t, r, backslash, double quote. *)
Definition dangling_escape (s : str) : Prop :=
  exists pre k rest,
    s = pre ++ backslashes (2 * k + 1) ++ rest
    /\ not_after_backslash pre
    /\ no_valid_successor rest.

Lemma unescape_loop_err_kind : forall n s acc e,
  length s <= n -> unescape_loop s acc = Err e -> e = InvalidEscape.
Proof.
  induction n as [|n IH]; intros s acc e Hn H.
  - destruct s; [discriminate|simpl in Hn; lia].
  - destruct s as [|c tl]; [discriminate|].
    simpl in *. destruct (ceq c BACKSLASH).
    + destruct tl as [|d tl']; [now inversion H|]. simpl in *.
      repeat match goal with
      | H : (if ?b then _ else _) = Err _ |- _ => destruct b
      end; try (now inversion H); eapply IH; eauto; lia.
    + eapply IH; eauto; lia.
Qed.

Lemma not_after_backslash_cons c pre :
  not_after_backslash (c :: pre) -> pre <> [] -> not_after_backslash pre.
Proof.
  unfold not_after_backslash. simpl. intros H Hne.
  destruct (rev pre) eqn:E.
  - apply (f_equal (@rev ascii)) in E. rewrite rev_involutive in E. now subst.
  - simpl in H. exact H.
Qed.

Lemma not_after_backslash_cons_intro c pre :
  not_after_backslash pre -> (pre = [] -> ceq c BACKSLASH = false) ->
  not_after_backslash (c :: pre).
Proof.
  unfold not_after_backslash. simpl. intros H Hc.
  destruct (rev pre) eqn:E.
  - apply (f_equal (@rev ascii)) in E. rewrite rev_involutive in E. simpl in E.
    simpl. auto.
  - simpl. exact H.
Qed.

(** A scan over a prefix that does not end in a backslash fails the same way
    whatever follows. *)
Lemma unescape_loop_app_err : forall n pre x acc e,
  length pre <= n ->
  not_after_backslash pre ->
  unescape_loop pre acc = Err e ->
  unescape_loop (pre ++ x) acc = Err e.
Proof.
  induction n as [|n IH]; intros pre x acc e Hn Hnb H.
  - destruct pre; [discriminate|simpl in Hn; lia].
  - destruct pre as [|c tl]; [discriminate|].
    simpl in Hn.
    assert (Htl : tl <> [] -> not_after_backslash tl)
      by (intro; eapply not_after_backslash_cons; eauto).
    simpl in H |- *. destruct (ceq c BACKSLASH) eqn:Ec.
    + destruct tl as [|d tl'].
      * unfold not_after_backslash in Hnb. simpl in Hnb. congruence.
      * simpl in Hn.
        assert (Htl' : tl' <> [] -> not_after_backslash tl').
        { intro Hne. eapply not_after_backslash_cons; [|exact Hne].
          apply Htl. discriminate. }
        simpl.
        destruct tl' as [|d' tl''].
        -- specialize (Htl ltac:(discriminate)).
           unfold not_after_backslash in Htl. simpl in Htl.
           repeat match goal with
           | H : (if ?b then _ else _) = Err _ |- _ => destruct b eqn:?
           end; try discriminate; try exact H.
        -- repeat match goal with
           | H : (if ?b then _ else _) = Err _ |- _ => destruct b eqn:?
           end; try exact H;
           (apply IH; [simpl in *; lia | apply Htl'; discriminate | exact H]).
    + destruct tl as [|d tl']; [discriminate|].
      apply IH; [simpl in *; lia | apply Htl; discriminate | exact H].
Qed.

Lemma unescape_loop_odd_run k : forall rest acc,
  no_valid_successor rest ->
  unescape_loop (backslashes (2 * k + 1) ++ rest) acc = Err InvalidEscape.
Proof.
  induction k as [|k IH]; intros rest acc Hrest.
  - simpl. destruct rest as [|c rest]; [reflexivity|].
    simpl in Hrest. unfold valid_escape_successor in Hrest.
    repeat (apply orb_false_elim in Hrest; destruct Hrest as [Hrest ?]).
    simpl.
    repeat match goal with H : ceq _ _ = false |- _ => rewrite H; clear H end.
    reflexivity.
  - replace (2 * S k + 1) with (S (S (2 * k + 1))) by lia.
    simpl. apply IH. exact Hrest.
Qed.

Lemma dangling_escape_fails s acc :
  dangling_escape s -> unescape_loop s acc = Err InvalidEscape.
Proof.
  intros (pre & k & rest & -> & Hpre & Hrest).
  destruct (unescape_loop pre acc) as [u|e] eqn:E.
  - rewrite (unescape_loop_app_ok _ _ _ _ _ (le_n _) E).
    now apply unescape_loop_odd_run.
  - rewrite (unescape_loop_app_err _ _ _ _ _ (le_n _) Hpre E).
    f_equal. eapply unescape_loop_err_kind; eauto.
Qed.

Lemma dangling_escape_cons c s :
  ceq c BACKSLASH = false -> dangling_escape s -> dangling_escape (c :: s).
Proof.
  intros Hc (pre & k & rest & -> & Hpre & Hrest).
  exists (c :: pre), k, rest. repeat split; auto.
  apply not_after_backslash_cons_intro; auto.
Qed.

Lemma dangling_escape_pair d s :
  valid_escape_successor d = true ->
  dangling_escape s -> dangling_escape (BACKSLASH :: d :: s).
Proof.
  intros Hd (pre & k & rest & -> & Hpre & Hrest).
  destruct pre as [|p pre].
  - destruct (ceq d BACKSLASH) eqn:Ed.
    + apply Ascii.eqb_eq in Ed. subst d.
      exists [], (S k), rest. repeat split; auto.
      replace (2 * S k + 1) with (S (S (2 * k + 1))) by lia. reflexivity.
    + exists [BACKSLASH; d], k, rest. repeat split; auto.
  - exists (BACKSLASH :: d :: p :: pre), k, rest. repeat split; auto.
    apply not_after_backslash_cons_intro; [|discriminate].
    apply not_after_backslash_cons_intro; [exact Hpre|discriminate].
Qed.

Lemma unescape_fails_dangling : forall n s acc e,
  length s <= n -> unescape_loop s acc = Err e -> dangling_escape s.
Proof.
  induction n as [|n IH]; intros s acc e Hn H.
  - destruct s; [discriminate|simpl in Hn; lia].
  - destruct s as [|c tl]; [discriminate|].
    simpl in Hn, H. destruct (ceq c BACKSLASH) eqn:Ec.
    + apply Ascii.eqb_eq in Ec. subst c.
      destruct tl as [|d tl'].
      * exists [], 0, []. repeat split; auto.
      * simpl in Hn.
        destruct (valid_escape_successor d) eqn:Ed.
        -- apply dangling_escape_pair; [exact Ed|].
           repeat match goal with
           | H : (if ?b then _ else _) = Err _ |- _ => destruct b eqn:?
           end;
           try (eapply IH; [|exact H]; lia).
           unfold valid_escape_successor in Ed.
           repeat match goal with H : ceq _ _ = false |- _ =>
             rewrite H in Ed; clear H end.
           discriminate.
        -- exists [], 0, (d :: tl'). repeat split; auto.
    + apply dangling_escape_cons; [exact Ec|].
      eapply IH; [|exact H]. lia.
Qed.

End EscapeCodec.

(** ** Host numbers: [int(s)], [float(s)], [str(n)]

    A finite float is kept as the exact decimal it denotes, sign, mantissa
    without trailing zeros and power of ten; the rounding to binary64 is
    not modelled.  What the sources observe of a float is modelled
    exactly: whether [float(s)] raises, whether its value is infinite or a
    NaN, and the sign of zero. *)

Inductive PyFloat : Type :=
| FFinite (negative : bool) (mantissa : N) (exponent10 : Z)
| FInf (negative : bool)
| FNan.

Module PyNum.

(** The whitespace [int()] and [float()] strip: the ASCII blanks of C's
    isspace, and the two non-ASCII spaces below 256, which the host turns
    into blanks first. *)
Definition isnumspace (c : ascii) : bool :=
  let n := ord c in
  ((9 <=? n) && (n <=? 13)) || (n =? 32) || (n =? 133) || (n =? 160).

Fixpoint lstrip_num (s : str) : str :=
  match s with
  | [] => []
  | c :: r => if isnumspace c then lstrip_num r else s
  end.

Definition strip_num (s : str) : str := rev (lstrip_num (rev (lstrip_num s))).

Definition digit_val (c : ascii) : N := N.of_nat (ord c - 48).

Definition digits_value (ds : str) : N :=
  fold_left (fun acc c => (acc * 10 + digit_val c)%N) ds 0%N.

(** [digitpart ::= digit (["_"] digit)*]; [digitpart_tail] reads what follows
    the first digit and returns the digits read and the unread rest. *)
Fixpoint digitpart_tail (s : str) : str * str :=
  match s with
  | [] => ([], [])
  | c :: r =>
      if isdigit c then
        let (ds, rest) := digitpart_tail r in (c :: ds, rest)
      else if ceq c "_"%char then
        match r with
        | d :: r' =>
            if isdigit d then
              let (ds, rest) := digitpart_tail r' in (d :: ds, rest)
            else ([], s)
        | [] => ([], s)
        end
      else ([], s)
  end.

Definition digitpart (s : str) : option (str * str) :=
  match s with
  | c :: r =>
      if isdigit c then
        let (ds, rest) := digitpart_tail r in Some (c :: ds, rest)
      else None
  | [] => None
  end.

Definition split_sign (s : str) : bool * str :=
  match s with
  | c :: r =>
      if ceq c "-"%char then (true, r)
      else if ceq c "+"%char then (false, r)
      else (false, s)
  | [] => (false, [])
  end.

(** [int(s)] in base 10; [None] is ValueError. *)
Definition py_int (s : str) : option Z :=
  let (neg, body) := split_sign (strip_num s) in
  match digitpart body with
  | Some (ds, []) =>
      let v := Z.of_N (digits_value ds) in Some (if neg then (- v)%Z else v)
  | _ => None
  end.

(** A decimal rounds to infinity exactly from the midpoint between the largest
    binary64 and 2^1024 on. *)
Definition FLOAT_OVERFLOW : Z := (2 ^ 1024 - 2 ^ 970)%Z.

Definition decimal_overflows (m : N) (e : Z) : bool :=
  if (0 <=? e)%Z then (FLOAT_OVERFLOW <=? Z.of_N m * 10 ^ e)%Z
  else (FLOAT_OVERFLOW * 10 ^ (- e) <=? Z.of_N m)%Z.

Fixpoint drop_zeros (s : str) : str :=
  match s with
  | c :: r => if ceq c "0"%char then drop_zeros r else s
  | [] => []
  end.

Definition make_float (neg : bool) (int_digits frac_digits : str) (exp : Z) : PyFloat :=
  let ds := int_digits ++ frac_digits in
  let sig := rev (drop_zeros (rev ds)) in
  let m := digits_value sig in
  if (m =? 0)%N then FFinite neg 0 0
  else
    let e := (exp - Z.of_nat (length frac_digits)
              + Z.of_nat (length ds - length sig))%Z in
    if decimal_overflows m e then FInf neg else FFinite neg m e.

(** [number ::= [digitpart] "." digitpart | digitpart ["."]] *)
Definition parse_number (s : str) : option (str * str * str) :=
  match digitpart s with
  | Some (i, r) =>
      match r with
      | c :: r' =>
          if ceq c "."%char then
            match digitpart r' with
            | Some (f, r'') => Some (i, f, r'')
            | None => Some (i, [], r')
            end
          else Some (i, [], r)
      | [] => Some (i, [], [])
      end
  | None =>
      match s with
      | c :: r' =>
          if ceq c "."%char then
            match digitpart r' with
            | Some (f, r'') => Some ([], f, r'')
            | None => None
            end
          else None
      | [] => None
      end
  end.

(** [exponent ::= ("e" | "E") ["+" | "-"] digitpart], up to the end of input. *)
Definition parse_exponent (r : str) : option Z :=
  match r with
  | [] => Some 0%Z
  | c :: r' =>
      if ceq c "e"%char || ceq c "E"%char then
        let (neg, body) := split_sign r' in
        match digitpart body with
        | Some (ds, []) =>
            let v := Z.of_N (digits_value ds) in Some (if neg then (- v)%Z else v)
        | _ => None
        end
      else None
  end.

(** [float(s)]; [None] is ValueError. *)
Definition py_float (s : str) : option PyFloat :=
  let (neg, body) := split_sign (strip_num s) in
  let low := lower body in
  if seq_eqb low (lit "inf") || seq_eqb low (lit "infinity") then Some (FInf neg)
  else if seq_eqb low (lit "nan") then Some FNan
  else
    match parse_number body with
    | Some (i, f, r) =>
        match parse_exponent r with
        | Some e => Some (make_float neg i f e)
        | None => None
        end
    | None => None
    end.

Definition isfinite (f : PyFloat) : bool :=
  match f with FFinite _ _ _ => true | _ => false end.

(** [str(n)] for an int. *)
Definition str_int (n : Z) : str := lit (NilZero.string_of_int (Z.to_int n)).

(** [str(f)] for a float: the shortest-representation digits laid out as
    [repr] does, in exponent form when the decimal point falls more than 16
    places right or more than 3 places left of the first digit. *)
Definition str_float (f : PyFloat) : str :=
  match f with
  | FNan => lit "nan"
  | FInf neg => if neg then lit "-inf" else lit "inf"
  | FFinite neg m e =>
      let sign := if neg then lit "-" else [] in
      if (m =? 0)%N then sign ++ lit "0.0"
      else
        let ds := lit (NilZero.string_of_uint (N.to_uint m)) in
        let n := Z.of_nat (length ds) in
        let decpt := (n + e)%Z in
        if ((decpt <=? -4) || (16 <? decpt))%Z then
          let x := (decpt - 1)%Z in
          let xs := lit (NilZero.string_of_uint (N.to_uint (Z.to_N (Z.abs x)))) in
          let xs2 := if (length xs <? 2)%nat then "0"%char :: xs else xs in
          sign ++ firstn 1 ds
               ++ (if (length ds <=? 1)%nat then [] else "."%char :: skipn 1 ds)
               ++ ["e"%char] ++ (if (x <? 0)%Z then lit "-" else lit "+") ++ xs2
        else if (decpt <=? 0)%Z then
          sign ++ lit "0." ++ repeat "0"%char (Z.to_nat (- decpt)) ++ ds
        else if (n <=? decpt)%Z then
          sign ++ ds ++ repeat "0"%char (Z.to_nat (decpt - n)) ++ lit ".0"
        else
          sign ++ firstn (Z.to_nat decpt) ds ++ ["."%char] ++ skipn (Z.to_nat decpt) ds
  end.

End PyNum.

Import PyNum.

(** ** tone/types.py *)

Inductive JsonPrimitive : Type :=
| PNull
| PBool (b : bool)
| PInt (n : Z)
| PFloat (f : PyFloat)
| PStr (s : str).

(** A dict is the list of its items in insertion order. *)
#[warnings="-register-all"]
Inductive JsonValue : Type :=
| JPrim (p : JsonPrimitive)
| JArray (items : list JsonValue)
| JObject (items : list (str * JsonValue)).

Record ArrayHeaderInfo : Type := {
  h_key : option str;
  h_length : Z;
  h_delimiter : ascii;
  h_fields : option (list str);
  h_has_length_marker : bool
}.

(** ** tone/shared/literal_utils.py *)

Definition is_boolean_or_null_literal (token : str) : bool :=
  seq_eqb token TRUE_LITERAL || seq_eqb token FALSE_LITERAL || seq_eqb token NULL_LITERAL.

(** One or more digits, greedily: the rest after them. *)
Fixpoint skip_digits (s : str) : str :=
  match s with
  | c :: r => if isdigit c then skip_digits r else s
  | [] => []
  end.

Definition digits1 (s : str) : option str :=
  match s with
  | c :: r => if isdigit c then Some (skip_digits r) else None
  | [] => None
  end.

(** The optional group [(?:\.\d+)?]: the rest after it. *)
Definition match_opt_fraction (r1 : str) : str :=
  match r1 with
  | c :: r =>
      if ceq c "."%char then
        match digits1 r with Some r' => r' | None => r1 end
      else r1
  | [] => r1
  end.

(** The optional group [(?:[eE][+-]?\d+)?]: the rest after it. *)
Definition match_opt_exponent (r2 : str) : str :=
  match r2 with
  | c :: r =>
      if ceq c "e"%char || ceq c "E"%char then
        let r' := match r with
                  | g :: t => if ceq g "+"%char || ceq g "-"%char then t else r
                  | [] => r
                  end in
        match digits1 r' with Some r'' => r'' | None => r2 end
      else r2
  | [] => r2
  end.

(** The pattern [-?\d+(?:\.\d+)?(?:[eE][+-]?\d+)?] consuming all of [s]. *)
Definition numeric_pattern (s : str) : bool :=
  let s1 := match s with
            | c :: r => if ceq c "-"%char then r else s
            | [] => s
            end in
  match digits1 s1 with
  | None => false
  | Some r1 => is_empty (match_opt_exponent (match_opt_fraction r1))
  end.

(** The pattern [0\d+] consuming all of [s]. *)
Definition leading_zero_pattern (s : str) : bool :=
  match s with
  | c :: r =>
      ceq c "0"%char && match digits1 r with Some r' => is_empty r' | None => false end
  | [] => false
  end.

Definition is_numeric_like (value : str) : bool :=
  if re_match_anchored numeric_pattern value then true
  else re_match_anchored leading_zero_pattern value.

Definition is_numeric_literal (token : str) : bool :=
  if is_empty token then false
  else if (1 <? length token)%nat
          && ceq (nth 0 token " "%char) "0"%char
          && negb (ceq (nth 1 token " "%char) "."%char)
  then false
  else
    match py_float token with
    | Some num => isfinite num
    | None => false
    end.

(** ** tone/shared/validation.py *)

Definition is_word_char (c : ascii) : bool := isalnum c || ceq c "_"%char.

(** The pattern [[A-Z_][\w.]*] under IGNORECASE consuming all of [s]. *)
Definition key_pattern (s : str) : bool :=
  match s with
  | c :: r =>
      (is_ascii_letter c || ceq c "_"%char)
      && forallb (fun x => is_word_char x || ceq x "."%char) r
  | [] => false
  end.

Definition is_valid_unquoted_key (key : str) : bool :=
  re_match_anchored key_pattern key.

Definition is_safe_unquoted (value : str) (delimiter : ascii) : bool :=
  if is_empty value then false
  else if negb (seq_eqb value (strip value)) then false
  else if is_boolean_or_null_literal value || is_numeric_like value then false
  else if contains COLON value then false
  else if contains DOUBLE_QUOTE value || contains BACKSLASH value then false
  else if existsb (fun c => ceq c OPEN_BRACKET || ceq c CLOSE_BRACKET
                            || ceq c OPEN_BRACE || ceq c CLOSE_BRACE) value then false
  else if existsb (fun c => ceq c NEWLINE || ceq c CARRIAGE_RETURN || ceq c TAB) value
  then false
  else if contains delimiter value then false
  else if startswith value LIST_ITEM_MARKER then false
  else true.

(** ** tone/encode/primitives.py *)

Definition encode_string_literal (value : str) (delimiter : ascii) : str :=
  if is_safe_unquoted value delimiter then value
  else [DOUBLE_QUOTE] ++ escape_string value ++ [DOUBLE_QUOTE].

Definition encode_primitive (value : JsonPrimitive) (delimiter : ascii) : str :=
  match value with
  | PNull => NULL_LITERAL
  | PBool b => if b then lit "true" else lit "false"
  | PInt n => str_int n
  | PFloat f => str_float f
  | PStr s => encode_string_literal s delimiter
  end.

Definition encode_key (key : str) : str :=
  if is_valid_unquoted_key key then key
  else [DOUBLE_QUOTE] ++ escape_string key ++ [DOUBLE_QUOTE].

Definition encode_and_join_primitives (values : list JsonPrimitive) (delimiter : ascii) : str :=
  join [delimiter] (map (fun v => encode_primitive v delimiter) values).

(** [length_marker] is [None] or a string; any non-empty string prints as [#]. *)
Definition format_header (length : nat) (key : option str) (fields : option (list str))
  (delimiter : ascii) (length_marker : option str) : str :=
  let key_part := match key with
                  | Some k => if is_empty k then [] else encode_key k
                  | None => []
                  end in
  let marker := match length_marker with
                | Some m => if is_empty m then [] else [HASH]
                | None => []
                end in
  let delim := if ceq delimiter DEFAULT_DELIMITER then [] else [delimiter] in
  let bracket := [OPEN_BRACKET] ++ marker ++ str_int (Z.of_nat length) ++ delim
                 ++ [CLOSE_BRACKET] in
  let field_part := match fields with
                    | Some (f :: fs) =>
                        [OPEN_BRACE] ++ join [delimiter] (map encode_key (f :: fs))
                        ++ [CLOSE_BRACE]
                    | _ => []
                    end in
  key_part ++ bracket ++ field_part ++ [COLON].

(** ** tone/decode/parser.py *)

Definition parse_string_literal (token : str) : result str :=
  let trimmed := strip token in
  if startswith trimmed [DOUBLE_QUOTE] then
    match find_closing_quote trimmed 0 with
    | None => Err UnterminatedString
    | Some closing_quote_index =>
        if negb (closing_quote_index =? length trimmed - 1)%nat
        then Err UnexpectedCharactersAfterQuote
        else unescape_string (slice trimmed 1 closing_quote_index)
    end
  else Ok trimmed.

Definition parse_primitive_token (token : str) : result JsonPrimitive :=
  let trimmed := strip token in
  if is_empty trimmed then Ok (PStr [])
  else if startswith trimmed [DOUBLE_QUOTE] then
    s <- parse_string_literal trimmed ;; Ok (PStr s)
  else if seq_eqb trimmed TRUE_LITERAL then Ok (PBool true)
  else if seq_eqb trimmed FALSE_LITERAL then Ok (PBool false)
  else if seq_eqb trimmed NULL_LITERAL then Ok PNull
  else if is_numeric_literal trimmed then
    if negb (contains "."%char trimmed) && negb (contains "e"%char (lower trimmed)) then
      match py_int trimmed with
      | Some n => Ok (PInt n)
      | None => Ok (PStr trimmed)
      end
    else
      match py_float trimmed with
      | Some f => Ok (PFloat f)
      | None => Ok (PStr trimmed)
      end
  else Ok (PStr trimmed).

Definition map_result {A B} (f : A -> result B) : list A -> result (list B) :=
  fix go (l : list A) : result (list B) :=
    match l with
    | [] => Ok []
    | x :: r => y <- f x ;; ys <- go r ;; Ok (y :: ys)
    end.

Definition map_row_values_to_primitives (values : list str) : result (list JsonPrimitive) :=
  map_result parse_primitive_token values.

(** The loop of [parse_delimited_values]: [rest] is [input_str[i:]]. *)
Fixpoint parse_delimited_values_loop (rest : str) (delimiter : ascii)
  (current : str) (in_quotes : bool) (values : list str) : list str :=
  match rest with
  | [] =>
      if negb (is_empty current) || (0 <? length values)%nat
      then values ++ [strip current] else values
  | char :: tl =>
      let plain :=
        if ceq char DOUBLE_QUOTE then
          parse_delimited_values_loop tl delimiter (current ++ [char]) (negb in_quotes) values
        else if ceq char delimiter && negb in_quotes then
          parse_delimited_values_loop tl delimiter [] in_quotes (values ++ [strip current])
        else
          parse_delimited_values_loop tl delimiter (current ++ [char]) in_quotes values in
      if ceq char BACKSLASH && in_quotes then
        match tl with
        | next :: tl' =>
            parse_delimited_values_loop tl' delimiter (current ++ [char; next]) in_quotes values
        | [] => plain
        end
      else plain
  end.

Definition parse_delimited_values (input_str : str) (delimiter : ascii) : list str :=
  parse_delimited_values_loop input_str delimiter [] false [].

Record BracketSegment : Type := {
  b_length : Z;
  b_delimiter : ascii;
  b_has_length_marker : bool
}.

Definition parse_bracket_segment (seg : str) (default_delimiter : ascii)
  : result BracketSegment :=
  let '(has_length_marker, content) :=
    if startswith seg [HASH] then (true, slice_from seg 1) else (false, seg) in
  let '(delimiter, content) :=
    if endswith_char content TAB then (TAB, drop_last content)
    else if endswith_char content PIPE then (PIPE, drop_last content)
    else (default_delimiter, content) in
  match py_int content with
  | Some length =>
      Ok {| b_length := length; b_delimiter := delimiter;
            b_has_length_marker := has_length_marker |}
  | None => Err InvalidArrayLength
  end.

(** [Ok None] is the source's [None] (not a header); an [Err] is the SyntaxError
    of a field name that is badly quoted. *)
Definition parse_array_header_line (content : str) (default_delimiter : ascii)
  : result (option (ArrayHeaderInfo * option str)) :=
  if startswith (lstrip content) [DOUBLE_QUOTE] then Ok None
  else
    match find content OPEN_BRACKET 0 with
    | None => Ok None
    | Some bracket_start =>
    match find content CLOSE_BRACKET bracket_start with
    | None => Ok None
    | Some bracket_end =>
        let brace_start := find content OPEN_BRACE bracket_end in
        let brace_end :=
          match brace_start, find content COLON bracket_end with
          | Some bs, Some first_colon =>
              if (bs <? first_colon)%nat then
                match find content CLOSE_BRACE bs with
                | Some found_brace_end => found_brace_end + 1
                | None => bracket_end + 1
                end
              else bracket_end + 1
          | _, _ => bracket_end + 1
          end in
        match find content COLON (Nat.max bracket_end brace_end) with
        | None => Ok None
        | Some colon_index =>
            let key := if (0 <? bracket_start)%nat
                       then Some (slice content 0 bracket_start) else None in
            let after_colon := strip (slice_from content (colon_index + 1)) in
            let bracket_content := slice content (bracket_start + 1) bracket_end in
            match parse_bracket_segment bracket_content default_delimiter with
            | Err _ => Ok None
            | Ok parsed_bracket =>
                let delimiter := b_delimiter parsed_bracket in
                fields <-
                  match brace_start with
                  | Some bs =>
                      if (bs <? colon_index)%nat then
                        match find content CLOSE_BRACE bs with
                        | Some found_brace_end =>
                            if (found_brace_end <? colon_index)%nat then
                              let fields_content := slice content (bs + 1) found_brace_end in
                              fs <- map_result
                                      (fun field => parse_string_literal (strip field))
                                      (parse_delimited_values fields_content delimiter) ;;
                              Ok (Some fs)
                            else Ok None
                        | None => Ok None
                        end
                      else Ok None
                  | None => Ok None
                  end ;;
                Ok (Some ({| h_key := key;
                             h_length := b_length parsed_bracket;
                             h_delimiter := delimiter;
                             h_fields := fields;
                             h_has_length_marker := b_has_length_marker parsed_bracket |},
                          if is_empty after_colon then None else Some after_colon))
            end
        end
    end
    end.

Definition parse_unquoted_key (content : str) (start : nat) : result (str * nat) :=
  match find content COLON start with
  | None => Err MissingColon
  | Some end_ => Ok (strip (slice content start end_), end_ + 1)
  end.

Definition parse_quoted_key (content : str) (start : nat) : result (str * nat) :=
  match find_closing_quote content start with
  | None => Err UnterminatedString
  | Some closing_quote_index =>
      key <- unescape_string (slice content (start + 1) closing_quote_index) ;;
      let end_ := closing_quote_index + 1 in
      match nth_error content end_ with
      | Some c => if ceq c COLON then Ok (key, end_ + 1) else Err MissingColon
      | None => Err MissingColon
      end
  end.

Definition parse_key_token (content : str) (start : nat) : result (str * nat) :=
  match nth_error content start with
  | None => Err IndexOutOfRange
  | Some c =>
      if ceq c DOUBLE_QUOTE then parse_quoted_key content start
      else parse_unquoted_key content start
  end.

Definition is_some {A} (o : option A) : bool :=
  match o with Some _ => true | None => false end.

Definition is_array_header_after_hyphen (content : str) : bool :=
  startswith (strip content) [OPEN_BRACKET]
  && is_some (find_unquoted_char content COLON 0).

Definition is_object_first_field_after_hyphen (content : str) : bool :=
  is_some (find_unquoted_char content COLON 0).

(** ** tone/decode/scanner.py *)

Record ParsedLine : Type := {
  raw : str;
  indent : nat;
  content : str;
  depth : nat;
  line_number : nat
}.

Record BlankLineInfo : Type := {
  bl_line_number : nat;
  bl_indent : nat;
  bl_depth : nat
}.

Record ScanResult : Type := {
  lines : list ParsedLine;
  blank_lines : list BlankLineInfo
}.

Record LineCursor : Type := {
  c_lines : list ParsedLine;
  c_index : nat;
  c_blank_lines : list BlankLineInfo
}.

Definition new_cursor (ls : list ParsedLine) (bs : list BlankLineInfo) : LineCursor :=
  {| c_lines := ls; c_index := 0; c_blank_lines := bs |}.

Definition peek (c : LineCursor) : option ParsedLine := nth_error (c_lines c) (c_index c).

Definition advance (c : LineCursor) : LineCursor :=
  if (c_index c <? length (c_lines c))%nat
  then {| c_lines := c_lines c; c_index := c_index c + 1; c_blank_lines := c_blank_lines c |}
  else c.

(** [cursor.next()] *)
Definition next (c : LineCursor) : option ParsedLine * LineCursor := (peek c, advance c).

Definition at_end (c : LineCursor) : bool := (length (c_lines c) <=? c_index c)%nat.

Definition cursor_length (c : LineCursor) : nat := length (c_lines c).

Definition get_blank_lines (c : LineCursor) : list BlankLineInfo := c_blank_lines c.

Definition current (c : LineCursor) : option ParsedLine :=
  if (0 <? c_index c)%nat then nth_error (c_lines c) (c_index c - 1) else None.

(** [math.floor(indent_spaces / indent_size)]: the quotient goes through a
    binary64, which is exact for every indentation below 2^53 spaces. *)
Definition _compute_depth_from_indent (indent_spaces indent_size : nat) : result nat :=
  if (indent_size =? 0)%nat then Err ZeroDivision
  else Ok (indent_spaces / indent_size).

Fixpoint count_leading (p : ascii -> bool) (s : str) : nat :=
  match s with
  | c :: r => if p c then S (count_leading p r) else 0
  | [] => 0
  end.

(** The body of the [for] loop of [to_parsed_lines], line by line. *)
Fixpoint scan_lines (ls : list str) (line_number : nat) (indent_size : nat) (strict : bool)
  : result (list ParsedLine * list BlankLineInfo) :=
  match ls with
  | [] => Ok ([], [])
  | raw :: rest =>
      let indent := count_leading (fun c => ceq c SPACE) raw in
      let content := slice_from raw indent in
      if is_empty (strip content) then
        depth <- _compute_depth_from_indent indent indent_size ;;
        r <- scan_lines rest (line_number + 1) indent_size strict ;;
        Ok (fst r,
            {| bl_line_number := line_number; bl_indent := indent; bl_depth := depth |}
            :: snd r)
      else
        depth <- _compute_depth_from_indent indent indent_size ;;
        let ws_end := count_leading (fun c => ceq c SPACE || ceq c TAB) raw in
        if strict && contains TAB (slice raw 0 ws_end) then
          Err (TabInIndentation line_number)
        else if strict && (0 <? indent)%nat && negb (indent mod indent_size =? 0)%nat then
          Err (IndentationNotMultiple line_number)
        else
          r <- scan_lines rest (line_number + 1) indent_size strict ;;
          Ok ({| raw := raw; indent := indent; content := content; depth := depth;
                 line_number := line_number |} :: fst r,
              snd r)
  end.

Definition to_parsed_lines (source : str) (indent_size : nat) (strict : bool)
  : result ScanResult :=
  if is_empty (strip source) then Ok {| lines := []; blank_lines := [] |}
  else
    r <- scan_lines (split NEWLINE source) 1 indent_size strict ;;
    Ok {| lines := fst r; blank_lines := snd r |}.

(** ** tone/decode/validation.py

    The module is imported by the decoder and is not among the sources;
    its four functions follow the specification. *)

Record ResolvedDecodeOptions : Type := {
  d_indent : nat;
  d_strict : bool
}.

Inductive CountedItem : Type :=
| InlineArrayItems | ListArrayItems | TabularRowValues | TabularRows.

(** Modelled from the spec: [assert_expected_count] of tone/decode/validation.py
    is missing.  "assert count equals N", "assert column count equals |fields|",
    "the observed count must equal N"; the error kinds LengthMismatch and
    RowWidthMismatch are listed without the strict-mode mark. *)
Definition assert_expected_count (actual : nat) (expected : Z) (item_type : CountedItem)
  (options : ResolvedDecodeOptions) : result unit :=
  if (Z.of_nat actual =? expected)%Z then Ok tt
  else match item_type with
       | TabularRowValues => Err RowWidthMismatch
       | _ => Err LengthMismatch
       end.

(** Modelled from the spec: [validate_no_blank_lines_in_range] of
    tone/decode/validation.py is missing.  "in strict mode ... no blank line may
    appear between the first and last row/item line". *)
Definition validate_no_blank_lines_in_range (start_line end_line : nat)
  (blanks : list BlankLineInfo) (strict : bool) : result unit :=
  if strict && existsb (fun b => (start_line <? bl_line_number b)%nat
                                 && (bl_line_number b <? end_line)%nat) blanks
  then Err BlankLineInsideArray else Ok tt.

(** Modelled from the spec: [validate_no_extra_list_items] of
    tone/decode/validation.py is missing.  "in strict mode, no additional
    rows/items may follow at the same depth"; an item is a line at the item
    depth that starts with the list prefix, as in [decode_list_array]. *)
Definition validate_no_extra_list_items (cursor : LineCursor) (item_depth : nat)
  (expected_count : Z) : result unit :=
  match peek cursor with
  | Some line =>
      if (depth line =? item_depth)%nat && startswith (content line) LIST_ITEM_PREFIX
      then Err ExtraItemsAfterDeclaredLength else Ok tt
  | None => Ok tt
  end.

(** Modelled from the spec: [validate_no_extra_tabular_rows] of
    tone/decode/validation.py is missing.  "in strict mode, no additional
    rows/items may follow at the same depth"; a row is a line at the row depth,
    as in [decode_tabular_array]. *)
Definition validate_no_extra_tabular_rows (cursor : LineCursor) (row_depth : nat)
  (header : ArrayHeaderInfo) : result unit :=
  match peek cursor with
  | Some line =>
      if (depth line =? row_depth)%nat then Err ExtraRowsAfterDeclaredLength else Ok tt
  | None => Ok tt
  end.

(** ** tone/decode/decoders.py *)

(** [obj[key] = value] on an insertion-ordered dict. *)
Fixpoint dict_set {V} (d : list (str * V)) (k : str) (v : V) : list (str * V) :=
  match d with
  | [] => [(k, v)]
  | (k', v') :: r => if seq_eqb k' k then (k', v) :: r else (k', v') :: dict_set r k v
  end.

Fixpoint dict_get {V} (d : list (str * V)) (k : str) : option V :=
  match d with
  | [] => None
  | (k', v') :: r => if seq_eqb k' k then Some v' else dict_get r k
  end.

Definition is_key_value_line (line : ParsedLine) : bool :=
  let content := content line in
  if startswith content [DOUBLE_QUOTE] then
    match find_closing_quote content 0 with
    | None => false
    | Some closing_quote_index =>
        match nth_error content (closing_quote_index + 1) with
        | Some c => ceq c COLON
        | None => false
        end
    end
  else contains COLON content.

Definition decode_inline_primitive_array (header : ArrayHeaderInfo) (inline_values : str)
  (options : ResolvedDecodeOptions) : result (list JsonPrimitive) :=
  if is_empty (strip inline_values) then
    _ <- assert_expected_count 0 (h_length header) InlineArrayItems options ;;
    Ok []
  else
    let values := parse_delimited_values inline_values (h_delimiter header) in
    primitives <- map_row_values_to_primitives values ;;
    _ <- assert_expected_count (length primitives) (h_length header) InlineArrayItems options ;;
    Ok primitives.

(** [for i in range(len(fields)): obj[fields[i]] = primitives[i]] *)
Fixpoint assemble_row (fields : list str) (primitives : list JsonPrimitive)
  (obj : list (str * JsonValue)) : result (list (str * JsonValue)) :=
  match fields with
  | [] => Ok obj
  | f :: fs =>
      match primitives with
      | p :: ps => assemble_row fs ps (dict_set obj f (JPrim p))
      | [] => Err IndexOutOfRange
      end
  end.

Definition header_fields (header : ArrayHeaderInfo) : list str :=
  match h_fields header with Some fs => fs | None => [] end.

(** The [while] loop of [decode_tabular_array]; [remaining] is the lines from
    the cursor on, and the result carries how many of them were consumed. *)
Fixpoint tabular_rows_loop (remaining : list ParsedLine) (header : ArrayHeaderInfo)
  (row_depth : nat) (options : ResolvedDecodeOptions)
  (objects : list JsonValue) (start_line end_line : option nat) (consumed : nat)
  : result (list JsonValue * option nat * option nat * nat) :=
  match remaining with
  | [] => Ok (objects, start_line, end_line, consumed)
  | line :: rest =>
      if negb (Z.of_nat (length objects) <? h_length header)%Z then
        Ok (objects, start_line, end_line, consumed)
      else if (depth line <? row_depth)%nat then
        Ok (objects, start_line, end_line, consumed)
      else if (depth line =? row_depth)%nat then
        let start_line := match start_line with
                          | None => Some (line_number line)
                          | Some s => Some s
                          end in
        let end_line := Some (line_number line) in
        let values := parse_delimited_values (content line) (h_delimiter header) in
        _ <- assert_expected_count (length values) (Z.of_nat (length (header_fields header)))
               TabularRowValues options ;;
        primitives <- map_row_values_to_primitives values ;;
        obj <- assemble_row (header_fields header) primitives [] ;;
        tabular_rows_loop rest header row_depth options (objects ++ [JObject obj])
          start_line end_line (consumed + 1)
      else Ok (objects, start_line, end_line, consumed)
  end.

Definition set_index (c : LineCursor) (i : nat) : LineCursor :=
  {| c_lines := c_lines c; c_index := i; c_blank_lines := c_blank_lines c |}.

Definition decode_tabular_array (header : ArrayHeaderInfo) (cursor : LineCursor)
  (base_depth : nat) (options : ResolvedDecodeOptions)
  : result (list JsonValue * LineCursor) :=
  let row_depth := base_depth + 1 in
  r <- tabular_rows_loop (skipn (c_index cursor) (c_lines cursor)) header row_depth options
         [] None None 0 ;;
  let '(objects, start_line, end_line, consumed) := r in
  let cursor := set_index cursor (c_index cursor + consumed) in
  _ <- assert_expected_count (length objects) (h_length header) TabularRows options ;;
  _ <- match start_line, end_line with
       | Some s, Some e =>
           if d_strict options
           then validate_no_blank_lines_in_range s e (get_blank_lines cursor) (d_strict options)
           else Ok tt
       | _, _ => Ok tt
       end ;;
  _ <- (if d_strict options
        then validate_no_extra_tabular_rows cursor row_depth header else Ok tt) ;;
  Ok (objects, cursor).

Record KeyValue : Type := {
  kv_key : str;
  kv_value : JsonValue;
  kv_followDepth : nat
}.

Definition has_fields (header : ArrayHeaderInfo) : bool :=
  match h_fields header with
  | Some (_ :: _) => true
  | _ => false
  end.

(** The mutually recursive decoders.  Python recurses without a bound; here
    every call takes one unit of [fuel] and an exhausted bound is the result
    [Err OutOfFuel]. *)
Fixpoint decode_object_loop (fuel : nat) (cursor : LineCursor) (base_depth : nat)
  (options : ResolvedDecodeOptions) (obj : list (str * JsonValue))
  : result (list (str * JsonValue) * LineCursor) :=
  match fuel with
  | O => Err OutOfFuel
  | S fuel =>
      match peek cursor with
      | None => Ok (obj, cursor)
      | Some line =>
          if (depth line <? base_depth)%nat then Ok (obj, cursor)
          else if (depth line =? base_depth)%nat then
            (* decode_key_value_pair *)
            r <- decode_key_value fuel (content line) (advance cursor) base_depth options ;;
            decode_object_loop fuel (snd r) base_depth options
              (dict_set obj (kv_key (fst r)) (kv_value (fst r)))
          else Ok (obj, cursor)
      end
  end

with decode_key_value (fuel : nat) (content : str) (cursor : LineCursor) (base_depth : nat)
  (options : ResolvedDecodeOptions) : result (KeyValue * LineCursor) :=
  match fuel with
  | O => Err OutOfFuel
  | S fuel =>
      array_header <- parse_array_header_line content DEFAULT_DELIMITER ;;
      let regular (_ : unit) :=
        ke <- parse_key_token content 0 ;;
        let '(key, end_) := ke in
        let rest := strip (slice_from content end_) in
        if is_empty rest then
          match peek cursor with
          | Some next_line =>
              if (base_depth <? depth next_line)%nat then
                r <- decode_object_loop fuel cursor (base_depth + 1) options [] ;;
                Ok ({| kv_key := key; kv_value := JObject (fst r);
                       kv_followDepth := base_depth + 1 |}, snd r)
              else
                Ok ({| kv_key := key; kv_value := JObject [];
                       kv_followDepth := base_depth + 1 |}, cursor)
          | None =>
              Ok ({| kv_key := key; kv_value := JObject [];
                     kv_followDepth := base_depth + 1 |}, cursor)
          end
        else
          value <- parse_primitive_token rest ;;
          Ok ({| kv_key := key; kv_value := JPrim value;
                 kv_followDepth := base_depth + 1 |}, cursor) in
      match array_header with
      | Some (header, inline_values) =>
          match h_key header with
          | Some k =>
              if is_empty k then regular tt
              else
                r <- decode_array_from_header fuel header inline_values cursor base_depth
                       options ;;
                Ok ({| kv_key := k; kv_value := JArray (fst r);
                       kv_followDepth := base_depth + 1 |}, snd r)
          | None => regular tt
          end
      | None => regular tt
      end
  end

with decode_array_from_header (fuel : nat) (header : ArrayHeaderInfo)
  (inline_values : option str) (cursor : LineCursor) (base_depth : nat)
  (options : ResolvedDecodeOptions) : result (list JsonValue * LineCursor) :=
  match fuel with
  | O => Err OutOfFuel
  | S fuel =>
      let multiline (_ : unit) :=
        if has_fields header then decode_tabular_array header cursor base_depth options
        else
          (* decode_list_array *)
          let item_depth := base_depth + 1 in
          r <- decode_list_array_loop fuel header cursor item_depth options [] None None ;;
          let '(items, start_line, end_line, cursor) := r in
          _ <- assert_expected_count (length items) (h_length header) ListArrayItems options ;;
          _ <- match start_line, end_line with
               | Some s, Some e =>
                   if d_strict options
                   then validate_no_blank_lines_in_range s e (get_blank_lines cursor)
                          (d_strict options)
                   else Ok tt
               | _, _ => Ok tt
               end ;;
          _ <- (if d_strict options
                then validate_no_extra_list_items cursor item_depth (h_length header)
                else Ok tt) ;;
          Ok (items, cursor) in
      match inline_values with
      | Some iv =>
          if is_empty iv then multiline tt
          else
            ps <- decode_inline_primitive_array header iv options ;;
            Ok (map JPrim ps, cursor)
      | None => multiline tt
      end
  end

with decode_list_array_loop (fuel : nat) (header : ArrayHeaderInfo) (cursor : LineCursor)
  (item_depth : nat) (options : ResolvedDecodeOptions) (items : list JsonValue)
  (start_line end_line : option nat)
  : result (list JsonValue * option nat * option nat * LineCursor) :=
  match fuel with
  | O => Err OutOfFuel
  | S fuel =>
      if at_end cursor || negb (Z.of_nat (length items) <? h_length header)%Z then
        Ok (items, start_line, end_line, cursor)
      else
        match peek cursor with
        | None => Ok (items, start_line, end_line, cursor)
        | Some line =>
            if (depth line <? item_depth)%nat then Ok (items, start_line, end_line, cursor)
            else if (depth line =? item_depth)%nat
                    && startswith (content line) LIST_ITEM_PREFIX then
              let start_line := match start_line with
                                | None => Some (line_number line)
                                | Some s => Some s
                                end in
              let end_line := Some (line_number line) in
              r <- decode_list_item fuel cursor item_depth (h_delimiter header) options ;;
              let '(item, cursor) := r in
              let end_line := match current cursor with
                              | Some current_line => Some (line_number current_line)
                              | None => end_line
                              end in
              decode_list_array_loop fuel header cursor item_depth options (items ++ [item])
                start_line end_line
            else Ok (items, start_line, end_line, cursor)
        end
  end

with decode_list_item (fuel : nat) (cursor : LineCursor) (base_depth : nat)
  (active_delimiter : ascii) (options : ResolvedDecodeOptions)
  : result (JsonValue * LineCursor) :=
  match fuel with
  | O => Err OutOfFuel
  | S fuel =>
      match next cursor with
      | (None, _) => Err ExpectedListItem
      | (Some line, cursor) =>
          let after_hyphen := slice_from (content line) (length LIST_ITEM_PREFIX) in
          let other (_ : unit) :=
            if is_object_first_field_after_hyphen after_hyphen then
              (* decode_object_from_list_item *)
              r <- decode_key_value fuel after_hyphen cursor base_depth options ;;
              let '(kv, cursor) := r in
              r' <- decode_object_from_list_item_loop fuel cursor (kv_followDepth kv) options
                      [(kv_key kv, kv_value kv)] ;;
              Ok (JObject (fst r'), snd r')
            else
              p <- parse_primitive_token after_hyphen ;;
              Ok (JPrim p, cursor) in
          if is_array_header_after_hyphen after_hyphen then
            array_header <- parse_array_header_line after_hyphen DEFAULT_DELIMITER ;;
            match array_header with
            | Some (header, inline_values) =>
                r <- decode_array_from_header fuel header inline_values cursor base_depth
                       options ;;
                Ok (JArray (fst r), snd r)
            | None => other tt
            end
          else other tt
      end
  end

with decode_object_from_list_item_loop (fuel : nat) (cursor : LineCursor)
  (follow_depth : nat) (options : ResolvedDecodeOptions) (obj : list (str * JsonValue))
  : result (list (str * JsonValue) * LineCursor) :=
  match fuel with
  | O => Err OutOfFuel
  | S fuel =>
      match peek cursor with
      | None => Ok (obj, cursor)
      | Some line =>
          if (depth line <? follow_depth)%nat then Ok (obj, cursor)
          else if (depth line =? follow_depth)%nat
                  && negb (startswith (content line) LIST_ITEM_PREFIX) then
            r <- decode_key_value fuel (content line) (advance cursor) follow_depth options ;;
            decode_object_from_list_item_loop fuel (snd r) follow_depth options
              (dict_set obj (kv_key (fst r)) (kv_value (fst r)))
          else Ok (obj, cursor)
      end
  end.

Definition decode_object (fuel : nat) (cursor : LineCursor) (base_depth : nat)
  (options : ResolvedDecodeOptions) : result (list (str * JsonValue) * LineCursor) :=
  decode_object_loop fuel cursor base_depth options [].

Definition decode_value_from_lines (fuel : nat) (cursor : LineCursor)
  (options : ResolvedDecodeOptions) : result JsonValue :=
  match peek cursor with
  | None => Err NoContent
  | Some first =>
      let rest (_ : unit) :=
        if (cursor_length cursor =? 1)%nat && negb (is_key_value_line first) then
          p <- parse_primitive_token (strip (content first)) ;; Ok (JPrim p)
        else
          r <- decode_object fuel cursor 0 options ;; Ok (JObject (fst r)) in
      if is_array_header_after_hyphen (content first) then
        header_info <- parse_array_header_line (content first) DEFAULT_DELIMITER ;;
        match header_info with
        | Some (header, inline_values) =>
            r <- decode_array_from_header fuel header inline_values (advance cursor) 0
                   options ;;
            Ok (JArray (fst r))
        | None => rest tt
        end
      else rest tt
  end.

(** ** tone/_core.py: decode *)

Record DecodeOptions : Type := {
  o_indent : option nat;
  o_strict : option bool
}.

Definition _resolve_decode_options (options : option DecodeOptions) : ResolvedDecodeOptions :=
  {| d_indent := match options with
                 | Some o => match o_indent o with Some i => i | None => 2 end
                 | None => 2
                 end;
     d_strict := match options with
                 | Some o => match o_strict o with Some s => s | None => true end
                 | None => true
                 end |}.

Definition decode_with (fuel : nat) (input_str : str) (options : option DecodeOptions)
  : result JsonValue :=
  let resolved_options := _resolve_decode_options options in
  scan_result <- to_parsed_lines input_str (d_indent resolved_options)
                   (d_strict resolved_options) ;;
  if (length (lines scan_result) =? 0)%nat then Err EmptyInput
  else
    let cursor := new_cursor (lines scan_result) (blank_lines scan_result) in
    decode_value_from_lines fuel cursor resolved_options.

(** The recursion bound [decode] runs with, eight calls for every character of
    the input: a decoder call consumes a line or descends one of the six call
    levels between two consumed lines. *)
Definition decode_fuel (input_str : str) : nat := 8 * (length input_str + 2).

Definition decode (input_str : str) (options : option DecodeOptions) : result JsonValue :=
  decode_with (decode_fuel input_str) input_str options.

(** ** tone/encode/normalize.py *)

(** Hashable host values that occur as dict keys. *)
Inductive PyKey : Type :=
| KStr (s : str)
| KInt (n : Z)
| KFloat (f : PyFloat)
| KBool (b : bool)
| KNone
| KOther.          (* tuples, frozensets, bytes, ... *)

(** Host values handed to [encode].  A dict is the list of its items in
    insertion order, with a flag telling a plain [dict] from a subclass; a set
    is the list of its elements in iteration order; a datetime carries what
    its [isoformat()] returns. *)
#[warnings="-register-all"]
Inductive PyValue : Type :=
| VNone
| VBool (b : bool)
| VInt (n : Z)
| VFloat (f : PyFloat)
| VStr (s : str)
| VDatetime (isoformat : str)
| VList (items : list PyValue)
| VSet (items : list PyValue)
| VDict (plain : bool) (items : list (PyKey * PyValue))
| VOther.          (* functions, classes, any other object *)

Definition _is_valid_dict_key (key : PyKey) : bool :=
  match key with
  | KStr _ | KInt _ | KFloat _ | KBool _ => true
  | KNone | KOther => false
  end.

(** [str(key)] *)
Definition str_key (key : PyKey) : str :=
  match key with
  | KStr s => s
  | KInt n => str_int n
  | KFloat f => str_float f
  | KBool b => if b then lit "True" else lit "False"
  | KNone => lit "None"
  | KOther => lit "<object>"
  end.

(** [math.isfinite(n)] converts the int to a float first, which raises
    OverflowError from the overflow threshold on. *)
Definition int_isfinite (n : Z) : result bool :=
  if (FLOAT_OVERFLOW <=? Z.abs n)%Z then Err Overflow else Ok true.

Fixpoint normalize_value (value : PyValue) : result JsonValue :=
  match value with
  | VNone => Ok (JPrim PNull)
  | VStr s => Ok (JPrim (PStr s))
  | VBool b => Ok (JPrim (PBool b))
  | VInt n =>
      if (n =? 0)%Z then Ok (JPrim (PInt n))
      else
        finite <- int_isfinite n ;;
        if negb finite then Ok (JPrim PNull) else Ok (JPrim (PInt n))
  | VFloat f =>
      match f with
      | FFinite neg m _ =>
          if (m =? 0)%N && neg then Ok (JPrim (PInt 0))
          else Ok (JPrim (PFloat f))
      | _ => Ok (JPrim PNull)
      end
  | VDatetime iso => Ok (JPrim (PStr iso))
  | VList items =>
      r <- map_result normalize_value items ;; Ok (JArray r)
  | VSet items =>
      r <- map_result normalize_value items ;; Ok (JArray r)
  | VDict plain items =>
      if plain then
        (fix each (l : list (PyKey * PyValue)) (result_ : list (str * JsonValue))
           : result JsonValue :=
           match l with
           | [] => Ok (JObject result_)
           | (key, v) :: rest =>
               if _is_valid_dict_key key then
                 nv <- normalize_value v ;;
                 each rest (dict_set result_ (str_key key) nv)
               else each rest result_
           end) items []
      else Ok (JPrim PNull)
  | VOther => Ok (JPrim PNull)
  end.

Definition is_json_primitive (value : JsonValue) : bool :=
  match value with JPrim _ => true | _ => false end.

Definition is_json_array (value : JsonValue) : bool :=
  match value with JArray _ => true | _ => false end.

Definition is_json_object (value : JsonValue) : bool :=
  match value with JObject _ => true | _ => false end.

Definition is_array_of_primitives (value : list JsonValue) : bool :=
  forallb is_json_primitive value.

Definition is_array_of_arrays (value : list JsonValue) : bool :=
  forallb is_json_array value.

Definition is_array_of_objects (value : list JsonValue) : bool :=
  forallb is_json_object value.

(** ** tone/encode/writer.py *)

Record LineWriter : Type := {
  w_lines : list str;
  w_indentation_string : str
}.

Definition new_writer (indent_size : nat) : LineWriter :=
  {| w_lines := []; w_indentation_string := repeat SPACE indent_size |}.

Definition push (w : LineWriter) (depth : nat) (content : str) : LineWriter :=
  let indent := concat (repeat (w_indentation_string w) depth) in
  {| w_lines := w_lines w ++ [indent ++ content];
     w_indentation_string := w_indentation_string w |}.

Definition push_list_item (w : LineWriter) (depth : nat) (content : str) : LineWriter :=
  push w depth (LIST_ITEM_PREFIX ++ content).

Definition to_string (w : LineWriter) : str := join [NEWLINE] (w_lines w).

(** ** tone/encode/encoders.py *)

Record ResolvedEncodeOptions : Type := {
  e_indent : nat;
  e_delimiter : ascii;
  e_length_marker : option str
}.

(** The elements of an array already known to hold primitives only. *)
Definition primitives_of (values : list JsonValue) : list JsonPrimitive :=
  flat_map (fun v => match v with JPrim p => [p] | _ => [] end) values.

Definition encode_inline_array_line (values : list JsonValue) (delimiter : ascii)
  (prefix : option str) (length_marker : option str) : str :=
  let header := format_header (length values) prefix None delimiter length_marker in
  let joined_value := encode_and_join_primitives (primitives_of values) delimiter in
  if (length values =? 0)%nat then header
  else header ++ [SPACE] ++ joined_value.

Definition dict_keys {V} (d : list (str * V)) : list str := map fst d.

Definition is_tabular_array (rows : list JsonValue) (header : list str) : bool :=
  forallb (fun row =>
    match row with
    | JObject d =>
        (length (dict_keys d) =? length header)%nat
        && forallb (fun key => match dict_get d key with
                               | Some v => is_json_primitive v
                               | None => false
                               end) header
    | _ => false
    end) rows.

Definition extract_tabular_header (rows : list JsonValue) : option (list str) :=
  match rows with
  | [] => None
  | first_row :: _ =>
      match first_row with
      | JObject d =>
          let first_keys := dict_keys d in
          if (length first_keys =? 0)%nat then None
          else if is_tabular_array rows first_keys then Some first_keys
          else None
      | _ => None
      end
  end.

(** [[row[key] for key in header]] for a row that passed [is_tabular_array]. *)
Definition row_values (d : list (str * JsonValue)) (header : list str) : list JsonPrimitive :=
  flat_map (fun key => match dict_get d key with
                       | Some (JPrim p) => [p]
                       | _ => []
                       end) header.

Definition write_tabular_rows (rows : list JsonValue) (header : list str)
  (writer : LineWriter) (depth : nat) (options : ResolvedEncodeOptions) : LineWriter :=
  fold_left (fun w row =>
    match row with
    | JObject d =>
        push w depth (encode_and_join_primitives (row_values d header) (e_delimiter options))
    | _ => w
    end) rows writer.

Definition encode_array_of_objects_as_tabular (prefix : option str) (rows : list JsonValue)
  (header : list str) (writer : LineWriter) (depth : nat) (options : ResolvedEncodeOptions)
  : LineWriter :=
  let formatted_header :=
    format_header (length rows) prefix (Some header) (e_delimiter options)
      (e_length_marker options) in
  write_tabular_rows rows header (push writer depth formatted_header) (depth + 1) options.

Definition encode_array_of_arrays_as_list_items (prefix : option str)
  (values : list JsonValue) (writer : LineWriter) (depth : nat)
  (options : ResolvedEncodeOptions) : LineWriter :=
  let header := format_header (length values) prefix None (e_delimiter options)
                  (e_length_marker options) in
  fold_left (fun w arr =>
    match arr with
    | JArray a =>
        if is_array_of_primitives a then
          push_list_item w (depth + 1)
            (encode_inline_array_line a (e_delimiter options) None (e_length_marker options))
        else w
    | _ => w
    end) values (push writer depth header).

Definition all_primitive_arrays (value : list JsonValue) : bool :=
  forallb (fun arr => match arr with
                      | JArray a => is_array_of_primitives a
                      | _ => false
                      end) value.

Section EncoderBodies.

(** The bodies of the emitters, over the two functions they call back into:
    [encode_key_value_pair] and [encode_list_item_value]. *)
Variable options : ResolvedEncodeOptions.
Variable encode_key_value_pair_rec : str -> JsonValue -> LineWriter -> nat -> LineWriter.
Variable encode_list_item_value_rec : JsonValue -> LineWriter -> nat -> LineWriter.

Definition encode_object_with (value : list (str * JsonValue)) (writer : LineWriter)
  (depth : nat) : LineWriter :=
  fold_left (fun w kv => encode_key_value_pair_rec (fst kv) (snd kv) w depth) value writer.

Definition encode_mixed_array_as_list_items_with (prefix : option str)
  (items : list JsonValue) (writer : LineWriter) (depth : nat) : LineWriter :=
  let header := format_header (length items) prefix None (e_delimiter options)
                  (e_length_marker options) in
  fold_left (fun w item => encode_list_item_value_rec item w (depth + 1))
    items (push writer depth header).

Definition encode_array_with (key : option str) (value : list JsonValue)
  (writer : LineWriter) (depth : nat) : LineWriter :=
  if (length value =? 0)%nat then
    push writer depth
      (format_header 0 key None (e_delimiter options) (e_length_marker options))
  else if is_array_of_primitives value then
    push writer depth
      (encode_inline_array_line value (e_delimiter options) key (e_length_marker options))
  else if is_array_of_arrays value && all_primitive_arrays value then
    encode_array_of_arrays_as_list_items key value writer depth options
  else if is_array_of_objects value then
    match extract_tabular_header value with
    | Some header => encode_array_of_objects_as_tabular key value header writer depth options
    | None => encode_mixed_array_as_list_items_with key value writer depth
    end
  else encode_mixed_array_as_list_items_with key value writer depth.

(** [encode_object_as_list_item].  Where the source calls itself on the items of
    an array of objects, the body calls [encode_list_item_value], which on an
    object is that same call. *)
Definition encode_object_as_list_item_with (obj : list (str * JsonValue))
  (writer : LineWriter) (depth : nat) : LineWriter :=
  match obj with
  | [] => push writer depth LIST_ITEM_MARKER
  | (first_key, first_value) :: remaining =>
      let encoded_key := encode_key first_key in
      let writer :=
        match first_value with
        | JPrim p =>
            push_list_item writer depth
              (encoded_key ++ [COLON; SPACE] ++ encode_primitive p (e_delimiter options))
        | JArray a =>
            if is_array_of_primitives a then
              push_list_item writer depth
                (encode_inline_array_line a (e_delimiter options) (Some first_key)
                   (e_length_marker options))
            else if is_array_of_objects a then
              match extract_tabular_header a with
              | Some header =>
                  write_tabular_rows a header
                    (push_list_item writer depth
                       (format_header (length a) (Some first_key) (Some header)
                          (e_delimiter options) (e_length_marker options)))
                    (depth + 1) options
              | None =>
                  fold_left (fun w item => encode_list_item_value_rec item w (depth + 1))
                    a (push_list_item writer depth
                         (encoded_key ++ [OPEN_BRACKET] ++ str_int (Z.of_nat (length a))
                          ++ [CLOSE_BRACKET; COLON]))
              end
            else
              fold_left (fun w item => encode_list_item_value_rec item w (depth + 1))
                a (push_list_item writer depth
                     (encoded_key ++ [OPEN_BRACKET] ++ str_int (Z.of_nat (length a))
                      ++ [CLOSE_BRACKET; COLON]))
        | JObject d =>
            (* nothing more to emit for an empty dict *)
            encode_object_with d (push_list_item writer depth (encoded_key ++ [COLON]))
              (depth + 2)
        end in
      fold_left (fun w kv => encode_key_value_pair_rec (fst kv) (snd kv) w (depth + 1))
        remaining writer
  end.

End EncoderBodies.

Fixpoint encode_key_value_pair (options : ResolvedEncodeOptions) (key : str)
  (value : JsonValue) (writer : LineWriter) (depth : nat) {struct value} : LineWriter :=
  let encoded_key := encode_key key in
  match value with
  | JPrim p =>
      push writer depth
        (encoded_key ++ [COLON; SPACE] ++ encode_primitive p (e_delimiter options))
  | JArray a =>
      encode_array_with options (encode_list_item_value options) (Some key) a writer depth
  | JObject d =>
      (* nothing more to emit for an empty dict *)
      encode_object_with (encode_key_value_pair options) d
        (push writer depth (encoded_key ++ [COLON])) (depth + 1)
  end

with encode_list_item_value (options : ResolvedEncodeOptions) (value : JsonValue)
  (writer : LineWriter) (depth : nat) {struct value} : LineWriter :=
  match value with
  | JPrim p => push_list_item writer depth (encode_primitive p (e_delimiter options))
  | JArray a =>
      if is_array_of_primitives a then
        push_list_item writer depth
          (encode_inline_array_line a (e_delimiter options) None (e_length_marker options))
      else writer
  | JObject d =>
      encode_object_as_list_item_with options (encode_key_value_pair options)
        (encode_list_item_value options) d writer depth
  end.

Definition encode_object (options : ResolvedEncodeOptions) (value : list (str * JsonValue))
  (writer : LineWriter) (depth : nat) : LineWriter :=
  encode_object_with (encode_key_value_pair options) value writer depth.

Definition encode_array (options : ResolvedEncodeOptions) (key : option str)
  (value : list JsonValue) (writer : LineWriter) (depth : nat) : LineWriter :=
  encode_array_with options (encode_list_item_value options) key value writer depth.

Definition encode_object_as_list_item (options : ResolvedEncodeOptions)
  (obj : list (str * JsonValue)) (writer : LineWriter) (depth : nat) : LineWriter :=
  encode_object_as_list_item_with options (encode_key_value_pair options)
    (encode_list_item_value options) obj writer depth.

Definition encode_value (value : JsonValue) (options : ResolvedEncodeOptions) : str :=
  match value with
  | JPrim p => encode_primitive p (e_delimiter options)
  | JArray a => to_string (encode_array options None a (new_writer (e_indent options)) 0)
  | JObject d => to_string (encode_object options d (new_writer (e_indent options)) 0)
  end.

(** ** tone/_core.py: encode *)

Record EncodeOptions : Type := {
  eo_indent : option nat;
  eo_delimiter : option ascii;
  eo_length_marker : option str
}.

Definition _resolve_encode_options (options : option EncodeOptions) : ResolvedEncodeOptions :=
  {| e_indent := match options with
                 | Some o => match eo_indent o with Some i => i | None => 2 end
                 | None => 2
                 end;
     e_delimiter := match options with
                    | Some o => match eo_delimiter o with
                                | Some d => d
                                | None => DEFAULT_DELIMITER
                                end
                    | None => DEFAULT_DELIMITER
                    end;
     e_length_marker := match options with
                        | Some o => eo_length_marker o
                        | None => None
                        end |}.

Definition encode (value : PyValue) (options : option EncodeOptions) : result str :=
  normalized_value <- normalize_value value ;;
  let resolved_options := _resolve_encode_options options in
  Ok (encode_value normalized_value resolved_options).

(** The options the specification calls valid: a positive indent and one of
    the three delimiters. *)
Definition valid_delimiter (d : ascii) : Prop := d = COMMA \/ d = TAB \/ d = PIPE.

Definition valid_encode_options (options : option EncodeOptions) : Prop :=
  0 < e_indent (_resolve_encode_options options)
  /\ valid_delimiter (e_delimiter (_resolve_encode_options options)).

(** * Properties *)

(** ** Basic facts about the host string primitives *)

Lemma seq_eqb_true a b : seq_eqb a b = true <-> a = b.
Proof. unfold seq_eqb. destruct (list_eq_dec ascii_dec a b); split; congruence. Qed.

Lemma seq_eqb_false a b : seq_eqb a b = false <-> a <> b.
Proof. unfold seq_eqb. destruct (list_eq_dec ascii_dec a b); split; congruence. Qed.

Lemma seq_eqb_refl a : seq_eqb a a = true.
Proof. now apply seq_eqb_true. Qed.

Lemma ceq_true a b : ceq a b = true <-> a = b.
Proof. apply Ascii.eqb_eq. Qed.

Lemma ceq_false a b : ceq a b = false <-> a <> b.
Proof. apply Ascii.eqb_neq. Qed.

Lemma is_empty_true s : is_empty s = true <-> s = [].
Proof. destruct s; simpl; split; congruence. Qed.

Lemma is_empty_false s : is_empty s = false <-> s <> [].
Proof. destruct s; simpl; split; congruence. Qed.

Lemma lstrip_length s : length (lstrip s) <= length s.
Proof.
  induction s as [|c s IH]; simpl; [lia|].
  destruct (isspace c); simpl; lia.
Qed.

Definition head_not_space (s : str) : Prop :=
  match s with
  | [] => True
  | c :: _ => isspace c = false
  end.

Lemma lstrip_fixed s : lstrip s = s <-> head_not_space s.
Proof.
  destruct s as [|c s]; simpl; [tauto|].
  destruct (isspace c) eqn:E; split; intro H; try congruence.
  pose proof (lstrip_length s) as L. rewrite H in L. simpl in L. lia.
Qed.

Lemma rstrip_length s : length (rstrip s) <= length s.
Proof.
  unfold rstrip. rewrite length_rev.
  pose proof (lstrip_length (rev s)) as L. now rewrite length_rev in L.
Qed.

Lemma rstrip_fixed s : rstrip s = s <-> head_not_space (rev s).
Proof.
  unfold rstrip. rewrite <- lstrip_fixed. split; intro H.
  - rewrite <- H at 2. now rewrite rev_involutive.
  - rewrite H. apply rev_involutive.
Qed.

Lemma lstrip_suffix s : exists p, s = p ++ lstrip s.
Proof.
  induction s as [|c s [p IH]]; simpl.
  - now exists [].
  - destruct (isspace c).
    + exists (c :: p). simpl. now f_equal.
    + now exists [].
Qed.

(** [strip] leaves a string alone exactly when it neither begins nor ends
    with whitespace. *)
Lemma strip_fixed s : strip s = s <-> head_not_space s /\ head_not_space (rev s).
Proof.
  unfold strip. split.
  - intro H.
    assert (L : lstrip s = s).
    { destruct (lstrip_suffix s) as [p Hp].
      pose proof (rstrip_length (lstrip s)) as L1.
      rewrite H in L1.
      assert (length p = 0).
      { apply (f_equal (@length ascii)) in Hp. rewrite length_app in Hp. lia. }
      destruct p; [|discriminate]. now rewrite Hp at 2. }
    rewrite L in H. split; [now apply lstrip_fixed | now apply rstrip_fixed].
  - intros [H1 H2]. apply lstrip_fixed in H1. rewrite H1. now apply rstrip_fixed.
Qed.

Lemma endswith_char_rev s c :
  endswith_char s c = true <-> exists r, rev s = c :: r.
Proof.
  unfold endswith_char. destruct (rev s) as [|l r]; split.
  - discriminate.
  - intros [? ?]. discriminate.
  - intro H. apply ceq_true in H. subst. eauto.
  - intros [r' E]. inversion E. subst. apply Ascii.eqb_refl.
Qed.

Lemma re_match_anchored_trimmed full s :
  head_not_space (rev s) -> re_match_anchored full s = full s.
Proof.
  intro H. unfold re_match_anchored.
  destruct (endswith_char s (chr 10)) eqn:E.
  - apply endswith_char_rev in E. destruct E as [r E]. rewrite E in H.
    simpl in H. discriminate.
  - simpl. apply orb_false_r.
Qed.

(** ** Quoting of string values *)

Section Quoting.

(** The characters that never stay outside quotes: colon, brackets, braces,
    double quote, backslash, newline, carriage return, tab and the active
    delimiter. *)
Definition forbidden_unquoted (delim : ascii) (c : ascii) : bool :=
  ceq c COLON || ceq c OPEN_BRACKET || ceq c CLOSE_BRACKET
  || ceq c OPEN_BRACE || ceq c CLOSE_BRACE
  || ceq c DOUBLE_QUOTE || ceq c BACKSLASH
  || ceq c NEWLINE || ceq c CARRIAGE_RETURN || ceq c TAB
  || ceq c delim.

(** A string matches [-?[0-9]+(\.[0-9]+)?([eE][+-]?[0-9]+)?] or [0[0-9]+]. *)
Definition numeric_like (s : str) : bool :=
  numeric_pattern s || leading_zero_pattern s.

(** The safe-unquoted condition as the specification words it. *)
Definition safe_unquoted (s : str) (delim : ascii) : Prop :=
  s <> []
  /\ head_not_space s /\ head_not_space (rev s)
  /\ is_boolean_or_null_literal s = false
  /\ numeric_like s = false
  /\ Forall (fun c => forbidden_unquoted delim c = false) s
  /\ startswith s (lit "-") = false.

Lemma contains_false c s : contains c s = false <-> Forall (fun x => ceq x c = false) s.
Proof.
  unfold contains, ceq. induction s as [|x s IH]; simpl.
  - split; auto.
  - rewrite orb_false_iff, IH. rewrite (Ascii.eqb_sym c x). split.
    + intros [? ?]. now constructor.
    + intro H. inversion H. auto.
Qed.

Lemma existsb_false_Forall {A} (p : A -> bool) l :
  existsb p l = false <-> Forall (fun x => p x = false) l.
Proof.
  induction l as [|x l IH]; simpl.
  - split; auto.
  - rewrite orb_false_iff, IH. split.
    + intros [? ?]. now constructor.
    + intro H. inversion H. auto.
Qed.

Lemma Forall_and_iff {A} (P Q : A -> Prop) l :
  Forall (fun x => P x /\ Q x) l <-> Forall P l /\ Forall Q l.
Proof.
  split.
  - intro H. split; eapply Forall_impl; try exact H; simpl; tauto.
  - intros [H1 H2]. induction l; constructor; inversion H1; inversion H2; auto.
Qed.

Lemma Forall_equiv {A} (P Q : A -> Prop) l :
  (forall x, P x <-> Q x) -> Forall P l <-> Forall Q l.
Proof.
  intro H. split; intro F; eapply Forall_impl; try exact F; intro x; apply H.
Qed.

Lemma is_numeric_like_trimmed s :
  head_not_space (rev s) -> is_numeric_like s = numeric_like s.
Proof.
  intro H. unfold is_numeric_like, numeric_like.
  rewrite !re_match_anchored_trimmed by exact H.
  now destruct (numeric_pattern s).
Qed.

Lemma is_safe_unquoted_spec s delim :
  is_safe_unquoted s delim = true <-> safe_unquoted s delim.
Proof.
  unfold is_safe_unquoted, safe_unquoted.
  destruct (is_empty s) eqn:E0.
  { apply is_empty_true in E0. split; [discriminate|]. tauto. }
  apply is_empty_false in E0.
  destruct (seq_eqb s (strip s)) eqn:E1; simpl.
  2:{ apply seq_eqb_false in E1. split; [discriminate|].
      intros (_ & H1 & H2 & _). exfalso. apply E1. symmetry.
      now apply strip_fixed. }
  apply seq_eqb_true in E1. symmetry in E1. apply strip_fixed in E1.
  destruct E1 as [H1 H2].
  rewrite (is_numeric_like_trimmed _ H2).
  destruct (is_boolean_or_null_literal s) eqn:E2; simpl.
  { split; [discriminate|]. intros (_ & _ & _ & H & _). discriminate. }
  destruct (numeric_like s) eqn:E3.
  { split; [discriminate|]. intros (_ & _ & _ & _ & H & _). discriminate. }
  assert (F : Forall (fun c => forbidden_unquoted delim c = false) s <->
              contains COLON s = false
              /\ contains DOUBLE_QUOTE s = false /\ contains BACKSLASH s = false
              /\ existsb (fun c => ceq c OPEN_BRACKET || ceq c CLOSE_BRACKET
                                   || ceq c OPEN_BRACE || ceq c CLOSE_BRACE) s = false
              /\ existsb (fun c => ceq c NEWLINE || ceq c CARRIAGE_RETURN || ceq c TAB) s
                 = false
              /\ contains delim s = false).
  { rewrite !contains_false, !existsb_false_Forall, <- !Forall_and_iff.
    apply Forall_equiv. intro c. unfold forbidden_unquoted.
    rewrite !orb_false_iff. tauto. }
  destruct (contains COLON s) eqn:C1.
  { split; [discriminate|]. intros (_ & _ & _ & _ & _ & H & _).
    apply F in H. destruct H; discriminate. }
  destruct (contains DOUBLE_QUOTE s) eqn:C2; simpl.
  { split; [discriminate|]. intros (_ & _ & _ & _ & _ & H & _).
    apply F in H. destruct H as (_ & H & _); discriminate. }
  destruct (contains BACKSLASH s) eqn:C3.
  { split; [discriminate|]. intros (_ & _ & _ & _ & _ & H & _).
    apply F in H. destruct H as (_ & _ & H & _); discriminate. }
  match goal with |- context [if existsb ?p s then _ else _] =>
    destruct (existsb p s) eqn:C4 end.
  { split; [discriminate|]. intros (_ & _ & _ & _ & _ & H & _).
    apply F in H. destruct H as (_ & _ & _ & H & _); discriminate. }
  match goal with |- context [if existsb ?p s then _ else _] =>
    destruct (existsb p s) eqn:C5 end.
  { split; [discriminate|]. intros (_ & _ & _ & _ & _ & H & _).
    apply F in H. destruct H as (_ & _ & _ & _ & H & _); discriminate. }
  destruct (contains delim s) eqn:C6.
  { split; [discriminate|]. intros (_ & _ & _ & _ & _ & H & _).
    apply F in H. destruct H as (_ & _ & _ & _ & _ & H); discriminate. }
  destruct (startswith s LIST_ITEM_MARKER) eqn:C7.
  { split; [discriminate|]. intros (_ & _ & _ & _ & _ & _ & H).
    change (startswith s LIST_ITEM_MARKER) with (startswith s ["-"%char]) in C7.
    congruence. }
  split; [|reflexivity]. intros _.
  repeat split; auto. apply F. repeat split; reflexivity.
Qed.

End Quoting.



(** ** The escape codec (C6) *)

(** C6 as stated reads the error condition off single characters: some
    backslash is followed by a character outside n, t, r, backslash, double
    quote, or is the last character. *)
Definition some_backslash_badly_followed (s : str) : Prop :=
  exists i, nth_error s i = Some BACKSLASH
            /\ match nth_error s (S i) with
               | None => True
               | Some c => valid_escape_successor c = false
               end.

(** Two backslashes unescape to one, although the second one stands at the
    end of the input: the stated error condition is not the one the scan
    implements. *)
Lemma unescape_error_condition_counterexample :
  ~ ((exists e, unescape_string [BACKSLASH; BACKSLASH] = Err e)
     <-> some_backslash_badly_followed [BACKSLASH; BACKSLASH]).
Proof.
  intros [_ H].
  destruct H as [e He].
  - exists 1. split; reflexivity.
  - vm_compute in He. discriminate.
Qed.

(** C6 (amended). Unescaping the escaped form of any string returns the
    string; escaping works character by character and leaves every character
    other than backslash, double quote, newline, carriage return and tab as
    it is; and unescaping raises, always the invalid-escape error, exactly
    when the input holds a maximal run of an odd number of backslashes that
    is followed by the end of the input or by a character outside n, t, r
    and the double quote, that is, when a backslash that is not itself
    escaped lacks a valid successor. *)
Theorem unescape_string_codec :
  (forall s, unescape_string (escape_string s) = Ok s)
  /\ (forall a b, escape_string (a ++ b) = escape_string a ++ escape_string b)
  /\ (forall c, is_escaped_char c = false -> escape_string [c] = [c])
  /\ (forall s, (exists e, unescape_string s = Err e) <-> dangling_escape s)
  /\ (forall s e, unescape_string s = Err e -> e = InvalidEscape).
Proof.
  split; [exact unescape_escape|].
  split; [exact escape_string_app|].
  split.
  { intros c H. rewrite escape_string_flat_map. simpl.
    rewrite escape_char_plain by exact H. reflexivity. }
  split.
  - intro s. split.
    + intros [e He]. eapply unescape_fails_dangling; [|exact He]. apply le_n.
    + intro H. exists InvalidEscape. now apply dangling_escape_fails.
  - intros s e H. eapply unescape_loop_err_kind; [|exact H]. apply le_n.
Qed.
(** ** The delimited value splitter (C10) *)

Section Splitter.

Variable delimiter : ascii.

(** The state of the splitter's loop after reading [rest]: the token under
    construction, the quote flag and the tokens produced. *)
Fixpoint splitter_state (rest : str) (current : str) (in_quotes : bool) (values : list str)
  : str * bool * list str :=
  match rest with
  | [] => (current, in_quotes, values)
  | char :: tl =>
      let plain :=
        if ceq char DOUBLE_QUOTE then
          splitter_state tl (current ++ [char]) (negb in_quotes) values
        else if ceq char delimiter && negb in_quotes then
          splitter_state tl [] in_quotes (values ++ [strip current])
        else
          splitter_state tl (current ++ [char]) in_quotes values in
      if ceq char BACKSLASH && in_quotes then
        match tl with
        | next :: tl' => splitter_state tl' (current ++ [char; next]) in_quotes values
        | [] => plain
        end
      else plain
  end.

(** What the loop does when the input is exhausted. *)
Definition splitter_flush (st : str * bool * list str) : list str :=
  let '(current, _, values) := st in
  if negb (is_empty current) || (0 <? length values)%nat
  then values ++ [strip current] else values.

(** Whether the end of [s] lies inside a quoted span. *)
Definition inside_quotes (s : str) : bool := snd (fst (splitter_state s [] false [])).

Lemma loop_as_state : forall n rest current in_quotes values,
  length rest <= n ->
  parse_delimited_values_loop rest delimiter current in_quotes values
  = splitter_flush (splitter_state rest current in_quotes values).
Proof.
  induction n as [|n IH]; intros rest current q values Hn.
  - destruct rest; [reflexivity|simpl in Hn; lia].
  - destruct rest as [|c tl]; [reflexivity|].
    simpl in Hn. simpl.
    destruct (ceq c BACKSLASH && q).
    + destruct tl as [|x tl'].
      * destruct (ceq c DOUBLE_QUOTE); [|destruct (ceq c delimiter && negb q)];
          apply IH; simpl; lia.
      * apply IH. simpl in Hn. lia.
    + destruct (ceq c DOUBLE_QUOTE); [|destruct (ceq c delimiter && negb q)];
        apply IH; simpl; lia.
Qed.

Lemma splitter_state_quote_flag : forall n rest c1 c2 q v1 v2,
  length rest <= n ->
  snd (fst (splitter_state rest c1 q v1)) = snd (fst (splitter_state rest c2 q v2)).
Proof.
  induction n as [|n IH]; intros rest c1 c2 q v1 v2 Hn.
  - destruct rest; [reflexivity|simpl in Hn; lia].
  - destruct rest as [|c tl]; [reflexivity|].
    simpl in Hn. simpl.
    destruct (ceq c BACKSLASH && q).
    + destruct tl as [|x tl'].
      * destruct (ceq c DOUBLE_QUOTE); [|destruct (ceq c delimiter && negb q)];
          apply IH; simpl; lia.
      * apply IH. simpl in Hn. lia.
    + destruct (ceq c DOUBLE_QUOTE); [|destruct (ceq c delimiter && negb q)];
        apply IH; simpl; lia.
Qed.

(** Reading [pre ++ x] is reading [x] from the state [pre] leaves, when [pre]
    ends outside quotes. *)
Lemma splitter_state_app : forall n pre x current q values,
  length pre <= n ->
  snd (fst (splitter_state pre current q values)) = false ->
  splitter_state (pre ++ x) current q values
  = splitter_state x (fst (fst (splitter_state pre current q values))) false
      (snd (splitter_state pre current q values)).
Proof.
  induction n as [|n IH]; intros pre x current q values Hn Hq.
  - destruct pre; [|simpl in Hn; lia]. simpl in *. now subst.
  - destruct pre as [|c tl]; [simpl in *; now subst|].
    simpl in Hn. simpl in Hq |- *.
    destruct (ceq c BACKSLASH && q) eqn:Eb.
    + destruct tl as [|y tl'].
      * apply andb_true_iff in Eb. destruct Eb as [Ec Eq]. subst q.
        apply ceq_true in Ec. subst c.
        change (ceq BACKSLASH DOUBLE_QUOTE) with false in Hq.
        rewrite andb_false_r in Hq. simpl in Hq. discriminate.
      * simpl. apply IH; [simpl in Hn; lia|exact Hq].
    + destruct (ceq c DOUBLE_QUOTE); [|destruct (ceq c delimiter && negb q)];
        (apply IH; [lia|exact Hq]).
Qed.

Lemma splitter_state_grows : forall n rest current q values,
  length rest <= n ->
  exists more, snd (splitter_state rest current q values) = values ++ more.
Proof.
  induction n as [|n IH]; intros rest current q values Hn.
  - destruct rest; [|simpl in Hn; lia]. exists []. simpl. now rewrite app_nil_r.
  - destruct rest as [|c tl]; [exists []; simpl; now rewrite app_nil_r|].
    simpl in Hn. simpl.
    assert (P : forall cur q' vs, exists more,
              snd (splitter_state tl cur q' (values ++ vs)) = values ++ more).
    { intros cur q' vs.
      destruct (IH tl cur q' (values ++ vs) ltac:(lia)) as [m Hm].
      exists (vs ++ m). now rewrite Hm, app_assoc. }
    assert (P0 : forall cur q', exists more,
              snd (splitter_state tl cur q' values) = values ++ more)
      by (intros; apply IH; lia).
    destruct (ceq c BACKSLASH && q).
    + destruct tl as [|y tl'].
      * destruct (ceq c DOUBLE_QUOTE); [|destruct (ceq c delimiter && negb q)]; auto.
      * apply IH. simpl in Hn. lia.
    + destruct (ceq c DOUBLE_QUOTE); [|destruct (ceq c delimiter && negb q)]; auto.
Qed.

Lemma splitter_flush_nonempty cur q values more :
  splitter_flush (cur, q, (values ++ [more])) = values ++ [more] ++ [strip cur].
Proof.
  unfold splitter_flush. rewrite length_app. simpl.
  replace (0 <? length values + 1)%nat with true by (symmetry; apply Nat.ltb_lt; lia).
  rewrite orb_true_r. now rewrite <- app_assoc.
Qed.

Hypothesis delimiter_not_quote : ceq delimiter DOUBLE_QUOTE = false.

Lemma splitter_state_delimiter tl current values :
  splitter_state (delimiter :: tl) current false values
  = splitter_state tl [] false (values ++ [strip current]).
Proof.
  simpl. rewrite andb_false_r. rewrite delimiter_not_quote.
  unfold ceq. rewrite Ascii.eqb_refl. reflexivity.
Qed.

Lemma empty_slot pre post :
  inside_quotes pre = false ->
  exists before after,
    parse_delimited_values (pre ++ [delimiter]) delimiter = before ++ [[]]
    /\ parse_delimited_values (pre ++ delimiter :: delimiter :: post) delimiter
       = before ++ [] :: after
    /\ after <> [].
Proof.
  intro Hq. unfold inside_quotes in Hq. unfold parse_delimited_values.
  rewrite !(loop_as_state _ _ _ _ _ (le_n _)).
  rewrite !(splitter_state_app _ _ _ _ _ _ (le_n _) Hq).
  destruct (splitter_state pre [] false []) as [[cur q] vals] eqn:E. cbn [fst snd].
  rewrite !splitter_state_delimiter.
  exists (vals ++ [strip cur]). 
  destruct (splitter_state_grows _ post [] false ((vals ++ [strip cur]) ++ [strip []]) (le_n _))
    as [more Hm].
  destruct (splitter_state post [] false ((vals ++ [strip cur]) ++ [strip []]))
    as [[cur' q'] vals'] eqn:E'.
  simpl in Hm. subst vals'.
  exists (more ++ [strip cur']).
  split; [|split].
  - cbn [splitter_state]. rewrite splitter_flush_nonempty.
    rewrite <- app_assoc. reflexivity.
  - unfold splitter_flush.
    rewrite !length_app. simpl.
    replace (0 <? length vals + 1 + 1 + length more)%nat with true
      by (symmetry; apply Nat.ltb_lt; lia).
    rewrite orb_true_r.
    change (strip []) with (@nil ascii).
    rewrite <- !app_assoc. reflexivity.
  - destruct more; discriminate.
Qed.

End Splitter.

Lemma parse_primitive_token_blank token :
  strip token = [] -> parse_primitive_token token = Ok (PStr []).
Proof. intro H. unfold parse_primitive_token. now rewrite H. Qed.

(** C10. An empty slot decodes to the empty string: the primitive token
    parser returns the empty string, never an error, for every token whose
    trimmed form is empty; the delimited value splitter produces an empty
    token between two consecutive delimiters that lie outside quotes; and
    so the inline array [1,,3] and the tabular row [1,,3] decode with an
    empty-string element in the middle. *)
Theorem empty_slot_decodes_to_empty_string :
  (forall token, strip token = [] -> parse_primitive_token token = Ok (PStr []))
  /\ (forall delimiter pre post,
        delimiter <> DOUBLE_QUOTE ->
        inside_quotes delimiter pre = false ->
        exists before after,
          parse_delimited_values (pre ++ [delimiter]) delimiter = before ++ [[]]
          /\ parse_delimited_values (pre ++ delimiter :: delimiter :: post) delimiter
             = before ++ [] :: after
          /\ after <> [])
  /\ decode (lit "[3]: 1,,3") None
     = Ok (JArray [JPrim (PInt 1); JPrim (PStr []); JPrim (PInt 3)])
  /\ decode (lit "[1]{a,b,c}:" ++ [NEWLINE] ++ lit "  1,,3") None
     = Ok (JArray [JObject [(lit "a", JPrim (PInt 1)); (lit "b", JPrim (PStr []));
                            (lit "c", JPrim (PInt 3))]]).
Proof.
  split; [exact parse_primitive_token_blank|].
  split.
  - intros delimiter pre post Hd Hq.
    apply empty_slot; [|exact Hq]. now apply ceq_false.
  - split; vm_compute; reflexivity.
Qed.

(** The splitter on [1,,3]: the slot between the two commas is the empty
    token. *)
Lemma empty_slot_decodes_to_empty_string_witness :
  exists before after,
    parse_delimited_values (lit "1" ++ [COMMA]) COMMA = before ++ [[]]
    /\ parse_delimited_values (lit "1" ++ COMMA :: COMMA :: lit "3") COMMA
       = before ++ [] :: after
    /\ after <> [].
Proof.
  apply (proj1 (proj2 empty_slot_decodes_to_empty_string) COMMA (lit "1") (lit "3")).
  - discriminate.
  - reflexivity.
Defined.
(** ** Array header lengths (C8) *)

Section BracketSegment.

Ltac each_char c := destruct c as [[] [] [] [] [] [] [] []].










End BracketSegment.



(** ** Strict indentation (C7) *)

Section StrictIndentation.

Lemma lstrip_nil s : lstrip s = [] <-> forallb isspace s = true.
Proof.
  induction s as [|c s IH]; simpl; [tauto|].
  destruct (isspace c); simpl; [exact IH|]. split; discriminate.
Qed.

Lemma lstrip_all_space s :
  forallb isspace (lstrip s) = forallb isspace s.
Proof.
  induction s as [|c s IH]; simpl; [reflexivity|].
  destruct (isspace c) eqn:E; simpl; [exact IH|]. now rewrite E.
Qed.

Lemma forallb_rev_space s : forallb isspace (rev s) = forallb isspace s.
Proof.
  induction s as [|x l IH]; simpl; [reflexivity|].
  rewrite forallb_app, IH. simpl. rewrite andb_true_r. apply andb_comm.
Qed.

(** [strip] leaves nothing exactly of the whitespace-only strings. *)
Lemma strip_nil s : strip s = [] <-> forallb isspace s = true.
Proof.
  unfold strip, rstrip. rewrite <- lstrip_all_space, <- forallb_rev_space, <- lstrip_nil.
  split; intro H.
  - apply (f_equal (@rev ascii)) in H. now rewrite rev_involutive in H.
  - now rewrite H.
Qed.

(** A line is blank when it holds whitespace only. *)
Definition line_is_blank (raw : str) : bool := forallb isspace raw.

(** The leading whitespace of a line: its longest prefix of spaces and tabs. *)
Definition leading_whitespace (raw : str) : str :=
  firstn (count_leading (fun c => ceq c SPACE || ceq c TAB) raw) raw.

Definition leading_spaces (raw : str) : nat := count_leading (fun c => ceq c SPACE) raw.

Definition tab_in_indentation (raw : str) : bool := contains TAB (leading_whitespace raw).

Definition indentation_not_multiple (indent_size : nat) (raw : str) : bool :=
  (0 <? leading_spaces raw)%nat && negb (leading_spaces raw mod indent_size =? 0)%nat.

Lemma skip_leading_spaces_blank raw :
  forallb isspace (slice_from raw (leading_spaces raw)) = forallb isspace raw.
Proof.
  unfold slice_from, leading_spaces.
  induction raw as [|c raw IH]; simpl; [reflexivity|].
  destruct (ceq c SPACE) eqn:E; simpl.
  - apply ceq_true in E. subst c. exact IH.
  - reflexivity.
Qed.

Lemma scanner_blank_test raw :
  is_empty (strip (slice_from raw (leading_spaces raw))) = line_is_blank raw.
Proof.
  unfold line_is_blank. rewrite <- skip_leading_spaces_blank.
  destruct (forallb isspace (slice_from raw (leading_spaces raw))) eqn:E.
  - apply strip_nil in E. now rewrite E.
  - apply is_empty_false. intro H. apply strip_nil in H. congruence.
Qed.

Lemma scan_lines_rejects indent_size : forall ls k raw,
  0 < indent_size ->
  In raw ls ->
  line_is_blank raw = false ->
  tab_in_indentation raw || indentation_not_multiple indent_size raw = true ->
  exists n, scan_lines ls k indent_size true = Err (TabInIndentation n)
            \/ scan_lines ls k indent_size true = Err (IndentationNotMultiple n).
Proof.
  intros ls k raw Hpos. revert k.
  induction ls as [|l ls IH]; intros k Hin Hnb Hbad; [contradiction|].
  cbn [scan_lines].
  fold (leading_spaces l). rewrite scanner_blank_test.
  unfold _compute_depth_from_indent.
  replace (indent_size =? 0)%nat with false by (symmetry; apply Nat.eqb_neq; lia).
  cbn [bind].
  assert (Hslice : slice l 0 (count_leading (fun c => ceq c SPACE || ceq c TAB) l)
                   = leading_whitespace l).
  { unfold slice, leading_whitespace. now rewrite Nat.sub_0_r. }
  rewrite Hslice. fold (tab_in_indentation l).
  change (true && tab_in_indentation l) with (tab_in_indentation l).
  change (true && (0 <? leading_spaces l)%nat
          && negb (leading_spaces l mod indent_size =? 0)%nat)
    with (indentation_not_multiple indent_size l).
  destruct (line_is_blank l) eqn:Eb.
  - destruct Hin as [->|Hin]; [congruence|].
    destruct (IH (k + 1) Hin Hnb Hbad) as [n [Hn|Hn]]; exists n; rewrite Hn; auto.
  - destruct (tab_in_indentation l) eqn:Et; [exists k; now left|].
    destruct (indentation_not_multiple indent_size l) eqn:Ei; [exists k; now right|].
    destruct Hin as [->|Hin]; [rewrite Et, Ei in Hbad; discriminate|].
    destruct (IH (k + 1) Hin Hnb Hbad) as [n [Hn|Hn]]; exists n; rewrite Hn; auto.
Qed.

Lemma split_acc_chars c : forall s cur raw x,
  In raw (split_acc c s cur) -> In x raw -> In x s \/ In x cur.
Proof.
  induction s as [|y s IH]; intros cur raw x Hin Hx; simpl in Hin.
  - destruct Hin as [<-|[]]. right. now apply in_rev.
  - destruct (ceq y c).
    + destruct Hin as [<-|Hin].
      * right. now apply in_rev.
      * destruct (IH [] raw x Hin Hx) as [H|[]]. left. now right.
    + destruct (IH (y :: cur) raw x Hin Hx) as [H|[H|H]].
      * left. now right.
      * left. left. exact H.
      * now right.
Qed.

Lemma nonblank_line_nonblank_source source raw :
  In raw (split NEWLINE source) -> line_is_blank raw = false ->
  is_empty (strip source) = false.
Proof.
  intros Hin Hnb. apply is_empty_false. intro H. apply strip_nil in H.
  unfold line_is_blank in Hnb.
  assert (E : exists x, In x raw /\ isspace x = false).
  { clear Hin. induction raw as [|c raw IH]; [discriminate|].
    simpl in Hnb. destruct (isspace c) eqn:Ec.
    - destruct (IH Hnb) as [x [Hx Hs]]. exists x. split; [now right|exact Hs].
    - exists c. split; [now left|exact Ec]. }
  destruct E as [x [Hx Hs]].
  destruct (split_acc_chars _ _ _ _ _ Hin Hx) as [Hsrc|[]].
  rewrite forallb_forall in H. rewrite (H x Hsrc) in Hs. discriminate.
Qed.

End StrictIndentation.

(** C7. Strict indentation: with a positive indent, the strict line scanner
    raises an indentation error whenever some non-blank line of the source
    has a tab within its leading whitespace, or has a positive number of
    leading spaces that is not a multiple of the indent; in particular
    decoding [a:] followed by a line with three leading spaces fails under
    indent 2 with the not-a-multiple error at line 2. *)
Theorem strict_scanner_rejects_bad_indentation :
  (forall source indent_size raw,
      0 < indent_size ->
      In raw (split NEWLINE source) ->
      line_is_blank raw = false ->
      tab_in_indentation raw = true \/ indentation_not_multiple indent_size raw = true ->
      exists n, to_parsed_lines source indent_size true = Err (TabInIndentation n)
                \/ to_parsed_lines source indent_size true = Err (IndentationNotMultiple n))
  /\ decode (lit "a:" ++ [NEWLINE] ++ lit "   b: 1") None = Err (IndentationNotMultiple 2)
  /\ decode (lit "a:" ++ [NEWLINE] ++ lit "   b: 1")
       (Some {| o_indent := Some 2; o_strict := Some true |})
     = Err (IndentationNotMultiple 2).
Proof.
  split.
  - intros source indent_size raw Hpos Hin Hnb Hbad.
    unfold to_parsed_lines.
    rewrite (nonblank_line_nonblank_source _ _ Hin Hnb).
    destruct (scan_lines_rejects indent_size (split NEWLINE source) 1 raw Hpos Hin Hnb)
      as [n [Hn|Hn]].
    + destruct Hbad as [-> | ->]; [reflexivity|apply orb_true_r].
    + exists n. left. now rewrite Hn.
    + exists n. right. now rewrite Hn.
  - split; vm_compute; reflexivity.
Qed.

(** The second line of the example has three leading spaces under indent 2,
    and a line indented by a tab is rejected as well. *)
Lemma strict_scanner_rejects_bad_indentation_witness :
  (exists n, to_parsed_lines (lit "a:" ++ [NEWLINE] ++ lit "   b: 1") 2 true
             = Err (TabInIndentation n)
             \/ to_parsed_lines (lit "a:" ++ [NEWLINE] ++ lit "   b: 1") 2 true
                = Err (IndentationNotMultiple n)).
Proof.
  apply (proj1 strict_scanner_rejects_bad_indentation
           (lit "a:" ++ [NEWLINE] ++ lit "   b: 1") 2 (lit "   b: 1")).
  - lia.
  - vm_compute. right. left. reflexivity.
  - reflexivity.
  - right. reflexivity.
Defined.
(** ** Tabular arrays: row width and row count (C2) *)

Section TabularCounts.


Lemma assert_expected_count_row_width actual expected options e :
  assert_expected_count actual expected TabularRowValues options = Err e ->
  e = RowWidthMismatch.
Proof.
  unfold assert_expected_count.
  destruct (Z.of_nat actual =? expected)%Z; [discriminate|]. now inversion 1.
Qed.




End TabularCounts.


(** ** Primitive tokens: numbers and unquoted strings (C3) *)

Section NumericTokens.

Ltac each_char c := destruct c as [[] [] [] [] [] [] [] []].

Definition is_number (p : JsonPrimitive) : bool :=
  match p with
  | PInt _ | PFloat _ => true
  | _ => false
  end.

(** The token contains a [.] or an exponent marker. *)
Definition has_point_or_exponent (token : str) : bool :=
  contains "."%char token || contains "e"%char token || contains "E"%char token.

(** The leading-zero rule: no leading zero unless the token is [0] itself or
    starts with [0.]. *)
Definition no_leading_zero (token : str) : bool :=
  match token with
  | c0 :: c1 :: _ => negb (ceq c0 "0"%char) || ceq c1 "."%char
  | _ => true
  end.

Lemma contains_lower_e token :
  contains "e"%char (lower token)
  = contains "e"%char token || contains "E"%char token.
Proof.
  unfold contains, lower. induction token as [|c t IH]; [reflexivity|].
  cbn [map existsb]. rewrite IH.
  assert (E : ceq "e"%char (lower_char c) = ceq "e"%char c || ceq "E"%char c)
    by (each_char c; reflexivity).
  rewrite E.
  destruct (ceq "e"%char c), (ceq "E"%char c), (existsb (ceq "e"%char) t); reflexivity.
Qed.

Lemma int_or_float_test token :
  negb (contains "."%char token) && negb (contains "e"%char (lower token))
  = negb (has_point_or_exponent token).
Proof.
  unfold has_point_or_exponent. rewrite contains_lower_e.
  destruct (contains "."%char token), (contains "e"%char token),
    (contains "E"%char token); reflexivity.
Qed.

Lemma contains_In c s : contains c s = true <-> In c s.
Proof.
  unfold contains. rewrite existsb_exists. split.
  - intros [x [Hx E]]. apply ceq_true in E. now subst.
  - intro H. exists c. split; [exact H|]. apply Ascii.eqb_refl.
Qed.







Lemma parse_primitive_token_unquoted t :
  strip t = t ->
  startswith t [DOUBLE_QUOTE] = false ->
  is_boolean_or_null_literal t = false ->
  parse_primitive_token t
  = if is_numeric_literal t then
      if has_point_or_exponent t then
        match py_float t with Some f => Ok (PFloat f) | None => Ok (PStr t) end
      else
        match py_int t with Some n => Ok (PInt n) | None => Ok (PStr t) end
    else Ok (PStr t).
Proof.
  intros Hs Hq Hb. unfold parse_primitive_token. rewrite Hs, Hq.
  unfold is_boolean_or_null_literal in Hb.
  apply orb_false_iff in Hb. destruct Hb as [Hb Hn].
  apply orb_false_iff in Hb. destruct Hb as [Ht Hf].
  rewrite Ht, Hf, Hn, int_or_float_test.
  destruct (is_empty t) eqn:E.
  - apply is_empty_true in E. subst t. reflexivity.
  - destruct (is_numeric_literal t); [|reflexivity].
    destruct (has_point_or_exponent t); reflexivity.
Qed.



(** *** Tokens of the numeric pattern are tokens of the host's float parser *)

Definition sign_text (sg : option bool) : str :=
  match sg with
  | None => []
  | Some true => ["-"%char]
  | Some false => ["+"%char]
  end.

Definition frac_text (frac : option str) : str :=
  match frac with
  | Some ds => "."%char :: ds
  | None => []
  end.

Definition exp_text (ex : option (ascii * option bool * str)) : str :=
  match ex with
  | Some (m, sg, ds) => m :: sign_text sg ++ ds
  | None => []
  end.

Definition digit_string (ds : str) : Prop := ds <> [] /\ forallb isdigit ds = true.

Definition frac_ok (frac : option str) : Prop :=
  match frac with Some ds => digit_string ds | None => True end.

Definition exp_ok (ex : option (ascii * option bool * str)) : Prop :=
  match ex with
  | Some (m, _, ds) => (m = "e"%char \/ m = "E"%char) /\ digit_string ds
  | None => True
  end.

(** The text of a number: sign, digits, optional fraction, optional exponent. *)
Definition number_text (neg : bool) (ds1 : str) (frac : option str)
  (ex : option (ascii * option bool * str)) : str :=
  (if neg then ["-"%char] else []) ++ ds1 ++ frac_text frac ++ exp_text ex.

Definition exp_value (ex : option (ascii * option bool * str)) : Z :=
  match ex with
  | Some (_, sg, ds) =>
      let v := Z.of_N (digits_value ds) in
      match sg with Some true => (- v)%Z | _ => v end
  | None => 0%Z
  end.





Definition stops_digits (r : str) : Prop :=
  match r with
  | [] => True
  | c :: _ => isdigit c = false /\ ceq c "_"%char = false
  end.

Lemma digitpart_tail_app ds r :
  forallb isdigit ds = true -> stops_digits r -> digitpart_tail (ds ++ r) = (ds, r).
Proof.
  intros Hd Hr. induction ds as [|c ds IH]; simpl.
  - destruct r as [|x r]; [reflexivity|]. destruct Hr as [H1 H2].
    simpl. now rewrite H1, H2.
  - simpl in Hd. apply andb_true_iff in Hd. destruct Hd as [Hc Hd].
    rewrite Hc, (IH Hd). reflexivity.
Qed.

Lemma digitpart_app ds r :
  digit_string ds -> stops_digits r -> digitpart (ds ++ r) = Some (ds, r).
Proof.
  intros [Hne Hd] Hr. destruct ds as [|c ds]; [congruence|].
  simpl in Hd. apply andb_true_iff in Hd. destruct Hd as [Hc Hd].
  unfold digitpart. simpl. rewrite Hc, (digitpart_tail_app _ _ Hd Hr). reflexivity.
Qed.

Lemma isdigit_misc c :
  isdigit c = true ->
  isnumspace c = false /\ ceq c "-"%char = false /\ ceq c "+"%char = false
  /\ lower_char c = c /\ c <> "i"%char /\ c <> "n"%char.
Proof.
  each_char c; vm_compute; intro H; try discriminate H; repeat split; discriminate.
Qed.

Lemma split_sign_digits ds :
  digit_string ds -> split_sign ds = (false, ds).
Proof.
  intros [Hne Hd]. destruct ds as [|c ds]; [congruence|].
  simpl in Hd. apply andb_true_iff in Hd. destruct Hd as [Hc _].
  destruct (isdigit_misc c Hc) as (_ & H1 & H2 & _).
  simpl. now rewrite H1, H2.
Qed.

Lemma parse_exponent_text ex :
  exp_ok ex -> parse_exponent (exp_text ex) = Some (exp_value ex).
Proof.
  destruct ex as [[[m sg] ds]|]; [|reflexivity].
  intros [Hm Hds]. unfold exp_text, parse_exponent.
  assert (Em : ceq m "e"%char || ceq m "E"%char = true)
    by (destruct Hm; subst m; reflexivity).
  rewrite Em.
  assert (Dp : digitpart ds = Some (ds, [])).
  { rewrite <- (app_nil_r ds) at 1. now apply digitpart_app. }
  destruct sg as [[|]|]; simpl sign_text.
  - cbn [app split_sign]. change (ceq "-"%char "-"%char) with true. cbv iota.
    rewrite Dp. reflexivity.
  - cbn [app split_sign]. change (ceq "+"%char "-"%char) with false.
    change (ceq "+"%char "+"%char) with true. cbv iota.
    rewrite Dp. reflexivity.
  - cbn [app]. rewrite (split_sign_digits _ Hds). rewrite Dp. reflexivity.
Qed.

Lemma exp_text_stops ex : exp_ok ex -> stops_digits (exp_text ex).
Proof.
  destruct ex as [[[m sg] ds]|]; [|exact (fun _ => I)].
  intros [[->| ->] _]; split; reflexivity.
Qed.

Lemma exp_text_no_point ex :
  exp_ok ex ->
  match exp_text ex with c :: _ => ceq c "."%char = false | [] => True end.
Proof.
  destruct ex as [[[m sg] ds]|]; [|exact (fun _ => I)].
  intros [[->| ->] _]; reflexivity.
Qed.

Lemma parse_number_text ds1 frac ex :
  digit_string ds1 -> frac_ok frac -> exp_ok ex ->
  parse_number (ds1 ++ frac_text frac ++ exp_text ex)
  = Some (ds1, match frac with Some ds => ds | None => [] end, exp_text ex).
Proof.
  intros H1 Hf He. unfold parse_number.
  rewrite (digitpart_app ds1 (frac_text frac ++ exp_text ex) H1).
  2:{ destruct frac; [split; reflexivity|]. simpl. now apply exp_text_stops. }
  destruct frac as [ds2|]; simpl.
  - change (ceq "."%char "."%char) with true. cbv iota.
    rewrite (digitpart_app ds2 (exp_text ex) Hf (exp_text_stops _ He)). reflexivity.
  - pose proof (exp_text_no_point ex He) as Hp.
    destruct (exp_text ex) as [|c r]; [reflexivity|]. now rewrite Hp.
Qed.

Definition head_not_numspace (s : str) : Prop :=
  match s with
  | [] => True
  | c :: _ => isnumspace c = false
  end.

Lemma lstrip_num_fixed s : head_not_numspace s -> lstrip_num s = s.
Proof. destruct s as [|c s]; simpl; [reflexivity|]. now intros ->. Qed.

Lemma strip_num_fixed s :
  head_not_numspace s -> head_not_numspace (rev s) -> strip_num s = s.
Proof.
  intros H1 H2. unfold strip_num.
  rewrite (lstrip_num_fixed _ H1), (lstrip_num_fixed _ H2). apply rev_involutive.
Qed.

Lemma ends_with_digits a ds :
  digit_string ds -> head_not_numspace (rev (a ++ ds)).
Proof.
  intros [Hne Hd]. rewrite rev_app_distr.
  assert (Hr : forallb isdigit (rev ds) = true).
  { rewrite forallb_forall in *. intros x Hx. apply Hd. now apply in_rev. }
  destruct (rev ds) as [|x r] eqn:E.
  - apply (f_equal (@rev ascii)) in E. rewrite rev_involutive in E. now subst.
  - simpl in Hr |- *. apply andb_true_iff in Hr. destruct Hr as [Hx _].
    now apply isdigit_misc in Hx.
Qed.

Lemma number_text_ends_with_digits neg ds1 frac ex :
  digit_string ds1 -> frac_ok frac -> exp_ok ex ->
  head_not_numspace (rev (number_text neg ds1 frac ex)).
Proof.
  intros H1 Hf He. unfold number_text.
  destruct ex as [[[m sg] ds3]|].
  - destruct He as [_ Hd3]. unfold exp_text.
    replace ((if neg then ["-"%char] else []) ++ ds1 ++ frac_text frac
             ++ m :: sign_text sg ++ ds3)
      with (((if neg then ["-"%char] else []) ++ ds1 ++ frac_text frac
             ++ m :: sign_text sg) ++ ds3)
      by (rewrite <- !app_assoc; simpl; rewrite <- ?app_assoc; reflexivity).
    now apply ends_with_digits.
  - simpl exp_text. rewrite app_nil_r.
    destruct frac as [ds2|].
    + unfold frac_text.
      replace ((if neg then ["-"%char] else []) ++ ds1 ++ "."%char :: ds2)
        with (((if neg then ["-"%char] else []) ++ ds1 ++ ["."%char]) ++ ds2)
        by (rewrite <- !app_assoc; reflexivity).
      now apply ends_with_digits.
    + simpl frac_text. rewrite app_nil_r. now apply ends_with_digits.
Qed.

(** Lemma B: the host's float parser reads the text of a number. *)
Lemma py_float_number_text neg ds1 frac ex :
  digit_string ds1 -> frac_ok frac -> exp_ok ex ->
  py_float (number_text neg ds1 frac ex)
  = Some (make_float neg ds1 (match frac with Some ds => ds | None => [] end)
            (exp_value ex)).
Proof.
  intros H1 Hf He.
  pose proof (number_text_ends_with_digits neg ds1 frac ex H1 Hf He) as Hlast.
  destruct H1 as [Hne Hd1]. destruct ds1 as [|d ds]; [congruence|].
  pose proof Hd1 as Hd. simpl in Hd. apply andb_true_iff in Hd. destruct Hd as [Hd _].
  destruct (isdigit_misc d Hd) as (Hsp & Hm & Hp & Hlow & Hi & Hn).
  unfold py_float.
  rewrite strip_num_fixed; [|destruct neg; simpl; auto|exact Hlast].
  assert (Hsplit : split_sign (number_text neg (d :: ds) frac ex)
                   = (neg, (d :: ds) ++ frac_text frac ++ exp_text ex)).
  { unfold number_text. destruct neg; simpl; [reflexivity|]. now rewrite Hm, Hp. }
  rewrite Hsplit.
  assert (Hinf : forall w, seq_eqb (lower ((d :: ds) ++ frac_text frac ++ exp_text ex)) w
                           = true -> match w with c :: _ => c = d | [] => False end).
  { intros w E. apply seq_eqb_true in E. subst w. simpl. exact Hlow. }
  destruct (seq_eqb _ (lit "inf")) eqn:E1; [apply Hinf in E1; simpl in E1; congruence|].
  destruct (seq_eqb _ (lit "infinity")) eqn:E2;
    [apply Hinf in E2; simpl in E2; congruence|].
  destruct (seq_eqb _ (lit "nan")) eqn:E3; [apply Hinf in E3; simpl in E3; congruence|].
  cbn [orb].
  rewrite parse_number_text; [|split; [discriminate|exact Hd1]|exact Hf|exact He].
  rewrite (parse_exponent_text _ He). reflexivity.
Qed.


Lemma leading_zero_test t :
  ((1 <? length t)%nat && ceq (nth 0 t " "%char) "0"%char
   && negb (ceq (nth 1 t " "%char) "."%char))
  = negb (no_leading_zero t).
Proof.
  destruct t as [|c0 [|c1 t]]; simpl.
  - reflexivity.
  - reflexivity.
  - destruct (ceq c0 "0"%char), (ceq c1 "."%char); reflexivity.
Qed.

(** [is_numeric_literal] in terms of the host's float parser. *)
Lemma is_numeric_literal_spec t :
  is_numeric_literal t = true
  <-> t <> [] /\ no_leading_zero t = true
      /\ exists f, py_float t = Some f /\ isfinite f = true.
Proof.
  unfold is_numeric_literal. rewrite leading_zero_test.
  destruct (is_empty t) eqn:E0.
  { apply is_empty_true in E0. split; [discriminate|]. tauto. }
  apply is_empty_false in E0.
  destruct (no_leading_zero t); cbn [negb].
  - destruct (py_float t) as [f|].
    + split.
      * intro H. repeat split; auto. now exists f.
      * intros (_ & _ & f' & E & Hf). now inversion E.
    + split; [discriminate|]. intros (_ & _ & f' & E & _). discriminate.
  - split; [discriminate|]. intros (_ & H & _). discriminate.
Qed.

End NumericTokens.




(** ** Normalization of mappings (C9) *)

Section NormalizeMapping.

(** The loop over the items of a plain dict, as a function of its own. *)
Fixpoint normalize_items (l : list (PyKey * PyValue)) (result_ : list (str * JsonValue))
  : result JsonValue :=
  match l with
  | [] => Ok (JObject result_)
  | (key, v) :: rest =>
      if _is_valid_dict_key key then
        nv <- normalize_value v ;;
        normalize_items rest (dict_set result_ (str_key key) nv)
      else normalize_items rest result_
  end.

Lemma normalize_dict_unfold items :
  normalize_value (VDict true items) = normalize_items items [].
Proof.
  cbn [normalize_value]. generalize (@nil (str * JsonValue)).
  induction items as [|[key v] rest IH]; intro acc; [reflexivity|].
  cbn [normalize_items]. destruct (_is_valid_dict_key key).
  - destruct (normalize_value v) as [nv|e]; cbn [bind]; [apply IH|reflexivity].
  - apply IH.
Qed.

(** The items normalization keeps: those whose key is a str, an int, a float
    or a bool. *)
Definition kept_items (items : list (PyKey * PyValue)) : list (PyKey * PyValue) :=
  filter (fun kv => _is_valid_dict_key (fst kv)) items.

(** Entry by entry: the key is the string form of the input key, the value
    the normalized input value. *)
Definition entry_of (kv : PyKey * PyValue) (e : str * JsonValue) : Prop :=
  fst e = str_key (fst kv) /\ normalize_value (snd kv) = Ok (snd e).

Definition set_all (acc entries : list (str * JsonValue)) : list (str * JsonValue) :=
  fold_left (fun a e => dict_set a (fst e) (snd e)) entries acc.

Lemma normalize_items_spec : forall l acc d,
  normalize_items l acc = Ok d
  <-> exists es, Forall2 entry_of (kept_items l) es /\ d = JObject (set_all acc es).
Proof.
  induction l as [|[key v] rest IH]; intros acc d; cbn [normalize_items kept_items filter fst].
  - split.
    + intro H. inversion H. exists []. split; [constructor|reflexivity].
    + intros (es & F & ->). inversion F. reflexivity.
  - destruct (_is_valid_dict_key key).
    + destruct (normalize_value v) as [nv|e] eqn:En; cbn [bind].
      * rewrite IH. split.
        -- intros (es & F & ->). exists ((str_key key, nv) :: es). split.
           ++ constructor; [split; [reflexivity|exact En]|exact F].
           ++ reflexivity.
        -- intros (es & F & ->). inversion F as [|kv e l' es' [Hk Hv] F']. subst.
           exists es'. split; [exact F'|].
           destruct e as [k' v']. simpl in Hk, Hv. subst k'.
           rewrite En in Hv. inversion Hv. reflexivity.
      * split; [discriminate|].
        intros (es & F & _). inversion F as [|kv e' l' es' [_ Hv] F']. subst.
        simpl in Hv. congruence.
    + apply IH.
Qed.

Lemma dict_set_fresh {V} (d : list (str * V)) k v :
  ~ In k (map fst d) -> dict_set d k v = d ++ [(k, v)].
Proof.
  induction d as [|[k' v'] d IH]; simpl; intro H; [reflexivity|].
  destruct (seq_eqb k' k) eqn:E.
  - apply seq_eqb_true in E. tauto.
  - rewrite IH; [reflexivity|tauto].
Qed.

Lemma set_all_fresh : forall es acc,
  NoDup (map fst es) ->
  (forall k, In k (map fst es) -> ~ In k (map fst acc)) ->
  set_all acc es = acc ++ es.
Proof.
  induction es as [|[k v] es IH]; intros acc Hnd Hfresh; simpl.
  - now rewrite app_nil_r.
  - inversion Hnd as [|? ? Hk Hnd']. subst.
    unfold set_all in *. simpl.
    rewrite dict_set_fresh by (apply Hfresh; now left).
    rewrite IH.
    + now rewrite <- app_assoc.
    + exact Hnd'.
    + intros k' Hin. rewrite map_app, in_app_iff. simpl.
      intros [H|[H|[]]].
      * apply (Hfresh k'); [now right|exact H].
      * subst k'. contradiction.
Qed.






End NormalizeMapping.



(** ** Output hygiene (C5) *)

(** No line of the output ends with a space, and the output does not end
    with a newline. *)
Definition hygienic (out : str) : Prop :=
  (forall line, In line (split NEWLINE out) -> endswith_char line SPACE = false)
  /\ endswith_char out NEWLINE = false.

Section Hygiene.

Ltac each_char c := destruct c as [[] [] [] [] [] [] [] []].

(** A character after which a newline would close an empty line or a line
    that ends with a space. *)
Definition trailing (c : ascii) : bool := ceq c NEWLINE || ceq c SPACE.

(** One pass over a text.  [after_trailing] tells whether the text so far is
    empty or ends with a newline or a space; the pass fails ([None]) on a
    newline met in that state, and otherwise returns the state at the end. *)
Fixpoint scan (after_trailing : bool) (s : str) : option bool :=
  match s with
  | [] => Some after_trailing
  | c :: r => if ceq c NEWLINE && after_trailing then None else scan (trailing c) r
  end.

(** [closed]: may follow anything and ends on a character that is neither a
    space nor a newline.  [open]: may follow anything. *)
Definition closed (x : str) : Prop := forall b, scan b x = Some false.
Definition open (x : str) : Prop := forall b, exists b', scan b x = Some b'.

Lemma scan_app b x y :
  scan b (x ++ y) = match scan b x with
                    | Some b' => scan b' y
                    | None => None
                    end.
Proof.
  revert b. induction x as [|c x IH]; intro b; simpl; [reflexivity|].
  destruct (ceq c NEWLINE && b); [reflexivity|apply IH].
Qed.

Lemma closed_open x : closed x -> open x.
Proof. intros H b. exists false. apply H. Qed.

Lemma open_closed_app x y : open x -> closed y -> closed (x ++ y).
Proof. intros Hx Hy b. rewrite scan_app. destruct (Hx b) as [b' ->]. apply Hy. Qed.

Lemma open_app x y : open x -> open y -> open (x ++ y).
Proof. intros Hx Hy b. rewrite scan_app. destruct (Hx b) as [b' ->]. apply Hy. Qed.

Lemma open_nil : open [].
Proof. intro b. now exists b. Qed.

Definition newline_free (x : str) : Prop := Forall (fun c => ceq c NEWLINE = false) x.

Lemma newline_free_open x : newline_free x -> open x.
Proof.
  induction 1 as [|c x Hc _ IH]; [apply open_nil|].
  intro b. simpl. rewrite Hc. apply IH.
Qed.

(** No newline, not empty, no space at the end. *)
Lemma newline_free_closed x :
  newline_free x -> x <> [] -> endswith_char x SPACE = false -> closed x.
Proof.
  intros Hf Hne He b. revert b Hne He.
  induction Hf as [|c x Hc Hf IH]; intros b Hne He; [congruence|].
  simpl. rewrite Hc. simpl.
  destruct x as [|d x].
  - simpl. unfold endswith_char in He. simpl in He.
    unfold trailing. now rewrite Hc, He.
  - apply IH; [discriminate|].
    unfold endswith_char in *. simpl in *.
    destruct (rev x ++ [d]) eqn:E; [destruct (rev x); discriminate|].
    simpl in He. exact He.
Qed.

(** Neither spaces nor newlines at all. *)
Definition solid (x : str) : Prop := x <> [] /\ Forall (fun c => trailing c = false) x.

Lemma solid_closed x : solid x -> closed x.
Proof.
  intros [Hne Hf] b. revert b Hne.
  induction Hf as [|c x Hc Hf IH]; intros b Hne; [congruence|].
  simpl. unfold trailing in Hc. apply orb_false_iff in Hc. destruct Hc as [Hn Hs].
  rewrite Hn. simpl. unfold trailing at 1. rewrite Hn, Hs. simpl.
  destruct x as [|d x]; [reflexivity|]. apply IH. discriminate.
Qed.

Lemma closed_join sep parts :
  open sep -> Forall closed parts -> parts <> [] -> closed (join sep parts).
Proof.
  intros Hs Hf Hne. induction Hf as [|p ps Hp Hf IH]; [congruence|].
  destruct ps as [|q qs]; [exact Hp|].
  change (join sep (p :: q :: qs)) with (p ++ sep ++ join sep (q :: qs)).
  apply open_closed_app; [now apply closed_open|].
  apply open_closed_app; [exact Hs|]. apply IH. discriminate.
Qed.

Lemma open_join sep parts :
  open sep -> Forall open parts -> open (join sep parts).
Proof.
  intros Hs Hf. induction Hf as [|p ps Hp Hf IH]; [apply open_nil|].
  destruct ps as [|q qs]; [exact Hp|].
  change (join sep (p :: q :: qs)) with (p ++ sep ++ join sep (q :: qs)).
  apply open_app; [exact Hp|]. apply open_app; [exact Hs|exact IH].
Qed.

(** What a successful pass says about the lines. *)
Definition state_of (cur : str) : bool :=
  match cur with
  | [] => true
  | c :: _ => trailing c
  end.

Lemma scan_lines_clean : forall s cur line,
  Forall (fun c => ceq c NEWLINE = false) cur ->
  scan (state_of cur) s = Some false ->
  In line (split_acc NEWLINE s cur) ->
  endswith_char line SPACE = false.
Proof.
  induction s as [|c s IH]; intros cur line Hcur H Hin; simpl in *.
  - destruct Hin as [<-|[]]. assert (Hst : state_of cur = false) by congruence.
    unfold endswith_char. rewrite rev_involutive.
    destruct cur as [|d cur]; [discriminate|]. simpl in Hst |- *.
    unfold trailing in Hst. apply orb_false_iff in Hst. tauto.
  - destruct (ceq c NEWLINE) eqn:Ec; simpl in H.
    + destruct (state_of cur) eqn:Est; [discriminate|].
      destruct Hin as [<-|Hin].
      * unfold endswith_char. rewrite rev_involutive.
        destruct cur as [|d cur]; [discriminate|]. simpl in Est |- *.
        unfold trailing in Est. apply orb_false_iff in Est. tauto.
      * apply (IH [] line); [constructor| |exact Hin].
        unfold trailing in H. rewrite Ec in H. exact H.
    + apply (IH (c :: cur) line); [now constructor|exact H|exact Hin].
Qed.

Lemma scan_hygienic out : scan true out = Some false -> hygienic out.
Proof.
  intro H. split.
  - intros line Hin. apply (scan_lines_clean out [] line); [constructor|exact H|exact Hin].
  - destruct (endswith_char out NEWLINE) eqn:E; [|reflexivity].
    apply endswith_char_rev in E. destruct E as [r E].
    apply (f_equal (@rev ascii)) in E. rewrite rev_involutive in E. simpl in E.
    rewrite E, scan_app in H.
    destruct (scan true (rev r)) as [[|]|]; simpl in H; discriminate.
Qed.

Lemma closed_join_newline parts :
  Forall closed parts -> parts <> [] -> closed (join [NEWLINE] parts).
Proof.
  intros Hf Hne. induction Hf as [|p ps Hp Hf IH]; [congruence|].
  destruct ps as [|q qs]; [exact Hp|].
  change (join [NEWLINE] (p :: q :: qs)) with (p ++ [NEWLINE] ++ join [NEWLINE] (q :: qs)).
  intro b. rewrite scan_app, Hp. simpl.
  change (ceq NEWLINE NEWLINE) with true. simpl. apply IH. discriminate.
Qed.

Lemma closed_lines_hygienic ls : Forall closed ls -> hygienic (join [NEWLINE] ls).
Proof.
  intro H. destruct ls as [|l ls].
  - split; [|reflexivity]. intros line [<-|[]]. reflexivity.
  - apply scan_hygienic. apply closed_join_newline; [exact H|discriminate].
Qed.


(** *** The pieces of a line *)

Definition spaceless (x : str) : Prop := Forall (fun c => trailing c = false) x.

Lemma spaceless_app x y : spaceless x -> spaceless y -> spaceless (x ++ y).
Proof. intros. now apply Forall_app. Qed.

Lemma spaceless_solid x : spaceless x -> x <> [] -> solid x.
Proof. now split. Qed.

Lemma spaceless_newline_free x : spaceless x -> newline_free x.
Proof.
  apply Forall_impl. intros c H. unfold trailing in H.
  apply orb_false_iff in H. tauto.
Qed.

Lemma spaceless_firstn n x : spaceless x -> spaceless (firstn n x).
Proof.
  intro H. revert n. induction H as [|c x Hc H IH]; intros [|n]; simpl;
    try constructor; auto; apply IH.
Qed.

Lemma spaceless_skipn n x : spaceless x -> spaceless (skipn n x).
Proof.
  intro H. revert n. induction H as [|c x Hc H IH]; intros [|n]; simpl;
    try (constructor; assumption); auto; constructor.
Qed.

Lemma spaceless_repeat c n : trailing c = false -> spaceless (repeat c n).
Proof. intro H. induction n; simpl; constructor; auto. Qed.

Lemma spaceless_uint_digits u : spaceless (lit (NilEmpty.string_of_uint u)).
Proof. induction u; simpl; constructor; auto. Qed.

Lemma spaceless_uint u : spaceless (lit (NilZero.string_of_uint u)).
Proof.
  destruct u; try apply (spaceless_uint_digits (_ _)).
  repeat constructor.
Qed.

Lemma nonempty_uint u : lit (NilZero.string_of_uint u) <> [].
Proof. destruct u; discriminate. Qed.

Lemma solid_str_int n : solid (str_int n).
Proof.
  unfold str_int. destruct (Z.to_int n) as [u|u]; simpl.
  - split; [apply nonempty_uint|apply spaceless_uint].
  - split; [discriminate|]. constructor; [reflexivity|]. apply spaceless_uint.
Qed.

Ltac spaceless_pieces :=
  repeat first
    [ apply spaceless_app
    | apply spaceless_firstn
    | apply spaceless_skipn
    | apply spaceless_repeat; reflexivity
    | apply spaceless_uint
    | match goal with |- spaceless (if ?b then _ else _) => destruct b end
    | match goal with |- spaceless (_ :: _) => constructor; [reflexivity|] end
    | match goal with |- spaceless [] => constructor end
    | match goal with |- Forall _ (_ :: _) => constructor; [reflexivity|] end
    | match goal with |- Forall _ [] => constructor end ].

Lemma spaceless_str_float f : spaceless (str_float f).
Proof.
  destruct f as [neg m e|neg|]; unfold str_float.
  - destruct (m =? 0)%N; cbv zeta.
    + destruct neg; repeat constructor.
    + repeat match goal with
             | |- spaceless (if ?b then _ else _) => destruct b
             end; spaceless_pieces; repeat constructor.
  - destruct neg; repeat constructor.
  - repeat constructor.
Qed.

Lemma nonempty_app_r {A} (x y : list A) : y <> [] -> x ++ y <> [].
Proof. destruct x; [auto|discriminate]. Qed.

Lemma nonempty_app_l {A} (x y : list A) : x <> [] -> x ++ y <> [].
Proof. destruct x; [congruence|discriminate]. Qed.

Lemma nonempty_str_float f : str_float f <> [].
Proof.
  destruct f as [neg m e|neg|]; unfold str_float.
  - destruct (m =? 0)%N; cbv zeta.
    + apply nonempty_app_r. discriminate.
    + repeat match goal with
             | |- (if ?b then _ else _) <> [] => destruct b
             end;
      apply nonempty_app_r.
      * apply nonempty_app_r, nonempty_app_r, nonempty_app_l. discriminate.
      * apply nonempty_app_l. discriminate.
      * apply nonempty_app_l, nonempty_uint.
      * apply nonempty_app_r, nonempty_app_l. discriminate.
  - destruct neg; discriminate.
  - discriminate.
Qed.

Lemma newline_free_escape s : newline_free (escape_string s).
Proof.
  rewrite escape_string_flat_map. induction s as [|c s IH]; simpl; [constructor|].
  apply Forall_app. split; [|exact IH].
  each_char c; repeat constructor.
Qed.

Lemma endswith_char_last x c d : endswith_char (x ++ [c]) d = ceq c d.
Proof. unfold endswith_char. now rewrite rev_app_distr. Qed.

Lemma closed_quoted s : closed ([DOUBLE_QUOTE] ++ escape_string s ++ [DOUBLE_QUOTE]).
Proof.
  apply newline_free_closed.
  - constructor; [reflexivity|]. apply Forall_app. split; [apply newline_free_escape|].
    now constructor.
  - discriminate.
  - change ([DOUBLE_QUOTE] ++ escape_string s ++ [DOUBLE_QUOTE])
      with (([DOUBLE_QUOTE] ++ escape_string s) ++ [DOUBLE_QUOTE]).
    now rewrite endswith_char_last.
Qed.

Lemma closed_safe_unquoted s delim : is_safe_unquoted s delim = true -> closed s.
Proof.
  intro H. apply is_safe_unquoted_spec in H.
  destruct H as (Hne & _ & Hlast & _ & _ & Hf & _).
  apply newline_free_closed; [|exact Hne|].
  - eapply Forall_impl; [|exact Hf]. intros c Hc. unfold forbidden_unquoted in Hc.
    repeat (apply orb_false_iff in Hc; destruct Hc as [Hc ?]). assumption.
  - unfold endswith_char. unfold head_not_space in Hlast.
    destruct (rev s) as [|l r]; [reflexivity|].
    destruct (ceq l SPACE) eqn:E; [|reflexivity].
    apply ceq_true in E. subst l. discriminate.
Qed.

Lemma closed_encode_string_literal s delim : closed (encode_string_literal s delim).
Proof.
  unfold encode_string_literal. destruct (is_safe_unquoted s delim) eqn:E.
  - eapply closed_safe_unquoted; eauto.
  - apply closed_quoted.
Qed.

Lemma closed_encode_primitive p delim : closed (encode_primitive p delim).
Proof.
  destruct p as [|b|n|f|s]; simpl.
  - apply solid_closed. split; [discriminate|repeat constructor].
  - apply solid_closed. destruct b; (split; [discriminate|repeat constructor]).
  - apply solid_closed, solid_str_int.
  - apply solid_closed. split; [apply nonempty_str_float|apply spaceless_str_float].
  - apply closed_encode_string_literal.
Qed.

Lemma key_pattern_solid k : key_pattern k = true -> solid k.
Proof.
  unfold key_pattern. destruct k as [|c r]; [discriminate|].
  intro H. apply andb_true_iff in H. destruct H as [Hc Hr].
  split; [discriminate|]. constructor.
  - revert Hc. each_char c; vm_compute; intro H; try discriminate H; reflexivity.
  - rewrite forallb_forall in Hr. apply Forall_forall. intros x Hx.
    specialize (Hr x Hx). revert Hr.
    each_char x; vm_compute; intro H; try discriminate H; reflexivity.
Qed.

Lemma endswith_char_split s c :
  endswith_char s c = true -> s = drop_last s ++ [c].
Proof.
  intro H. apply endswith_char_rev in H. destruct H as [r E].
  apply (f_equal (@rev ascii)) in E. rewrite rev_involutive in E. simpl in E.
  rewrite E at 1. unfold drop_last. rewrite E. now rewrite removelast_last.
Qed.

Lemma open_unquoted_key k : is_valid_unquoted_key k = true -> open k.
Proof.
  unfold is_valid_unquoted_key, re_match_anchored. intro H.
  apply orb_true_iff in H. destruct H as [H|H].
  - now apply closed_open, solid_closed, key_pattern_solid.
  - apply andb_true_iff in H. destruct H as [He Hk].
    rewrite (endswith_char_split _ _ He).
    apply key_pattern_solid, solid_closed in Hk.
    intro b. rewrite scan_app, Hk. now exists true.
Qed.

Lemma open_encode_key k : open (encode_key k).
Proof.
  unfold encode_key. destruct (is_valid_unquoted_key k) eqn:E.
  - now apply open_unquoted_key.
  - apply closed_open, closed_quoted.
Qed.

Lemma valid_delimiter_spaceless d : valid_delimiter d -> spaceless [d].
Proof. intros [->|[->| ->]]; repeat constructor. Qed.

Lemma closed_format_header n key fields d marker :
  valid_delimiter d -> closed (format_header n key fields d marker).
Proof.
  intro Hd. unfold format_header.
  apply open_closed_app.
  { destruct key as [k|]; [|apply open_nil].
    destruct (is_empty k); [apply open_nil|apply open_encode_key]. }
  apply open_closed_app.
  { apply closed_open, solid_closed. split; [discriminate|].
    constructor; [reflexivity|].
    apply spaceless_app.
    { destruct marker as [m|]; [destruct (is_empty m)|]; repeat constructor. }
    apply spaceless_app; [apply solid_str_int|].
    apply spaceless_app; [|repeat constructor].
    destruct (ceq d DEFAULT_DELIMITER); [constructor|now apply valid_delimiter_spaceless]. }
  apply open_closed_app.
  { destruct fields as [[|f fs]|]; try apply open_nil.
    apply open_app; [apply newline_free_open; repeat constructor|].
    apply open_app; [|apply newline_free_open; repeat constructor].
    apply open_join.
    - now apply newline_free_open, spaceless_newline_free, valid_delimiter_spaceless.
    - apply Forall_forall. intros x Hx. apply in_map_iff in Hx.
      destruct Hx as (k & <- & _). apply open_encode_key. }
  apply solid_closed. split; [discriminate|repeat constructor].
Qed.

Lemma closed_join_primitives vs d :
  valid_delimiter d -> vs <> [] -> closed (encode_and_join_primitives vs d).
Proof.
  intros Hd Hne. unfold encode_and_join_primitives. apply closed_join.
  - now apply newline_free_open, spaceless_newline_free, valid_delimiter_spaceless.
  - apply Forall_forall. intros x Hx. apply in_map_iff in Hx.
    destruct Hx as (p & <- & _). apply closed_encode_primitive.
  - destruct vs; [congruence|discriminate].
Qed.

Lemma primitives_of_length values :
  is_array_of_primitives values = true ->
  length (primitives_of values) = length values.
Proof.
  unfold is_array_of_primitives, primitives_of.
  induction values as [|v vs IH]; simpl; [reflexivity|].
  intro H. apply andb_true_iff in H. destruct H as [Hv Hs].
  destruct v; try discriminate. simpl. now rewrite IH.
Qed.

Lemma closed_inline_array_line values d prefix marker :
  valid_delimiter d -> is_array_of_primitives values = true ->
  closed (encode_inline_array_line values d prefix marker).
Proof.
  intros Hd Hp. unfold encode_inline_array_line.
  destruct (length values =? 0)%nat eqn:E.
  - now apply closed_format_header.
  - apply open_closed_app; [now apply closed_open, closed_format_header|].
    apply open_closed_app; [apply newline_free_open; repeat constructor|].
    apply closed_join_primitives; [exact Hd|].
    apply Nat.eqb_neq in E. rewrite <- (primitives_of_length _ Hp) in E.
    destruct (primitives_of values); [simpl in E; congruence|discriminate].
Qed.


(** *** The writer stays tidy *)

(** Every line written so far is closed, and the indentation holds no
    newline. *)
Definition tidy (w : LineWriter) : Prop :=
  Forall closed (w_lines w) /\ newline_free (w_indentation_string w).

Lemma tidy_new_writer n : tidy (new_writer n).
Proof.
  split; [constructor|]. unfold new_writer, newline_free. simpl.
  induction n; simpl; constructor; auto.
Qed.

Lemma tidy_push w depth content : closed content -> tidy w -> tidy (push w depth content).
Proof.
  intros Hc [Hl Hi]. split; [|exact Hi]. unfold push. simpl.
  apply Forall_app. split; [exact Hl|]. constructor; [|constructor].
  apply open_closed_app; [|exact Hc].
  apply newline_free_open. unfold newline_free.
  induction depth; simpl; [constructor|]. apply Forall_app. now split.
Qed.

Lemma closed_list_item content : closed content -> closed (LIST_ITEM_PREFIX ++ content).
Proof.
  intro H. apply open_closed_app; [|exact H].
  apply newline_free_open. repeat constructor.
Qed.

Lemma tidy_push_list_item w depth content :
  closed content -> tidy w -> tidy (push_list_item w depth content).
Proof. intros Hc Hw. apply tidy_push; [now apply closed_list_item|exact Hw]. Qed.

Lemma tidy_fold {A} (f : LineWriter -> A -> LineWriter) l :
  (forall x, In x l -> forall w, tidy w -> tidy (f w x)) ->
  forall w, tidy w -> tidy (fold_left f l w).
Proof.
  induction l as [|x l IH]; intros Hf w Hw; simpl; [exact Hw|].
  apply IH.
  - intros y Hy. apply Hf. now right.
  - apply Hf; [now left|exact Hw].
Qed.

Lemma closed_colon_after k rest : closed rest -> closed (encode_key k ++ rest).
Proof. intro H. apply open_closed_app; [apply open_encode_key|exact H]. Qed.

Lemma closed_key_colon k : closed (encode_key k ++ [COLON]).
Proof. apply closed_colon_after, solid_closed. split; [discriminate|repeat constructor]. Qed.

Lemma closed_key_value k p d :
  closed (encode_key k ++ [COLON; SPACE] ++ encode_primitive p d).
Proof.
  apply closed_colon_after. apply open_closed_app.
  - apply newline_free_open. repeat constructor.
  - apply closed_encode_primitive.
Qed.

Lemma closed_key_length k n :
  closed (encode_key k ++ [OPEN_BRACKET] ++ str_int n ++ [CLOSE_BRACKET; COLON]).
Proof.
  apply closed_colon_after, solid_closed. split; [discriminate|].
  constructor; [reflexivity|]. apply spaceless_app; [apply solid_str_int|].
  repeat constructor.
Qed.

Lemma row_values_length d header :
  forallb (fun key => match dict_get d key with
                      | Some v => is_json_primitive v
                      | None => false
                      end) header = true ->
  length (row_values d header) = length header.
Proof.
  unfold row_values. induction header as [|k ks IH]; simpl; [reflexivity|].
  intro H. apply andb_true_iff in H. destruct H as [Hk Hks].
  destruct (dict_get d k) as [[p| |]|]; try discriminate.
  simpl. now rewrite IH.
Qed.

Lemma extract_tabular_header_some a header :
  extract_tabular_header a = Some header ->
  is_tabular_array a header = true /\ header <> [].
Proof.
  unfold extract_tabular_header. destruct a as [|first rest]; [discriminate|].
  destruct first as [| |d]; try discriminate.
  destruct (length (dict_keys d) =? 0)%nat eqn:E; [discriminate|].
  destruct (is_tabular_array (JObject d :: rest) (dict_keys d)) eqn:T; [|discriminate].
  intro H. inversion H. subst header. split; [exact T|].
  apply Nat.eqb_neq in E. destruct (dict_keys d); [simpl in E; congruence|discriminate].
Qed.

Section Emitters.

Variable options : ResolvedEncodeOptions.
Hypothesis delimiter_ok : valid_delimiter (e_delimiter options).

Lemma tidy_write_tabular_rows rows header w depth :
  is_tabular_array rows header = true -> header <> [] ->
  tidy w -> tidy (write_tabular_rows rows header w depth options).
Proof.
  intros Ht Hne. unfold write_tabular_rows. apply tidy_fold.
  intros row Hrow w' Hw'. destruct row as [| |d]; try exact Hw'.
  apply tidy_push; [|exact Hw'].
  apply closed_join_primitives; [exact delimiter_ok|].
  unfold is_tabular_array in Ht. rewrite forallb_forall in Ht.
  specialize (Ht _ Hrow). simpl in Ht. apply andb_true_iff in Ht. destruct Ht as [_ Ht].
  apply row_values_length in Ht.
  destruct (row_values d header); [|discriminate].
  destruct header; [congruence|discriminate].
Qed.

Lemma tidy_array_of_arrays prefix values w depth :
  tidy w -> tidy (encode_array_of_arrays_as_list_items prefix values w depth options).
Proof.
  intro Hw. unfold encode_array_of_arrays_as_list_items. apply tidy_fold.
  - intros arr _ w' Hw'. destruct arr as [|a|]; try exact Hw'.
    destruct (is_array_of_primitives a) eqn:E; [|exact Hw'].
    apply tidy_push_list_item; [|exact Hw'].
    now apply closed_inline_array_line.
  - apply tidy_push; [|exact Hw]. now apply closed_format_header.
Qed.

Lemma tidy_tabular prefix rows header w depth :
  is_tabular_array rows header = true -> header <> [] ->
  tidy w -> tidy (encode_array_of_objects_as_tabular prefix rows header w depth options).
Proof.
  intros Ht Hne Hw. unfold encode_array_of_objects_as_tabular.
  apply tidy_write_tabular_rows; [exact Ht|exact Hne|].
  apply tidy_push; [|exact Hw]. now apply closed_format_header.
Qed.

Variable rec_kv : str -> JsonValue -> LineWriter -> nat -> LineWriter.
Variable rec_item : JsonValue -> LineWriter -> nat -> LineWriter.

Definition kv_tidy (v : JsonValue) : Prop :=
  forall key w depth, tidy w -> tidy (rec_kv key v w depth).

Definition item_tidy (v : JsonValue) : Prop :=
  forall w depth, tidy w -> tidy (rec_item v w depth).

Lemma tidy_encode_object_with d w depth :
  (forall kv, In kv d -> kv_tidy (snd kv)) ->
  tidy w -> tidy (encode_object_with rec_kv d w depth).
Proof.
  intros H Hw. unfold encode_object_with. apply tidy_fold; [|exact Hw].
  intros kv Hkv w' Hw'. now apply H.
Qed.

Lemma tidy_mixed prefix items w depth :
  (forall x, In x items -> item_tidy x) ->
  tidy w ->
  tidy (encode_mixed_array_as_list_items_with options rec_item prefix items w depth).
Proof.
  intros H Hw. unfold encode_mixed_array_as_list_items_with. apply tidy_fold.
  - intros x Hx w' Hw'. now apply H.
  - apply tidy_push; [|exact Hw]. now apply closed_format_header.
Qed.

Lemma tidy_encode_array_with key value w depth :
  (forall x, In x value -> item_tidy x) ->
  tidy w -> tidy (encode_array_with options rec_item key value w depth).
Proof.
  intros H Hw. unfold encode_array_with.
  destruct (length value =? 0)%nat.
  { apply tidy_push; [|exact Hw]. now apply closed_format_header. }
  destruct (is_array_of_primitives value) eqn:Ep.
  { apply tidy_push; [|exact Hw]. now apply closed_inline_array_line. }
  destruct (is_array_of_arrays value && all_primitive_arrays value).
  { now apply tidy_array_of_arrays. }
  destruct (is_array_of_objects value).
  - destruct (extract_tabular_header value) as [header|] eqn:Eh.
    + apply extract_tabular_header_some in Eh. destruct Eh as [Ht Hne].
      now apply tidy_tabular.
    + now apply tidy_mixed.
  - now apply tidy_mixed.
Qed.

Lemma tidy_encode_object_as_list_item_with obj w depth :
  (forall kv, In kv obj -> kv_tidy (snd kv)) ->
  (forall kv, In kv obj ->
     match snd kv with
     | JPrim _ => True
     | JArray a => forall x, In x a -> item_tidy x
     | JObject d => forall kv', In kv' d -> kv_tidy (snd kv')
     end) ->
  tidy w ->
  tidy (encode_object_as_list_item_with options rec_kv rec_item obj w depth).
Proof.
  intros Hkv Hsub Hw. unfold encode_object_as_list_item_with.
  destruct obj as [|[first_key first_value] remaining].
  { apply tidy_push; [|exact Hw].
    apply solid_closed. split; [discriminate|repeat constructor]. }
  apply tidy_fold.
  { intros kv Hin w' Hw'. apply (Hkv kv); [now right|exact Hw']. }
  specialize (Hsub _ (or_introl eq_refl)). simpl in Hsub.
  destruct first_value as [p|a|d].
  - apply tidy_push_list_item; [apply closed_key_value|exact Hw].
  - destruct (is_array_of_primitives a) eqn:Ep.
    { apply tidy_push_list_item; [|exact Hw]. now apply closed_inline_array_line. }
    destruct (is_array_of_objects a).
    + destruct (extract_tabular_header a) as [header|] eqn:Eh.
      * apply extract_tabular_header_some in Eh. destruct Eh as [Ht Hne].
        apply tidy_write_tabular_rows; [exact Ht|exact Hne|].
        apply tidy_push_list_item; [|exact Hw]. now apply closed_format_header.
      * apply tidy_fold.
        -- intros x Hx w' Hw'. now apply Hsub.
        -- apply tidy_push_list_item; [apply closed_key_length|exact Hw].
    + apply tidy_fold.
      * intros x Hx w' Hw'. now apply Hsub.
      * apply tidy_push_list_item; [apply closed_key_length|exact Hw].
  - apply tidy_encode_object_with; [exact Hsub|].
    apply tidy_push_list_item; [apply closed_key_colon|exact Hw].
Qed.

End Emitters.

(** The number of constructors of a value. *)
Fixpoint jsize (v : JsonValue) : nat :=
  match v with
  | JPrim _ => 1
  | JArray a => S (list_sum (map jsize a))
  | JObject d => S (list_sum (map (fun kv => jsize (snd kv)) d))
  end.

Lemma list_sum_in {A} (f : A -> nat) l x : In x l -> f x <= list_sum (map f l).
Proof.
  induction l as [|y l IH]; simpl; [contradiction|].
  intros [->|H]; [lia|]. specialize (IH H). lia.
Qed.

Lemma encoders_tidy options :
  valid_delimiter (e_delimiter options) ->
  forall n v, jsize v <= n ->
    kv_tidy (encode_key_value_pair options) v
    /\ item_tidy (encode_list_item_value options) v.
Proof.
  intro Hd. induction n as [|n IH]; intros v Hn.
  - destruct v; simpl in Hn; lia.
  - assert (Sub_a : forall a x, jsize (JArray a) <= S n -> In x a -> jsize x <= n).
    { intros a x Ha Hx. simpl in Ha. pose proof (list_sum_in jsize a x Hx). lia. }
    assert (Sub_d : forall d kv, jsize (JObject d) <= S n -> In kv d -> jsize (snd kv) <= n).
    { intros d kv Ha Hx. simpl in Ha.
      pose proof (list_sum_in (fun kv => jsize (snd kv)) d kv Hx). simpl in H. lia. }
    destruct v as [p|a|d].
    + split.
      * intros key w depth Hw. simpl. apply tidy_push; [apply closed_key_value|exact Hw].
      * intros w depth Hw. simpl.
        apply tidy_push_list_item; [apply closed_encode_primitive|exact Hw].
    + split.
      * intros key w depth Hw. simpl. apply tidy_encode_array_with; auto.
        intros x Hx. apply IH. eapply Sub_a; eauto.
      * intros w depth Hw. simpl.
        destruct (is_array_of_primitives a) eqn:Ep; [|exact Hw].
        apply tidy_push_list_item; [|exact Hw]. now apply closed_inline_array_line.
    + split.
      * intros key w depth Hw. simpl. apply tidy_encode_object_with.
        -- intros kv Hkv. apply IH. eapply Sub_d; eauto.
        -- apply tidy_push; [apply closed_key_colon|exact Hw].
      * intros w depth Hw. simpl. apply tidy_encode_object_as_list_item_with; auto.
        -- intros kv Hkv. apply IH. eapply Sub_d; eauto.
        -- intros kv Hkv. pose proof (Sub_d d kv Hn Hkv) as Hs.
           destruct (snd kv) as [p|a|d'] eqn:E; [exact I| |].
           ++ intros x Hx. apply IH.
              simpl in Hs. pose proof (list_sum_in jsize a x Hx). lia.
           ++ intros kv' Hkv'. apply IH.
              simpl in Hs.
              pose proof (list_sum_in (fun kv => jsize (snd kv)) d' kv' Hkv') as Hl.
              simpl in Hl. lia.
Qed.

Lemma encode_value_hygienic v options :
  valid_delimiter (e_delimiter options) -> hygienic (encode_value v options).
Proof.
  intro Hd. destruct v as [p|a|d]; simpl.
  - apply scan_hygienic. apply closed_encode_primitive.
  - apply closed_lines_hygienic.
    apply (tidy_encode_array_with options Hd (encode_list_item_value options)).
    + intros x _. apply (encoders_tidy options Hd (jsize x) x (le_n _)).
    + apply tidy_new_writer.
  - apply closed_lines_hygienic.
    apply (tidy_encode_object_with (encode_key_value_pair options)).
    + intros kv _. apply (encoders_tidy options Hd (jsize (snd kv)) (snd kv) (le_n _)).
    + apply tidy_new_writer.
Qed.

End Hygiene.

(** C5. Output hygiene: for every value and all valid encode options, the
    string [encode] returns has no line that ends with a space and does not
    end with a newline. *)
Theorem encode_output_hygiene (V : PyValue) (opts : option EncodeOptions) (out : str) :
  valid_encode_options opts ->
  encode V opts = Ok out ->
  hygienic out.
Proof.
  intros [_ Hd] H. unfold encode in H.
  destruct (normalize_value V) as [v|e]; [|discriminate].
  cbn [bind] in H. inversion H. now apply encode_value_hygienic.
Qed.

(** The first scenario of the specification: a list of two uniform objects
    under the key [users], encoded in tabular form with the default options. *)
Lemma encode_output_hygiene_witness :
  hygienic (lit "users[2]{id,name}:" ++ [NEWLINE] ++ lit "  1,Alice" ++ [NEWLINE]
            ++ lit "  2,Bob").
Proof.
  apply (encode_output_hygiene
           (VDict true
              [(KStr (lit "users"),
                VList [VDict true [(KStr (lit "id"), VInt 1);
                                   (KStr (lit "name"), VStr (lit "Alice"))];
                       VDict true [(KStr (lit "id"), VInt 2);
                                   (KStr (lit "name"), VStr (lit "Bob"))]])])
           None).
  - split; [vm_compute; lia|left; reflexivity].
  - vm_compute. reflexivity.
Defined.

(** ** Round trip (C1) *)

Section RoundTrip.

Ltac each_char c := destruct c as [[] [] [] [] [] [] [] []].

(** *** Integers print and read back *)

Definition uint_digits (u : uint) : str := lit (NilEmpty.string_of_uint u).

Lemma uint_digits_isdigit u : forallb isdigit (uint_digits u) = true.
Proof. induction u; simpl; auto. Qed.

Definition digit_step (acc : N) (c : ascii) : N := (acc * 10 + digit_val c)%N.

Lemma digits_value_acc u : forall acc,
  fold_left digit_step (uint_digits u) (N.pos acc) = N.pos (Pos.of_uint_acc u acc).
Proof.
  induction u; intro acc; cbn [uint_digits lit NilEmpty.string_of_uint
    list_ascii_of_string fold_left Pos.of_uint_acc] in *; try reflexivity;
    rewrite <- IHu; f_equal; unfold digit_step;
    match goal with |- context [digit_val ?c] =>
      let v := eval vm_compute in (digit_val c) in change (digit_val c) with v end;
    lia.
Qed.

Lemma digits_value_uint u : digits_value (uint_digits u) = Pos.of_uint u.
Proof.
  unfold digits_value. fold digit_step.
  induction u; simpl; try reflexivity; try exact IHu;
    apply (digits_value_acc u).
Qed.

Lemma to_uint_head p :
  match uint_digits (Pos.to_uint p) with
  | c :: _ => isdigit c = true /\ ceq c "0"%char = false
  | [] => False
  end.
Proof.
  assert (H : Pos.to_uint p = nzhead (Pos.to_uint p)).
  { pose proof (Unsigned.to_of (Pos.to_uint p)) as H.
    rewrite Unsigned.of_to in H. simpl in H. rewrite H at 1.
    apply unorm_nzhead. intro E. apply unorm_0 in E.
    rewrite <- H in E. now apply Unsigned.to_uint_nonzero in E. }
  pose proof (nzhead_nonzero (Pos.to_uint p)) as Hnz.
  pose proof (Unsigned.to_uint_nonnil p) as Hnn.
  rewrite <- H in Hnz.
  destruct (Pos.to_uint p) as [|u|u|u|u|u|u|u|u|u|u]; simpl;
    try (split; reflexivity); [congruence|].
  exfalso. now apply (Hnz u).
Qed.

Lemma str_int_cases n :
  exists (neg : bool) ds,
    str_int n = (if neg then ["-"%char] else []) ++ ds
    /\ ds <> [] /\ forallb isdigit ds = true
    /\ Z.of_N (digits_value ds) = Z.abs n
    /\ neg = (n <? 0)%Z
    /\ (match ds with
        | c :: _ :: _ => ceq c "0"%char = false
        | _ => True
        end).
Proof.
  destruct n as [|p|p]; unfold str_int; simpl Z.to_int.
  - exists false, (lit "0"). repeat split; discriminate.
  - exists false, (uint_digits (Pos.to_uint p)).
    pose proof (to_uint_head p) as Hh.
    assert (E : lit (NilZero.string_of_int (Pos (Pos.to_uint p)))
                = uint_digits (Pos.to_uint p)).
    { simpl. pose proof (Unsigned.to_uint_nonnil p).
      destruct (Pos.to_uint p); try reflexivity. congruence. }
    rewrite E. split; [reflexivity|].
    split; [destruct (uint_digits (Pos.to_uint p)); [contradiction|discriminate]|].
    split; [apply uint_digits_isdigit|].
    split; [rewrite digits_value_uint, Unsigned.of_to; reflexivity|].
    split; [reflexivity|].
    destruct (uint_digits (Pos.to_uint p)) as [|c [|c' r]]; auto. tauto.
  - exists true, (uint_digits (Pos.to_uint p)).
    pose proof (to_uint_head p) as Hh.
    assert (E : lit (NilZero.string_of_int (Neg (Pos.to_uint p)))
                = "-"%char :: uint_digits (Pos.to_uint p)).
    { simpl. pose proof (Unsigned.to_uint_nonnil p).
      destruct (Pos.to_uint p); try reflexivity. congruence. }
    rewrite E. split; [reflexivity|].
    split; [destruct (uint_digits (Pos.to_uint p)); [contradiction|discriminate]|].
    split; [apply uint_digits_isdigit|].
    split; [rewrite digits_value_uint, Unsigned.of_to; reflexivity|].
    split; [reflexivity|].
    destruct (uint_digits (Pos.to_uint p)) as [|c [|c' r]]; auto. tauto.
Qed.


Lemma isdigit_plain c :
  isdigit c = true ->
  isspace c = false /\ ceq c DOUBLE_QUOTE = false /\ ceq c COLON = false
  /\ ceq c OPEN_BRACKET = false /\ ceq c NEWLINE = false /\ ceq c SPACE = false
  /\ ceq c TAB = false /\ ceq "."%char c = false /\ ceq "e"%char c = false
  /\ ceq "E"%char c = false /\ c <> "t"%char /\ c <> "f"%char /\ c <> "n"%char.
Proof.
  each_char c; vm_compute; intro H; try discriminate H; repeat split; discriminate.
Qed.

Lemma digits_value_app x y :
  digits_value (x ++ y) = fold_left digit_step y (digits_value x).
Proof. unfold digits_value. fold digit_step. apply fold_left_app. Qed.

Lemma digits_value_zeros x k :
  digits_value (x ++ repeat "0"%char k) = (digits_value x * 10 ^ N.of_nat k)%N.
Proof.
  rewrite digits_value_app. generalize (digits_value x). intro a.
  revert a. induction k as [|k IH]; intro a.
  - simpl. lia.
  - cbn [repeat fold_left]. rewrite IH. unfold digit_step.
    change (digit_val "0"%char) with 0%N.
    replace (N.of_nat (S k)) with (N.succ (N.of_nat k)) by lia.
    rewrite N.pow_succ_r'. lia.
Qed.

Lemma drop_zeros_split r : exists k, r = repeat "0"%char k ++ drop_zeros r.
Proof.
  induction r as [|c r [k IH]]; [now exists 0|].
  simpl. destruct (ceq c "0"%char) eqn:E.
  - apply ceq_true in E. subst c. exists (S k). simpl. now f_equal.
  - now exists 0.
Qed.

Lemma rev_repeat {A} (a : A) k : rev (repeat a k) = repeat a k.
Proof.
  induction k as [|k IH]; [reflexivity|].
  simpl. rewrite IH. clear IH. induction k; simpl; [reflexivity|]. now f_equal.
Qed.

(** A digit string below the overflow threshold reads as a finite float. *)
Lemma make_float_finite neg ds :
  (Z.of_N (digits_value ds) < FLOAT_OVERFLOW)%Z ->
  isfinite (make_float neg ds [] 0) = true.
Proof.
  intro H. unfold make_float. rewrite app_nil_r.
  destruct (drop_zeros_split (rev ds)) as [k Hk].
  set (sig := rev (drop_zeros (rev ds))).
  assert (Hds : ds = sig ++ repeat "0"%char k).
  { subst sig. rewrite <- (rev_involutive ds) at 1. rewrite Hk at 1.
    now rewrite rev_app_distr, rev_repeat. }
  destruct (digits_value sig =? 0)%N; [reflexivity|].
  assert (Hlen : (0 - Z.of_nat (@length ascii []) + Z.of_nat (length ds - length sig)
                  = Z.of_nat k)%Z).
  { rewrite Hds at 1. rewrite length_app, repeat_length. simpl. lia. }
  rewrite Hlen. unfold decimal_overflows.
  replace (0 <=? Z.of_nat k)%Z with true by (symmetry; apply Z.leb_le; lia).
  rewrite Hds, digits_value_zeros in H.
  rewrite N2Z.inj_mul, N2Z.inj_pow, nat_N_Z in H.
  change (Z.of_N 10) with 10%Z in H.
  replace (FLOAT_OVERFLOW <=? Z.of_N (digits_value sig) * 10 ^ Z.of_nat k)%Z with false
    by (symmetry; apply Z.leb_gt; exact H).
  reflexivity.
Qed.

Lemma py_int_signed (neg : bool) ds :
  digit_string ds ->
  py_int ((if neg then ["-"%char] else []) ++ ds)
  = Some (if neg then (- Z.of_N (digits_value ds))%Z else Z.of_N (digits_value ds)).
Proof.
  intro Hd. unfold py_int.
  rewrite strip_num_fixed.
  - assert (Dp : digitpart ds = Some (ds, [])).
    { rewrite <- (app_nil_r ds) at 1. now apply digitpart_app. }
    destruct neg; simpl.
    + now rewrite Dp.
    + now rewrite (split_sign_digits _ Hd), Dp.
  - destruct neg; simpl; [reflexivity|].
    destruct Hd as [Hne Hd]. destruct ds as [|c r]; [congruence|].
    simpl in Hd. apply andb_true_iff in Hd. destruct Hd as [Hc _].
    simpl. now apply isdigit_misc in Hc.
  - now apply ends_with_digits.
Qed.

Lemma py_int_str_int n : py_int (str_int n) = Some n.
Proof.
  destruct (str_int_cases n) as (neg & ds & -> & Hne & Hd & Hv & Hneg & _).
  rewrite py_int_signed by now split. rewrite Hv. f_equal.
  subst neg. destruct (n <? 0)%Z eqn:E.
  - apply Z.ltb_lt in E. lia.
  - apply Z.ltb_ge in E. lia.
Qed.

Lemma str_int_chars n c :
  In c (str_int n) -> c = "-"%char \/ isdigit c = true.
Proof.
  destruct (str_int_cases n) as (neg & ds & -> & _ & Hd & _).
  rewrite forallb_forall in Hd. intro H. apply in_app_or in H.
  destruct H as [H|H]; [|right; now apply Hd].
  destruct neg; [|contradiction]. destruct H as [<-|[]]. now left.
Qed.

Lemma str_int_head n :
  match str_int n with
  | c :: _ => c = "-"%char \/ isdigit c = true
  | [] => False
  end.
Proof.
  pose proof (str_int_chars n) as H.
  destruct (str_int_cases n) as (neg & ds & E & Hne & _).
  destruct (str_int n) as [|c r].
  - destruct neg, ds; simpl in E; congruence.
  - apply H. now left.
Qed.

Lemma str_int_last n :
  match rev (str_int n) with
  | c :: _ => isdigit c = true
  | [] => False
  end.
Proof.
  destruct (str_int_cases n) as (neg & ds & -> & Hne & Hd & _).
  rewrite rev_app_distr.
  assert (Hr : forallb isdigit (rev ds) = true).
  { rewrite forallb_forall in *. intros x Hx. apply Hd. now apply in_rev. }
  destruct (rev ds) as [|x r] eqn:E.
  - apply (f_equal (@rev ascii)) in E. rewrite rev_involutive in E. now subst.
  - simpl in Hr |- *. now apply andb_true_iff in Hr.
Qed.

Lemma is_numeric_literal_str_int n :
  (Z.abs n < FLOAT_OVERFLOW)%Z -> is_numeric_literal (str_int n) = true.
Proof.
  intro Hn. apply is_numeric_literal_spec.
  destruct (str_int_cases n) as (neg & ds & E & Hne & Hd & Hv & Hneg & Hz).
  rewrite E. split; [destruct neg; [discriminate|now simpl]|].
  split.
  - destruct neg; simpl.
    + destruct ds; reflexivity.
    + destruct ds as [|c [|c' r]]; try reflexivity. simpl. now rewrite Hz.
  - exists (make_float neg ds [] 0). split.
    + pose proof (py_float_number_text neg ds None None (conj Hne Hd) I I) as H.
      unfold number_text in H. simpl in H. rewrite app_nil_r in H. exact H.
    + apply make_float_finite. now rewrite Hv.
Qed.

(** What the decoder reads from the text of an integer. *)
Lemma parse_primitive_token_str_int n :
  (Z.abs n < FLOAT_OVERFLOW)%Z ->
  parse_primitive_token (str_int n) = Ok (PInt n).
Proof.
  intro Hn.
  pose proof (str_int_head n) as Hh. pose proof (str_int_last n) as Hl.
  pose proof (str_int_chars n) as Hc.
  rewrite parse_primitive_token_unquoted.
  - rewrite (is_numeric_literal_str_int n Hn).
    assert (Hp : has_point_or_exponent (str_int n) = false).
    { unfold has_point_or_exponent, contains.
      rewrite !orb_false_iff, !existsb_false_Forall. repeat split;
        apply Forall_forall; intros x Hx; destruct (Hc x Hx) as [->|Hx'];
        try reflexivity; now apply isdigit_plain in Hx'. }
    rewrite Hp, py_int_str_int. reflexivity.
  - apply strip_fixed. split.
    + destruct (str_int n) as [|c r]; [exact I|]. simpl.
      destruct Hh as [->|Hd]; [reflexivity|now apply isdigit_plain in Hd].
    + destruct (rev (str_int n)) as [|c r]; [exact I|]. simpl.
      now apply isdigit_plain in Hl.
  - destruct (str_int n) as [|c r]; [reflexivity|]. cbn [startswith].
    replace (ceq DOUBLE_QUOTE c) with false; [reflexivity|].
    destruct Hh as [->|Hd]; [reflexivity|].
    apply isdigit_plain in Hd. destruct Hd as (_ & Hq & _).
    unfold ceq in *. now rewrite Ascii.eqb_sym.
  - unfold is_boolean_or_null_literal. rewrite !orb_false_iff. repeat split;
      apply seq_eqb_false; intro E; rewrite E in Hh; simpl in Hh;
      destruct Hh as [Hh|Hh]; discriminate.
Qed.

(** *** A text of one line decodes as the primitive it spells *)

Lemma isspace_blank c :
  isspace c = false -> ceq c SPACE = false /\ ceq c TAB = false /\ ceq c NEWLINE = false.
Proof. each_char c; vm_compute; intro H; try discriminate H; repeat split. Qed.

Lemma split_acc_single c s : forall cur,
  Forall (fun x => ceq x c = false) s -> split_acc c s cur = [rev cur ++ s].
Proof.
  induction s as [|x s IH]; intros cur H; simpl.
  - now rewrite app_nil_r.
  - inversion H as [|? ? Hx Hs]; subst. rewrite Hx, IH by exact Hs.
    simpl. now rewrite <- app_assoc.
Qed.

Lemma split_single c s :
  Forall (fun x => ceq x c = false) s -> split c s = [s].
Proof. intro H. unfold split. now rewrite split_acc_single. Qed.

(** The one-line texts the encoder writes for a primitive at the root. *)
Record root_text (t : str) : Prop := {
  rt_nonempty : t <> [];
  rt_head : head_not_space t;
  rt_last : head_not_space (rev t);
  rt_one_line : Forall (fun x => ceq x NEWLINE = false) t;
  rt_no_header : startswith t [OPEN_BRACKET] = false;
  rt_no_key :
    is_key_value_line {| raw := t; indent := 0; content := t; depth := 0; line_number := 1 |}
    = false
}.



(** *** Bare texts: null, booleans, numbers and unquoted strings *)

(** The characters with a role in the line grammar. *)
Definition structural (c : ascii) : bool :=
  ceq c COLON || ceq c DOUBLE_QUOTE || ceq c OPEN_BRACKET || ceq c NEWLINE.

Record bare (t : str) : Prop := {
  bare_nonempty : t <> [];
  bare_head : head_not_space t;
  bare_last : head_not_space (rev t);
  bare_chars : Forall (fun c => structural c = false) t
}.

Lemma bare_root_text t : bare t -> root_text t.
Proof.
  intros [Hne Hh Hl Hc].
  assert (Hq : startswith t [DOUBLE_QUOTE] = false /\ startswith t [OPEN_BRACKET] = false).
  { destruct t as [|c r]; [congruence|]. inversion Hc as [|? ? Hx _]; subst.
    unfold structural in Hx. rewrite !orb_false_iff in Hx.
    destruct Hx as (((_ & Hq) & Hb) & _). cbn [startswith].
    unfold ceq in *. rewrite (Ascii.eqb_sym DOUBLE_QUOTE c), Hq.
    rewrite (Ascii.eqb_sym OPEN_BRACKET c), Hb. split; reflexivity. }
  destruct Hq as [Hq Hb].
  constructor; try assumption.
  - eapply Forall_impl; [|exact Hc]. intros c Hx. unfold structural in Hx.
    rewrite !orb_false_iff in Hx. tauto.
  - unfold is_key_value_line. cbn [content]. rewrite Hq.
    apply contains_false. eapply Forall_impl; [|exact Hc]. intros c Hx.
    unfold structural in Hx. rewrite !orb_false_iff in Hx. tauto.
Qed.

Lemma bare_str_int n : bare (str_int n).
Proof.
  pose proof (str_int_head n) as Hh. pose proof (str_int_last n) as Hl.
  constructor.
  - destruct (str_int n); [contradiction|discriminate].
  - destruct (str_int n) as [|c r]; [exact I|]. simpl.
    destruct Hh as [->|Hd]; [reflexivity|now apply isdigit_plain in Hd].
  - destruct (rev (str_int n)) as [|c r]; [exact I|]. simpl.
    now apply isdigit_plain in Hl.
  - apply Forall_forall. intros c Hc. apply str_int_chars in Hc.
    destruct Hc as [->|Hd]; [reflexivity|].
    apply isdigit_plain in Hd. unfold structural. rewrite !orb_false_iff. tauto.
Qed.

Lemma bare_safe_unquoted s delim : safe_unquoted s delim -> bare s.
Proof.
  intros (Hne & Hh & Hl & _ & _ & Hc & _). constructor; try assumption.
  eapply Forall_impl; [|exact Hc]. intros c Hx.
  unfold forbidden_unquoted in Hx. unfold structural.
  rewrite !orb_false_iff in *. tauto.
Qed.

(** *** Quoted texts *)

Definition quoted (s : str) : str := [DOUBLE_QUOTE] ++ escape_string s ++ [DOUBLE_QUOTE].

Lemma find_closing_quote_loop_plain c tl i :
  tl <> [] -> ceq c BACKSLASH = false -> ceq c DOUBLE_QUOTE = false ->
  find_closing_quote_loop (c :: tl) i = find_closing_quote_loop tl (i + 1).
Proof.
  intros Hne Hb Hq. destruct tl as [|a tl]; [congruence|].
  change (find_closing_quote_loop (c :: a :: tl) i)
    with (if ceq c BACKSLASH then find_closing_quote_loop tl (i + 2)
          else if ceq c DOUBLE_QUOTE then Some i
          else find_closing_quote_loop (a :: tl) (i + 1)).
  now rewrite Hb, Hq.
Qed.

Lemma find_closing_quote_escaped s : forall i,
  find_closing_quote_loop (flat_map escape_char s ++ [DOUBLE_QUOTE]) i
  = Some (i + length (flat_map escape_char s)).
Proof.
  induction s as [|c s IH]; intro i.
  - simpl. f_equal. lia.
  - cbn [flat_map]. rewrite length_app, <- app_assoc.
    destruct (is_escaped_char c) eqn:E.
    + assert (Hc : exists x, escape_char c = [BACKSLASH; x]).
      { revert E. each_char c; vm_compute; intro E; try discriminate E; eauto. }
      destruct Hc as [x ->]. cbn [app find_closing_quote_loop length].
      change (ceq BACKSLASH BACKSLASH) with true. cbn iota.
      rewrite IH. f_equal. lia.
    + rewrite (escape_char_plain c E). cbn [app length].
      assert (Hn : ceq c BACKSLASH = false /\ ceq c DOUBLE_QUOTE = false).
      { unfold is_escaped_char in E. rewrite !orb_false_iff in E. tauto. }
      destruct Hn as [Hb Hq].
      rewrite find_closing_quote_loop_plain, IH; try assumption; [f_equal; lia|].
      destruct (flat_map escape_char s); discriminate.
Qed.

Lemma escape_one_line s : Forall (fun x => ceq x NEWLINE = false) (escape_string s).
Proof.
  rewrite escape_string_flat_map. induction s as [|c s IH]; [constructor|].
  cbn [flat_map]. apply Forall_app. split; [|exact IH].
  each_char c; repeat constructor.
Qed.

Lemma startswith_quoted s : startswith (quoted s) [DOUBLE_QUOTE] = true.
Proof. unfold quoted. cbn [app startswith]. now destruct (escape_string s ++ [DOUBLE_QUOTE]). Qed.

Lemma find_closing_quote_quoted s :
  find_closing_quote (quoted s) 0 = Some (length (escape_string s) + 1).
Proof.
  unfold find_closing_quote, quoted. cbn [Nat.add app skipn].
  rewrite escape_string_flat_map, find_closing_quote_escaped. f_equal. lia.
Qed.

Lemma quoted_strip s : strip (quoted s) = quoted s.
Proof.
  apply strip_fixed. unfold quoted. split; [reflexivity|].
  cbn [app]. rewrite app_comm_cons, rev_app_distr. reflexivity.
Qed.

Lemma quoted_length s : length (quoted s) = length (escape_string s) + 2.
Proof. unfold quoted. cbn [app length]. rewrite length_app. simpl. lia. Qed.

Lemma root_text_quoted s : root_text (quoted s).
Proof.
  pose proof (quoted_strip s) as Hs. apply strip_fixed in Hs. destruct Hs as [Hh Hl].
  constructor; try assumption.
  - discriminate.
  - unfold quoted. cbn [app]. constructor; [reflexivity|].
    apply Forall_app. split; [apply escape_one_line|repeat constructor].
  - unfold is_key_value_line. cbn [content].
    rewrite startswith_quoted.
    rewrite find_closing_quote_quoted.
    replace (nth_error (quoted s) (length (escape_string s) + 1 + 1)) with (@None ascii);
      [reflexivity|].
    symmetry. apply nth_error_None. rewrite quoted_length. lia.
Qed.

Lemma parse_string_literal_quoted s : parse_string_literal (quoted s) = Ok s.
Proof.
  unfold parse_string_literal. rewrite quoted_strip.
  rewrite startswith_quoted.
  rewrite find_closing_quote_quoted, quoted_length.
  replace (length (escape_string s) + 1 =? length (escape_string s) + 2 - 1) with true
    by (symmetry; apply Nat.eqb_eq; lia).
  cbn [negb]. unfold slice, quoted. cbn [app skipn].
  replace (length (escape_string s) + 1 - 1) with (length (escape_string s)) by lia.
  rewrite firstn_app, firstn_all, Nat.sub_diag. cbn [firstn]. rewrite app_nil_r.
  apply unescape_escape.
Qed.

Lemma parse_primitive_token_quoted s : parse_primitive_token (quoted s) = Ok (PStr s).
Proof.
  unfold parse_primitive_token. rewrite quoted_strip.
  change (is_empty (quoted s)) with false.
  rewrite startswith_quoted.
  now rewrite parse_string_literal_quoted.
Qed.

(** *** Floats print and read back *)

Definition N_digits (m : N) : str := lit (NilZero.string_of_uint (N.to_uint m)).

Definition zeros (k : nat) : str := repeat "0"%char k.

Definition ends_nonzero (ds : str) : Prop :=
  match rev ds with
  | c :: _ => ceq c "0"%char = false
  | [] => False
  end.

Definition starts_nonzero (ds : str) : Prop :=
  match ds with
  | c :: _ => ceq c "0"%char = false
  | [] => False
  end.

Lemma N_digits_facts m :
  digit_string (N_digits m) /\ digits_value (N_digits m) = m
  /\ (m <> 0%N -> starts_nonzero (N_digits m)).
Proof.
  destruct m as [|p].
  - repeat split; try reflexivity; try discriminate. intro H; congruence.
  - assert (E : N_digits (N.pos p) = uint_digits (Pos.to_uint p)).
    { unfold N_digits, uint_digits. simpl N.to_uint.
      pose proof (Unsigned.to_uint_nonnil p).
      unfold NilZero.string_of_uint. destruct (Pos.to_uint p); try reflexivity. congruence. }
    rewrite E. pose proof (to_uint_head p) as Hh.
    split; [split|split].
    + destruct (uint_digits _); [contradiction|discriminate].
    + apply uint_digits_isdigit.
    + rewrite digits_value_uint. apply Unsigned.of_to.
    + intros _. unfold starts_nonzero. destruct (uint_digits _); [contradiction|tauto].
Qed.

Lemma digits_value_lead k ds : digits_value (zeros k ++ ds) = digits_value ds.
Proof.
  rewrite digits_value_app.
  replace (digits_value (zeros k)) with 0%N; [reflexivity|].
  pose proof (digits_value_zeros [] k) as H. simpl app in H. unfold zeros. rewrite H.
  reflexivity.
Qed.

Lemma ends_nonzero_app a ds : ends_nonzero ds -> ends_nonzero (a ++ ds).
Proof.
  unfold ends_nonzero. rewrite rev_app_distr.
  destruct (rev ds); [contradiction|]. now simpl.
Qed.

Lemma drop_zeros_trailing ds k :
  ends_nonzero ds -> rev (drop_zeros (rev (ds ++ zeros k))) = ds.
Proof.
  intro H. rewrite rev_app_distr. unfold zeros. rewrite rev_repeat.
  unfold ends_nonzero in H. destruct (rev ds) as [|c r] eqn:E; [contradiction|].
  assert (D : drop_zeros (repeat "0"%char k ++ c :: r) = c :: r).
  { induction k as [|k IH]; simpl; [now rewrite H|exact IH]. }
  rewrite D, <- E. apply rev_involutive.
Qed.

Lemma N_digits_ends_nonzero m : (m mod 10 <> 0)%N -> ends_nonzero (N_digits m).
Proof.
  intro H. destruct (N_digits_facts m) as ((Hne & Hd) & Hv & _).
  unfold ends_nonzero. destruct (rev (N_digits m)) as [|c r] eqn:E.
  - apply (f_equal (@rev ascii)) in E. rewrite rev_involutive in E. simpl in E. congruence.
  - destruct (ceq c "0"%char) eqn:Ec; [|reflexivity]. apply ceq_true in Ec. subst c.
    apply (f_equal (@rev ascii)) in E. rewrite rev_involutive in E. simpl in E.
    rewrite E, digits_value_app in Hv. cbn [fold_left] in Hv. unfold digit_step in Hv.
    change (digit_val "0"%char) with 0%N in Hv.
    exfalso. apply H. rewrite <- Hv, N.add_0_r. apply N.Div0.mod_mul.
Qed.

(** What [float()] makes of digits that spell [ds] between zeros. *)
Lemma make_float_digits neg i f x j ds k :
  i ++ f = zeros j ++ ds ++ zeros k -> ends_nonzero ds -> digits_value ds <> 0%N ->
  make_float neg i f x
  = if decimal_overflows (digits_value ds) (x - Z.of_nat (length f) + Z.of_nat k)
    then FInf neg
    else FFinite neg (digits_value ds) (x - Z.of_nat (length f) + Z.of_nat k).
Proof.
  intros E Hz Hm. unfold make_float. rewrite E.
  replace (zeros j ++ ds ++ zeros k) with ((zeros j ++ ds) ++ zeros k)
    by now rewrite app_assoc.
  rewrite drop_zeros_trailing by now apply ends_nonzero_app.
  rewrite digits_value_lead.
  destruct (digits_value ds =? 0)%N eqn:E0; [apply N.eqb_eq in E0; congruence|].
  rewrite length_app.
  replace (length (zeros k)) with k by (unfold zeros; now rewrite repeat_length).
  replace (length (zeros j ++ ds) + k - length (zeros j ++ ds)) with k by lia.
  reflexivity.
Qed.

Definition numchar (c : ascii) : bool :=
  isdigit c || ceq c "-"%char || ceq c "+"%char || ceq c "."%char
  || ceq c "e"%char || ceq c "E"%char.

Lemma numchar_plain c :
  numchar c = true ->
  isspace c = false /\ structural c = false
  /\ c <> "t"%char /\ c <> "f"%char /\ c <> "n"%char.
Proof.
  each_char c; vm_compute; intro H; try discriminate H; repeat split; discriminate.
Qed.

Lemma digits_numchar ds : forallb isdigit ds = true -> Forall (fun c => numchar c = true) ds.
Proof.
  intro H. apply Forall_forall. intros c Hc.
  rewrite forallb_forall in H. unfold numchar. now rewrite (H c Hc).
Qed.

Lemma number_text_numchar neg i frac ex :
  digit_string i -> frac_ok frac -> exp_ok ex ->
  Forall (fun c => numchar c = true) (number_text neg i frac ex).
Proof.
  intros [_ Hi] Hf He. unfold number_text.
  apply Forall_app; split; [|apply Forall_app; split; [|apply Forall_app; split]].
  - destruct neg; repeat constructor.
  - now apply digits_numchar.
  - destruct frac as [f|]; [|constructor]. destruct Hf as [_ Hf].
    constructor; [reflexivity|now apply digits_numchar].
  - destruct ex as [[[m sg] ds]|]; [|constructor]. destruct He as [Hm [_ Hd]].
    constructor; [destruct Hm; subst; reflexivity|].
    apply Forall_app. split; [|now apply digits_numchar].
    destruct sg as [[]|]; repeat constructor.
Qed.

Lemma numchar_bare t : t <> [] -> Forall (fun c => numchar c = true) t -> bare t.
Proof.
  intros Hne H. constructor.
  - exact Hne.
  - destruct t as [|c r]; [exact I|]. inversion H; subst. simpl. now apply numchar_plain.
  - apply Forall_rev in H. destruct (rev t) as [|c r]; [exact I|].
    inversion H; subst. simpl. now apply numchar_plain.
  - eapply Forall_impl; [|exact H]. intros c Hc. now apply numchar_plain.
Qed.

Lemma bare_unquoted t :
  bare t ->
  strip t = t /\ startswith t [DOUBLE_QUOTE] = false.
Proof.
  intros [Hne Hh Hl Hc]. split; [apply strip_fixed; now split|].
  destruct t as [|c r]; [congruence|]. inversion Hc as [|? ? Hx _]; subst.
  unfold structural in Hx. rewrite !orb_false_iff in Hx.
  destruct Hx as (((_ & Hq) & _) & _). cbn [startswith].
  unfold ceq in *. now rewrite (Ascii.eqb_sym DOUBLE_QUOTE c), Hq.
Qed.

Lemma numchar_not_literal t :
  Forall (fun c => numchar c = true) t -> is_boolean_or_null_literal t = false.
Proof.
  intro H. unfold is_boolean_or_null_literal. rewrite !orb_false_iff.
  repeat split; apply seq_eqb_false; intro E; subst t;
    inversion H as [|? ? Hx _]; discriminate Hx.
Qed.

Lemma no_leading_zero_number neg i frac ex :
  digit_string i ->
  starts_nonzero i \/ (i = ["0"%char] /\ frac <> None) ->
  no_leading_zero (number_text neg i frac ex) = true.
Proof.
  intros [Hne _] H. unfold number_text. destruct i as [|c r]; [congruence|].
  destruct neg; [reflexivity|]. cbn [app].
  destruct H as [H|[H Hf]].
  - simpl in H. unfold no_leading_zero.
    destruct (r ++ frac_text frac ++ exp_text ex); [reflexivity|]. now rewrite H.
  - inversion H; subst. destruct frac as [f|]; [reflexivity|congruence].
Qed.

Lemma has_point_or_exponent_number neg i frac ex :
  frac <> None \/ (exists sg ds, ex = Some ("e"%char, sg, ds)) ->
  has_point_or_exponent (number_text neg i frac ex) = true.
Proof.
  intro H. unfold has_point_or_exponent, number_text.
  destruct H as [H|(sg & ds & ->)].
  - destruct frac as [f|]; [|congruence].
    replace (contains "."%char ((if neg then ["-"%char] else []) ++ i
                                 ++ frac_text (Some f) ++ exp_text ex)) with true;
      [reflexivity|].
    symmetry. apply contains_In. apply in_or_app. right. apply in_or_app. right.
    now left.
  - replace (contains "e"%char ((if neg then ["-"%char] else []) ++ i ++ frac_text frac
                                 ++ exp_text (Some ("e"%char, sg, ds)))) with true;
      [now rewrite orb_true_r|].
    symmetry. apply contains_In. apply in_or_app. right. apply in_or_app. right.
    apply in_or_app. right. now left.
Qed.

(** A number text with a point or an exponent decodes as the float it spells. *)
Lemma number_text_decodes neg i frac ex f :
  digit_string i -> frac_ok frac -> exp_ok ex ->
  frac <> None \/ (exists sg ds, ex = Some ("e"%char, sg, ds)) ->
  starts_nonzero i \/ (i = ["0"%char] /\ frac <> None) ->
  make_float neg i (match frac with Some ds => ds | None => [] end) (exp_value ex) = f ->
  isfinite f = true ->
  bare (number_text neg i frac ex)
  /\ parse_primitive_token (number_text neg i frac ex) = Ok (PFloat f).
Proof.
  intros Hi Hf He Hpe Hz Hm Hfin.
  pose proof (number_text_numchar neg i frac ex Hi Hf He) as Hc.
  assert (Hne : number_text neg i frac ex <> []).
  { unfold number_text. destruct Hi as [Hi _]. destruct i; [congruence|].
    destruct neg; discriminate. }
  pose proof (numchar_bare _ Hne Hc) as Hb. split; [exact Hb|].
  destruct (bare_unquoted _ Hb) as [Hs Hq].
  rewrite parse_primitive_token_unquoted;
    [|exact Hs|exact Hq|now apply numchar_not_literal].
  pose proof (py_float_number_text neg i frac ex Hi Hf He) as Hpf. rewrite Hm in Hpf.
  assert (Hnum : is_numeric_literal (number_text neg i frac ex) = true).
  { apply is_numeric_literal_spec. split; [exact Hne|]. split.
    - now apply no_leading_zero_number.
    - now exists f. }
  rewrite Hnum, has_point_or_exponent_number by exact Hpe. now rewrite Hpf.
Qed.

(** The floats that print and read back: finite, with a mantissa that has no
    trailing zero and stays below the overflow threshold; the only zero is
    [0.0], since the encoder turns [-0.0] into the integer 0. *)
Definition canonical_float (f : PyFloat) : Prop :=
  match f with
  | FFinite neg m e =>
      if (m =? 0)%N then neg = false /\ e = 0%Z
      else (m mod 10 <> 0)%N /\ decimal_overflows m e = false
  | _ => False
  end.

Lemma zeros_snoc k : zeros k ++ ["0"%char] = zeros (S k).
Proof. unfold zeros. induction k as [|k IH]; simpl; [reflexivity|]. now rewrite IH. Qed.

Lemma zeros_digits k : forallb isdigit (zeros k) = true.
Proof. induction k as [|k IH]; simpl; [reflexivity|exact IH]. Qed.

Lemma zeros_length k : length (zeros k) = k.
Proof. apply repeat_length. Qed.

Ltac spelled_by E :=
  match goal with
  | |- bare ?t /\ _ =>
      let H := fresh in
      assert (H : t = _) by exact E; rewrite H; clear H
  end.

Lemma str_float_decodes f :
  canonical_float f ->
  bare (str_float f) /\ parse_primitive_token (str_float f) = Ok (PFloat f).
Proof.
  destruct f as [neg m e| |]; try contradiction. simpl canonical_float.
  destruct (m =? 0)%N eqn:Em.
  { intros [-> ->]. apply N.eqb_eq in Em. subst m. split.
    - apply numchar_bare; [discriminate|repeat constructor].
    - reflexivity. }
  intros [Hmod Hov]. pose proof Em as Em'. apply N.eqb_neq in Em.
  destruct (N_digits_facts m) as (Hds & Hv & Hnz). specialize (Hnz Em).
  pose proof (N_digits_ends_nonzero m Hmod) as Hend.
  unfold str_float. rewrite Em'. fold (N_digits m).
  assert (Hmake : forall i f x j k,
             i ++ f = zeros j ++ N_digits m ++ zeros k ->
             (x - Z.of_nat (length f) + Z.of_nat k = e)%Z ->
             make_float neg i f x = FFinite neg m e).
  { intros i f x j k E1 E2.
    rewrite (make_float_digits neg i f x j (N_digits m) k E1 Hend) by now rewrite Hv.
    now rewrite E2, Hv, Hov. }
  set (ds := N_digits m) in *. clearbody ds.
  set (n := Z.of_nat (length ds)). cbv zeta.
  destruct Hds as [Hne Hdig].
  destruct ds as [|c r]; [congruence|].
  assert (Hn : n = (Z.of_nat (length r) + 1)%Z) by (unfold n; simpl length; lia).
  destruct ((n + e <=? -4) || (16 <? n + e))%Z eqn:C1.
  - (* exponent form *)
    set (x := (n + e - 1)%Z).
    destruct (N_digits_facts (Z.to_N (Z.abs x))) as (Hxs & Hxv & _).
    fold (N_digits (Z.to_N (Z.abs x))).
    set (xs := N_digits (Z.to_N (Z.abs x))) in *. clearbody xs.
    set (xs2 := if length xs <? 2 then "0"%char :: xs else xs).
    assert (Hxs2 : digit_string xs2 /\ digits_value xs2 = Z.to_N (Z.abs x)).
    { unfold xs2. destruct (length xs <? 2); [|now split].
      split; [split; [discriminate|]|].
      - simpl. now destruct Hxs.
      - rewrite <- Hxv. apply (digits_value_lead 1 xs). }
    destruct Hxs2 as [Hxd Hxv2].
    set (frac := match r with [] => None | _ => Some r end).
    assert (Et : (if neg then lit "-" else []) ++ firstn 1 (c :: r)
                 ++ (if length (c :: r) <=? 1 then [] else "."%char :: skipn 1 (c :: r))
                 ++ ["e"%char] ++ (if (x <? 0)%Z then lit "-" else lit "+") ++ xs2
                 = number_text neg [c] frac (Some ("e"%char, Some (x <? 0)%Z, xs2))).
    { unfold number_text, frac. destruct r; destruct (x <? 0)%Z; reflexivity. }
    spelled_by Et. apply number_text_decodes.
    + split; [discriminate|]. simpl in Hdig |- *.
      apply andb_true_iff in Hdig. destruct Hdig as [-> _]. reflexivity.
    + unfold frac. destruct r as [|c' r']; [exact I|]. split; [discriminate|].
      simpl in Hdig. now apply andb_true_iff in Hdig.
    + split; [now left|exact Hxd].
    + right. eauto.
    + left. exact Hnz.
    + apply (Hmake _ _ _ 0 0).
      * unfold frac. destruct r; simpl; now rewrite ?app_nil_r.
      * cbn [exp_value]. rewrite Hxv2. unfold frac.
        destruct (x <? 0)%Z eqn:Ex;
          [apply Z.ltb_lt in Ex|apply Z.ltb_ge in Ex]; unfold x in *;
          destruct r; simpl length in *; lia.
    + reflexivity.
  - apply orb_false_iff in C1. destruct C1 as [C1 C2].
    apply Z.leb_gt in C1. apply Z.ltb_ge in C2.
    destruct (n + e <=? 0)%Z eqn:C3.
    + (* 0.000ddd *)
      apply Z.leb_le in C3.
      set (k := Z.to_nat (- (n + e))).
      assert (Et : (if neg then lit "-" else []) ++ lit "0." ++ repeat "0"%char k ++ c :: r
                   = number_text neg ["0"%char] (Some (zeros k ++ c :: r)) None).
      { unfold number_text. simpl. now rewrite app_nil_r. }
      spelled_by Et. apply number_text_decodes.
      * split; [discriminate|reflexivity].
      * split; [destruct (zeros k); discriminate|].
        rewrite forallb_app, zeros_digits. exact Hdig.
      * exact I.
      * left. discriminate.
      * right. split; [reflexivity|discriminate].
      * apply (Hmake _ _ _ (S k) 0).
        -- simpl. now rewrite app_nil_r.
        -- cbn [exp_value]. rewrite length_app, zeros_length. simpl length.
           unfold k. lia.
      * reflexivity.
    + apply Z.leb_gt in C3.
      destruct (n <=? n + e)%Z eqn:C4.
      * (* ddd000.0 *)
        apply Z.leb_le in C4.
        set (k := Z.to_nat (n + e - n)).
        assert (Et : (if neg then lit "-" else []) ++ (c :: r) ++ repeat "0"%char k ++ lit ".0"
                     = number_text neg ((c :: r) ++ zeros k) (Some ["0"%char]) None).
        { unfold number_text. simpl. now rewrite <- app_assoc. }
        spelled_by Et. apply number_text_decodes.
        -- split; [discriminate|]. rewrite forallb_app, zeros_digits, Hdig. reflexivity.
        -- split; [discriminate|reflexivity].
        -- exact I.
        -- left. discriminate.
        -- left. exact Hnz.
        -- apply (Hmake _ _ _ 0 (S k)).
           ++ simpl. rewrite <- app_assoc. f_equal. f_equal. apply (zeros_snoc k).
           ++ cbn [exp_value length]. unfold k. lia.
        -- reflexivity.
      * (* ddd.ddd *)
        apply Z.leb_gt in C4.
        set (d := Z.to_nat (n + e)).
        assert (Hd : 0 < d < length (c :: r)) by (unfold d; simpl length; lia).
        assert (Et : (if neg then lit "-" else []) ++ firstn d (c :: r) ++ ["."%char]
                     ++ skipn d (c :: r)
                     = number_text neg (firstn d (c :: r)) (Some (skipn d (c :: r))) None).
        { unfold number_text. simpl frac_text. simpl exp_text. now rewrite app_nil_r. }
        spelled_by Et.
        assert (Hsplit : forallb isdigit (firstn d (c :: r)) = true
                         /\ forallb isdigit (skipn d (c :: r)) = true).
        { rewrite <- (firstn_skipn d (c :: r)) in Hdig.
          rewrite forallb_app in Hdig. now apply andb_true_iff in Hdig. }
        apply number_text_decodes.
        -- split; [|apply Hsplit]. destruct d; [lia|discriminate].
        -- split; [|apply Hsplit]. intro E.
           apply (f_equal (@length ascii)) in E. rewrite length_skipn in E.
           cbn [length] in E, Hd. lia.
        -- exact I.
        -- left. discriminate.
        -- left. destruct d; [lia|exact Hnz].
        -- apply (Hmake _ _ _ 0 0).
           ++ simpl. rewrite app_nil_r. apply firstn_skipn.
           ++ cbn [exp_value]. rewrite length_skipn. unfold d. simpl length. lia.
        -- reflexivity.
Qed.

(** *** Primitives at the root *)

(** The primitives whose text reads back as themselves: integers the host can
    test for finiteness, floats in canonical form, and strings that, when
    they are written without quotes, are not read as a number by the host's
    float parser. *)
Definition round_trip_primitive (delim : ascii) (p : JsonPrimitive) : Prop :=
  match p with
  | PNull | PBool _ => True
  | PInt n => (Z.abs n < FLOAT_OVERFLOW)%Z
  | PFloat f => canonical_float f
  | PStr s => is_safe_unquoted s delim = true -> is_numeric_literal s = false
  end.

Lemma encode_primitive_decodes delim p :
  round_trip_primitive delim p ->
  root_text (encode_primitive p delim)
  /\ parse_primitive_token (encode_primitive p delim) = Ok p.
Proof.
  destruct p as [|b|n|f|s]; simpl round_trip_primitive; intro H.
  - split; [|reflexivity]. apply bare_root_text.
    constructor; try exact I; try discriminate; try reflexivity. repeat constructor.
  - split; [|now destruct b]. apply bare_root_text.
    destruct b; (constructor; try exact I; try discriminate; try reflexivity;
      repeat constructor).
  - split; [apply bare_root_text, bare_str_int|now apply parse_primitive_token_str_int].
  - destruct (str_float_decodes f H) as [Hb Hp]. split; [now apply bare_root_text|exact Hp].
  - cbn [encode_primitive]. unfold encode_string_literal.
    destruct (is_safe_unquoted s delim) eqn:E.
    + specialize (H eq_refl). apply is_safe_unquoted_spec in E.
      pose proof (bare_safe_unquoted s delim E) as Hb.
      split; [now apply bare_root_text|].
      destruct (bare_unquoted s Hb) as [Hs Hq].
      destruct E as (_ & _ & _ & Hl & _).
      rewrite parse_primitive_token_unquoted by assumption. now rewrite H.
    + split; [apply root_text_quoted|apply parse_primitive_token_quoted].
Qed.

End RoundTrip.

(** The host value a primitive stands for. *)
Definition py_of_primitive (p : JsonPrimitive) : PyValue :=
  match p with
  | PNull => VNone
  | PBool b => VBool b
  | PInt n => VInt n
  | PFloat f => VFloat f
  | PStr s => VStr s
  end.

(** Value-equality of a host value and a decoded value: primitives by kind
    and value, sequences element-wise in order, mappings by their ordered
    key-value pairs. *)
#[warnings="-register-all"]
Inductive value_equal : PyValue -> JsonValue -> Prop :=
| ve_none : value_equal VNone (JPrim PNull)
| ve_bool b : value_equal (VBool b) (JPrim (PBool b))
| ve_int n : value_equal (VInt n) (JPrim (PInt n))
| ve_float f : value_equal (VFloat f) (JPrim (PFloat f))
| ve_str s : value_equal (VStr s) (JPrim (PStr s))
| ve_list vs js :
    Forall2 value_equal vs js -> value_equal (VList vs) (JArray js)
| ve_dict items d :
    Forall2 (fun kv kj => fst kv = KStr (fst kj) /\ value_equal (snd kv) (snd kj)) items d ->
    value_equal (VDict true items) (JObject d).

(** [decode(encode(V, opts), opts)] returns a value equal to [V]. *)
Definition round_trips (V : PyValue) (eopts : option EncodeOptions)
  (dopts : option DecodeOptions) : Prop :=
  exists text J,
    encode V eopts = Ok text /\ decode text dopts = Ok J /\ value_equal V J.




(** * Further properties of the code *)

(** ** Primitive tokens: which primitives read back *)

Section TokenRoundTrip.




End TokenRoundTrip.


(** ** The quote and character finders of [string_utils] *)

Section Finders.

Lemma find_closing_quote_loop_sound : forall n rest i j,
  length rest <= n ->
  find_closing_quote_loop rest i = Some j ->
  i <= j
  /\ nth_error rest (j - i) = Some DOUBLE_QUOTE
  /\ (forall k, k < j - i -> nth_error rest k = Some DOUBLE_QUOTE ->
        0 < k /\ nth_error rest (k - 1) = Some BACKSLASH).
Proof.
  induction n as [|n IH]; intros rest i j Hn H.
  - destruct rest; [discriminate|simpl in Hn; lia].
  - destruct rest as [|c tl]; [discriminate|]. simpl in Hn.
    destruct tl as [|x tl'].
    + cbn [find_closing_quote_loop] in H.
      destruct (ceq c DOUBLE_QUOTE) eqn:Eq; [|discriminate].
      inversion H; subst j. apply ceq_true in Eq. subst c.
      rewrite Nat.sub_diag. split; [lia|]. split; [reflexivity|]. intros k Hk. lia.
    + change (find_closing_quote_loop (c :: x :: tl') i)
        with (if ceq c BACKSLASH then find_closing_quote_loop tl' (i + 2)
              else if ceq c DOUBLE_QUOTE then Some i
              else find_closing_quote_loop (x :: tl') (i + 1)) in H.
      destruct (ceq c BACKSLASH) eqn:Eb.
      * apply ceq_true in Eb. subst c.
        destruct (IH tl' (i + 2) j ltac:(simpl in Hn; lia) H) as (Hij & Hq & Hbetween).
        split; [lia|].
        replace (j - i) with (S (S (j - (i + 2)))) by lia.
        split; [exact Hq|].
        intros k Hk Hkq. destruct k as [|[|k']].
        -- discriminate Hkq.
        -- split; [lia|reflexivity].
        -- cbn [nth_error] in Hkq.
           destruct (Hbetween k' ltac:(lia) Hkq) as [Hk0 Hb].
           split; [lia|]. replace (S (S k') - 1) with (S (S (k' - 1))) by lia. exact Hb.
      * destruct (ceq c DOUBLE_QUOTE) eqn:Eq.
        -- inversion H; subst j. apply ceq_true in Eq. subst c.
           rewrite Nat.sub_diag. split; [lia|]. split; [reflexivity|]. intros k Hk. lia.
        -- destruct (IH (x :: tl') (i + 1) j ltac:(simpl in Hn |- *; lia) H)
             as (Hij & Hq & Hbetween).
           split; [lia|].
           replace (j - i) with (S (j - (i + 1))) by lia.
           split; [exact Hq|].
           intros k Hk Hkq. destruct k as [|k'].
           ++ cbn [nth_error] in Hkq. inversion Hkq; subst c.
              unfold ceq in Eq. now rewrite Ascii.eqb_refl in Eq.
           ++ cbn [nth_error] in Hkq.
              destruct (Hbetween k' ltac:(lia) Hkq) as [Hk0 Hb].
              split; [lia|]. replace (S k' - 1) with (S (k' - 1)) by lia. exact Hb.
Qed.

Lemma find_unquoted_char_loop_sound : forall n rest char q i j,
  length rest <= n ->
  find_unquoted_char_loop rest char q i = Some j ->
  i <= j /\ nth_error rest (j - i) = Some char /\ char <> DOUBLE_QUOTE.
Proof.
  induction n as [|n IH]; intros rest char q i j Hn H.
  - destruct rest; [discriminate|simpl in Hn; lia].
  - destruct rest as [|c tl]; [discriminate|]. simpl in Hn.
    destruct tl as [|x tl'].
    + cbn [find_unquoted_char_loop] in H.
      destruct (ceq c DOUBLE_QUOTE) eqn:Eq; [discriminate|].
      destruct (ceq c char && negb q) eqn:Ec; [|discriminate].
      inversion H; subst j. apply andb_true_iff in Ec. destruct Ec as [Ec _].
      apply ceq_true in Ec. subst c. rewrite Nat.sub_diag.
      repeat split; auto. intro E. subst char.
      unfold ceq in Eq. now rewrite Ascii.eqb_refl in Eq.
    + change (find_unquoted_char_loop (c :: x :: tl') char q i)
        with (if ceq c BACKSLASH && q
              then find_unquoted_char_loop tl' char q (i + 2)
              else if ceq c DOUBLE_QUOTE
                   then find_unquoted_char_loop (x :: tl') char (negb q) (i + 1)
                   else if ceq c char && negb q then Some i
                        else find_unquoted_char_loop (x :: tl') char q (i + 1)) in H.
      destruct (ceq c BACKSLASH && q).
      * destruct (IH tl' char q (i + 2) j ltac:(simpl in Hn; lia) H) as (Hij & Hc & Hne).
        split; [lia|]. replace (j - i) with (S (S (j - (i + 2)))) by lia. now split.
      * destruct (ceq c DOUBLE_QUOTE) eqn:Eq.
        -- destruct (IH (x :: tl') char (negb q) (i + 1) j ltac:(simpl in Hn |- *; lia) H)
             as (Hij & Hc & Hne).
           split; [lia|]. replace (j - i) with (S (j - (i + 1))) by lia. now split.
        -- destruct (ceq c char && negb q) eqn:Ec.
           ++ inversion H; subst j. apply andb_true_iff in Ec. destruct Ec as [Ec _].
              apply ceq_true in Ec. subst c. rewrite Nat.sub_diag.
              repeat split; auto. intro E. subst char.
              unfold ceq in Eq. now rewrite Ascii.eqb_refl in Eq.
           ++ destruct (IH (x :: tl') char q (i + 1) j ltac:(simpl in Hn |- *; lia) H)
                as (Hij & Hc & Hne).
              split; [lia|]. replace (j - i) with (S (j - (i + 1))) by lia. now split.
Qed.

End Finders.

(** The closing quote that [find_closing_quote] returns lies after [start],
    is a double quote, and every double quote strictly between the two is
    preceded by a backslash. *)
Theorem find_closing_quote_sound (content : str) (start j : nat) :
  find_closing_quote content start = Some j ->
  start < j
  /\ nth_error content j = Some DOUBLE_QUOTE
  /\ (forall k, start < k < j -> nth_error content k = Some DOUBLE_QUOTE ->
        nth_error content (k - 1) = Some BACKSLASH).
Proof.
  unfold find_closing_quote. intro H.
  destruct (find_closing_quote_loop_sound _ _ _ _ (le_n _) H) as (Hij & Hq & Hb).
  rewrite nth_error_skipn in Hq.
  replace (start + 1 + (j - (start + 1))) with j in Hq by lia.
  split; [lia|]. split; [exact Hq|].
  intros k Hk Hkq.
  specialize (Hb (k - (start + 1)) ltac:(lia)).
  rewrite !nth_error_skipn in Hb.
  replace (start + 1 + (k - (start + 1))) with k in Hb by lia.
  destruct (Hb Hkq) as [Hpos Hbs].
  replace (start + 1 + (k - (start + 1) - 1)) with (k - 1) in Hbs by lia. exact Hbs.
Qed.

Lemma find_closing_quote_sound_witness :
  0 < 3
  /\ nth_error [DOUBLE_QUOTE; BACKSLASH; DOUBLE_QUOTE; DOUBLE_QUOTE] 3 = Some DOUBLE_QUOTE
  /\ (forall k, 0 < k < 3 ->
        nth_error [DOUBLE_QUOTE; BACKSLASH; DOUBLE_QUOTE; DOUBLE_QUOTE] k = Some DOUBLE_QUOTE ->
        nth_error [DOUBLE_QUOTE; BACKSLASH; DOUBLE_QUOTE; DOUBLE_QUOTE] (k - 1)
        = Some BACKSLASH).
Proof.
  apply (find_closing_quote_sound [DOUBLE_QUOTE; BACKSLASH; DOUBLE_QUOTE; DOUBLE_QUOTE] 0 3).
  reflexivity.
Defined.

(** The index that [find_unquoted_char] returns is at or after [start] and
    holds the character looked for; a double quote is never found. *)
Theorem find_unquoted_char_sound (content : str) (char : ascii) (start j : nat) :
  find_unquoted_char content char start = Some j ->
  start <= j /\ nth_error content j = Some char /\ char <> DOUBLE_QUOTE.
Proof.
  unfold find_unquoted_char. intro H.
  destruct (find_unquoted_char_loop_sound _ _ _ _ _ _ (le_n _) H) as (Hij & Hc & Hne).
  rewrite nth_error_skipn in Hc.
  replace (start + (j - start)) with j in Hc by lia. auto.
Qed.

Lemma find_unquoted_char_sound_witness :
  0 <= 5
  /\ nth_error (DOUBLE_QUOTE :: lit "a:b" ++ DOUBLE_QUOTE :: lit ":1") 5 = Some COLON
  /\ COLON <> DOUBLE_QUOTE.
Proof.
  apply (find_unquoted_char_sound (DOUBLE_QUOTE :: lit "a:b" ++ DOUBLE_QUOTE :: lit ":1")
           COLON 0 5).
  reflexivity.
Defined.

(** ** The line scanner *)

Section Scanner.

Lemma leading_spaces_split raw :
  raw = repeat SPACE (leading_spaces raw) ++ slice_from raw (leading_spaces raw).
Proof.
  unfold leading_spaces, slice_from.
  induction raw as [|c r IH]; simpl; [reflexivity|].
  destruct (ceq c SPACE) eqn:E; simpl; [|reflexivity].
  apply ceq_true in E. subst c. now f_equal.
Qed.

Definition starts_without_space (s : str) : Prop :=
  match s with
  | c :: _ => ceq c SPACE = false
  | [] => False
  end.

Lemma after_leading_spaces raw :
  line_is_blank raw = false ->
  starts_without_space (slice_from raw (leading_spaces raw)).
Proof.
  unfold leading_spaces, slice_from, line_is_blank.
  induction raw as [|c r IH]; simpl; [discriminate|].
  destruct (ceq c SPACE) eqn:E; simpl.
  - apply ceq_true in E. subst c. exact IH.
  - intros _. exact E.
Qed.

(** What the scanner records of a non-blank line: [ls] are the raw lines and
    [k] the number of the first of them. *)
Definition parsed_line_ok (ls : list str) (k indent_size : nat) (strict : bool)
  (l : ParsedLine) : Prop :=
  raw l = repeat SPACE (indent l) ++ content l
  /\ starts_without_space (content l)
  /\ line_is_blank (raw l) = false
  /\ indent_size <> 0
  /\ depth l = indent l / indent_size
  /\ k <= line_number l
  /\ nth_error ls (line_number l - k) = Some (raw l)
  /\ (strict = true ->
      indent l = depth l * indent_size /\ tab_in_indentation (raw l) = false).

Lemma parsed_line_ok_shift raw rest k n strict l :
  parsed_line_ok rest (k + 1) n strict l -> parsed_line_ok (raw :: rest) k n strict l.
Proof.
  intros (H1 & H2 & H3 & H4 & H5 & H6 & H7 & H8).
  repeat split; try assumption; try lia; try (now apply H8).
  replace (line_number l - k) with (S (line_number l - (k + 1))) by lia. exact H7.
Qed.

Lemma scan_lines_invariants n strict : forall ls k ps bs,
  scan_lines ls k n strict = Ok (ps, bs) ->
  Forall (parsed_line_ok ls k n strict) ps
  /\ length ps + length bs = length ls
  /\ StronglySorted lt (map line_number ps).
Proof.
  induction ls as [|rw rest IH]; intros k ps bs H.
  - inversion H; subst. split; [constructor|]. split; [reflexivity|constructor].
  - cbn [scan_lines] in H. fold (leading_spaces rw) in H.
    rewrite scanner_blank_test in H. unfold _compute_depth_from_indent in H.
    destruct (n =? 0) eqn:En; [destruct (line_is_blank rw); discriminate H|].
    apply Nat.eqb_neq in En. cbn [bind] in H.
    destruct (line_is_blank rw) eqn:Eb.
    + destruct (scan_lines rest (k + 1) n strict) as [[ps' bs']|e] eqn:Er;
        [|discriminate H].
      cbn [bind fst snd] in H. inversion H; subst ps bs.
      destruct (IH _ _ _ Er) as (F & L & S).
      split; [|split; [simpl; lia|exact S]].
      eapply Forall_impl; [|exact F]. intros l Hl. now apply parsed_line_ok_shift.
    + assert (Hslice : slice rw 0 (count_leading (fun c => ceq c SPACE || ceq c TAB) rw)
                       = leading_whitespace rw).
      { unfold slice, leading_whitespace. now rewrite Nat.sub_0_r. }
      rewrite Hslice in H. fold (tab_in_indentation rw) in H.
      destruct (strict && tab_in_indentation rw) eqn:Et; [discriminate H|].
      destruct (strict && (0 <? leading_spaces rw)
                && negb (leading_spaces rw mod n =? 0)) eqn:Ei; [discriminate H|].
      destruct (scan_lines rest (k + 1) n strict) as [[ps' bs']|e] eqn:Er;
        [|discriminate H].
      cbn [bind fst snd] in H. inversion H; subst ps bs.
      destruct (IH _ _ _ Er) as (F & L & S).
      split; [|split; [simpl; lia|]].
      * constructor.
        -- unfold parsed_line_ok. cbn [raw indent content depth line_number].
           split; [apply leading_spaces_split|].
           split; [now apply after_leading_spaces|].
           split; [exact Eb|]. split; [exact En|]. split; [reflexivity|].
           split; [lia|]. split; [now rewrite Nat.sub_diag|].
           intros ->. cbn [andb] in Et, Ei. split; [|exact Et].
           destruct (0 <? leading_spaces rw) eqn:E0.
           ++ cbn [andb] in Ei. apply negb_false_iff, Nat.eqb_eq in Ei.
              pose proof (Nat.div_mod_eq (leading_spaces rw) n). lia.
           ++ apply Nat.ltb_ge in E0.
              replace (leading_spaces rw) with 0 by lia.
              now rewrite Nat.Div0.div_0_l.
        -- eapply Forall_impl; [|exact F]. intros l Hl. now apply parsed_line_ok_shift.
      * cbn [map line_number]. constructor; [exact S|].
        apply Forall_map. eapply Forall_impl; [|exact F].
        intros l (_ & _ & _ & _ & _ & Hk & _). lia.
Qed.

Lemma split_acc_nonempty c : forall s cur, split_acc c s cur <> [].
Proof.
  induction s as [|x s IH]; intro cur; simpl; [discriminate|].
  destruct (ceq x c); [discriminate|apply IH].
Qed.

Lemma scan_lines_zero_indent strict ls k :
  ls <> [] -> scan_lines ls k 0 strict = Err ZeroDivision.
Proof.
  destruct ls as [|raw rest]; [congruence|]. intros _. cbn [scan_lines].
  now destruct (is_empty (strip (slice_from raw (count_leading (fun c => ceq c SPACE) raw)))).
Qed.

(** The lines a strict scan accepts. *)
Definition well_indented (indent_size : nat) (ls : list str) : Prop :=
  forall raw, In raw ls -> line_is_blank raw = false ->
    tab_in_indentation raw = false /\ indentation_not_multiple indent_size raw = false.

Lemma scan_lines_accepts n strict : forall ls k,
  0 < n ->
  (strict = true -> well_indented n ls) ->
  exists r, scan_lines ls k n strict = Ok r.
Proof.
  induction ls as [|raw rest IH]; intros k Hn Hw; [eexists; reflexivity|].
  cbn [scan_lines]. fold (leading_spaces raw). rewrite scanner_blank_test.
  unfold _compute_depth_from_indent.
  replace (n =? 0) with false by (symmetry; apply Nat.eqb_neq; lia). cbn [bind].
  destruct (IH (k + 1) Hn) as [r Hr].
  { intros Hs raw' Hin. apply (Hw Hs). now right. }
  destruct (line_is_blank raw) eqn:Eb.
  - rewrite Hr. eexists; reflexivity.
  - assert (Hslice : slice raw 0 (count_leading (fun c => ceq c SPACE || ceq c TAB) raw)
                     = leading_whitespace raw).
    { unfold slice, leading_whitespace. now rewrite Nat.sub_0_r. }
    rewrite Hslice. fold (tab_in_indentation raw).
    destruct strict.
    + destruct (Hw eq_refl raw (or_introl eq_refl) Eb) as [Ht Hi].
      rewrite Ht. cbn [andb]. unfold indentation_not_multiple in Hi. rewrite Hi.
      rewrite Hr. eexists; reflexivity.
    + cbn [andb]. rewrite Hr. eexists; reflexivity.
Qed.

End Scanner.

(** Every line the scanner returns is a non-blank raw line of the source,
    split into its leading spaces and a content that does not begin with a
    space; its depth is the quotient of the indent by the indent size, its
    line number is its position among the raw lines, and in strict mode the
    indent is the exact multiple and the leading whitespace holds no tab.
    Line numbers grow strictly, and blank and non-blank lines together are
    the raw lines of the source. *)
Theorem scanner_invariants (source : str) (indent_size : nat) (strict : bool)
  (r : ScanResult) :
  to_parsed_lines source indent_size strict = Ok r ->
  Forall (parsed_line_ok (split NEWLINE source) 1 indent_size strict) (lines r)
  /\ StronglySorted lt (map line_number (lines r))
  /\ (forallb isspace source = false ->
      length (lines r) + length (blank_lines r) = length (split NEWLINE source)).
Proof.
  unfold to_parsed_lines. intro H.
  destruct (is_empty (strip source)) eqn:E.
  - inversion H; subst r. cbn [lines blank_lines].
    split; [constructor|]. split; [constructor|].
    intro Hs. apply is_empty_true, strip_nil in E. congruence.
  - destruct (scan_lines (split NEWLINE source) 1 indent_size strict) as [[ps bs]|e] eqn:Es;
      [|discriminate H].
    cbn [bind fst snd] in H. inversion H; subst r. cbn [lines blank_lines].
    destruct (scan_lines_invariants _ _ _ _ _ _ Es) as (F & L & S).
    split; [exact F|]. split; [exact S|]. intros _. exact L.
Qed.

Lemma scanner_invariants_witness :
  Forall (parsed_line_ok (split NEWLINE (lit "a:" ++ [NEWLINE] ++ lit "  b: 1")) 1 2 true)
    [ {| raw := lit "a:"; indent := 0; content := lit "a:"; depth := 0; line_number := 1 |};
      {| raw := lit "  b: 1"; indent := 2; content := lit "b: 1"; depth := 1;
         line_number := 2 |} ]
  /\ StronglySorted lt [1; 2]
  /\ (forallb isspace (lit "a:" ++ [NEWLINE] ++ lit "  b: 1") = false ->
      2 + 0 = length (split NEWLINE (lit "a:" ++ [NEWLINE] ++ lit "  b: 1"))).
Proof.
  apply (scanner_invariants (lit "a:" ++ [NEWLINE] ++ lit "  b: 1") 2 true
           {| lines :=
                [ {| raw := lit "a:"; indent := 0; content := lit "a:"; depth := 0;
                     line_number := 1 |};
                  {| raw := lit "  b: 1"; indent := 2; content := lit "b: 1"; depth := 1;
                     line_number := 2 |} ];
              blank_lines := [] |}).
  reflexivity.
Defined.

(** With a positive indent size the scanner never fails in non-strict mode,
    and in strict mode it succeeds exactly when no non-blank raw line has a
    tab in its leading whitespace or an indent that is not a multiple of the
    indent size. *)
Theorem scanner_accepts (source : str) (indent_size : nat) :
  0 < indent_size ->
  (exists r, to_parsed_lines source indent_size false = Ok r)
  /\ (forallb isspace source = false ->
      ((exists r, to_parsed_lines source indent_size true = Ok r)
       <-> well_indented indent_size (split NEWLINE source))).
Proof.
  intro Hn. split.
  - unfold to_parsed_lines. destruct (is_empty (strip source)); [eexists; reflexivity|].
    destruct (scan_lines_accepts indent_size false (split NEWLINE source) 1 Hn) as [r Hr];
      [discriminate|].
    rewrite Hr. eexists; reflexivity.
  - intro Hs. unfold to_parsed_lines.
    assert (E : is_empty (strip source) = false).
    { apply is_empty_false. intro H. apply strip_nil in H. congruence. }
    rewrite E. split.
    + intros [r Hr] raw Hin Hb.
      destruct (tab_in_indentation raw || indentation_not_multiple indent_size raw) eqn:Ebad.
      * destruct (scan_lines_rejects indent_size _ 1 raw Hn Hin Hb Ebad) as [k [Hk|Hk]];
          rewrite Hk in Hr; discriminate Hr.
      * now apply orb_false_iff in Ebad.
    + intro Hw.
      destruct (scan_lines_accepts indent_size true (split NEWLINE source) 1 Hn) as [r Hr];
        [intros _; exact Hw|].
      rewrite Hr. eexists; reflexivity.
Qed.

Lemma scanner_accepts_witness :
  (exists r, to_parsed_lines (lit "a:" ++ [NEWLINE] ++ lit "   b: 1") 2 false = Ok r)
  /\ (forallb isspace (lit "a:" ++ [NEWLINE] ++ lit "   b: 1") = false ->
      ((exists r, to_parsed_lines (lit "a:" ++ [NEWLINE] ++ lit "   b: 1") 2 true = Ok r)
       <-> well_indented 2 (split NEWLINE (lit "a:" ++ [NEWLINE] ++ lit "   b: 1")))).
Proof.
  apply (scanner_accepts (lit "a:" ++ [NEWLINE] ++ lit "   b: 1") 2). lia.
Defined.

(** Decoding a text that holds whitespace only raises the empty-input error,
    whatever the options; decoding any other text with an indent size of 0
    raises ZeroDivisionError. *)
Theorem decode_degenerate_input (input_str : str) (options : option DecodeOptions) :
  (forallb isspace input_str = true -> decode input_str options = Err EmptyInput)
  /\ (forallb isspace input_str = false ->
      d_indent (_resolve_decode_options options) = 0 ->
      decode input_str options = Err ZeroDivision).
Proof.
  unfold decode, decode_with, to_parsed_lines. split.
  - intro H. apply strip_nil in H. rewrite H. reflexivity.
  - intros H Hi.
    assert (E : is_empty (strip input_str) = false).
    { apply is_empty_false. intro Hs. apply strip_nil in Hs. congruence. }
    rewrite E, Hi, scan_lines_zero_indent; [reflexivity|]. apply split_acc_nonempty.
Qed.

(** ** The delimited value splitter on encoded rows *)

Section Rows.

Variable delimiter : ascii.

(** Without a double quote in the input the splitter is [split] followed by
    [strip]. *)
Lemma splitter_loop_unquoted : forall rest current values,
  contains DOUBLE_QUOTE rest = false ->
  rest <> [] \/ current <> [] \/ values <> [] ->
  parse_delimited_values_loop rest delimiter current false values
  = values ++ map strip (split_acc delimiter rest (rev current)).
Proof.
  induction rest as [|c tl IH]; intros current values Hq Hne.
  - cbn [parse_delimited_values_loop split_acc map]. rewrite rev_involutive.
    destruct Hne as [Hne|[Hne|Hne]]; [congruence| |].
    + destruct current; [congruence|]. reflexivity.
    + destruct values; [congruence|]. cbn [length]. now rewrite orb_true_r.
  - unfold contains in Hq. cbn [existsb] in Hq. apply orb_false_iff in Hq.
    destruct Hq as [Hc Hq]. fold (contains DOUBLE_QUOTE tl) in Hq.
    assert (Hc' : ceq c DOUBLE_QUOTE = false).
    { unfold ceq in *. now rewrite Ascii.eqb_sym. }
    cbn [parse_delimited_values_loop split_acc]. rewrite andb_false_r, Hc'.
    cbn [negb]. rewrite andb_true_r.
    destruct (ceq c delimiter) eqn:Ed.
    + rewrite IH; [|exact Hq|right; right; now destruct values].
      rewrite rev_involutive. cbn [map]. now rewrite <- app_assoc.
    + rewrite IH; [|exact Hq|right; left; now destruct current].
      now rewrite rev_app_distr.
Qed.

(** A text the splitter reads as one piece of a token: it leaves the quote
    flag down and produces no value. *)
Definition cell (t : str) : Prop :=
  forall current values,
    splitter_state delimiter t current false values = (current ++ t, false, values).

Lemma cell_unquoted t :
  Forall (fun c => ceq c DOUBLE_QUOTE = false /\ ceq c delimiter = false) t -> cell t.
Proof.
  induction t as [|c t IH]; intros H current values.
  - cbn. now rewrite app_nil_r.
  - inversion H as [|? ? [Hq Hd] Ht]; subst.
    cbn [splitter_state]. rewrite andb_false_r, Hq, Hd. cbn [andb].
    rewrite (IH Ht). now rewrite <- app_assoc.
Qed.

Lemma splitter_state_escaped s : forall current values,
  splitter_state delimiter (flat_map escape_char s ++ [DOUBLE_QUOTE]) current true values
  = (current ++ flat_map escape_char s ++ [DOUBLE_QUOTE], false, values).
Proof.
  induction s as [|c s IH]; intros current values.
  - reflexivity.
  - cbn [flat_map]. rewrite <- !app_assoc.
    destruct (is_escaped_char c) eqn:E.
    + assert (Hc : exists x, escape_char c = [BACKSLASH; x]).
      { revert E. destruct c as [[] [] [] [] [] [] [] []]; vm_compute; intro E;
          try discriminate E; eauto. }
      destruct Hc as [x ->]. cbn [app splitter_state].
      change (ceq BACKSLASH BACKSLASH) with true. cbn [andb].
      rewrite IH. now rewrite <- app_assoc.
    + rewrite (escape_char_plain c E). cbn [app splitter_state].
      unfold is_escaped_char in E. rewrite !orb_false_iff in E.
      destruct E as ((((Hb & Hq) & _) & _) & _).
      rewrite Hb, Hq. cbn [andb negb]. rewrite andb_false_r.
      rewrite IH. now rewrite <- app_assoc.
Qed.

Lemma cell_quoted s : cell (quoted s).
Proof.
  intros current values. unfold quoted. cbn [app splitter_state].
  change (ceq DOUBLE_QUOTE BACKSLASH) with false.
  change (ceq DOUBLE_QUOTE DOUBLE_QUOTE) with true. cbn [andb negb].
  rewrite escape_string_flat_map, splitter_state_escaped.
  now rewrite <- app_assoc.
Qed.

Hypothesis delimiter_not_quote : ceq delimiter DOUBLE_QUOTE = false.

Lemma splitter_join : forall toks values,
  toks <> [] ->
  Forall (fun t => cell t /\ t <> [] /\ strip t = t) toks ->
  splitter_flush (splitter_state delimiter (join [delimiter] toks) [] false values)
  = values ++ toks.
Proof.
  induction toks as [|t toks IH]; intros values Hne H; [congruence|].
  inversion H as [|? ? (Hc & Ht & Hs) Hrest]; subst.
  destruct toks as [|t' toks'].
  - cbn [join]. rewrite Hc. cbn [app splitter_flush].
    destruct t; [congruence|]. cbn [is_empty negb orb]. now rewrite Hs.
  - change (join [delimiter] (t :: t' :: toks'))
      with (t ++ [delimiter] ++ join [delimiter] (t' :: toks')).
    rewrite (splitter_state_app delimiter _ t _ [] false values (le_n _));
      [|now rewrite Hc].
    rewrite Hc. cbn [fst snd app].
    rewrite (splitter_state_delimiter delimiter delimiter_not_quote).
    rewrite IH; [|discriminate|exact Hrest].
    rewrite Hs. now rewrite <- app_assoc.
Qed.

End Rows.

Section RowTokens.

Lemma Forall_take {A} (P : A -> Prop) n l : Forall P l -> Forall P (firstn n l).
Proof.
  revert n. induction l as [|x l IH]; intros n H; destruct n; simpl; auto.
  inversion H; subst. constructor; auto.
Qed.

Lemma Forall_drop {A} (P : A -> Prop) n l : Forall P l -> Forall P (skipn n l).
Proof.
  revert n. induction l as [|x l IH]; intros n H; destruct n; simpl; auto.
  inversion H; subst. auto.
Qed.

Lemma N_digits_numchar m : Forall (fun c => numchar c = true) (N_digits m).
Proof. apply digits_numchar. now destruct (N_digits_facts m) as ((_ & H) & _). Qed.

Lemma zeros_numchar k : Forall (fun c => numchar c = true) (repeat "0"%char k).
Proof. induction k; simpl; constructor; auto. Qed.

(** The text of a finite float holds digits, signs, a point and [e] only. *)
Lemma str_float_numchar neg m e :
  Forall (fun c => numchar c = true) (str_float (FFinite neg m e)).
Proof.
  unfold str_float. fold (N_digits m).
  assert (Hsign : Forall (fun c => numchar c = true) (if neg then lit "-" else [])).
  { destruct neg; repeat constructor. }
  destruct (m =? 0)%N.
  { apply Forall_app. split; [exact Hsign|repeat constructor]. }
  pose proof (N_digits_numchar m) as Hds. cbv zeta.
  set (ds := N_digits m) in *. clearbody ds.
  match goal with |- context [if ?b then _ else _] => destruct b end.
  - apply Forall_app. split; [exact Hsign|].
    apply Forall_app. split; [now apply Forall_take|].
    apply Forall_app. split.
    { destruct (length ds <=? 1); [constructor|].
      constructor; [reflexivity|now apply Forall_drop]. }
    apply Forall_app. split; [repeat constructor|].
    apply Forall_app. split; [destruct (_ <? 0)%Z; repeat constructor|].
    match goal with |- context [NilZero.string_of_uint (N.to_uint ?x)] =>
      pose proof (N_digits_numchar x) as Hx end.
    unfold N_digits in Hx.
    match goal with |- context [if ?b then _ else _] => destruct b end;
      [constructor; [reflexivity|exact Hx]|exact Hx].
  - match goal with |- context [if ?b then _ else _] => destruct b end;
      [|match goal with |- context [if ?b then _ else _] => destruct b end].
    + apply Forall_app. split; [exact Hsign|].
      apply Forall_app. split; [repeat constructor|].
      apply Forall_app. split; [apply zeros_numchar|exact Hds].
    + apply Forall_app. split; [exact Hsign|].
      apply Forall_app. split; [exact Hds|].
      apply Forall_app. split; [apply zeros_numchar|repeat constructor].
    + apply Forall_app. split; [exact Hsign|].
      apply Forall_app. split; [now apply Forall_take|].
      apply Forall_app. split; [repeat constructor|now apply Forall_drop].
Qed.

Lemma numchar_not_delimiter d c :
  valid_delimiter d -> numchar c = true ->
  ceq c DOUBLE_QUOTE = false /\ ceq c d = false.
Proof.
  intros [->|[->| ->]]; destruct c as [[] [] [] [] [] [] [] []]; vm_compute;
    intro H; try discriminate H; split; reflexivity.
Qed.

Lemma valid_delimiter_not_quote d : valid_delimiter d -> ceq d DOUBLE_QUOTE = false.
Proof. intros [->|[->| ->]]; reflexivity. Qed.

(** The token of a primitive that reads back is one cell of a row. *)
Lemma encode_primitive_cell d p :
  valid_delimiter d -> round_trip_primitive d p -> cell d (encode_primitive p d).
Proof.
  intros Hd Hp.
  assert (Hnum : forall t, Forall (fun c => numchar c = true) t -> cell d t).
  { intros t Ht. apply cell_unquoted. eapply Forall_impl; [|exact Ht].
    intros c Hc. now apply numchar_not_delimiter. }
  destruct p as [|b|n|f|s]; cbn [encode_primitive].
  - apply cell_unquoted. destruct Hd as [->|[->| ->]]; repeat constructor.
  - apply cell_unquoted. destruct b; destruct Hd as [->|[->| ->]]; repeat constructor.
  - apply Hnum. apply Forall_forall. intros c Hc. apply str_int_chars in Hc.
    destruct Hc as [->|Hc]; [reflexivity|]. unfold numchar. now rewrite Hc.
  - destruct f as [neg m e| |]; try contradiction. apply Hnum, str_float_numchar.
  - unfold encode_string_literal. destruct (is_safe_unquoted s d) eqn:E.
    + apply is_safe_unquoted_spec in E. destruct E as (_ & _ & _ & _ & _ & Hc & _).
      apply cell_unquoted. eapply Forall_impl; [|exact Hc]. intros c Hf.
      unfold forbidden_unquoted in Hf. rewrite !orb_false_iff in Hf. tauto.
    + apply cell_quoted.
Qed.

End RowTokens.

(** On an input without double quotes the splitter returns the pieces between
    the delimiters, each one trimmed. *)
Theorem parse_delimited_values_unquoted (input_str : str) (delimiter : ascii) :
  contains DOUBLE_QUOTE input_str = false ->
  input_str <> [] ->
  parse_delimited_values input_str delimiter = map strip (split delimiter input_str).
Proof.
  intros Hq Hne. unfold parse_delimited_values, split.
  rewrite splitter_loop_unquoted; [reflexivity|exact Hq|now left].
Qed.

Lemma parse_delimited_values_unquoted_witness :
  parse_delimited_values (lit "a, b,,c ") COMMA
  = map strip (split COMMA (lit "a, b,,c ")).
Proof.
  apply (parse_delimited_values_unquoted (lit "a, b,,c ") COMMA).
  - reflexivity.
  - discriminate.
Defined.

(** A row written by the encoder is read back value by value: splitting the
    joined tokens of primitives at the delimiter and parsing each piece
    returns the primitives, for each of the three delimiters and all
    primitives that read back as tokens. *)
Theorem row_round_trip (values : list JsonPrimitive) (delimiter : ascii) :
  valid_delimiter delimiter ->
  Forall (round_trip_primitive delimiter) values ->
  map_row_values_to_primitives
    (parse_delimited_values (encode_and_join_primitives values delimiter) delimiter)
  = Ok values.
Proof.
  intros Hd Hv. unfold encode_and_join_primitives, parse_delimited_values.
  rewrite (loop_as_state delimiter _ _ _ _ _ (le_n _)).
  destruct values as [|p ps]; [reflexivity|].
  rewrite splitter_join.
  - cbn [app]. unfold map_row_values_to_primitives.
    induction Hv as [|q qs Hq Hqs IH]; [reflexivity|].
    cbn [map map_result].
    destruct (encode_primitive_decodes delimiter q Hq) as [_ ->]. cbn [bind].
    fold (map_result parse_primitive_token). rewrite IH. reflexivity.
  - now apply valid_delimiter_not_quote.
  - discriminate.
  - apply Forall_map. eapply Forall_impl; [|exact Hv]. intros q Hq.
    destruct (encode_primitive_decodes delimiter q Hq) as [[Hne Hh Hl _ _ _] _].
    split; [now apply encode_primitive_cell|]. split; [exact Hne|].
    apply strip_fixed. now split.
Qed.

Lemma row_round_trip_witness :
  map_row_values_to_primitives
    (parse_delimited_values
       (encode_and_join_primitives [PInt 1; PStr (lit "a,b"); PNull; PStr []] COMMA) COMMA)
  = Ok [PInt 1; PStr (lit "a,b"); PNull; PStr []].
Proof.
  apply (row_round_trip [PInt 1; PStr (lit "a,b"); PNull; PStr []] COMMA).
  - now left.
  - repeat constructor; try reflexivity; intro H; discriminate H.
Defined.

(** ** Keys and key-value lines *)

Section Keys.

(** The characters of an unquoted key. *)
Definition wordish (c : ascii) : bool := is_word_char c || ceq c "."%char.

Lemma wordish_plain c :
  wordish c = true ->
  isspace c = false /\ ceq c COLON = false /\ ceq c DOUBLE_QUOTE = false
  /\ ceq c OPEN_BRACKET = false /\ ceq c NEWLINE = false.
Proof.
  destruct c as [[] [] [] [] [] [] [] []]; vm_compute; intro H; try discriminate H;
    repeat split.
Qed.

Lemma key_pattern_wordish k :
  key_pattern k = true -> k <> [] /\ Forall (fun c => wordish c = true) k.
Proof.
  destruct k as [|c r]; [discriminate|]. cbn [key_pattern]. intro H.
  apply andb_true_iff in H. destruct H as [Hc Hr]. split; [discriminate|].
  constructor.
  - revert Hc. destruct c as [[] [] [] [] [] [] [] []]; vm_compute; intro H;
      try discriminate H; reflexivity.
  - apply Forall_forall. intros x Hx. rewrite forallb_forall in Hr. now apply Hr.
Qed.

Lemma find_from_app c pre rest : forall pos,
  Forall (fun x => ceq x c = false) pre ->
  find_from c (pre ++ c :: rest) pos = Some (pos + length pre).
Proof.
  induction pre as [|x pre IH]; intros pos H; simpl.
  - unfold ceq. rewrite Ascii.eqb_refl. f_equal. lia.
  - inversion H as [|? ? Hx Hp]; subst. rewrite Hx, IH by exact Hp. f_equal. lia.
Qed.

Lemma find_from_none c s : forall pos,
  Forall (fun x => ceq x c = false) s -> find_from c s pos = None.
Proof.
  induction s as [|x s IH]; intros pos H; simpl; [reflexivity|].
  inversion H as [|? ? Hx Hs]; subst. now rewrite Hx, IH.
Qed.

Lemma startswith_nil s : startswith s [] = true.
Proof. now destruct s. Qed.

Lemma strip_wordish k :
  Forall (fun c => wordish c = true) k -> strip k = k.
Proof.
  intro H. apply strip_fixed. split.
  - destruct k as [|c r]; [exact I|]. inversion H; subst. simpl. now apply wordish_plain.
  - apply Forall_rev in H. destruct (rev k) as [|c r]; [exact I|].
    inversion H; subst. simpl. now apply wordish_plain.
Qed.

Lemma parse_unquoted_key_text k rest :
  key_pattern k = true ->
  parse_key_token (k ++ COLON :: rest) 0 = Ok (k, length k + 1).
Proof.
  intro Hk. destruct (key_pattern_wordish k Hk) as [Hne Hw].
  unfold parse_key_token.
  destruct k as [|c r]; [congruence|]. cbn [app nth_error].
  inversion Hw as [|? ? Hc _]; subst.
  destruct (wordish_plain c Hc) as (_ & _ & Hq & _). rewrite Hq.
  unfold parse_unquoted_key, find. cbn [skipn].
  change (c :: r ++ COLON :: rest) with ((c :: r) ++ COLON :: rest).
  rewrite find_from_app.
  2:{ eapply Forall_impl; [|exact Hw]. intros x Hx. now apply wordish_plain. }
  cbn [Nat.add]. unfold slice. rewrite Nat.sub_0_r. cbn [skipn].
  rewrite firstn_app, firstn_all, Nat.sub_diag. cbn [firstn]. rewrite app_nil_r.
  now rewrite (strip_wordish _ Hw).
Qed.

Lemma find_closing_quote_escaped_app s x : forall i,
  find_closing_quote_loop (flat_map escape_char s ++ DOUBLE_QUOTE :: x) i
  = Some (i + length (flat_map escape_char s)).
Proof.
  induction s as [|c s IH]; intro i.
  - cbn [flat_map app length]. rewrite Nat.add_0_r.
    destruct x as [|y x']; cbn [find_closing_quote_loop];
      change (ceq DOUBLE_QUOTE DOUBLE_QUOTE) with true;
      change (ceq DOUBLE_QUOTE BACKSLASH) with false; reflexivity.
  - cbn [flat_map]. rewrite length_app, <- app_assoc.
    destruct (is_escaped_char c) eqn:E.
    + assert (Hc : exists y, escape_char c = [BACKSLASH; y]).
      { revert E. destruct c as [[] [] [] [] [] [] [] []]; vm_compute; intro E;
          try discriminate E; eauto. }
      destruct Hc as [y ->]. cbn [app find_closing_quote_loop length].
      change (ceq BACKSLASH BACKSLASH) with true. cbn iota.
      rewrite IH. f_equal. lia.
    + rewrite (escape_char_plain c E). cbn [app length].
      assert (Hn : ceq c BACKSLASH = false /\ ceq c DOUBLE_QUOTE = false).
      { unfold is_escaped_char in E. rewrite !orb_false_iff in E. tauto. }
      destruct Hn as [Hb Hq].
      rewrite find_closing_quote_loop_plain, IH; try assumption; [f_equal; lia|].
      destruct (flat_map escape_char s); discriminate.
Qed.

Lemma parse_quoted_key_text k rest :
  parse_key_token (quoted k ++ COLON :: rest) 0 = Ok (k, length (quoted k) + 1).
Proof.
  assert (Ec : quoted k ++ COLON :: rest
               = DOUBLE_QUOTE :: flat_map escape_char k ++ DOUBLE_QUOTE :: COLON :: rest).
  { unfold quoted. rewrite escape_string_flat_map. cbn [app]. now rewrite <- app_assoc. }
  rewrite Ec, quoted_length, escape_string_flat_map.
  set (e := flat_map escape_char k).
  assert (Eu : unescape_string e = Ok k).
  { subst e. rewrite <- escape_string_flat_map. apply unescape_escape. }
  unfold parse_key_token. cbn [nth_error].
  change (ceq DOUBLE_QUOTE DOUBLE_QUOTE) with true. cbn iota.
  unfold parse_quoted_key, find_closing_quote.
  change (skipn (0 + 1) (DOUBLE_QUOTE :: e ++ DOUBLE_QUOTE :: COLON :: rest))
    with (e ++ DOUBLE_QUOTE :: COLON :: rest).
  subst e. rewrite find_closing_quote_escaped_app.
  set (e := flat_map escape_char k) in *.
  unfold slice.
  change (skipn (0 + 1) (DOUBLE_QUOTE :: e ++ DOUBLE_QUOTE :: COLON :: rest))
    with (e ++ DOUBLE_QUOTE :: COLON :: rest).
  replace (0 + 1 + length e - (0 + 1)) with (length e) by lia.
  rewrite firstn_app, firstn_all, Nat.sub_diag. cbn [firstn]. rewrite app_nil_r.
  rewrite Eu. cbn [bind].
  replace (0 + 1 + length e + 1) with (S (length e + 1)) by lia.
  cbn [nth_error]. rewrite nth_error_app2 by lia.
  replace (length e + 1 - length e) with 1 by lia.
  cbn [nth_error]. change (ceq COLON COLON) with true. cbn iota.
  do 2 f_equal. lia.
Qed.

Lemma is_valid_unquoted_key_newline k :
  key_pattern k = true -> is_valid_unquoted_key (k ++ [NEWLINE]) = true.
Proof.
  intro H. unfold is_valid_unquoted_key, re_match_anchored.
  assert (E : endswith_char (k ++ [NEWLINE]) (chr 10) = true).
  { apply endswith_char_rev. exists (rev k). now rewrite rev_app_distr. }
  rewrite E. unfold drop_last. rewrite removelast_last, H. apply orb_true_r.
Qed.

Lemma strip_trailing_newline k :
  Forall (fun c => wordish c = true) k -> strip (k ++ [NEWLINE]) = k.
Proof.
  intro Hw. destruct k as [|c0 k0]; [reflexivity|].
  set (k := c0 :: k0) in *.
  pose proof (strip_wordish k Hw) as Hs. apply strip_fixed in Hs.
  destruct Hs as [Hh Hl]. unfold strip.
  assert (L : lstrip (k ++ [NEWLINE]) = k ++ [NEWLINE]).
  { apply lstrip_fixed. exact Hh. }
  rewrite L. unfold rstrip. rewrite rev_app_distr. cbn [rev app lstrip].
  change (isspace NEWLINE) with true. cbn iota.
  apply lstrip_fixed in Hl. rewrite Hl. apply rev_involutive.
Qed.

Lemma parse_encoded_key_text key rest :
  key_pattern key = true \/ is_valid_unquoted_key key = false ->
  parse_key_token (encode_key key ++ COLON :: rest) 0
  = Ok (key, length (encode_key key) + 1).
Proof.
  intro H. unfold encode_key.
  destruct (is_valid_unquoted_key key) eqn:E.
  - destruct H as [H|H]; [|discriminate]. now apply parse_unquoted_key_text.
  - apply parse_quoted_key_text.
Qed.

End Keys.

(** A key written by [encode_key] and followed by a colon is read back by
    [parse_key_token], which stops just after the colon: for every key that
    matches the unquoted-key pattern in full and for every key that is
    quoted.  A key that matches the pattern up to a final newline is written
    without quotes as well, and is read back without its newline. *)
Theorem key_token_round_trip (key rest : str) :
  (key_pattern key = true \/ is_valid_unquoted_key key = false ->
   parse_key_token (encode_key key ++ COLON :: rest) 0
   = Ok (key, length (encode_key key) + 1))
  /\ (key_pattern key = true ->
      encode_key (key ++ [NEWLINE]) = key ++ [NEWLINE]
      /\ parse_key_token (encode_key (key ++ [NEWLINE]) ++ COLON :: rest) 0
         = Ok (key, length key + 2)).
Proof.
  split.
  - apply parse_encoded_key_text.
  - intro Hk. destruct (key_pattern_wordish key Hk) as [Hne Hw].
    assert (E : encode_key (key ++ [NEWLINE]) = key ++ [NEWLINE]).
    { unfold encode_key. now rewrite is_valid_unquoted_key_newline. }
    split; [exact E|]. rewrite E.
    unfold parse_key_token.
    destruct key as [|c r]; [congruence|]. cbn [app nth_error].
    inversion Hw as [|? ? Hc _]; subst.
    destruct (wordish_plain c Hc) as (_ & _ & Hq & _). rewrite Hq.
    unfold parse_unquoted_key, find. cbn [skipn].
    change (c :: (r ++ [NEWLINE]) ++ COLON :: rest)
      with (((c :: r) ++ [NEWLINE]) ++ COLON :: rest).
    rewrite find_from_app.
    2:{ apply Forall_app. split; [|repeat constructor].
        eapply Forall_impl; [|exact Hw]. intros x Hx. now apply wordish_plain. }
    cbn [Nat.add]. unfold slice. rewrite Nat.sub_0_r. cbn [skipn].
    rewrite firstn_app, firstn_all, Nat.sub_diag. cbn [firstn]. rewrite app_nil_r.
    rewrite (strip_trailing_newline _ Hw).
    rewrite length_app. cbn [length]. do 2 f_equal. lia.
Qed.

Section KeyValueLine.

Lemma encode_key_cases key :
  key_pattern key = true \/ is_valid_unquoted_key key = false ->
  (is_valid_unquoted_key key = true /\ key_pattern key = true /\ encode_key key = key)
  \/ (is_valid_unquoted_key key = false /\ encode_key key = quoted key).
Proof.
  intro H. unfold encode_key. destruct (is_valid_unquoted_key key) eqn:E.
  - left. destruct H as [H|H]; [auto|discriminate].
  - right. auto.
Qed.

Lemma strip_space_token t :
  strip t = t -> strip (SPACE :: t) = t.
Proof.
  intro H. unfold strip. cbn [lstrip]. change (isspace SPACE) with true. cbn iota.
  exact H.
Qed.

(** A line that holds a key, a colon, a space and the token of a primitive is
    not taken for an array header. *)
Lemma key_value_no_header key t :
  key_pattern key = true \/ is_valid_unquoted_key key = false ->
  (is_valid_unquoted_key key = true -> contains OPEN_BRACKET t = false) ->
  parse_array_header_line (encode_key key ++ [COLON; SPACE] ++ t) DEFAULT_DELIMITER
  = Ok None.
Proof.
  intros Hk Hb. unfold parse_array_header_line.
  destruct (encode_key_cases key Hk) as [(Ev & Hp & ->)|(Ev & ->)].
  - destruct (key_pattern_wordish key Hp) as [Hne Hw].
    assert (L : lstrip (key ++ [COLON; SPACE] ++ t) = key ++ [COLON; SPACE] ++ t).
    { apply lstrip_fixed. destruct key as [|c r]; [congruence|].
      inversion Hw; subst. simpl. now apply wordish_plain. }
    rewrite L.
    assert (Q : startswith (key ++ [COLON; SPACE] ++ t) [DOUBLE_QUOTE] = false).
    { destruct key as [|c r]; [congruence|]. inversion Hw as [|? ? Hc _]; subst.
      cbn [app startswith]. destruct (wordish_plain c Hc) as (_ & _ & Hq & _).
      unfold ceq in *. now rewrite Ascii.eqb_sym, Hq. }
    rewrite Q. unfold find. cbn [skipn]. rewrite find_from_none; [reflexivity|].
    apply Forall_app. split.
    + eapply Forall_impl; [|exact Hw]. intros x Hx. now apply wordish_plain.
    + constructor; [reflexivity|]. constructor; [reflexivity|].
      specialize (Hb Ev). now apply contains_false.
  - assert (L : lstrip (quoted key ++ [COLON; SPACE] ++ t)
                = quoted key ++ [COLON; SPACE] ++ t) by reflexivity.
    rewrite L. unfold quoted. cbn [app startswith].
    change (ceq DOUBLE_QUOTE DOUBLE_QUOTE) with true. now rewrite startswith_nil.
Qed.

Lemma decode_key_value_field (fuel : nat) (key : str) (p : JsonPrimitive)
  (delimiter : ascii) (cursor : LineCursor) (base_depth : nat)
  (options : ResolvedDecodeOptions) :
  key_pattern key = true \/ is_valid_unquoted_key key = false ->
  round_trip_primitive delimiter p ->
  (is_valid_unquoted_key key = true ->
   contains OPEN_BRACKET (encode_primitive p delimiter) = false) ->
  decode_key_value (S fuel)
    (encode_key key ++ [COLON; SPACE] ++ encode_primitive p delimiter)
    cursor base_depth options
  = Ok ({| kv_key := key; kv_value := JPrim p; kv_followDepth := base_depth + 1 |}, cursor).
Proof.
  intros Hk Hp Hb. cbn [decode_key_value].
  rewrite (key_value_no_header key _ Hk Hb). cbn [bind].
  destruct (encode_primitive_decodes delimiter p Hp) as [[Hne Hh Hl _ _ _] Hparse].
  assert (Hs : strip (encode_primitive p delimiter) = encode_primitive p delimiter).
  { apply strip_fixed. now split. }
  change (encode_key key ++ [COLON; SPACE] ++ encode_primitive p delimiter)
    with (encode_key key ++ COLON :: SPACE :: encode_primitive p delimiter).
  rewrite (parse_encoded_key_text key _ Hk). cbn [bind].
  unfold slice_from.
  replace (length (encode_key key) + 1) with (length (encode_key key ++ [COLON]))
    by (rewrite length_app; reflexivity).
  replace (encode_key key ++ COLON :: SPACE :: encode_primitive p delimiter)
    with ((encode_key key ++ [COLON]) ++ SPACE :: encode_primitive p delimiter)
    by (now rewrite <- app_assoc).
  rewrite skipn_app, skipn_all, Nat.sub_diag. cbn [app skipn].
  rewrite (strip_space_token _ Hs).
  destruct (encode_primitive p delimiter) as [|c r] eqn:Et; [congruence|].
  cbn [is_empty]. rewrite Hparse. reflexivity.
Qed.

End KeyValueLine.

(** The line [encode_key_value_pair] pushes at depth 0 for a field with a
    primitive value is decoded by [decode_key_value] as that key and that
    value, leaving the cursor where it is: for every key that is quoted or
    matches the unquoted-key pattern in full, every primitive that reads
    back as a token and, under an unquoted key, does not hold an opening
    bracket. *)
Theorem key_value_line_round_trip (fuel : nat) (key : str) (p : JsonPrimitive)
  (eopts : ResolvedEncodeOptions) (writer : LineWriter) (cursor : LineCursor)
  (base_depth : nat) (dopts : ResolvedDecodeOptions) :
  key_pattern key = true \/ is_valid_unquoted_key key = false ->
  round_trip_primitive (e_delimiter eopts) p ->
  (is_valid_unquoted_key key = true ->
   contains OPEN_BRACKET (encode_primitive p (e_delimiter eopts)) = false) ->
  decode_key_value (S fuel)
    (last (w_lines (encode_key_value_pair eopts key (JPrim p) writer 0)) [])
    cursor base_depth dopts
  = Ok ({| kv_key := key; kv_value := JPrim p; kv_followDepth := base_depth + 1 |}, cursor).
Proof.
  intros Hk Hp Hb. cbn [encode_key_value_pair]. unfold push.
  cbn [w_lines repeat concat app]. rewrite last_last.
  now apply decode_key_value_field.
Qed.

Lemma key_value_line_round_trip_witness :
  decode_key_value 1
    (last (w_lines (encode_key_value_pair (_resolve_encode_options None) (lit "full name")
                      (JPrim (PStr (lit "a[1]: b"))) (new_writer 2) 0)) [])
    (new_cursor [] []) 0 {| d_indent := 2; d_strict := true |}
  = Ok ({| kv_key := lit "full name"; kv_value := JPrim (PStr (lit "a[1]: b"));
           kv_followDepth := 0 + 1 |}, new_cursor [] []).
Proof.
  apply (key_value_line_round_trip 0 (lit "full name") (PStr (lit "a[1]: b"))
           (_resolve_encode_options None) (new_writer 2)
           (new_cursor [] []) 0 {| d_indent := 2; d_strict := true |}).
  - right. reflexivity.
  - intro H. discriminate H.
  - intro H. discriminate H.
Defined.


(** ** Flat mappings: the round trip through [encode_value] and [decode] *)

Section FlatObjects.

Variable delimiter : ascii.

(** The line of a field with a primitive value. *)
Definition field_line (kv : str * JsonPrimitive) : str :=
  encode_key (fst kv) ++ [COLON; SPACE] ++ encode_primitive (snd kv) delimiter.

Definition field_entry (kv : str * JsonPrimitive) : str * JsonValue :=
  (fst kv, JPrim (snd kv)).

(** The fields whose line reads back. *)
Definition round_trip_field (kv : str * JsonPrimitive) : Prop :=
  (key_pattern (fst kv) = true \/ is_valid_unquoted_key (fst kv) = false)
  /\ round_trip_primitive delimiter (snd kv)
  /\ (is_valid_unquoted_key (fst kv) = true ->
      contains OPEN_BRACKET (encode_primitive (snd kv) delimiter) = false).

Lemma encode_object_flat options : forall fields w,
  e_delimiter options = delimiter ->
  w_lines (encode_object options (map field_entry fields) w 0)
  = w_lines w ++ map field_line fields.
Proof.
  unfold encode_object, encode_object_with.
  induction fields as [|[k p] fields IH]; intros w Hd; cbn [map fold_left].
  - now rewrite app_nil_r.
  - cbn [field_entry fst snd encode_key_value_pair]. rewrite IH by exact Hd.
    unfold push. cbn [w_lines repeat concat app]. rewrite Hd, <- app_assoc.
    reflexivity.
Qed.

(** A line at depth 0: not empty, not starting with whitespace, on one line. *)
Definition flat_line (l : str) : Prop :=
  match l with
  | c :: _ => isspace c = false
  | [] => False
  end
  /\ Forall (fun x => ceq x NEWLINE = false) l.

Lemma encode_key_head key :
  key_pattern key = true \/ is_valid_unquoted_key key = false ->
  exists c r, encode_key key = c :: r /\ isspace c = false
              /\ ceq c OPEN_BRACKET = false
              /\ Forall (fun x => ceq x NEWLINE = false) (encode_key key).
Proof.
  intro H. destruct (encode_key_cases key H) as [(_ & Hp & ->)|(_ & ->)].
  - destruct (key_pattern_wordish key Hp) as [Hne Hw].
    destruct key as [|c r]; [congruence|]. exists c, r.
    inversion Hw as [|? ? Hc _]; subst.
    destruct (wordish_plain c Hc) as (Hs & _ & _ & Hb & _).
    repeat split; try assumption.
    eapply Forall_impl; [|exact Hw]. intros x Hx. now apply wordish_plain.
  - exists DOUBLE_QUOTE, (escape_string key ++ [DOUBLE_QUOTE]).
    repeat split. destruct (root_text_quoted key) as [_ _ _ Hnl _ _]. exact Hnl.
Qed.

Lemma field_line_flat kv : round_trip_field kv -> flat_line (field_line kv).
Proof.
  intros (Hk & Hp & _). unfold field_line, flat_line.
  destruct (encode_key_head _ Hk) as (c & r & E & Hs & _ & Hnl).
  destruct (encode_primitive_decodes delimiter _ Hp) as [[_ _ _ Hone _ _] _].
  split.
  - rewrite E. exact Hs.
  - apply Forall_app. split; [exact Hnl|].
    constructor; [reflexivity|]. constructor; [reflexivity|exact Hone].
Qed.

Lemma split_acc_line c l rest : forall cur,
  Forall (fun x => ceq x c = false) l ->
  split_acc c (l ++ c :: rest) cur = (rev cur ++ l) :: split_acc c rest [].
Proof.
  induction l as [|x l IH]; intros cur H.
  - cbn [app split_acc]. unfold ceq. rewrite Ascii.eqb_refl. now rewrite app_nil_r.
  - inversion H as [|? ? Hx Hl]; subst. cbn [app split_acc]. rewrite Hx, IH by exact Hl.
    cbn [rev]. now rewrite <- app_assoc.
Qed.

Lemma split_join c : forall ls,
  ls <> [] ->
  Forall (Forall (fun x => ceq x c = false)) ls ->
  split c (join [c] ls) = ls.
Proof.
  unfold split. induction ls as [|l ls IH]; intros Hne H; [congruence|].
  inversion H as [|? ? Hl Hls]; subst.
  destruct ls as [|l' ls'].
  - cbn [join]. now rewrite split_acc_single.
  - change (join [c] (l :: l' :: ls')) with (l ++ c :: join [c] (l' :: ls')).
    rewrite split_acc_line by exact Hl. cbn [rev app].
    rewrite IH; [reflexivity|discriminate|exact Hls].
Qed.

Definition parsed_flat (k : nat) (l : str) : ParsedLine :=
  {| raw := l; indent := 0; content := l; depth := 0; line_number := k |}.

Fixpoint number_lines (k : nat) (ls : list str) : list ParsedLine :=
  match ls with
  | [] => []
  | l :: r => parsed_flat k l :: number_lines (k + 1) r
  end.

Lemma number_lines_length ls : forall k, length (number_lines k ls) = length ls.
Proof. induction ls as [|l ls IH]; intro k; simpl; [reflexivity|]. now rewrite IH. Qed.

Lemma strip_flat c r : isspace c = false -> is_empty (strip (c :: r)) = false.
Proof.
  intro Hc. apply is_empty_false. intro H. apply strip_nil in H.
  simpl in H. now rewrite Hc in H.
Qed.

Lemma scan_flat_lines indent_size strict : forall ls k,
  indent_size <> 0 ->
  Forall flat_line ls ->
  scan_lines ls k indent_size strict = Ok (number_lines k ls, []).
Proof.
  induction ls as [|l ls IH]; intros k Hi H; [reflexivity|].
  inversion H as [|? ? [Hh _] Hls]; subst.
  destruct l as [|c r]; [contradiction|].
  destruct (isspace_blank c Hh) as (Hsp & Htab & _).
  cbn [scan_lines count_leading]. rewrite Hsp. cbn [orb]. rewrite Htab.
  change (slice_from (c :: r) 0) with (c :: r). rewrite (strip_flat c r Hh).
  unfold _compute_depth_from_indent.
  destruct indent_size as [|n]; [congruence|].
  change (S n =? 0) with false. cbn iota. cbn [bind].
  change (slice (c :: r) 0 0) with (@nil ascii).
  change (contains TAB []) with false. rewrite andb_false_r.
  change (0 <? 0) with false. rewrite andb_false_r. cbn [andb].
  rewrite IH by assumption. cbn [bind fst snd number_lines].
  rewrite Nat.Div0.div_0_l. reflexivity.
Qed.

(** The loop of [decode_object] over the lines of the remaining fields. *)
Lemma decode_flat_fields options blanks : forall fields plines pre acc fuel,
  Forall round_trip_field fields ->
  Forall2 (fun kv pl => content pl = field_line kv /\ depth pl = 0) fields plines ->
  length fields < fuel ->
  decode_object_loop fuel
    {| c_lines := pre ++ plines; c_index := length pre; c_blank_lines := blanks |}
    0 options acc
  = Ok (set_all acc (map field_entry fields),
        {| c_lines := pre ++ plines; c_index := length pre + length plines;
           c_blank_lines := blanks |}).
Proof.
  induction fields as [|[k p] fields IH]; intros plines pre acc fuel Hf H2 Hfuel.
  - inversion H2; subst. destruct fuel as [|fuel]; [simpl in Hfuel; lia|].
    cbn [decode_object_loop]. unfold peek. cbn [c_lines c_index].
    rewrite app_nil_r.
    replace (nth_error pre (length pre)) with (@None ParsedLine)
      by (symmetry; apply nth_error_None; lia).
    cbn [length map]. rewrite Nat.add_0_r. reflexivity.
  - inversion H2 as [|? pl ? pls [Hc Hd] H2']; subst.
    inversion Hf as [|? ? (Hk & Hp & Hb) Hf']; subst.
    cbn [length] in Hfuel.
    destruct fuel as [|fuel]; [lia|].
    cbn [decode_object_loop]. unfold peek. cbn [c_lines c_index].
    rewrite nth_error_app2, Nat.sub_diag by lia. cbn [nth_error].
    rewrite Hd. change (0 <? 0) with false. change (0 =? 0) with true. cbn iota.
    rewrite Hc. unfold field_line. cbn [fst snd].
    destruct fuel as [|fuel]; [lia|].
    rewrite (decode_key_value_field fuel k p delimiter _ 0 options Hk Hp Hb).
    cbn [bind fst snd kv_key kv_value].
    unfold advance. cbn [c_lines c_index c_blank_lines].
    replace (length pre <? length (pre ++ pl :: pls)) with true
      by (symmetry; apply Nat.ltb_lt; rewrite length_app; simpl; lia).
    replace (pre ++ pl :: pls) with ((pre ++ [pl]) ++ pls) by (now rewrite <- app_assoc).
    replace (length pre + 1) with (length (pre ++ [pl])) by (rewrite length_app; reflexivity).
    rewrite (IH pls (pre ++ [pl]) _ (S fuel) Hf' H2') by lia.
    cbn [map]. unfold set_all. cbn [fold_left field_entry fst snd].
    do 3 f_equal. rewrite length_app. simpl. lia.
Qed.

Lemma number_lines_fields fields : forall k,
  Forall2 (fun kv pl => content pl = field_line kv /\ depth pl = 0) fields
    (number_lines k (map field_line fields)).
Proof.
  induction fields as [|kv fields IH]; intro k; cbn [map number_lines]; constructor.
  - split; reflexivity.
  - apply IH.
Qed.

Lemma join_length_ge c : forall ls, length ls <= length (join [c] ls) + 1.
Proof.
  induction ls as [|l ls IH]; [simpl; lia|].
  destruct ls as [|l' ls']; [simpl; lia|].
  change (join [c] (l :: l' :: ls')) with (l ++ c :: join [c] (l' :: ls')).
  rewrite length_app. cbn [length] in *. lia.
Qed.

Lemma field_line_key_value kv k :
  round_trip_field kv ->
  is_key_value_line (parsed_flat k (field_line kv)) = true
  /\ is_array_header_after_hyphen (field_line kv) = false.
Proof.
  intros (Hk & Hp & _). unfold is_key_value_line, is_array_header_after_hyphen.
  cbn [content parsed_flat]. unfold field_line.
  destruct (encode_primitive_decodes delimiter _ Hp) as [[Hne Hh Hl _ _ _] _].
  assert (Hstrip : strip (encode_key (fst kv) ++ [COLON; SPACE]
                          ++ encode_primitive (snd kv) delimiter)
                   = encode_key (fst kv) ++ [COLON; SPACE]
                     ++ encode_primitive (snd kv) delimiter).
  { apply strip_fixed. destruct (encode_key_head _ Hk) as (c & r & E & Hs & _). split.
    - rewrite E. exact Hs.
    - rewrite !rev_app_distr.
      destruct (rev (encode_primitive (snd kv) delimiter)) as [|x xs] eqn:Er.
      + apply (f_equal (@rev ascii)) in Er. rewrite rev_involutive in Er.
        simpl in Er. congruence.
      + exact Hl. }
  rewrite Hstrip. split.
  - destruct (encode_key_cases _ Hk) as [(_ & Hpat & ->)|(_ & ->)].
    + destruct (key_pattern_wordish _ Hpat) as [Hkne Hw].
      destruct (fst kv) as [|c r]; [congruence|]. inversion Hw as [|? ? Hc _]; subst.
      destruct (wordish_plain c Hc) as (_ & _ & Hq & _).
      cbn [app startswith]. unfold ceq in *. rewrite (Ascii.eqb_sym DOUBLE_QUOTE c), Hq.
      cbn [andb]. apply contains_In. right. apply in_or_app. right. now left.
    + assert (Ec : quoted (fst kv) ++ [COLON; SPACE] ++ encode_primitive (snd kv) delimiter
                   = DOUBLE_QUOTE :: flat_map escape_char (fst kv)
                     ++ DOUBLE_QUOTE :: COLON :: SPACE :: encode_primitive (snd kv) delimiter).
      { unfold quoted. rewrite escape_string_flat_map. cbn [app]. now rewrite <- app_assoc. }
      rewrite Ec. cbn [startswith]. change (ceq DOUBLE_QUOTE DOUBLE_QUOTE) with true.
      rewrite startswith_nil. cbn [andb].
      unfold find_closing_quote.
      match goal with |- context [skipn (0 + 1) (DOUBLE_QUOTE :: ?x)] =>
        change (skipn (0 + 1) (DOUBLE_QUOTE :: x)) with x end.
      rewrite find_closing_quote_escaped_app.
      set (e := flat_map escape_char (fst kv)).
      replace (0 + 1 + length e + 1) with (S (length e + 1)) by lia.
      cbn [nth_error]. rewrite nth_error_app2 by lia.
      replace (length e + 1 - length e) with 1 by lia. reflexivity.
  - destruct (encode_key_head _ Hk) as (c & r & E & _ & Hb & _).
    rewrite E. cbn [app startswith]. unfold ceq in *.
    rewrite (Ascii.eqb_sym OPEN_BRACKET c), Hb. reflexivity.
Qed.

(** The text of a flat mapping decodes as the mapping. *)
Lemma decode_flat_object fields eopts dopts :
  e_delimiter eopts = delimiter ->
  fields <> [] ->
  NoDup (map fst fields) ->
  Forall round_trip_field fields ->
  d_indent (_resolve_decode_options dopts) <> 0 ->
  decode (encode_value (JObject (map field_entry fields)) eopts) dopts
  = Ok (JObject (map field_entry fields)).
Proof.
  intros Hd Hne Hnd Hf Hi.
  assert (Htext : encode_value (JObject (map field_entry fields)) eopts
                  = join [NEWLINE] (map field_line fields)).
  { cbn [encode_value]. unfold to_string. rewrite encode_object_flat by exact Hd.
    reflexivity. }
  rewrite Htext. set (ls := map field_line fields).
  assert (Hflat : Forall flat_line ls).
  { unfold ls. apply Forall_map. eapply Forall_impl; [|exact Hf].
    intros kv Hkv. now apply field_line_flat. }
  assert (Hls : ls <> []).
  { unfold ls. destruct fields; [congruence|discriminate]. }
  assert (Hsplit : split NEWLINE (join [NEWLINE] ls) = ls).
  { apply split_join; [exact Hls|]. eapply Forall_impl; [|exact Hflat].
    intros l [_ H]. exact H. }
  assert (Hnonblank : is_empty (strip (join [NEWLINE] ls)) = false).
  { destruct ls as [|l ls']; [congruence|].
    inversion Hflat as [|? ? [Hh _] _]; subst.
    destruct l as [|c r]; [contradiction|].
    destruct ls' as [|l' ls'']; [now apply strip_flat|].
    change (join [NEWLINE] ((c :: r) :: l' :: ls''))
      with (c :: (r ++ NEWLINE :: join [NEWLINE] (l' :: ls''))).
    now apply strip_flat. }
  unfold decode, decode_with, to_parsed_lines.
  rewrite Hnonblank, Hsplit, (scan_flat_lines _ _ ls 1 Hi Hflat).
  cbn [bind fst snd lines blank_lines].
  rewrite number_lines_length.
  replace (length ls =? 0) with false
    by (symmetry; apply Nat.eqb_neq; destruct ls; [congruence|discriminate]).
  unfold decode_value_from_lines, new_cursor, peek, cursor_length.
  cbn [c_lines c_index].
  destruct fields as [|kv fields']; [congruence|].
  unfold ls. cbn [map number_lines nth_error content parsed_flat].
  inversion Hf as [|? ? Hkv Hf']; subst.
  destruct (field_line_key_value kv 1 Hkv) as [Hkvl Hnh].
  rewrite Hnh. fold (parsed_flat 1 (field_line kv)). rewrite Hkvl.
  cbn [negb]. rewrite andb_false_r.
  unfold decode_object.
  pose proof (decode_flat_fields (_resolve_decode_options dopts) [] (kv :: fields')
                (number_lines 1 (map field_line (kv :: fields'))) [] []
                (decode_fuel (join [NEWLINE] (map field_line (kv :: fields')))) Hf
                (number_lines_fields (kv :: fields') 1)) as Hloop.
  cbn [app length map number_lines] in Hloop.
  cbn [map]. rewrite Hloop.
  - cbn [bind fst]. rewrite set_all_fresh; [reflexivity| |intros ? ? []].
    assert (Hm : forall l, map fst (map field_entry l) = map fst l)
      by (intro l0; rewrite map_map; reflexivity).
    rewrite <- (Hm (kv :: fields')) in Hnd. exact Hnd.
  - pose proof (join_length_ge NEWLINE (map field_line (kv :: fields'))) as Hlen.
    rewrite length_map in Hlen. cbn [length map] in Hlen. unfold decode_fuel.
    cbn [map]. lia.
Qed.

End FlatObjects.

Section FlatMappings.

Lemma normalize_primitive delim p :
  round_trip_primitive delim p -> normalize_value (py_of_primitive p) = Ok (JPrim p).
Proof.
  intro Hp. destruct p as [|b|n|f|s]; try reflexivity.
  - simpl in Hp |- *. destruct (n =? 0)%Z; [reflexivity|].
    unfold int_isfinite.
    replace (FLOAT_OVERFLOW <=? Z.abs n)%Z with false
      by (symmetry; apply Z.leb_gt; exact Hp).
    reflexivity.
  - destruct f as [neg m e| |]; try contradiction. simpl in Hp |- *.
    destruct (m =? 0)%N; [|reflexivity]. destruct Hp as [-> _]. reflexivity.
Qed.

(** The host dict of a list of fields with string keys. *)
Definition py_fields (fields : list (str * JsonPrimitive)) : list (PyKey * PyValue) :=
  map (fun kv => (KStr (fst kv), py_of_primitive (snd kv))) fields.

Lemma normalize_py_fields delim fields :
  NoDup (map fst fields) ->
  Forall (round_trip_field delim) fields ->
  normalize_value (VDict true (py_fields fields)) = Ok (JObject (map field_entry fields)).
Proof.
  intros Hnd Hf. rewrite normalize_dict_unfold. apply normalize_items_spec.
  exists (map field_entry fields). split.
  - unfold kept_items, py_fields. clear Hnd.
    induction Hf as [|[k p] fields (_ & Hp & _) _ IH]; cbn [map filter fst _is_valid_dict_key].
    + constructor.
    + constructor; [|exact IH]. split; [reflexivity|].
      cbn [snd field_entry]. now apply (normalize_primitive delim).
  - rewrite set_all_fresh; [reflexivity| |intros ? ? []].
    rewrite map_map. cbn [field_entry fst]. exact Hnd.
Qed.

Lemma value_equal_py_fields fields :
  value_equal (VDict true (py_fields fields)) (JObject (map field_entry fields)).
Proof.
  constructor. unfold py_fields.
  induction fields as [|[k p] fields IH]; cbn [map]; constructor; [|exact IH].
  split; [reflexivity|]. cbn [snd field_entry]. destruct p; constructor.
Qed.

End FlatMappings.

(** A non-empty dict with string keys and primitive values survives the
    round trip through [encode] and [decode]: the decoder returns the same
    keys with the same values in the same order, for all encoder options
    and all decoder options with a non-zero indent, strict or not, when the
    keys are pairwise distinct, each key is quoted by the encoder or matches
    the unquoted-key pattern in full, each value reads back as a token, and
    no value under an unquoted key holds an opening bracket. *)
Theorem flat_object_round_trip (fields : list (str * JsonPrimitive))
  (eopts : option EncodeOptions) (dopts : option DecodeOptions) :
  fields <> [] ->
  NoDup (map fst fields) ->
  Forall (round_trip_field (e_delimiter (_resolve_encode_options eopts))) fields ->
  d_indent (_resolve_decode_options dopts) <> 0 ->
  round_trips (VDict true (py_fields fields)) eopts dopts.
Proof.
  intros Hne Hnd Hf Hi.
  exists (encode_value (JObject (map field_entry fields)) (_resolve_encode_options eopts)),
         (JObject (map field_entry fields)).
  split; [|split].
  - unfold encode. rewrite (normalize_py_fields _ fields Hnd Hf). reflexivity.
  - now apply (decode_flat_object (e_delimiter (_resolve_encode_options eopts))).
  - apply value_equal_py_fields.
Qed.

Lemma flat_object_round_trip_witness :
  round_trips
    (VDict true (py_fields [(lit "id", PInt 7); (lit "full name", PStr (lit "Ada, L."));
                            (lit "ok", PBool true)])) None None.
Proof.
  apply (flat_object_round_trip
           [(lit "id", PInt 7); (lit "full name", PStr (lit "Ada, L."));
            (lit "ok", PBool true)] None None).
  - discriminate.
  - repeat constructor; simpl; intuition discriminate.
  - repeat constructor; try reflexivity; try (right; reflexivity); try (left; reflexivity);
      intro H; try discriminate H; reflexivity.
  - discriminate.
Defined.


(** ** Normalization: what [normalize_value] returns and raises *)

Section DeepInduction.

(** Induction over host values that reaches into lists, sets and dicts. *)
Variable P : PyValue -> Prop.
Hypothesis H_none : P VNone.
Hypothesis H_bool : forall b, P (VBool b).
Hypothesis H_int : forall n, P (VInt n).
Hypothesis H_float : forall f, P (VFloat f).
Hypothesis H_str : forall s, P (VStr s).
Hypothesis H_datetime : forall s, P (VDatetime s).
Hypothesis H_list : forall items, Forall P items -> P (VList items).
Hypothesis H_set : forall items, Forall P items -> P (VSet items).
Hypothesis H_dict :
  forall plain items, Forall (fun kv => P (snd kv)) items -> P (VDict plain items).
Hypothesis H_other : P VOther.


End DeepInduction.



Section Normalize.






End Normalize.


(** ** Array headers: [format_header] and [parse_array_header_line] *)

Section Headers.

Lemma skipn_length_app {A} (a b : list A) n : n = length a -> skipn n (a ++ b) = b.
Proof. intros ->. now rewrite skipn_app, skipn_all, Nat.sub_diag. Qed.

Lemma firstn_length_app {A} (a b : list A) n : n = length a -> firstn n (a ++ b) = a.
Proof.
  intros ->. rewrite firstn_app, firstn_all, Nat.sub_diag. cbn [firstn]. apply app_nil_r.
Qed.

Lemma find_from_ge c : forall s pos j, find_from c s pos = Some j -> pos <= j.
Proof.
  induction s as [|x s IH]; intros pos j H; [discriminate|].
  cbn [find_from] in H. destruct (ceq x c).
  - inversion H. lia.
  - apply IH in H. lia.
Qed.

Lemma endswith_char_snoc s c c' : endswith_char (s ++ [c]) c' = ceq c c'.
Proof. unfold endswith_char. now rewrite rev_app_distr. Qed.

(** The text between the brackets, as [format_header] writes it. *)
Definition marker_text (length_marker : option str) : str :=
  match length_marker with
  | Some m => if is_empty m then [] else [HASH]
  | None => []
  end.

Definition marker_on (length_marker : option str) : bool :=
  match length_marker with
  | Some m => negb (is_empty m)
  | None => false
  end.

Definition delimiter_text (delimiter : ascii) : str :=
  if ceq delimiter DEFAULT_DELIMITER then [] else [delimiter].

Definition bracket_text (n : nat) (delimiter : ascii) (length_marker : option str) : str :=
  marker_text length_marker ++ str_int (Z.of_nat n) ++ delimiter_text delimiter.

Lemma str_nat_digits n :
  str_int (Z.of_nat n) <> [] /\ forallb isdigit (str_int (Z.of_nat n)) = true.
Proof.
  destruct (str_int_cases (Z.of_nat n)) as (neg & ds & E & Hne & Hd & _ & Hneg & _).
  assert (Hf : (Z.of_nat n <? 0)%Z = false) by (apply Z.ltb_ge; lia).
  rewrite Hf in Hneg. subst neg.
  change ((if false then ["-"%char] else []) ++ ds) with ds in E. rewrite E. now split.
Qed.

Lemma bracket_text_chars n d m :
  valid_delimiter d ->
  Forall (fun x => ceq x CLOSE_BRACKET = false /\ ceq x NEWLINE = false)
    (bracket_text n d m).
Proof.
  intro Hd. unfold bracket_text. apply Forall_app. split; [|apply Forall_app; split].
  - unfold marker_text. destruct m as [s|]; [destruct (is_empty s)|]; repeat constructor.
  - destruct (str_nat_digits n) as [_ H]. apply Forall_forall. intros x Hx.
    rewrite forallb_forall in H. specialize (H x Hx).
    revert H. destruct x as [[] [] [] [] [] [] [] []]; vm_compute; intro H;
      try discriminate H; split; reflexivity.
  - unfold delimiter_text. destruct Hd as [->|[->| ->]]; repeat constructor.
Qed.

Lemma endswith_digits ds c :
  ds <> [] -> forallb isdigit ds = true -> isdigit c = false -> endswith_char ds c = false.
Proof.
  intros Hne Hd Hc. unfold endswith_char.
  destruct (rev ds) as [|l r] eqn:E.
  - reflexivity.
  - assert (Hl : isdigit l = true).
    { rewrite forallb_forall in Hd. apply Hd. apply in_rev. rewrite E. now left. }
    apply ceq_false. intro. subst c. congruence.
Qed.

Lemma parse_bracket_text n d m :
  valid_delimiter d ->
  parse_bracket_segment (bracket_text n d m) DEFAULT_DELIMITER
  = Ok {| b_length := Z.of_nat n; b_delimiter := d; b_has_length_marker := marker_on m |}.
Proof.
  intro Hd. destruct (str_nat_digits n) as [Hne Hdig].
  pose proof (py_int_str_int (Z.of_nat n)) as Hint.
  set (ds := str_int (Z.of_nat n)) in *.
  assert (Hhead : startswith (ds ++ delimiter_text d) [HASH] = false).
  { destruct ds as [|c r]; [congruence|]. cbn [app startswith].
    cbn [forallb] in Hdig. apply andb_true_iff in Hdig. destruct Hdig as [Hc _].
    replace (ceq HASH c) with false; [reflexivity|].
    symmetry. apply ceq_false. intro. subst c. discriminate Hc. }
  assert (Hbody : forall has,
    (let '(delimiter, content) :=
       if endswith_char (ds ++ delimiter_text d) TAB
       then (TAB, drop_last (ds ++ delimiter_text d))
       else if endswith_char (ds ++ delimiter_text d) PIPE
            then (PIPE, drop_last (ds ++ delimiter_text d))
            else (DEFAULT_DELIMITER, ds ++ delimiter_text d) in
     match py_int content with
     | Some length =>
         Ok {| b_length := length; b_delimiter := delimiter; b_has_length_marker := has |}
     | None => Err InvalidArrayLength
     end)
    = Ok {| b_length := Z.of_nat n; b_delimiter := d; b_has_length_marker := has |}).
  { intro has. unfold delimiter_text, drop_last.
    destruct Hd as [->|[->| ->]].
    - change (ceq COMMA DEFAULT_DELIMITER) with true. cbn iota. rewrite app_nil_r.
      rewrite !endswith_digits by (assumption || reflexivity). now rewrite Hint.
    - change (ceq TAB DEFAULT_DELIMITER) with false. cbn iota.
      rewrite endswith_char_snoc. change (ceq TAB TAB) with true. cbn iota.
      rewrite removelast_last. now rewrite Hint.
    - change (ceq PIPE DEFAULT_DELIMITER) with false. cbn iota.
      rewrite !endswith_char_snoc. change (ceq PIPE TAB) with false.
      change (ceq PIPE PIPE) with true. cbn iota.
      rewrite removelast_last. now rewrite Hint. }
  unfold parse_bracket_segment, bracket_text, marker_text, marker_on.
  fold ds.
  destruct m as [s|]; [destruct (is_empty s)|]; cbn [app negb].
  - rewrite Hhead. apply Hbody.
  - cbn [startswith]. change (ceq HASH HASH) with true. rewrite startswith_nil.
    cbn [andb]. change (slice_from (HASH :: ds ++ delimiter_text d) 1)
      with (ds ++ delimiter_text d). apply Hbody.
  - rewrite Hhead. apply Hbody.
Qed.

(** A line made of an optional unquoted key, a bracket segment without a
    closing bracket inside, a colon and anything after it. *)
Lemma parse_header_text kp body rest dflt :
  kp = [] \/ key_pattern kp = true ->
  Forall (fun x => ceq x CLOSE_BRACKET = false) body ->
  parse_array_header_line (kp ++ OPEN_BRACKET :: body ++ CLOSE_BRACKET :: COLON :: rest) dflt
  = match parse_bracket_segment body dflt with
    | Err _ => Ok None
    | Ok pb =>
        Ok (Some ({| h_key := if is_empty kp then None else Some kp;
                     h_length := b_length pb;
                     h_delimiter := b_delimiter pb;
                     h_fields := None;
                     h_has_length_marker := b_has_length_marker pb |},
                  if is_empty (strip rest) then None else Some (strip rest)))
    end.
Proof.
  intros Hkp Hbody.
  set (content := kp ++ OPEN_BRACKET :: body ++ CLOSE_BRACKET :: COLON :: rest).
  assert (Hw : Forall (fun c => wordish c = true) kp).
  { destruct Hkp as [->|Hk]; [constructor|now apply key_pattern_wordish]. }
  assert (Hnb : Forall (fun x => ceq x OPEN_BRACKET = false) kp).
  { eapply Forall_impl; [|exact Hw]. intros x Hx. now apply wordish_plain. }
  assert (Hhead : exists c r, content = c :: r /\ isspace c = false
                              /\ ceq c DOUBLE_QUOTE = false).
  { unfold content. destruct kp as [|c r].
    - eexists _, _. split; [reflexivity|]. split; reflexivity.
    - inversion Hw as [|? ? Hc _]; subst. eexists _, _. split; [reflexivity|].
      destruct (wordish_plain c Hc) as (Hs & _ & Hq & _). now split. }
  destruct Hhead as (c & r & Ec & Hsp & Hq).
  set (be := length kp + 1 + length body).
  assert (Econt : content = (kp ++ OPEN_BRACKET :: body) ++ CLOSE_BRACKET :: COLON :: rest).
  { unfold content. now rewrite <- app_assoc. }
  assert (Hlen : length (kp ++ OPEN_BRACKET :: body) = be).
  { rewrite length_app. cbn [length]. unfold be. lia. }
  assert (E1 : find content OPEN_BRACKET 0 = Some (length kp)).
  { unfold find, content. cbn [skipn]. now rewrite find_from_app. }
  assert (E2 : find content CLOSE_BRACKET (length kp) = Some be).
  { unfold find, content. rewrite skipn_length_app by reflexivity.
    cbn [find_from]. change (ceq OPEN_BRACKET CLOSE_BRACKET) with false. cbn iota.
    rewrite find_from_app by exact Hbody. unfold be. f_equal. lia. }
  assert (E3 : forall start, start = be \/ start = be + 1 ->
                find content COLON start = Some (be + 1)).
  { intros start [->| ->]; unfold find; rewrite Econt.
    - rewrite skipn_length_app by (symmetry; exact Hlen). cbn [find_from].
      change (ceq CLOSE_BRACKET COLON) with false. change (ceq COLON COLON) with true.
      cbn iota. f_equal. lia.
    - replace ((kp ++ OPEN_BRACKET :: body) ++ CLOSE_BRACKET :: COLON :: rest)
        with (((kp ++ OPEN_BRACKET :: body) ++ [CLOSE_BRACKET]) ++ COLON :: rest)
        by (now rewrite <- app_assoc).
      rewrite skipn_length_app by (rewrite length_app, Hlen; reflexivity).
      cbn [find_from]. change (ceq COLON COLON) with true. reflexivity. }
  assert (E4 : find content OPEN_BRACE be = None
               \/ exists bs, find content OPEN_BRACE be = Some bs /\ be + 2 <= bs).
  { unfold find. rewrite Econt, skipn_length_app by (symmetry; exact Hlen).
    cbn [find_from]. change (ceq CLOSE_BRACKET OPEN_BRACE) with false.
    change (ceq COLON OPEN_BRACE) with false. cbn iota.
    destruct (find_from OPEN_BRACE rest (S (S be))) as [bs|] eqn:E; [|now left].
    right. exists bs. split; [reflexivity|]. apply find_from_ge in E. lia. }
  assert (E5 : slice content (length kp + 1) be = body).
  { unfold slice, content.
    replace (kp ++ OPEN_BRACKET :: body ++ CLOSE_BRACKET :: COLON :: rest)
      with ((kp ++ [OPEN_BRACKET]) ++ body ++ CLOSE_BRACKET :: COLON :: rest)
      by (now rewrite <- app_assoc).
    rewrite skipn_length_app by (rewrite length_app; reflexivity).
    apply firstn_length_app. unfold be. lia. }
  assert (E6 : slice_from content (be + 1 + 1) = rest).
  { unfold slice_from. rewrite Econt.
    replace ((kp ++ OPEN_BRACKET :: body) ++ CLOSE_BRACKET :: COLON :: rest)
      with (((kp ++ OPEN_BRACKET :: body) ++ [CLOSE_BRACKET; COLON]) ++ rest)
      by (now rewrite <- app_assoc).
    apply skipn_length_app. rewrite length_app, Hlen. cbn [length]. lia. }
  assert (E7 : (if 0 <? length kp then Some (slice content 0 (length kp)) else None)
               = if is_empty kp then None else Some kp).
  { destruct kp as [|k0 kr]; [reflexivity|].
    change (0 <? length (k0 :: kr)) with true. cbn iota. cbn [is_empty].
    unfold slice, content. rewrite Nat.sub_0_r. cbn [skipn].
    now rewrite firstn_length_app. }
  unfold parse_array_header_line. fold content.
  assert (L : lstrip content = content).
  { apply lstrip_fixed. rewrite Ec. exact Hsp. }
  rewrite L.
  assert (Q : startswith content [DOUBLE_QUOTE] = false).
  { rewrite Ec. cbn [startswith]. unfold ceq in *. now rewrite Ascii.eqb_sym, Hq. }
  rewrite Q, E1, E2. fold be.
  assert (Hmax : forall x, x = be + 1 -> Nat.max be x = be + 1) by (intros; lia).
  assert (Ebrace :
    (match find content OPEN_BRACE be, find content COLON be with
     | Some bs, Some first_colon =>
         if bs <? first_colon
         then match find content CLOSE_BRACE bs with
              | Some found_brace_end => found_brace_end + 1
              | None => be + 1
              end
         else be + 1
     | _, _ => be + 1
     end) = be + 1).
  { rewrite (E3 be) by now left.
    destruct E4 as [->|(bs & -> & Hbs)]; [reflexivity|].
    replace (bs <? be + 1) with false by (symmetry; apply Nat.ltb_ge; lia).
    reflexivity. }
  rewrite Ebrace, Nat.max_r by lia. rewrite (E3 (be + 1)) by now right.
  rewrite E5, E6, E7.
  destruct (parse_bracket_segment body dflt) as [pb|e]; [|reflexivity].
  destruct E4 as [->|(bs & -> & Hbs)]; cbn [bind].
  - reflexivity.
  - replace (bs <? be + 1) with false by (symmetry; apply Nat.ltb_ge; lia).
    reflexivity.
Qed.

Lemma format_header_text n key d m rest :
  format_header n key None d m ++ rest
  = (match key with Some k => if is_empty k then [] else encode_key k | None => [] end)
    ++ OPEN_BRACKET :: bracket_text n d m ++ CLOSE_BRACKET :: COLON :: rest.
Proof.
  unfold format_header, bracket_text, marker_text, delimiter_text.
  cbn [app]. rewrite <- !app_assoc. cbn [app]. rewrite <- !app_assoc. reflexivity.
Qed.

End Headers.

(** A header without field names that [format_header] writes, followed by
    anything, is read back by [parse_array_header_line] with the same key,
    length, delimiter and length marker, and the trimmed rest of the line as
    the inline values: for each of the three delimiters, with no key or an
    unquoted key that matches the key pattern in full. *)
Theorem array_header_round_trip (n : nat) (key : option str) (delimiter : ascii)
  (length_marker : option str) (rest : str) :
  valid_delimiter delimiter ->
  match key with Some k => key_pattern k = true | None => True end ->
  parse_array_header_line (format_header n key None delimiter length_marker ++ rest)
    DEFAULT_DELIMITER
  = Ok (Some ({| h_key := key;
                 h_length := Z.of_nat n;
                 h_delimiter := delimiter;
                 h_fields := None;
                 h_has_length_marker := marker_on length_marker |},
              if is_empty (strip rest) then None else Some (strip rest))).
Proof.
  intros Hd Hk. rewrite format_header_text.
  assert (Hb : Forall (fun x => ceq x CLOSE_BRACKET = false)
                 (bracket_text n delimiter length_marker)).
  { eapply Forall_impl; [|apply (bracket_text_chars n delimiter length_marker Hd)].
    intros y [Hy _]. exact Hy. }
  destruct key as [k|].
  - destruct (key_pattern_wordish k Hk) as [Hne _].
    assert (Ev : is_valid_unquoted_key k = true).
    { unfold is_valid_unquoted_key, re_match_anchored. now rewrite Hk. }
    assert (Ek : encode_key k = k) by (unfold encode_key; now rewrite Ev).
    destruct k as [|c r]; [congruence|]. cbn [is_empty]. rewrite Ek.
    rewrite parse_header_text; [|now right|exact Hb].
    rewrite (parse_bracket_text n delimiter length_marker Hd). reflexivity.
  - rewrite parse_header_text; [|now left|exact Hb].
    rewrite (parse_bracket_text n delimiter length_marker Hd). reflexivity.
Qed.

Lemma array_header_round_trip_witness :
  parse_array_header_line
    (format_header 3 (Some (lit "tags")) None PIPE (Some (lit "#")) ++ lit " a|b|c")
    DEFAULT_DELIMITER
  = Ok (Some ({| h_key := Some (lit "tags");
                 h_length := Z.of_nat 3;
                 h_delimiter := PIPE;
                 h_fields := None;
                 h_has_length_marker := marker_on (Some (lit "#")) |},
              if is_empty (strip (lit " a|b|c")) then None
              else Some (strip (lit " a|b|c")))).
Proof.
  apply (array_header_round_trip 3 (Some (lit "tags")) PIPE (Some (lit "#")) (lit " a|b|c")).
  - right. now right.
  - reflexivity.
Defined.

(** ** Arrays under keys that need quoting *)

Section QuotedKeyArrays.

Lemma quoted_text k x :
  quoted k ++ x = DOUBLE_QUOTE :: flat_map escape_char k ++ DOUBLE_QUOTE :: x.
Proof. unfold quoted. rewrite escape_string_flat_map. cbn [app]. now rewrite <- app_assoc. Qed.

Lemma find_closing_quote_quoted_app k x :
  find_closing_quote (quoted k ++ x) 0 = Some (length (escape_string k) + 1).
Proof.
  rewrite quoted_text. unfold find_closing_quote.
  change (skipn (0 + 1) (DOUBLE_QUOTE :: flat_map escape_char k ++ DOUBLE_QUOTE :: x))
    with (flat_map escape_char k ++ DOUBLE_QUOTE :: x).
  rewrite find_closing_quote_escaped_app, escape_string_flat_map. f_equal. lia.
Qed.

Lemma nth_error_after_quoted k c x :
  nth_error (quoted k ++ c :: x) (length (escape_string k) + 1 + 1) = Some c.
Proof.
  rewrite nth_error_app2 by (rewrite quoted_length; lia).
  rewrite quoted_length.
  replace (length (escape_string k) + 1 + 1 - (length (escape_string k) + 2)) with 0 by lia.
  reflexivity.
Qed.

(** A quoted key that is not followed by a colon. *)
Lemma decode_key_value_quoted_no_colon fuel k c x cursor base_depth options :
  ceq c COLON = false ->
  decode_key_value (S fuel) (quoted k ++ c :: x) cursor base_depth options
  = Err MissingColon.
Proof.
  intro Hc. cbn [decode_key_value].
  assert (Hh : parse_array_header_line (quoted k ++ c :: x) DEFAULT_DELIMITER = Ok None).
  { unfold parse_array_header_line. rewrite quoted_text.
    change (lstrip (DOUBLE_QUOTE :: flat_map escape_char k ++ DOUBLE_QUOTE :: c :: x))
      with (DOUBLE_QUOTE :: flat_map escape_char k ++ DOUBLE_QUOTE :: c :: x).
    cbn [startswith]. change (ceq DOUBLE_QUOTE DOUBLE_QUOTE) with true.
    now rewrite startswith_nil. }
  rewrite Hh. cbn [bind].
  assert (Hk : parse_key_token (quoted k ++ c :: x) 0 = Err MissingColon).
  { unfold parse_key_token.
    replace (nth_error (quoted k ++ c :: x) 0) with (Some DOUBLE_QUOTE)
      by (now rewrite quoted_text).
    change (ceq DOUBLE_QUOTE DOUBLE_QUOTE) with true. cbn iota.
    unfold parse_quoted_key. rewrite find_closing_quote_quoted_app.
    assert (Es : slice (quoted k ++ c :: x) (0 + 1) (length (escape_string k) + 1)
                 = escape_string k).
    { rewrite quoted_text. unfold slice.
      change (skipn (0 + 1) (DOUBLE_QUOTE :: flat_map escape_char k ++ DOUBLE_QUOTE :: c :: x))
        with (flat_map escape_char k ++ DOUBLE_QUOTE :: c :: x).
      rewrite escape_string_flat_map.
      replace (length (flat_map escape_char k) + 1 - (0 + 1))
        with (length (flat_map escape_char k)) by lia.
      rewrite firstn_app, firstn_all, Nat.sub_diag. cbn [firstn]. apply app_nil_r. }
    rewrite Es, unescape_escape. cbn [bind].
    rewrite nth_error_after_quoted, Hc. reflexivity. }
  rewrite Hk. reflexivity.
Qed.

Lemma format_header_keyed n (key : str) fields d m :
  key <> [] -> is_valid_unquoted_key key = false ->
  exists x, format_header n (Some key) fields d m = quoted key ++ OPEN_BRACKET :: x.
Proof.
  intros Hne Hv. unfold format_header, encode_key. rewrite Hv.
  destruct key as [|c r]; [congruence|]. cbn [is_empty].
  eexists. fold (quoted (c :: r)). rewrite <- !app_assoc. cbn [app]. reflexivity.
Qed.

Lemma Forall_join (P : ascii -> Prop) sep : forall parts,
  Forall P sep -> Forall (Forall P) parts -> Forall P (join sep parts).
Proof.
  induction parts as [|p ps IH]; intros Hs H; [constructor|].
  inversion H; subst. destruct ps as [|p' ps'].
  - assumption.
  - change (join sep (p :: p' :: ps')) with (p ++ sep ++ join sep (p' :: ps')).
    apply Forall_app. split; [assumption|]. apply Forall_app. split; [assumption|].
    now apply IH.
Qed.

Lemma join_last sep : forall parts,
  parts <> [] ->
  Forall (fun p => p <> [] /\ head_not_space (rev p)) parts ->
  join sep parts <> [] /\ head_not_space (rev (join sep parts)).
Proof.
  induction parts as [|p ps IH]; intros Hne H; [congruence|].
  inversion H as [|? ? [Hp Hl] Hps]; subst. destruct ps as [|p' ps'].
  - now split.
  - change (join sep (p :: p' :: ps')) with (p ++ sep ++ join sep (p' :: ps')).
    destruct (IH ltac:(discriminate) Hps) as [Hj Hjl]. split.
    + intro E. apply app_eq_nil in E. destruct E as [E _]. now apply Hp.
    + rewrite !rev_app_distr.
      destruct (rev (join sep (p' :: ps'))) as [|y ys] eqn:E.
      * apply (f_equal (@rev ascii)) in E. rewrite rev_involutive in E.
        exfalso. exact (Hj E).
      * exact Hjl.
Qed.

(** The line [encode_value] writes for a mapping with one field that holds
    an array of primitives. *)
Definition array_field_line (key : str) (values : list JsonPrimitive)
  (options : ResolvedEncodeOptions) : str :=
  if length values =? 0
  then format_header 0 (Some key) None (e_delimiter options) (e_length_marker options)
  else encode_inline_array_line (map JPrim values) (e_delimiter options) (Some key)
         (e_length_marker options).

Lemma is_array_of_primitives_map values :
  is_array_of_primitives (map JPrim values) = true.
Proof. unfold is_array_of_primitives. induction values; simpl; auto. Qed.

Lemma primitives_of_map values : primitives_of (map JPrim values) = values.
Proof. unfold primitives_of. induction values; simpl; [reflexivity|]. now f_equal. Qed.

Lemma encode_array_field (key : str) values options :
  encode_value (JObject [(key, JArray (map JPrim values))]) options
  = array_field_line key values options.
Proof.
  cbn [encode_value]. unfold to_string, encode_object, encode_object_with.
  cbn [fold_left fst snd encode_key_value_pair]. unfold encode_array_with, array_field_line.
  rewrite length_map. destruct (length values =? 0).
  - reflexivity.
  - rewrite is_array_of_primitives_map. reflexivity.
Qed.

Lemma array_field_line_shape (key : str) values options :
  key <> [] -> is_valid_unquoted_key key = false ->
  valid_delimiter (e_delimiter options) ->
  Forall (round_trip_primitive (e_delimiter options)) values ->
  exists c x,
    array_field_line key values options = quoted key ++ OPEN_BRACKET :: c :: x
    /\ Forall (fun y => ceq y NEWLINE = false) (array_field_line key values options)
    /\ head_not_space (rev (array_field_line key values options)).
Proof.
  intros Hne Hv Hd Hvals. unfold array_field_line.
  set (d := e_delimiter options) in *. set (m := e_length_marker options).
  assert (Hkey : forall n, format_header n (Some key) None d m
                           = quoted key ++ OPEN_BRACKET :: bracket_text n d m
                             ++ [CLOSE_BRACKET; COLON]).
  { intro n. pose proof (format_header_text n (Some key) d m []) as H.
    rewrite app_nil_r in H. rewrite H. unfold encode_key. rewrite Hv.
    destruct key; [congruence|]. reflexivity. }
  assert (Hbr : forall n, exists c x, bracket_text n d m = c :: x).
  { intro n. unfold bracket_text. destruct (str_nat_digits n) as [Hn _].
    destruct (marker_text m) as [|a b]; [|eexists _, _; reflexivity].
    destruct (str_int (Z.of_nat n)) as [|a b]; [congruence|]. eexists _, _; reflexivity. }
  assert (Hhead_nl : forall n, Forall (fun y => ceq y NEWLINE = false)
                       (quoted key ++ OPEN_BRACKET :: bracket_text n d m
                        ++ [CLOSE_BRACKET; COLON])).
  { intro n. apply Forall_app. split.
    - destruct (root_text_quoted key) as [_ _ _ H _ _]. exact H.
    - constructor; [reflexivity|]. apply Forall_app. split; [|repeat constructor].
      eapply Forall_impl; [|apply (bracket_text_chars n d m Hd)]. intros y [_ Hy]. exact Hy. }
  destruct (length values =? 0) eqn:E0.
  - rewrite Hkey. destruct (Hbr 0) as (c & x & Eb). exists c, (x ++ [CLOSE_BRACKET; COLON]).
    split; [now rewrite Eb|]. split; [apply Hhead_nl|].
    rewrite app_comm_cons, app_assoc, rev_app_distr. reflexivity.
  - unfold encode_inline_array_line. rewrite length_map, E0, Hkey, primitives_of_map.
    destruct (Hbr (length values)) as (c & x & Eb).
    assert (Htoks : Forall (fun t => (t <> [] /\ head_not_space (rev t))
                                     /\ Forall (fun y => ceq y NEWLINE = false) t)
                      (map (fun v => encode_primitive v d) values)).
    { apply Forall_map. eapply Forall_impl; [|exact Hvals]. intros p Hp.
      destruct (encode_primitive_decodes d p Hp) as [[H1 _ H3 H4 _ _] _]. auto. }
    assert (Hvne : map (fun v => encode_primitive v d) values <> []).
    { destruct values; [discriminate E0|discriminate]. }
    destruct (join_last [d] _ Hvne) as [Hj Hjl].
    { eapply Forall_impl; [|exact Htoks]. intros t [H _]. exact H. }
    exists c, (x ++ [CLOSE_BRACKET; COLON] ++ [SPACE] ++ encode_and_join_primitives values d).
    split; [rewrite Eb; cbn [app]; repeat (rewrite <- app_assoc; cbn [app]); reflexivity|].
    split.
    + apply Forall_app. split; [apply Hhead_nl|].
      apply Forall_app. split; [repeat constructor|].
      unfold encode_and_join_primitives. apply Forall_join.
      * destruct Hd as [E|[E|E]]; rewrite E; repeat constructor.
      * eapply Forall_impl; [|exact Htoks]. intros t [_ H]. exact H.
    + unfold encode_and_join_primitives. rewrite !rev_app_distr.
      destruct (rev (join [d] (map (fun v => encode_primitive v d) values))) as [|y ys] eqn:E.
      * apply (f_equal (@rev ascii)) in E. rewrite rev_involutive in E.
        exfalso. exact (Hj E).
      * exact Hjl.
Qed.

End QuotedKeyArrays.

(** An array under a key that needs quoting cannot be read back.  The header
    the encoder writes for it starts with the quoted key followed by the
    opening bracket, and [decode_key_value] raises the missing-colon error on
    every line that starts so; a mapping whose single field is such a key
    with an array of primitives is written as one line, which [decode]
    rejects with the unexpected-characters error. *)
Theorem quoted_key_array_unreadable (key : str) :
  key <> [] ->
  is_valid_unquoted_key key = false ->
  (forall fuel n fields delimiter length_marker rest cursor base_depth options,
      decode_key_value (S fuel)
        (format_header n (Some key) fields delimiter length_marker ++ rest)
        cursor base_depth options
      = Err MissingColon)
  /\ (forall values eopts dopts,
        valid_delimiter (e_delimiter eopts) ->
        Forall (round_trip_primitive (e_delimiter eopts)) values ->
        d_indent (_resolve_decode_options dopts) <> 0 ->
        decode (encode_value (JObject [(key, JArray (map JPrim values))]) eopts) dopts
        = Err UnexpectedCharactersAfterQuote).
Proof.
  intros Hne Hv. split.
  - intros fuel n fields d m rest cursor base_depth options.
    destruct (format_header_keyed n key fields d m Hne Hv) as [x ->].
    rewrite <- app_assoc. cbn [app].
    now apply decode_key_value_quoted_no_colon.
  - intros values eopts dopts Hd Hvals Hi.
    rewrite encode_array_field.
    destruct (array_field_line_shape key values eopts Hne Hv Hd Hvals)
      as (c & x & Et & Hnl & Hlast).
    set (t := array_field_line key values eopts) in *.
    assert (Hflat : flat_line t).
    { split; [|exact Hnl]. rewrite Et, quoted_text. reflexivity. }
    assert (Hstrip : strip t = t).
    { apply strip_fixed. split; [|exact Hlast]. rewrite Et, quoted_text. reflexivity. }
    assert (Hnonempty : is_empty t = false) by (rewrite Et, quoted_text; reflexivity).
    assert (Hq : startswith t [DOUBLE_QUOTE] = true).
    { rewrite Et, quoted_text. cbn [startswith].
      change (ceq DOUBLE_QUOTE DOUBLE_QUOTE) with true. now rewrite startswith_nil. }
    assert (Hfind : find_closing_quote t 0 = Some (length (escape_string key) + 1)).
    { rewrite Et. apply find_closing_quote_quoted_app. }
    unfold decode, decode_with, to_parsed_lines.
    rewrite Hstrip, Hnonempty, (split_single _ _ Hnl).
    rewrite (scan_flat_lines _ _ [t] 1 Hi) by (constructor; [exact Hflat|constructor]).
    cbn [bind fst snd lines blank_lines number_lines length Nat.eqb].
    unfold decode_value_from_lines, new_cursor, peek, cursor_length.
    cbn [c_lines c_index nth_error content parsed_flat length].
    unfold is_array_header_after_hyphen. rewrite Hstrip.
    assert (Hb : startswith t [OPEN_BRACKET] = false) by (rewrite Et, quoted_text; reflexivity).
    rewrite Hb. cbn [andb].
    assert (Hkv : is_key_value_line (parsed_flat 1 t) = false).
    { unfold is_key_value_line. cbn [content parsed_flat]. rewrite Hq, Hfind.
      rewrite Et, nth_error_after_quoted. reflexivity. }
    rewrite Hkv. cbn [Nat.eqb andb negb].
    unfold parse_primitive_token. rewrite Hstrip, Hnonempty, Hq.
    unfold parse_string_literal. rewrite Hstrip, Hq, Hfind.
    replace (length (escape_string key) + 1 =? length t - 1) with false; [reflexivity|].
    symmetry. apply Nat.eqb_neq. rewrite Et, length_app, quoted_length. cbn [length]. lia.
Qed.

Lemma quoted_key_array_unreadable_witness :
  (forall fuel n fields delimiter length_marker rest cursor base_depth options,
      decode_key_value (S fuel)
        (format_header n (Some (lit "my key")) fields delimiter length_marker ++ rest)
        cursor base_depth options
      = Err MissingColon)
  /\ (forall values eopts dopts,
        valid_delimiter (e_delimiter eopts) ->
        Forall (round_trip_primitive (e_delimiter eopts)) values ->
        d_indent (_resolve_decode_options dopts) <> 0 ->
        decode (encode_value (JObject [(lit "my key", JArray (map JPrim values))]) eopts)
          dopts
        = Err UnexpectedCharactersAfterQuote).
Proof.
  apply (quoted_key_array_unreadable (lit "my key")).
  - discriminate.
  - reflexivity.
Defined.

(** ** The writer and the scanner agree on depth *)

Section WriterScanner.

Lemma concat_repeat_spaces n depth :
  concat (repeat (repeat SPACE n) depth) = repeat SPACE (depth * n).
Proof.
  induction depth as [|depth IH]; [reflexivity|].
  cbn [repeat concat]. rewrite IH. cbn [Nat.mul]. now rewrite repeat_app.
Qed.

Lemma count_leading_repeat (p : ascii -> bool) a k c r :
  p a = true -> p c = false -> count_leading p (repeat a k ++ c :: r) = k.
Proof.
  intros Ha Hc. induction k as [|k IH]; cbn [repeat app count_leading].
  - now rewrite Hc.
  - now rewrite Ha, IH.
Qed.

Lemma contains_repeat_other a b k : ceq a b = false -> contains a (repeat b k) = false.
Proof.
  intro H. unfold contains. induction k as [|k IH]; [reflexivity|].
  cbn [repeat existsb]. now rewrite H, IH.
Qed.

End WriterScanner.

(** The scanner finds the depth the writer wrote: a line pushed at a depth
    under a positive indent size, whose content does not start with
    whitespace, scans, in strict mode too, to that content at that depth,
    with the indent the product of the two. *)
Theorem pushed_line_scans (indent_size depth k : nat) (content : str) (strict : bool) :
  0 < indent_size ->
  match content with c :: _ => isspace c = false | [] => False end ->
  exists l,
    w_lines (push (new_writer indent_size) depth content) = [l]
    /\ scan_lines [l] k indent_size strict
       = Ok ([{| raw := l; indent := depth * indent_size; content := content;
                 depth := depth; line_number := k |}], []).
Proof.
  intros Hn Hc. destruct content as [|c r]; [contradiction|].
  destruct (isspace_blank c Hc) as (Hsp & Htab & _).
  exists (repeat SPACE (depth * indent_size) ++ c :: r). split.
  - unfold push, new_writer. cbn [w_lines w_indentation_string app].
    now rewrite concat_repeat_spaces.
  - cbn [scan_lines].
    rewrite (count_leading_repeat (fun x => ceq x SPACE) SPACE _ c r eq_refl Hsp).
    rewrite (count_leading_repeat (fun x => ceq x SPACE || ceq x TAB) SPACE _ c r eq_refl)
      by (now rewrite Hsp, Htab).
    unfold slice_from, slice. rewrite Nat.sub_0_r. cbn [skipn].
    rewrite skipn_length_app by (now rewrite repeat_length).
    rewrite firstn_length_app by (now rewrite repeat_length).
    rewrite (strip_flat c r Hc). unfold _compute_depth_from_indent.
    replace (indent_size =? 0) with false by (symmetry; apply Nat.eqb_neq; lia).
    cbn [bind]. rewrite contains_repeat_other by reflexivity. rewrite andb_false_r.
    rewrite Nat.Div0.mod_mul. change (0 =? 0) with true. cbn [negb].
    rewrite andb_false_r. cbn [bind fst snd].
    rewrite Nat.div_mul by lia. reflexivity.
Qed.

Lemma pushed_line_scans_witness :
  exists l,
    w_lines (push (new_writer 2) 3 (lit "id: 1")) = [l]
    /\ scan_lines [l] 7 2 true
       = Ok ([{| raw := l; indent := 3 * 2; content := lit "id: 1";
                 depth := 3; line_number := 7 |}], []).
Proof.
  apply (pushed_line_scans 2 3 7 (lit "id: 1") true).
  - lia.
  - reflexivity.
Defined.

(** ** Nested mappings: the round trip through [encode_value] and [decode] *)

Section ObjectTrees.

Variable delimiter : ascii.

(** The keys that are read back: quoted by the encoder, or matching the
    unquoted-key pattern in full. *)
Definition plain_key (key : str) : Prop :=
  key_pattern key = true \/ is_valid_unquoted_key key = false.

(** A field holding a primitive under an unquoted key has no opening bracket
    in its token. *)
Definition bracket_free (kv : str * JsonValue) : Prop :=
  forall p, snd kv = JPrim p -> is_valid_unquoted_key (fst kv) = true ->
            contains OPEN_BRACKET (encode_primitive p delimiter) = false.

(** Mappings nested in mappings, with primitives at the leaves: no arrays,
    pairwise distinct keys in every mapping, and every field one that reads
    back. *)
#[warnings="-register-all"]
Inductive object_tree : JsonValue -> Prop :=
| tree_prim p : round_trip_primitive delimiter p -> object_tree (JPrim p)
| tree_object d :
    NoDup (map fst d) ->
    Forall (fun kv => plain_key (fst kv) /\ object_tree (snd kv) /\ bracket_free kv) d ->
    object_tree (JObject d).

(** The number of lines a field takes. *)
Fixpoint value_lines (v : JsonValue) : nat :=
  match v with
  | JObject d => 1 + list_sum (map (fun kv => value_lines (snd kv)) d)
  | _ => 1
  end.

Definition entries_lines (d : list (str * JsonValue)) : nat :=
  list_sum (map (fun kv => value_lines (snd kv)) d).

Lemma value_lines_positive v : 0 < value_lines v.
Proof. destruct v; simpl; lia. Qed.

Lemma entries_lines_cons kv d :
  entries_lines (kv :: d) = value_lines (snd kv) + entries_lines d.
Proof. reflexivity. Qed.

Lemma entries_lines_In d kv : In kv d -> value_lines (snd kv) <= entries_lines d.
Proof.
  induction d as [|x d IH]; [intros []|]. intros [H|H]; rewrite entries_lines_cons.
  - subst. lia.
  - specialize (IH H). lia.
Qed.

(** Induction on an [object_tree], with the predicate at every field. *)
Lemma object_tree_deep (P : JsonValue -> Prop) :
  (forall p, round_trip_primitive delimiter p -> P (JPrim p)) ->
  (forall d, NoDup (map fst d) ->
             Forall (fun kv => plain_key (fst kv) /\ object_tree (snd kv) /\ bracket_free kv
                               /\ P (snd kv)) d ->
             P (JObject d)) ->
  forall v, object_tree v -> P v.
Proof.
  intros Hp Ho.
  assert (H : forall n v, value_lines v <= n -> object_tree v -> P v).
  { induction n as [|n IH]; intros v Hn Hv.
    - pose proof (value_lines_positive v). lia.
    - destruct Hv as [p Hprim|d Hnd Hf]; [now apply Hp|].
      apply Ho; [exact Hnd|]. rewrite Forall_forall in *. intros kv Hin.
      destruct (Hf kv Hin) as (Hk & Ht & Hb). repeat split; try assumption.
      apply IH; [|exact Ht].
      pose proof (entries_lines_In d kv Hin) as Hle.
      change (value_lines (JObject d)) with (S (entries_lines d)) in Hn. lia. }
  intros v Hv. now apply (H (value_lines v)).
Qed.

(** The lines of a field: the depth and the content of each. *)
Fixpoint entry_rows (depth : nat) (key : str) (v : JsonValue) : list (nat * str) :=
  match v with
  | JPrim p => [(depth, encode_key key ++ [COLON; SPACE] ++ encode_primitive p delimiter)]
  | JObject d =>
      (depth, encode_key key ++ [COLON])
      :: flat_map (fun kv => entry_rows (depth + 1) (fst kv) (snd kv)) d
  | JArray _ => []
  end.

Definition object_rows (depth : nat) (d : list (str * JsonValue)) : list (nat * str) :=
  flat_map (fun kv => entry_rows depth (fst kv) (snd kv)) d.

(** A line as [LineWriter.push] writes it. *)
Definition render (indentation_string : str) (row : nat * str) : str :=
  concat (repeat indentation_string (fst row)) ++ snd row.

Lemma encode_object_rows options (P : JsonValue -> Prop) :
  (forall v, P v -> forall key w depth,
     encode_key_value_pair options key v w depth
     = {| w_lines := w_lines w ++ map (render (w_indentation_string w))
                                      (entry_rows depth key v);
          w_indentation_string := w_indentation_string w |}) ->
  forall d w depth,
  Forall (fun kv => P (snd kv)) d ->
  encode_object_with (encode_key_value_pair options) d w depth
  = {| w_lines := w_lines w ++ map (render (w_indentation_string w)) (object_rows depth d);
       w_indentation_string := w_indentation_string w |}.
Proof.
  intro HP. unfold encode_object_with, object_rows.
  induction d as [|[k v] d IH]; intros w depth Hf; cbn [fold_left flat_map map].
  - rewrite app_nil_r. now destruct w.
  - inversion Hf as [|? ? Hv Hd]; subst. cbn [fst snd] in *.
    rewrite (HP v Hv), IH by exact Hd. cbn [w_lines w_indentation_string].
    now rewrite map_app, app_assoc.
Qed.

Lemma encode_entry_rows options :
  e_delimiter options = delimiter ->
  forall v, object_tree v -> forall key w depth,
  encode_key_value_pair options key v w depth
  = {| w_lines := w_lines w ++ map (render (w_indentation_string w)) (entry_rows depth key v);
       w_indentation_string := w_indentation_string w |}.
Proof.
  intro Hd. apply (object_tree_deep (fun v => forall key w depth,
    encode_key_value_pair options key v w depth
    = {| w_lines := w_lines w ++ map (render (w_indentation_string w)) (entry_rows depth key v);
         w_indentation_string := w_indentation_string w |})).
  - intros p _ key w depth. cbn [encode_key_value_pair entry_rows map]. unfold push, render.
    cbn [fst snd]. now rewrite Hd.
  - intros d _ Hf key w depth. cbn [encode_key_value_pair entry_rows map].
    rewrite (encode_object_rows options (fun v => forall key w depth,
      encode_key_value_pair options key v w depth
      = {| w_lines := w_lines w ++ map (render (w_indentation_string w))
                                       (entry_rows depth key v);
           w_indentation_string := w_indentation_string w |})).
    + unfold push, render, object_rows. cbn [w_lines w_indentation_string fst snd].
      now rewrite <- app_assoc.
    + intros v Hv. exact Hv.
    + eapply Forall_impl; [|exact Hf]. intros kv (_ & _ & _ & H). exact H.
Qed.

Lemma entry_rows_head depth key v :
  object_tree v ->
  exists t rows, entry_rows depth key v = (depth, encode_key key ++ COLON :: t) :: rows.
Proof.
  intros [p _|d _ _]; cbn [entry_rows]; eexists; eexists; reflexivity.
Qed.

Lemma entry_rows_length depth key v :
  object_tree v -> length (entry_rows depth key v) = value_lines v.
Proof.
  intro Hv. revert depth key.
  apply (object_tree_deep (fun v => forall depth key,
           length (entry_rows depth key v) = value_lines v)); [reflexivity| |exact Hv].
  intros d _ Hf depth key. cbn [entry_rows length].
  change (value_lines (JObject d)) with (S (entries_lines d)). f_equal.
  induction Hf as [|kv d' (_ & _ & _ & H) _ IH]; [reflexivity|].
  cbn [flat_map]. now rewrite length_app, H, IH, entries_lines_cons.
Qed.

Lemma object_rows_length depth d :
  Forall (fun kv => object_tree (snd kv)) d ->
  length (object_rows depth d) = entries_lines d.
Proof.
  unfold object_rows.
  induction 1 as [|kv d' H _ IH]; [reflexivity|].
  cbn [flat_map]. now rewrite length_app, entry_rows_length, IH, entries_lines_cons.
Qed.

Lemma entry_rows_flat v :
  object_tree v -> forall depth key, plain_key key ->
  Forall (fun row => flat_line (snd row)) (entry_rows depth key v).
Proof.
  apply (object_tree_deep (fun v => forall depth key, plain_key key ->
           Forall (fun row => flat_line (snd row)) (entry_rows depth key v))).
  - intros p Hp depth key Hk. cbn [entry_rows]. constructor; [|constructor].
    cbn [snd]. destruct (encode_key_head key Hk) as (c & r & E & Hs & _ & Hnl).
    destruct (encode_primitive_decodes delimiter _ Hp) as [[_ _ _ Hone _ _] _].
    split.
    + rewrite E. exact Hs.
    + apply Forall_app. split; [exact Hnl|].
      constructor; [reflexivity|]. constructor; [reflexivity|exact Hone].
  - intros d _ Hf depth key Hk. cbn [entry_rows]. constructor.
    + cbn [snd]. destruct (encode_key_head key Hk) as (c & r & E & Hs & _ & Hnl).
      split.
      * rewrite E. exact Hs.
      * apply Forall_app. split; [exact Hnl|]. now repeat constructor.
    + induction Hf as [|kv d' (Hkv & _ & _ & H) _ IH]; [constructor|].
      cbn [flat_map]. apply Forall_app. split; [now apply H|exact IH].
Qed.

(** The scanner reads the lines of [render] back as their content at their
    depth. *)
Definition rows_parsed (rows : list (nat * str)) (pls : list ParsedLine) : Prop :=
  Forall2 (fun row pl => content pl = snd row /\ depth pl = fst row) rows pls.

Lemma scan_rows n strict :
  n <> 0 -> forall rows k,
  Forall (fun row => flat_line (snd row)) rows ->
  exists pls, scan_lines (map (render (repeat SPACE n)) rows) k n strict = Ok (pls, [])
              /\ rows_parsed rows pls.
Proof.
  intro Hn. induction rows as [|[d c] rows IH]; intros k Hf.
  - exists []. split; [reflexivity|constructor].
  - inversion Hf as [|? ? [Hh _] Hr]; subst. cbn [snd] in Hh.
    destruct c as [|c r]; [contradiction|].
    destruct (IH (k + 1) Hr) as (pls & Hs & H2).
    destruct (isspace_blank c Hh) as (Hsp & Htab & _).
    eexists. split.
    + cbn [map scan_lines].
      change (render (repeat SPACE n) (d, c :: r))
        with (concat (repeat (repeat SPACE n) d) ++ c :: r).
      rewrite concat_repeat_spaces.
      rewrite (count_leading_repeat (fun x => ceq x SPACE) SPACE _ c r eq_refl Hsp).
      rewrite (count_leading_repeat (fun x => ceq x SPACE || ceq x TAB) SPACE _ c r eq_refl)
        by (now rewrite Hsp, Htab).
      unfold slice_from, slice. rewrite Nat.sub_0_r. cbn [skipn].
      rewrite skipn_length_app by (now rewrite repeat_length).
      rewrite firstn_length_app by (now rewrite repeat_length).
      rewrite (strip_flat c r Hh). unfold _compute_depth_from_indent.
      replace (n =? 0) with false by (symmetry; apply Nat.eqb_neq; lia).
      cbn [bind]. rewrite contains_repeat_other by reflexivity. rewrite andb_false_r.
      rewrite Nat.Div0.mod_mul. change (0 =? 0) with true. cbn [negb].
      rewrite andb_false_r. rewrite Hs. cbn [bind fst snd].
      rewrite Nat.div_mul by lia. reflexivity.
    + constructor; [split; reflexivity|exact H2].
Qed.

(** The cursor, by the lines it has not consumed. *)
Definition remaining (c : LineCursor) : list ParsedLine := skipn (c_index c) (c_lines c).

Definition advance_by (k : nat) (c : LineCursor) : LineCursor :=
  {| c_lines := c_lines c; c_index := c_index c + k; c_blank_lines := c_blank_lines c |}.

Lemma peek_remaining c : peek c = hd_error (remaining c).
Proof.
  unfold peek, remaining. generalize (c_index c) as i.
  induction (c_lines c) as [|x l IH]; intros [|i]; try reflexivity. apply IH.
Qed.

Lemma remaining_advance_by k c : remaining (advance_by k c) = skipn k (remaining c).
Proof.
  unfold remaining, advance_by. cbn [c_lines c_index].
  rewrite skipn_skipn. f_equal. lia.
Qed.

Lemma advance_remaining c pl r :
  remaining c = pl :: r -> advance c = advance_by 1 c /\ remaining (advance_by 1 c) = r.
Proof.
  intro H. split.
  - unfold advance. replace (c_index c <? length (c_lines c)) with true; [reflexivity|].
    symmetry. apply Nat.ltb_lt. unfold remaining in H.
    destruct (Nat.lt_ge_cases (c_index c) (length (c_lines c))) as [L|L]; [exact L|].
    rewrite skipn_all2 in H by exact L. discriminate.
  - rewrite remaining_advance_by, H. reflexivity.
Qed.

Lemma advance_by_add a b c : advance_by a (advance_by b c) = advance_by (b + a) c.
Proof. unfold advance_by. cbn [c_lines c_index c_blank_lines]. f_equal. lia. Qed.

Lemma advance_by_zero c : advance_by 0 c = c.
Proof.
  destruct c as [l i b]. unfold advance_by. cbn [c_lines c_index c_blank_lines].
  now rewrite Nat.add_0_r.
Qed.

(** The deepest level at which the loop of [decode_object] is running when
    the last line of a mapping has been read: the level of the mapping, or
    that of the mapping its last field holds. *)
Fixpoint reach_value (depth : nat) (v : JsonValue) : nat :=
  match v with
  | JObject d => fold_left (fun _ kv => reach_value (depth + 1) (snd kv)) d (depth + 1)
  | _ => depth
  end.

Definition reach (base : nat) (d : list (str * JsonValue)) : nat :=
  fold_left (fun _ kv => reach_value base (snd kv)) d base.

Lemma reach_cons base kv d :
  reach base (kv :: d)
  = match d with [] => reach_value base (snd kv) | _ :: _ => reach base d end.
Proof.
  unfold reach. cbn [fold_left]. destruct d as [|kv' d]; reflexivity.
Qed.

Lemma reach_value_ge v : object_tree v -> forall depth, depth <= reach_value depth v.
Proof.
  apply (object_tree_deep (fun v => forall depth, depth <= reach_value depth v)).
  - intros p _ depth. cbn [reach_value]. lia.
  - intros d _ Hf depth. cbn [reach_value].
    assert (H : forall init, depth + 1 <= init ->
              depth + 1 <= fold_left (fun _ kv => reach_value (depth + 1) (snd kv)) d init).
    { induction Hf as [|kv d' (_ & _ & _ & Hkv) _ IH]; intros init Hi; cbn [fold_left].
      - exact Hi.
      - apply IH. apply Hkv. }
    specialize (H (depth + 1) (le_n _)). lia.
Qed.

(** What follows the lines of a mapping: nothing, or a line that no running
    loop takes for a field, less deep than the mapping or deeper than any
    level reached. *)
Definition clear_of (base top : nat) (post : list ParsedLine) : Prop :=
  match hd_error post with
  | Some pl => depth pl < base \/ top < depth pl
  | None => True
  end.

Lemma rows_then_clear base d pls post top :
  Forall (fun kv => object_tree (snd kv)) d ->
  rows_parsed (object_rows base d) pls ->
  (d = [] -> clear_of (base + 1) top post) ->
  clear_of (base + 1) top (pls ++ post).
Proof.
  intros Hd H2 Hp. destruct d as [|[k v] d].
  - inversion H2; subst. cbn [app]. now apply Hp.
  - unfold clear_of. inversion Hd as [|? ? Hv _]; subst. cbn [snd] in Hv.
    destruct (entry_rows_head base k v Hv) as (t & rows & E).
    unfold object_rows in H2. cbn [flat_map fst snd] in H2. rewrite E in H2.
    inversion H2 as [|? pl ? ? [_ Hdp] _]; subst. cbn [app hd_error].
    cbn [fst] in Hdp. lia.
Qed.

Lemma key_line_no_header key :
  plain_key key ->
  parse_array_header_line (encode_key key ++ [COLON]) DEFAULT_DELIMITER = Ok None.
Proof.
  intros Hk. unfold parse_array_header_line.
  destruct (encode_key_cases key Hk) as [(Ev & Hp & ->)|(Ev & ->)].
  - destruct (key_pattern_wordish key Hp) as [Hne Hw].
    assert (L : lstrip (key ++ [COLON]) = key ++ [COLON]).
    { apply lstrip_fixed. destruct key as [|c r]; [congruence|].
      inversion Hw; subst. simpl. now apply wordish_plain. }
    rewrite L.
    assert (Q : startswith (key ++ [COLON]) [DOUBLE_QUOTE] = false).
    { destruct key as [|c r]; [congruence|]. inversion Hw as [|? ? Hc _]; subst.
      cbn [app startswith]. destruct (wordish_plain c Hc) as (_ & _ & Hq & _).
      unfold ceq in *. now rewrite Ascii.eqb_sym, Hq. }
    rewrite Q. unfold find. cbn [skipn]. rewrite find_from_none; [reflexivity|].
    apply Forall_app. split.
    + eapply Forall_impl; [|exact Hw]. intros x Hx. now apply wordish_plain.
    + constructor; [reflexivity|constructor].
  - assert (L : lstrip (quoted key ++ [COLON]) = quoted key ++ [COLON]) by reflexivity.
    rewrite L. unfold quoted. cbn [app startswith].
    change (ceq DOUBLE_QUOTE DOUBLE_QUOTE) with true. now rewrite startswith_nil.
Qed.

(** [decode_key_value] on a key and a colon with nothing after them. *)
Lemma decode_key_value_object fuel (key : str) cursor base options :
  plain_key key ->
  decode_key_value (S fuel) (encode_key key ++ [COLON]) cursor base options
  = match peek cursor with
    | Some next_line =>
        if base <? depth next_line then
          r <- decode_object_loop fuel cursor (base + 1) options [] ;;
          Ok ({| kv_key := key; kv_value := JObject (fst r);
                 kv_followDepth := base + 1 |}, snd r)
        else Ok ({| kv_key := key; kv_value := JObject [];
                    kv_followDepth := base + 1 |}, cursor)
    | None => Ok ({| kv_key := key; kv_value := JObject [];
                     kv_followDepth := base + 1 |}, cursor)
    end.
Proof.
  intro Hk. cbn [decode_key_value]. rewrite (key_line_no_header key Hk). cbn [bind].
  change (encode_key key ++ [COLON]) with (encode_key key ++ COLON :: []).
  rewrite (parse_encoded_key_text key [] Hk). cbn [bind].
  unfold slice_from. rewrite skipn_all2 by (rewrite length_app; simpl; lia).
  reflexivity.
Qed.

Definition loop_reads (options : ResolvedDecodeOptions) (d : list (str * JsonValue)) : Prop :=
  forall base pls post acc fuel cursor,
    rows_parsed (object_rows base d) pls ->
    remaining cursor = pls ++ post ->
    clear_of base (reach base d) post ->
    2 * entries_lines d < fuel ->
    decode_object_loop fuel cursor base options acc
    = Ok (set_all acc d, advance_by (length pls) cursor).

Definition reads (options : ResolvedDecodeOptions) (v : JsonValue) : Prop :=
  forall d, v = JObject d -> loop_reads options d.

(** [decode_key_value] on the first line of a field, with the cursor on the
    lines that follow it. *)
Lemma decode_key_value_entry options k v base pl pls1 post fuel cursor :
  plain_key k -> object_tree v -> bracket_free (k, v) -> reads options v ->
  rows_parsed (entry_rows base k v) (pl :: pls1) ->
  remaining cursor = pls1 ++ post ->
  clear_of (base + 1) (reach_value base v) post ->
  2 * value_lines v <= fuel ->
  decode_key_value fuel (content pl) cursor base options
  = Ok ({| kv_key := k; kv_value := v; kv_followDepth := base + 1 |},
        advance_by (length pls1) cursor).
Proof.
  intros Hk Ht Hb Hr H2 Hrem Hclear Hfuel.
  pose proof (value_lines_positive v) as Hpos.
  destruct fuel as [|fuel]; [lia|].
  inversion Ht as [p Hp|d' Hnd' Hf']; subst.
  - cbn [entry_rows] in H2.
    inversion H2 as [|? ? ? ? [Hc _] H2']; subst. inversion H2'; subst.
    cbn [snd] in Hc. rewrite Hc. cbn [length]. rewrite advance_by_zero.
    apply (decode_key_value_field fuel k p delimiter _ base options Hk Hp (Hb p eq_refl)).
  - cbn [entry_rows] in H2.
    inversion H2 as [|? ? ? ? [Hc _] H21]; subst. cbn [snd] in Hc.
    fold (object_rows (base + 1) d') in H21.
    change (value_lines (JObject d')) with (S (entries_lines d')) in Hfuel.
    change (reach_value base (JObject d')) with (reach (base + 1) d') in Hclear.
    rewrite Hc, (decode_key_value_object fuel k _ base options Hk).
    rewrite peek_remaining, Hrem.
    assert (Hcall : decode_object_loop fuel cursor (base + 1) options []
                    = Ok (d', advance_by (length pls1) cursor)).
    { rewrite (Hr _ eq_refl (base + 1) pls1 post [] fuel _ H21 Hrem Hclear) by lia.
      rewrite set_all_fresh; [reflexivity|exact Hnd'|intros ? ? []]. }
    rewrite Hcall. cbn [bind fst snd].
    destruct d' as [|[k' v'] d''].
    + inversion H21; subst. cbn [app length]. rewrite advance_by_zero.
      destruct (hd_error post) as [nl|]; [|reflexivity].
      now destruct (base <? depth nl).
    + inversion Hf' as [|? ? (_ & Hv' & _) _]; subst. cbn [snd] in Hv'.
      destruct (entry_rows_head (base + 1) k' v' Hv') as (t & rows & E).
      unfold object_rows in H21. cbn [flat_map fst snd] in H21. rewrite E in H21.
      inversion H21 as [|? pl1 ? r1 [_ Hd1] _]; subst. cbn [fst] in Hd1.
      cbn [app hd_error].
      replace (base <? depth pl1) with true by (symmetry; apply Nat.ltb_lt; lia).
      reflexivity.
Qed.

Lemma loop_reads_entries options : forall d,
  Forall (fun kv => plain_key (fst kv) /\ object_tree (snd kv) /\ bracket_free kv
                    /\ reads options (snd kv)) d ->
  loop_reads options d.
Proof.
  induction d as [|[k v] d IH]; intros Hf base pls post acc fuel cursor H2 Hrem Hpost Hfuel.
  - inversion H2; subst. cbn [app] in Hrem.
    destruct fuel as [|fuel]; [lia|]. cbn [decode_object_loop].
    rewrite peek_remaining, Hrem. cbn [length]. rewrite advance_by_zero.
    unfold clear_of, reach in Hpost. cbn [fold_left] in Hpost.
    destruct (hd_error post) as [pl|]; [|reflexivity].
    destruct Hpost as [Hlt|Hgt].
    + replace (depth pl <? base) with true by (symmetry; now apply Nat.ltb_lt).
      reflexivity.
    + replace (depth pl <? base) with false by (symmetry; apply Nat.ltb_ge; lia).
      replace (depth pl =? base) with false by (symmetry; apply Nat.eqb_neq; lia).
      reflexivity.
  - inversion Hf as [|? ? (Hk & Ht & Hb & Hr) Hd]; subst. cbn [fst snd] in *.
    specialize (IH Hd).
    assert (Htrees : Forall (fun kv => object_tree (snd kv)) d).
    { eapply Forall_impl; [|exact Hd]. intros kv (_ & H & _). exact H. }
    assert (Hrest : clear_of base (reach base d) post).
    { rewrite reach_cons in Hpost. destruct d as [|kv2 d2]; [|exact Hpost].
      cbn [snd] in Hpost. unfold clear_of, reach in *. cbn [fold_left].
      destruct (hd_error post) as [pl|]; [|exact I].
      pose proof (reach_value_ge v Ht base). lia. }
    rewrite entries_lines_cons in Hfuel. cbn [snd] in Hfuel.
    pose proof (value_lines_positive v) as Hpos.
    unfold object_rows in H2. cbn [flat_map fst snd] in H2.
    fold (object_rows base d) in H2.
    apply Forall2_app_inv_l in H2. destruct H2 as (pls1 & pls2 & H21 & H22 & ->).
    destruct (entry_rows_head base k v Ht) as (t & rows & E).
    pose proof H21 as H21'. rewrite E in H21'.
    inversion H21' as [|? pl ? pls1' [_ Hdp] _]; subst pls1. cbn [fst] in Hdp.
    change (((pl :: pls1') ++ pls2) ++ post) with (pl :: (pls1' ++ pls2) ++ post) in Hrem.
    rewrite <- app_assoc in Hrem.
    destruct (advance_remaining _ _ _ Hrem) as [Ha Hrem'].
    destruct fuel as [|fuel]; [lia|].
    cbn [decode_object_loop]. rewrite peek_remaining, Hrem. cbn [hd_error].
    rewrite Hdp, Nat.ltb_irrefl, Nat.eqb_refl, Ha.
    rewrite (decode_key_value_entry options k v base pl pls1' (pls2 ++ post) fuel _
               Hk Ht Hb Hr H21 Hrem').
    + cbn [bind fst snd kv_key kv_value]. rewrite advance_by_add.
      rewrite (IH base pls2 post _ fuel _ H22); [| |exact Hrest|lia].
      * rewrite advance_by_add. unfold set_all. cbn [fold_left fst snd].
        do 2 f_equal. unfold advance_by. f_equal. cbn [length app]. rewrite length_app. lia.
      * rewrite remaining_advance_by, Hrem.
        change (skipn (1 + length pls1') (pl :: pls1' ++ pls2 ++ post))
          with (skipn (length pls1') (pls1' ++ pls2 ++ post)).
        now apply skipn_length_app.
    + apply (rows_then_clear base d); [exact Htrees|exact H22|].
      intros ->. rewrite reach_cons in Hpost. cbn [snd] in Hpost.
      unfold clear_of in *. destruct (hd_error post) as [nl|]; [|exact I]. lia.
    + lia.
Qed.

Lemma object_tree_reads options v : object_tree v -> reads options v.
Proof.
  apply (object_tree_deep (reads options)).
  - intros p _ d H. discriminate H.
  - intros d _ Hf d' E. inversion E; subst. now apply loop_reads_entries.
Qed.

Lemma key_line_is_key_value key t pl :
  plain_key key ->
  content pl = encode_key key ++ COLON :: t ->
  is_key_value_line pl = true.
Proof.
  intros Hk Hc. unfold is_key_value_line. rewrite Hc.
  destruct (encode_key_cases _ Hk) as [(_ & Hpat & ->)|(_ & ->)].
  - destruct (key_pattern_wordish _ Hpat) as [Hkne Hw].
    destruct key as [|c r]; [congruence|]. inversion Hw as [|? ? Hx _]; subst.
    destruct (wordish_plain c Hx) as (_ & _ & Hq & _).
    cbn [app startswith]. unfold ceq in *. rewrite (Ascii.eqb_sym DOUBLE_QUOTE c), Hq.
    cbn [andb]. apply contains_In. right. apply in_or_app. right. now left.
  - assert (Ec : quoted key ++ COLON :: t
                 = DOUBLE_QUOTE :: flat_map escape_char key ++ DOUBLE_QUOTE :: COLON :: t).
    { unfold quoted. rewrite escape_string_flat_map. cbn [app]. now rewrite <- app_assoc. }
    rewrite Ec. cbn [startswith]. change (ceq DOUBLE_QUOTE DOUBLE_QUOTE) with true.
    rewrite startswith_nil. cbn [andb].
    unfold find_closing_quote.
    match goal with |- context [skipn (0 + 1) (DOUBLE_QUOTE :: ?x)] =>
      change (skipn (0 + 1) (DOUBLE_QUOTE :: x)) with x end.
    rewrite find_closing_quote_escaped_app.
    set (e := flat_map escape_char key).
    replace (0 + 1 + length e + 1) with (S (length e + 1)) by lia.
    cbn [nth_error]. rewrite nth_error_app2 by lia.
    replace (length e + 1 - length e) with 1 by lia. reflexivity.
Qed.

Lemma key_line_not_header key t :
  plain_key key ->
  head_not_space (rev (encode_key key ++ COLON :: t)) ->
  is_array_header_after_hyphen (encode_key key ++ COLON :: t) = false.
Proof.
  intros Hk Hl. unfold is_array_header_after_hyphen.
  destruct (encode_key_head _ Hk) as (c & r & E & Hs & Hb & _).
  assert (Hstrip : strip (encode_key key ++ COLON :: t) = encode_key key ++ COLON :: t).
  { apply strip_fixed. split; [|exact Hl]. rewrite E. exact Hs. }
  rewrite Hstrip, E. cbn [app startswith]. unfold ceq in *.
  rewrite (Ascii.eqb_sym OPEN_BRACKET c), Hb. reflexivity.
Qed.

(** The first line of a field is a key-value line and no array header. *)
Lemma first_row depth key v :
  plain_key key -> object_tree v ->
  exists s rows,
    entry_rows depth key v = (depth, s) :: rows
    /\ (forall pl, content pl = s -> is_key_value_line pl = true)
    /\ is_array_header_after_hyphen s = false.
Proof.
  intros Hk [p Hp|d _ _]; cbn [entry_rows]; eexists; eexists; (split; [reflexivity|]).
  - split.
    + intros pl Hc. now apply (key_line_is_key_value key _ pl Hk Hc).
    + apply (key_line_not_header key _ Hk).
      destruct (encode_primitive_decodes delimiter _ Hp) as [[Hne _ Hl _ _ _] _].
      rewrite rev_app_distr. cbn [rev].
      destruct (rev (encode_primitive p delimiter)) as [|x xs] eqn:Er.
      * apply (f_equal (@rev ascii)) in Er. rewrite rev_involutive in Er.
        simpl in Er. congruence.
      * exact Hl.
  - split.
    + intros pl Hc. now apply (key_line_is_key_value key _ pl Hk Hc).
    + apply (key_line_not_header key _ Hk). rewrite rev_app_distr. exact eq_refl.
Qed.

Lemma object_rows_flat depth d :
  Forall (fun kv => plain_key (fst kv) /\ object_tree (snd kv) /\ bracket_free kv) d ->
  Forall (fun row => flat_line (snd row)) (object_rows depth d).
Proof.
  unfold object_rows. induction 1 as [|kv d' (Hk & Hv & _) _ IH]; [constructor|].
  cbn [flat_map]. apply Forall_app. split; [now apply entry_rows_flat|exact IH].
Qed.

Lemma render_one_line n row :
  flat_line (snd row) ->
  Forall (fun x => ceq x NEWLINE = false) (render (repeat SPACE n) row).
Proof.
  intros [_ H]. unfold render. rewrite concat_repeat_spaces. apply Forall_app.
  split; [|exact H]. apply Forall_forall. intros x Hx. apply repeat_spec in Hx.
  now subst x.
Qed.


Lemma join_app c : forall a b : list str,
  a <> [] -> b <> [] -> join [c] (a ++ b) = join [c] a ++ c :: join [c] b.
Proof.
  induction a as [|x a IH]; intros b Ha Hb; [congruence|].
  destruct a as [|y a'].
  - destruct b as [|z b']; [congruence|]. reflexivity.
  - change (join [c] ((x :: y :: a') ++ b)) with (x ++ c :: join [c] ((y :: a') ++ b)).
    rewrite IH by (discriminate || exact Hb).
    change (join [c] (x :: y :: a')) with (x ++ c :: join [c] (y :: a')).
    now rewrite <- app_assoc.
Qed.

(** The text of a tree of mappings, as lines. *)
Lemma encode_object_text d options :
  e_delimiter options = delimiter ->
  Forall (fun kv => object_tree (snd kv)) d ->
  encode_value (JObject d) options
  = join [NEWLINE] (map (render (repeat SPACE (e_indent options))) (object_rows 0 d)).
Proof.
  intros Hd Htrees. cbn [encode_value]. unfold to_string, encode_object.
  rewrite (encode_object_rows options object_tree (encode_entry_rows options Hd))
    by exact Htrees.
  reflexivity.
Qed.

(** The lines of a tree of mappings, followed by lines that no loop takes
    for a field, decode as the tree. *)
Lemma decode_object_text d n dopts extra :
  d <> [] ->
  object_tree (JObject d) ->
  n <> 0 ->
  d_indent (_resolve_decode_options dopts) = n ->
  Forall (fun row => flat_line (snd row)) extra ->
  match extra with row :: _ => reach 0 d < fst row | [] => True end ->
  decode (join [NEWLINE] (map (render (repeat SPACE n)) (object_rows 0 d ++ extra))) dopts
  = Ok (JObject d).
Proof.
  intros Hne Ht Hi Hind Hextra Hdeep. subst n.
  set (n := d_indent (_resolve_decode_options dopts)) in *.
  inversion Ht as [|d0 Hnd Hf]; subst d0.
  assert (Htrees : Forall (fun kv => object_tree (snd kv)) d).
  { eapply Forall_impl; [|exact Hf]. intros kv (_ & H & _). exact H. }
  set (rows := object_rows 0 d).
  assert (Hflat : Forall (fun row => flat_line (snd row)) (rows ++ extra)).
  { apply Forall_app. split; [now apply object_rows_flat|exact Hextra]. }
  destruct d as [|[k v] d']; [congruence|].
  inversion Hf as [|? ? (Hk & Hv & Hb) _]; subst. cbn [fst snd] in Hk, Hv.
  destruct (first_row 0 k v Hk Hv) as (s & rows0 & Erow & Hkv & Hnh).
  assert (Erows : rows = (0, s) :: rows0 ++ object_rows 0 d').
  { unfold rows, object_rows. cbn [flat_map fst snd]. now rewrite Erow. }
  set (ls := map (render (repeat SPACE n)) (rows ++ extra)).
  assert (Hsplit : split NEWLINE (join [NEWLINE] ls) = ls).
  { apply split_join.
    - unfold ls. rewrite Erows. discriminate.
    - unfold ls. apply Forall_map. eapply Forall_impl; [|exact Hflat].
      intros row Hrow. now apply render_one_line. }
  assert (Hs : exists c r, s = c :: r /\ isspace c = false).
  { rewrite Erows in Hflat. inversion Hflat as [|? ? [Hh _] _]; subst. cbn [snd] in Hh.
    destruct s as [|c r]; [contradiction|]. now exists c, r. }
  destruct Hs as (c & r & -> & Hc).
  assert (Hnonblank : is_empty (strip (join [NEWLINE] ls)) = false).
  { unfold ls. rewrite Erows. cbn [map app].
    change (render (repeat SPACE n) (0, c :: r)) with (c :: r).
    destruct (map (render (repeat SPACE n)) ((rows0 ++ object_rows 0 d') ++ extra))
      as [|l' ls'']; [now apply strip_flat|].
    change (join [NEWLINE] ((c :: r) :: l' :: ls''))
      with (c :: (r ++ NEWLINE :: join [NEWLINE] (l' :: ls''))).
    now apply strip_flat. }
  unfold decode, decode_with, to_parsed_lines.
  rewrite Hnonblank, Hsplit. fold n.
  destruct (scan_rows n (d_strict (_resolve_decode_options dopts)) Hi (rows ++ extra) 1 Hflat)
    as (pls & Hscan & H2).
  fold ls in Hscan. rewrite Hscan. cbn [bind fst snd lines blank_lines].
  apply Forall2_app_inv_l in H2. destruct H2 as (pls1 & post & H21 & H22 & ->).
  assert (Hlen : length pls1 = length rows) by (symmetry; exact (Forall2_length H21)).
  pose proof H21 as H2'. rewrite Erows in H2'.
  inversion H2' as [|? pl0 ? pls' [Hc0 _] _]; subst pls1. cbn [snd] in Hc0.
  change (length ((pl0 :: pls') ++ post) =? 0) with false. cbn iota.
  unfold decode_value_from_lines, new_cursor, peek, cursor_length.
  cbn [c_lines c_index nth_error app]. rewrite Hc0, Hnh, (Hkv pl0 Hc0).
  cbn [negb]. rewrite andb_false_r. unfold decode_object.
  rewrite (object_tree_reads (_resolve_decode_options dopts) (JObject ((k, v) :: d')) Ht
             _ eq_refl 0 (pl0 :: pls') post [] _
             {| c_lines := pl0 :: pls' ++ post; c_index := 0; c_blank_lines := [] |} H21).
  - cbn [bind fst]. rewrite set_all_fresh; [reflexivity|exact Hnd|intros ? ? []].
  - reflexivity.
  - unfold clear_of. destruct extra as [|row extra'].
    + now inversion H22.
    + inversion H22 as [|? pl ? ? [_ Hdp] _]; subst. cbn [hd_error]. right.
      rewrite Hdp. exact Hdeep.
  - rewrite <- (object_rows_length 0 _ Htrees). fold rows. rewrite <- Hlen.
    pose proof (join_length_ge NEWLINE ls) as Hj. unfold ls in Hj at 1.
    rewrite length_map, length_app, <- Hlen in Hj. unfold decode_fuel. lia.
Qed.

End ObjectTrees.

(** A non-empty mapping whose values are primitives or, to any depth,
    mappings of that kind survives the round trip through [encode_value] and
    [decode], strict or not, when the decoder runs with the encoder's indent
    and that indent is not zero: the decoder returns the same keys with the
    same values in the same order at every level.  In every mapping the keys
    are pairwise distinct and each one is quoted by the encoder or matches
    the unquoted-key pattern in full; each primitive reads back as a token
    and, under an unquoted key, holds no opening bracket.  Nested mappings
    may be empty. *)
Theorem object_tree_round_trip (d : list (str * JsonValue))
  (eopts : ResolvedEncodeOptions) (dopts : option DecodeOptions) :
  d <> [] ->
  object_tree (e_delimiter eopts) (JObject d) ->
  e_indent eopts <> 0 ->
  d_indent (_resolve_decode_options dopts) = e_indent eopts ->
  decode (encode_value (JObject d) eopts) dopts = Ok (JObject d).
Proof.
  intros Hne Ht Hi Hind.
  assert (Htrees : Forall (fun kv => object_tree (e_delimiter eopts) (snd kv)) d).
  { inversion Ht as [|d0 _ Hf]; subst. eapply Forall_impl; [|exact Hf].
    intros kv (_ & H & _). exact H. }
  rewrite (encode_object_text (e_delimiter eopts) d eopts eq_refl Htrees).
  rewrite <- (app_nil_r (object_rows (e_delimiter eopts) 0 d)).
  apply (decode_object_text (e_delimiter eopts) d (e_indent eopts) dopts []);
    try assumption; [constructor|exact I].
Qed.

Lemma object_tree_round_trip_witness :
  decode
    (encode_value
       (JObject [(lit "user",
                  JObject [(lit "id", JPrim (PInt 7));
                           (lit "full name", JObject [(lit "first", JPrim (PStr (lit "Ada")))]);
                           (lit "tags", JObject [])]);
                 (lit "ok", JPrim (PBool true))])
       {| e_indent := 4; e_delimiter := COMMA; e_length_marker := None |})
    (Some {| o_indent := Some 4; o_strict := None |})
  = Ok (JObject [(lit "user",
                  JObject [(lit "id", JPrim (PInt 7));
                           (lit "full name", JObject [(lit "first", JPrim (PStr (lit "Ada")))]);
                           (lit "tags", JObject [])]);
                 (lit "ok", JPrim (PBool true))]).
Proof.
  apply (object_tree_round_trip _
           {| e_indent := 4; e_delimiter := COMMA; e_length_marker := None |}
           (Some {| o_indent := Some 4; o_strict := None |})).
  - discriminate.
  - assert (Hfree : forall k v, (forall p, v <> JPrim p) -> bracket_free COMMA (k, v)).
    { intros k v H p E. cbn [snd] in E. now elim (H p). }
    apply tree_object.
    + repeat constructor; simpl; intuition discriminate.
    + constructor; [|constructor; [|constructor]].
      * split; [left; reflexivity|]. split; [|apply Hfree; discriminate].
        apply tree_object.
        -- repeat constructor; simpl; intuition discriminate.
        -- constructor; [|constructor; [|constructor; [|constructor]]].
           ++ split; [left; reflexivity|]. split.
              ** apply tree_prim. simpl. reflexivity.
              ** intros p E _. cbn [snd] in E. inversion E. reflexivity.
           ++ split; [right; reflexivity|]. split; [|apply Hfree; discriminate].
              apply tree_object.
              --- repeat constructor; simpl; intuition discriminate.
              --- constructor; [|constructor].
                  split; [left; reflexivity|]. split.
                  +++ apply tree_prim. simpl. reflexivity.
                  +++ intros p E _. cbn [snd] in E. inversion E. reflexivity.
           ++ split; [left; reflexivity|]. split; [|apply Hfree; discriminate].
              apply tree_object; constructor.
      * split; [left; reflexivity|]. split.
        -- apply tree_prim. exact I.
        -- intros p E _. cbn [snd] in E. inversion E. reflexivity.
  - discriminate.
  - reflexivity.
Defined.

(** Lines after a mapping are dropped without an error when the first of
    them is indented deeper than any level the decoder has reached: the text
    of a mapping as above, followed by such lines, decodes to that mapping,
    in strict mode too.  The added lines are properly indented ones, a
    multiple of the indent in spaces and then a content that starts with no
    whitespace; after a mapping whose values are all primitives any first
    line at depth 1 or more is such a line. *)
Theorem deeper_lines_dropped (d : list (str * JsonValue))
  (eopts : ResolvedEncodeOptions) (dopts : option DecodeOptions)
  (extra : list (nat * str)) :
  d <> [] ->
  object_tree (e_delimiter eopts) (JObject d) ->
  e_indent eopts <> 0 ->
  d_indent (_resolve_decode_options dopts) = e_indent eopts ->
  Forall (fun row => flat_line (snd row)) extra ->
  match extra with row :: _ => reach 0 d < fst row | [] => False end ->
  decode (encode_value (JObject d) eopts
          ++ NEWLINE :: join [NEWLINE] (map (render (repeat SPACE (e_indent eopts))) extra))
    dopts
  = Ok (JObject d).
Proof.
  intros Hne Ht Hi Hind Hextra Hdeep.
  assert (Htrees : Forall (fun kv => object_tree (e_delimiter eopts) (snd kv)) d).
  { inversion Ht as [|d0 _ Hf]; subst. eapply Forall_impl; [|exact Hf].
    intros kv (_ & H & _). exact H. }
  rewrite (encode_object_text (e_delimiter eopts) d eopts eq_refl Htrees).
  destruct extra as [|row extra']; [contradiction|].
  rewrite <- join_app.
  - rewrite <- map_app.
    now apply (decode_object_text (e_delimiter eopts) d (e_indent eopts) dopts (row :: extra')).
  - destruct d as [|[k v] d']; [congruence|].
    inversion Htrees as [|? ? Hv _]; subst. cbn [snd] in Hv.
    destruct (entry_rows_head (e_delimiter eopts) 0 k v Hv) as (t & rows & E).
    unfold object_rows. cbn [flat_map fst snd]. rewrite E. discriminate.
  - discriminate.
Qed.

Lemma deeper_lines_dropped_witness :
  decode (encode_value (JObject [(lit "a", JPrim (PInt 1))])
            {| e_indent := 2; e_delimiter := COMMA; e_length_marker := None |}
          ++ NEWLINE :: join [NEWLINE] (map (render (repeat SPACE 2))
                                          [(1, lit "b: 2"); (0, lit "c: 3")]))
    None
  = Ok (JObject [(lit "a", JPrim (PInt 1))]).
Proof.
  apply (deeper_lines_dropped [(lit "a", JPrim (PInt 1))]
           {| e_indent := 2; e_delimiter := COMMA; e_length_marker := None |} None
           [(1, lit "b: 2"); (0, lit "c: 3")]).
  - discriminate.
  - apply tree_object.
    + repeat constructor. intros [].
    + constructor; [|constructor]. split; [left; reflexivity|]. split.
      * apply tree_prim. simpl. reflexivity.
      * intros p E _. cbn [snd] in E. inversion E. reflexivity.
  - discriminate.
  - reflexivity.
  - repeat constructor.
  - cbn. lia.
Defined.

(** ** Tabular headers: [format_header] and [parse_array_header_line] *)

Section TabularHeaders.

(** A header with a brace segment, read by [parse_array_header_line]. *)
Lemma parse_tabular_header_text kp body fields_text rest dflt :
  kp = [] \/ key_pattern kp = true ->
  Forall (fun x => ceq x CLOSE_BRACKET = false) body ->
  Forall (fun x => ceq x CLOSE_BRACE = false) fields_text ->
  parse_array_header_line
    (kp ++ OPEN_BRACKET :: body ++ CLOSE_BRACKET :: OPEN_BRACE :: fields_text
        ++ CLOSE_BRACE :: COLON :: rest) dflt
  = match parse_bracket_segment body dflt with
    | Err _ => Ok None
    | Ok pb =>
        fs <- map_result (fun field => parse_string_literal (strip field))
                (parse_delimited_values fields_text (b_delimiter pb)) ;;
        Ok (Some ({| h_key := if is_empty kp then None else Some kp;
                     h_length := b_length pb;
                     h_delimiter := b_delimiter pb;
                     h_fields := Some fs;
                     h_has_length_marker := b_has_length_marker pb |},
                  if is_empty (strip rest) then None else Some (strip rest)))
    end.
Proof.
  intros Hkp Hbody Hfields.
  set (tail := CLOSE_BRACE :: COLON :: rest).
  set (content := kp ++ OPEN_BRACKET :: body ++ CLOSE_BRACKET :: OPEN_BRACE :: fields_text
                     ++ tail).
  assert (Hw : Forall (fun c => wordish c = true) kp).
  { destruct Hkp as [->|Hk]; [constructor|now apply key_pattern_wordish]. }
  assert (Hnb : Forall (fun x => ceq x OPEN_BRACKET = false) kp).
  { eapply Forall_impl; [|exact Hw]. intros x Hx. now apply wordish_plain. }
  assert (Hhead : exists c r, content = c :: r /\ isspace c = false
                              /\ ceq c DOUBLE_QUOTE = false).
  { unfold content. destruct kp as [|c r].
    - eexists _, _. split; [reflexivity|]. split; reflexivity.
    - inversion Hw as [|? ? Hc _]; subst. eexists _, _. split; [reflexivity|].
      destruct (wordish_plain c Hc) as (Hs & _ & Hq & _). now split. }
  destruct Hhead as (c & r & Ec & Hsp & Hq).
  set (be := length kp + 1 + length body).
  set (fe := be + 2 + length fields_text).
  set (pre := kp ++ OPEN_BRACKET :: body).
  assert (Hlen : length pre = be).
  { unfold pre. rewrite length_app. cbn [length]. unfold be. lia. }
  assert (Econt : content = pre ++ CLOSE_BRACKET :: OPEN_BRACE :: fields_text ++ tail).
  { unfold content, pre. now rewrite <- app_assoc. }
  assert (Econt2 : content = (pre ++ [CLOSE_BRACKET]) ++ OPEN_BRACE :: fields_text ++ tail).
  { rewrite Econt. now rewrite <- app_assoc. }
  assert (Econt3 : content
                   = (pre ++ CLOSE_BRACKET :: OPEN_BRACE :: fields_text ++ [CLOSE_BRACE])
                     ++ COLON :: rest).
  { rewrite Econt. unfold tail. rewrite <- app_assoc. cbn [app]. do 3 f_equal.
    now rewrite <- app_assoc. }
  assert (Hlen3 : length (pre ++ CLOSE_BRACKET :: OPEN_BRACE :: fields_text ++ [CLOSE_BRACE])
                  = fe + 1).
  { rewrite length_app, Hlen. cbn [length]. rewrite length_app. cbn [length].
    unfold fe. lia. }
  assert (E1 : find content OPEN_BRACKET 0 = Some (length kp)).
  { unfold find, content. cbn [skipn]. now rewrite find_from_app. }
  assert (E2 : find content CLOSE_BRACKET (length kp) = Some be).
  { unfold find, content. rewrite skipn_length_app by reflexivity.
    cbn [find_from]. change (ceq OPEN_BRACKET CLOSE_BRACKET) with false. cbn iota.
    rewrite find_from_app by exact Hbody. unfold be. f_equal. lia. }
  assert (E3 : find content OPEN_BRACE be = Some (be + 1)).
  { unfold find. rewrite Econt, skipn_length_app by (symmetry; exact Hlen).
    cbn [find_from]. change (ceq CLOSE_BRACKET OPEN_BRACE) with false.
    change (ceq OPEN_BRACE OPEN_BRACE) with true. cbn iota. f_equal. lia. }
  assert (E4 : exists fc, find content COLON be = Some fc /\ be + 1 < fc).
  { unfold find. rewrite Econt, skipn_length_app by (symmetry; exact Hlen).
    cbn [find_from]. change (ceq CLOSE_BRACKET COLON) with false.
    change (ceq OPEN_BRACE COLON) with false. cbn iota.
    destruct (find_from COLON (fields_text ++ tail) (S (S be))) as [fc|] eqn:E.
    - exists fc. split; [reflexivity|]. apply find_from_ge in E. lia.
    - exfalso. clear - E. revert E. generalize (S (S be)).
      induction fields_text as [|x l IH]; intros pos E.
      + unfold tail in E. cbn [app find_from] in E.
        change (ceq CLOSE_BRACE COLON) with false in E.
        change (ceq COLON COLON) with true in E. discriminate E.
      + cbn [app find_from] in E. destruct (ceq x COLON); [discriminate E|].
        exact (IH _ E). }
  assert (E5 : find content CLOSE_BRACE (be + 1) = Some fe).
  { unfold find. rewrite Econt2, skipn_length_app by (rewrite length_app, Hlen; reflexivity).
    cbn [find_from]. change (ceq OPEN_BRACE CLOSE_BRACE) with false. cbn iota.
    unfold tail. rewrite find_from_app by exact Hfields. unfold fe. f_equal. lia. }
  assert (E6 : find content COLON (fe + 1) = Some (fe + 1)).
  { unfold find. rewrite Econt3, skipn_length_app by (symmetry; exact Hlen3).
    cbn [find_from]. change (ceq COLON COLON) with true. reflexivity. }
  assert (E7 : slice content (length kp + 1) be = body).
  { unfold slice, content.
    replace (kp ++ OPEN_BRACKET :: body ++ CLOSE_BRACKET :: OPEN_BRACE :: fields_text ++ tail)
      with ((kp ++ [OPEN_BRACKET]) ++ body
            ++ CLOSE_BRACKET :: OPEN_BRACE :: fields_text ++ tail)
      by (now rewrite <- app_assoc).
    rewrite skipn_length_app by (rewrite length_app; reflexivity).
    apply firstn_length_app. unfold be. lia. }
  assert (E8 : slice_from content (fe + 1 + 1) = rest).
  { unfold slice_from. rewrite Econt3.
    replace ((pre ++ CLOSE_BRACKET :: OPEN_BRACE :: fields_text ++ [CLOSE_BRACE])
             ++ COLON :: rest)
      with (((pre ++ CLOSE_BRACKET :: OPEN_BRACE :: fields_text ++ [CLOSE_BRACE])
             ++ [COLON]) ++ rest)
      by (now rewrite <- app_assoc).
    apply skipn_length_app. rewrite length_app, Hlen3. cbn [length]. lia. }
  assert (E9 : (if 0 <? length kp then Some (slice content 0 (length kp)) else None)
               = if is_empty kp then None else Some kp).
  { destruct kp as [|k0 kr]; [reflexivity|].
    change (0 <? length (k0 :: kr)) with true. cbn iota. cbn [is_empty].
    unfold slice, content. rewrite Nat.sub_0_r. cbn [skipn].
    now rewrite firstn_length_app. }
  assert (E10 : slice content (be + 1 + 1) fe = fields_text).
  { unfold slice. rewrite Econt2.
    replace ((pre ++ [CLOSE_BRACKET]) ++ OPEN_BRACE :: fields_text ++ tail)
      with (((pre ++ [CLOSE_BRACKET]) ++ [OPEN_BRACE]) ++ fields_text ++ tail)
      by (now rewrite <- app_assoc).
    rewrite skipn_length_app by (rewrite !length_app, Hlen; cbn [length]; lia).
    apply firstn_length_app. unfold fe. lia. }
  unfold parse_array_header_line. fold content.
  assert (L : lstrip content = content).
  { apply lstrip_fixed. rewrite Ec. exact Hsp. }
  rewrite L.
  assert (Q : startswith content [DOUBLE_QUOTE] = false).
  { rewrite Ec. cbn [startswith]. unfold ceq in *. now rewrite Ascii.eqb_sym, Hq. }
  rewrite Q, E1, E2. fold be. rewrite E3.
  destruct E4 as (fc & -> & Hfc).
  replace (be + 1 <? fc) with true by (symmetry; now apply Nat.ltb_lt).
  rewrite E5. rewrite Nat.max_r by (unfold fe; lia). rewrite E6, E7, E8, E9.
  destruct (parse_bracket_segment body dflt) as [pb|e]; [|reflexivity].
  replace (be + 1 <? fe + 1) with true by (symmetry; apply Nat.ltb_lt; unfold fe; lia).
  replace (fe <? fe + 1) with true by (symmetry; apply Nat.ltb_lt; lia).
  rewrite E10.
  now destruct (map_result (fun field => parse_string_literal (strip field))
                 (parse_delimited_values fields_text (b_delimiter pb))).
Qed.

(** The field names a header can carry: those matching the unquoted-key
    pattern in full, and those the encoder quotes that hold no closing
    brace. *)
Definition header_field (f : str) : Prop :=
  key_pattern f = true
  \/ (is_valid_unquoted_key f = false /\ contains CLOSE_BRACE f = false).

Lemma wordish_field d c :
  valid_delimiter d -> wordish c = true ->
  ceq c CLOSE_BRACE = false /\ ceq c DOUBLE_QUOTE = false /\ ceq c d = false.
Proof.
  intros [->|[->| ->]]; destruct c as [[] [] [] [] [] [] [] []]; vm_compute;
    intro H; try discriminate H; repeat split.
Qed.

Lemma escape_char_brace c :
  ceq c CLOSE_BRACE = false -> Forall (fun x => ceq x CLOSE_BRACE = false) (escape_char c).
Proof.
  destruct c as [[] [] [] [] [] [] [] []]; vm_compute; intro H; try discriminate H;
    repeat constructor.
Qed.

Lemma header_field_text d f :
  valid_delimiter d -> header_field f ->
  (cell d (encode_key f) /\ encode_key f <> [] /\ strip (encode_key f) = encode_key f)
  /\ Forall (fun x => ceq x CLOSE_BRACE = false) (encode_key f)
  /\ parse_string_literal (strip (encode_key f)) = Ok f.
Proof.
  intros Hd [Hp|[Hq Hb]].
  - assert (Ev : is_valid_unquoted_key f = true).
    { unfold is_valid_unquoted_key, re_match_anchored. now rewrite Hp. }
    unfold encode_key. rewrite Ev.
    destruct (key_pattern_wordish f Hp) as [Hne Hw].
    pose proof (strip_wordish f Hw) as Hs.
    repeat split; try assumption.
    + apply cell_unquoted. eapply Forall_impl; [|exact Hw]. intros c Hc.
      destruct (wordish_field d c Hd Hc) as (_ & H1 & H2). now split.
    + eapply Forall_impl; [|exact Hw]. intros c Hc. now apply (wordish_field d c Hd Hc).
    + rewrite Hs. unfold parse_string_literal. rewrite Hs.
      destruct f as [|c r]; [congruence|]. inversion Hw as [|? ? Hc _]; subst.
      destruct (wordish_plain c Hc) as (_ & _ & Hq & _).
      cbn [startswith]. unfold ceq in *. now rewrite (Ascii.eqb_sym DOUBLE_QUOTE c), Hq.
  - unfold encode_key. rewrite Hq. fold (quoted f). rewrite quoted_strip.
    repeat split.
    + apply cell_quoted.
    + discriminate.
    + unfold quoted. cbn [app]. constructor; [reflexivity|].
      apply Forall_app. split; [|now repeat constructor].
      rewrite escape_string_flat_map. apply contains_false in Hb. clear Hq.
      induction Hb as [|c r Hc _ IH]; [constructor|].
      cbn [flat_map]. apply Forall_app. split; [now apply escape_char_brace|exact IH].
    + apply parse_string_literal_quoted.
Qed.

Lemma format_tabular_header_text n key f fs d m rest :
  format_header n key (Some (f :: fs)) d m ++ rest
  = (match key with Some k => if is_empty k then [] else encode_key k | None => [] end)
    ++ OPEN_BRACKET :: bracket_text n d m ++ CLOSE_BRACKET :: OPEN_BRACE
       :: join [d] (map encode_key (f :: fs)) ++ CLOSE_BRACE :: COLON :: rest.
Proof.
  unfold format_header, bracket_text, marker_text, delimiter_text.
  cbn [app]. rewrite <- !app_assoc. cbn [app]. rewrite <- !app_assoc. cbn [app].
  rewrite <- !app_assoc. reflexivity.
Qed.

End TabularHeaders.

(** A header with field names that [format_header] writes, followed by
    anything, is read back by [parse_array_header_line] with the same key,
    length, delimiter, length marker and field names, in order: for each of
    the three delimiters, with no key or an unquoted key that matches the key
    pattern in full, and for field names that match the pattern in full or
    are quoted by the encoder and hold no closing brace (they may hold the
    delimiter, colons and quotes). *)
Theorem tabular_header_round_trip (n : nat) (key : option str) (fields : list str)
  (delimiter : ascii) (length_marker : option str) (rest : str) :
  valid_delimiter delimiter ->
  match key with Some k => key_pattern k = true | None => True end ->
  fields <> [] ->
  Forall header_field fields ->
  parse_array_header_line
    (format_header n key (Some fields) delimiter length_marker ++ rest) DEFAULT_DELIMITER
  = Ok (Some ({| h_key := key;
                 h_length := Z.of_nat n;
                 h_delimiter := delimiter;
                 h_fields := Some fields;
                 h_has_length_marker := marker_on length_marker |},
              if is_empty (strip rest) then None else Some (strip rest))).
Proof.
  intros Hd Hk Hne Hf. destruct fields as [|f fs]; [congruence|].
  rewrite format_tabular_header_text.
  assert (Hb : Forall (fun x => ceq x CLOSE_BRACKET = false)
                 (bracket_text n delimiter length_marker)).
  { eapply Forall_impl; [|apply (bracket_text_chars n delimiter length_marker Hd)].
    intros y [Hy _]. exact Hy. }
  assert (Hbrace : Forall (fun x => ceq x CLOSE_BRACE = false)
                     (join [delimiter] (map encode_key (f :: fs)))).
  { apply Forall_join.
    - constructor; [|constructor]. destruct Hd as [->|[->| ->]]; reflexivity.
    - apply Forall_map. eapply Forall_impl; [|exact Hf]. intros x Hx.
      now apply (header_field_text delimiter x Hd Hx). }
  assert (Hfields :
    map_result (fun field => parse_string_literal (strip field))
      (parse_delimited_values (join [delimiter] (map encode_key (f :: fs))) delimiter)
    = Ok (f :: fs)).
  { unfold parse_delimited_values.
    rewrite (loop_as_state delimiter _ _ _ _ _ (le_n _)).
    rewrite splitter_join.
    - cbn [app]. clear Hne Hbrace.
      induction Hf as [|x xs Hx _ IH]; [reflexivity|].
      cbn [map map_result].
      destruct (header_field_text delimiter x Hd Hx) as (_ & _ & ->). cbn [bind].
      fold (map_result (fun field => parse_string_literal (strip field))).
      rewrite IH. reflexivity.
    - now apply valid_delimiter_not_quote.
    - discriminate.
    - apply Forall_map. eapply Forall_impl; [|exact Hf]. intros x Hx.
      now apply (header_field_text delimiter x Hd Hx). }
  assert (Hkey : forall kp,
    kp = [] \/ key_pattern kp = true ->
    parse_array_header_line
      (kp ++ OPEN_BRACKET :: bracket_text n delimiter length_marker ++ CLOSE_BRACKET
          :: OPEN_BRACE :: join [delimiter] (map encode_key (f :: fs))
          ++ CLOSE_BRACE :: COLON :: rest) DEFAULT_DELIMITER
    = Ok (Some ({| h_key := if is_empty kp then None else Some kp;
                   h_length := Z.of_nat n;
                   h_delimiter := delimiter;
                   h_fields := Some (f :: fs);
                   h_has_length_marker := marker_on length_marker |},
                if is_empty (strip rest) then None else Some (strip rest)))).
  { intros kp Hkp. rewrite parse_tabular_header_text; [|exact Hkp|exact Hb|exact Hbrace].
    rewrite (parse_bracket_text n delimiter length_marker Hd).
    cbn [b_delimiter b_length b_has_length_marker]. rewrite Hfields. reflexivity. }
  destruct key as [k|].
  - destruct (key_pattern_wordish k Hk) as [Hkne _].
    assert (Ev : is_valid_unquoted_key k = true).
    { unfold is_valid_unquoted_key, re_match_anchored. now rewrite Hk. }
    assert (Ek : encode_key k = k) by (unfold encode_key; now rewrite Ev).
    destruct k as [|c r]; [congruence|]. cbn [is_empty]. rewrite Ek.
    rewrite Hkey by now right. reflexivity.
  - rewrite (Hkey []) by now left. reflexivity.
Qed.

Lemma tabular_header_round_trip_witness :
  parse_array_header_line
    (format_header 2 (Some (lit "users")) (Some [lit "id"; lit "full, name: x"]) PIPE
       (Some (lit "#")) ++ lit " 1|2")
    DEFAULT_DELIMITER
  = Ok (Some ({| h_key := Some (lit "users");
                 h_length := Z.of_nat 2;
                 h_delimiter := PIPE;
                 h_fields := Some [lit "id"; lit "full, name: x"];
                 h_has_length_marker := marker_on (Some (lit "#")) |},
              if is_empty (strip (lit " 1|2")) then None else Some (strip (lit " 1|2")))).
Proof.
  apply (tabular_header_round_trip 2 (Some (lit "users")) [lit "id"; lit "full, name: x"]
           PIPE (Some (lit "#")) (lit " 1|2")).
  - right. right. reflexivity.
  - reflexivity.
  - discriminate.
  - constructor; [left; reflexivity|]. constructor; [|constructor].
    right. split; reflexivity.
Defined.

(** ** Arrays: what the encoder writes, read by the parser *)

Section ArrayLines.

Variable delimiter : ascii.
Hypothesis delimiter_ok : valid_delimiter delimiter.

(** The keys an array can stand under: none, or one matching the
    unquoted-key pattern in full. *)
Definition array_key (key : option str) : Prop :=
  match key with Some k => key_pattern k = true | None => True end.

Lemma header_line_parsed n key length_marker rest :
  array_key key ->
  parse_array_header_line (format_header n key None delimiter length_marker ++ rest)
    DEFAULT_DELIMITER
  = Ok (Some ({| h_key := key;
                 h_length := Z.of_nat n;
                 h_delimiter := delimiter;
                 h_fields := None;
                 h_has_length_marker := marker_on length_marker |},
              if is_empty (strip rest) then None else Some (strip rest))).
Proof.
  intros Hk. rewrite format_header_text.
  assert (Hb : Forall (fun x => ceq x CLOSE_BRACKET = false)
                 (bracket_text n delimiter length_marker)).
  { eapply Forall_impl; [|apply (bracket_text_chars n delimiter length_marker delimiter_ok)].
    intros y [Hy _]. exact Hy. }
  destruct key as [k|].
  - destruct (key_pattern_wordish k Hk) as [Hne _].
    assert (Ev : is_valid_unquoted_key k = true).
    { unfold is_valid_unquoted_key, re_match_anchored. now rewrite Hk. }
    assert (Ek : encode_key k = k) by (unfold encode_key; now rewrite Ev).
    destruct k as [|c r]; [congruence|]. cbn [is_empty]. rewrite Ek.
    rewrite parse_header_text; [|now right|exact Hb].
    rewrite (parse_bracket_text n delimiter length_marker delimiter_ok). reflexivity.
  - rewrite parse_header_text; [|now left|exact Hb].
    rewrite (parse_bracket_text n delimiter length_marker delimiter_ok). reflexivity.
Qed.

Lemma row_reads_back values :
  Forall (round_trip_primitive delimiter) values ->
  map_row_values_to_primitives
    (parse_delimited_values (encode_and_join_primitives values delimiter) delimiter)
  = Ok values.
Proof.
  intros Hv. unfold encode_and_join_primitives, parse_delimited_values.
  rewrite (loop_as_state delimiter _ _ _ _ _ (le_n _)).
  destruct values as [|p ps]; [reflexivity|].
  rewrite splitter_join.
  - cbn [app]. unfold map_row_values_to_primitives.
    induction Hv as [|q qs Hq Hqs IH]; [reflexivity|].
    cbn [map map_result].
    destruct (encode_primitive_decodes delimiter q Hq) as [_ ->]. cbn [bind].
    fold (map_result parse_primitive_token). rewrite IH. reflexivity.
  - now apply valid_delimiter_not_quote.
  - discriminate.
  - apply Forall_map. eapply Forall_impl; [|exact Hv]. intros q Hq.
    destruct (encode_primitive_decodes delimiter q Hq) as [[Hne Hh Hl _ _ _] _].
    split; [now apply encode_primitive_cell|]. split; [exact Hne|].
    apply strip_fixed. now split.
Qed.

(** A non-empty row starts and ends with a character of a token. *)
Lemma row_strip values :
  values <> [] ->
  Forall (round_trip_primitive delimiter) values ->
  encode_and_join_primitives values delimiter <> []
  /\ strip (encode_and_join_primitives values delimiter)
     = encode_and_join_primitives values delimiter.
Proof.
  intros Hne Hv. unfold encode_and_join_primitives.
  assert (Htok : Forall (fun t => t <> [] /\ head_not_space t /\ head_not_space (rev t))
                   (map (fun v => encode_primitive v delimiter) values)).
  { apply Forall_map. eapply Forall_impl; [|exact Hv]. intros q Hq.
    now destruct (encode_primitive_decodes delimiter q Hq) as [[? ? ? _ _ _] _]. }
  destruct (join_last [delimiter] (map (fun v => encode_primitive v delimiter) values))
    as [Hj Hl].
  - destruct values; [congruence|discriminate].
  - eapply Forall_impl; [|exact Htok]. intros t (? & _ & ?). now split.
  - split; [exact Hj|]. apply strip_fixed. split; [|exact Hl].
    destruct values as [|p ps]; [congruence|]. cbn [map] in *.
    inversion Htok as [|? ? (Hpne & Hph & _) _]; subst.
    destruct (encode_primitive p delimiter) as [|c r] eqn:E; [congruence|].
    destruct (map (fun v => encode_primitive v delimiter) ps); exact Hph.
Qed.

(** The rows of a tabular array, as [write_tabular_rows] joins them. *)
Definition row_texts (rows : list JsonValue) (header : list str) : list str :=
  map (fun row => match row with
                  | JObject d => encode_and_join_primitives (row_values d header) delimiter
                  | _ => []
                  end) rows.

Lemma write_tabular_rows_lines options header depth : forall rows w,
  e_delimiter options = delimiter ->
  is_tabular_array rows header = true ->
  write_tabular_rows rows header w depth options
  = {| w_lines := w_lines w
                  ++ map (fun c => render (w_indentation_string w) (depth, c))
                       (row_texts rows header);
       w_indentation_string := w_indentation_string w |}.
Proof.
  unfold write_tabular_rows, row_texts.
  induction rows as [|row rows IH]; intros w Hd Ht; cbn [fold_left map].
  - rewrite app_nil_r. now destruct w.
  - cbn [is_tabular_array forallb] in Ht. apply andb_true_iff in Ht. destruct Ht as [Hr Ht].
    destruct row as [p|a|d]; try discriminate Hr.
    rewrite IH by assumption. unfold push, render.
    cbn [w_lines w_indentation_string fst snd]. rewrite Hd, <- app_assoc. reflexivity.
Qed.

Lemma tabular_row_values d header :
  forallb (fun key => match dict_get d key with
                      | Some v => is_json_primitive v
                      | None => false
                      end) header = true ->
  Forall2 (fun k p => dict_get d k = Some (JPrim p)) header (row_values d header).
Proof.
  unfold row_values. induction header as [|k ks IH]; cbn [forallb flat_map]; intro H.
  - constructor.
  - apply andb_true_iff in H. destruct H as [Hk Hks].
    destruct (dict_get d k) as [[p| |]|] eqn:E; try discriminate Hk.
    cbn [app]. constructor; [exact E|now apply IH].
Qed.

Lemma tabular_path options key rows header w depth :
  extract_tabular_header rows = Some header ->
  encode_array options key rows w depth
  = encode_array_of_objects_as_tabular key rows header w depth options.
Proof.
  intro He. unfold encode_array, encode_array_with.
  pose proof (extract_tabular_header_some rows header He) as [Ht _].
  destruct rows as [|first rest]; [discriminate He|].
  assert (Hobj : is_array_of_objects (first :: rest) = true).
  { unfold is_array_of_objects. unfold is_tabular_array in Ht.
    rewrite forallb_forall in *. intros row Hrow. specialize (Ht row Hrow).
    now destruct row. }
  destruct first as [p|a|d]; try discriminate He.
  change (length (JObject d :: rest) =? 0) with false. cbn iota.
  change (is_array_of_primitives (JObject d :: rest)) with false.
  change (is_array_of_arrays (JObject d :: rest)) with false. cbn [andb].
  rewrite Hobj, He. reflexivity.
Qed.

End ArrayLines.

(** The line [encode_inline_array_line] writes for an array of primitives is
    read back by the parser: [parse_array_header_line] returns the key, the
    number of values as the length, the delimiter and the length marker, and
    as inline values the row of the values, absent for the empty array; and
    [parse_delimited_values] with [map_row_values_to_primitives] read that
    row back as the values.  For each of the three delimiters, no key or an
    unquoted key that matches the key pattern in full, and primitives that
    read back as tokens. *)
Theorem inline_array_line_round_trip (values : list JsonPrimitive) (key : option str)
  (delimiter : ascii) (length_marker : option str) :
  valid_delimiter delimiter ->
  array_key key ->
  Forall (round_trip_primitive delimiter) values ->
  parse_array_header_line
    (encode_inline_array_line (map JPrim values) delimiter key length_marker)
    DEFAULT_DELIMITER
  = Ok (Some ({| h_key := key;
                 h_length := Z.of_nat (length values);
                 h_delimiter := delimiter;
                 h_fields := None;
                 h_has_length_marker := marker_on length_marker |},
              match values with
              | [] => None
              | _ :: _ => Some (encode_and_join_primitives values delimiter)
              end))
  /\ map_row_values_to_primitives
       (parse_delimited_values (encode_and_join_primitives values delimiter) delimiter)
     = Ok values.
Proof.
  intros Hd Hk Hv. split; [|now apply row_reads_back].
  unfold encode_inline_array_line. rewrite length_map, primitives_of_map.
  destruct values as [|p ps].
  - cbn [length Nat.eqb].
    rewrite <- (app_nil_r (format_header 0 key None delimiter length_marker)).
    rewrite (header_line_parsed delimiter Hd 0 key length_marker [] Hk). reflexivity.
  - change (length (p :: ps) =? 0) with false. cbn iota.
    rewrite (header_line_parsed delimiter Hd _ key length_marker _ Hk).
    destruct (row_strip delimiter (p :: ps) ltac:(discriminate) Hv) as [Hne Hs].
    cbn [app]. rewrite (strip_space_token _ Hs).
    destruct (encode_and_join_primitives (p :: ps) delimiter); [congruence|reflexivity].
Qed.

Lemma inline_array_line_round_trip_witness :
  parse_array_header_line
    (encode_inline_array_line
       (map JPrim [PInt 1; PStr (lit "a|b"); PNull]) PIPE (Some (lit "tags")) None)
    DEFAULT_DELIMITER
  = Ok (Some ({| h_key := Some (lit "tags");
                 h_length := Z.of_nat (length [PInt 1; PStr (lit "a|b"); PNull]);
                 h_delimiter := PIPE;
                 h_fields := None;
                 h_has_length_marker := marker_on None |},
              Some (encode_and_join_primitives [PInt 1; PStr (lit "a|b"); PNull] PIPE)))
  /\ map_row_values_to_primitives
       (parse_delimited_values
          (encode_and_join_primitives [PInt 1; PStr (lit "a|b"); PNull] PIPE) PIPE)
     = Ok [PInt 1; PStr (lit "a|b"); PNull].
Proof.
  apply (inline_array_line_round_trip [PInt 1; PStr (lit "a|b"); PNull]
           (Some (lit "tags")) PIPE None).
  - right. right. reflexivity.
  - reflexivity.
  - repeat constructor.
Defined.

(** A tabular array is written as its header and one row for each object,
    one level deeper, and the parser reads each row back: the header is the
    one [format_header] writes for the number of rows and the keys of the
    first object, and [parse_delimited_values] with
    [map_row_values_to_primitives] turn the content of the row of an object
    into the values the object holds under those keys, in the order of the
    header.  For each of the three delimiters and objects whose values read
    back as tokens. *)
Theorem tabular_rows_round_trip (rows : list JsonValue) (header : list str)
  (key : option str) (options : ResolvedEncodeOptions) (w : LineWriter) (depth : nat) :
  valid_delimiter (e_delimiter options) ->
  extract_tabular_header rows = Some header ->
  Forall (fun row => forall d, row = JObject d ->
            Forall (round_trip_primitive (e_delimiter options)) (row_values d header)) rows ->
  exists contents,
    w_lines (encode_array options key rows w depth)
    = w_lines w
      ++ render (w_indentation_string w)
           (depth, format_header (length rows) key (Some header) (e_delimiter options)
                     (e_length_marker options))
      :: map (fun c => render (w_indentation_string w) (depth + 1, c)) contents
    /\ Forall2 (fun row c =>
         exists d, row = JObject d
           /\ Forall2 (fun k p => dict_get d k = Some (JPrim p)) header (row_values d header)
           /\ map_row_values_to_primitives (parse_delimited_values c (e_delimiter options))
              = Ok (row_values d header)) rows contents.
Proof.
  intros Hd He Hv.
  pose proof (extract_tabular_header_some rows header He) as [Ht _].
  exists (row_texts (e_delimiter options) rows header). split.
  - rewrite (tabular_path options key rows header w depth He).
    unfold encode_array_of_objects_as_tabular.
    rewrite (write_tabular_rows_lines (e_delimiter options) options header (depth + 1))
      by (reflexivity || exact Ht).
    unfold push. cbn [w_lines w_indentation_string]. unfold render at 3. cbn [fst snd].
    now rewrite <- app_assoc.
  - unfold row_texts. unfold is_tabular_array in Ht. clear He.
    induction rows as [|row rows IH]; cbn [map]; [constructor|].
    cbn [forallb] in Ht. apply andb_true_iff in Ht. destruct Ht as [Hr Ht].
    inversion Hv as [|? ? Hrow Hrows]; subst.
    constructor.
    + destruct row as [p|a|d]; try discriminate Hr. exists d.
      apply andb_true_iff in Hr. destruct Hr as [_ Hr].
      split; [reflexivity|]. split; [now apply tabular_row_values|].
      apply (row_reads_back (e_delimiter options) Hd). now apply Hrow.
    + now apply IH.
Qed.

Lemma tabular_rows_round_trip_witness :
  exists contents,
    w_lines (encode_array {| e_indent := 2; e_delimiter := COMMA; e_length_marker := None |}
       (Some (lit "users"))
       [JObject [(lit "id", JPrim (PInt 1)); (lit "name", JPrim (PStr (lit "Ada, L.")))];
        JObject [(lit "name", JPrim (PStr (lit "Bob"))); (lit "id", JPrim (PInt 2))]]
       (new_writer 2) 0)
    = w_lines (new_writer 2)
      ++ render (w_indentation_string (new_writer 2))
           (0, format_header 2 (Some (lit "users")) (Some [lit "id"; lit "name"]) COMMA None)
      :: map (fun c => render (w_indentation_string (new_writer 2)) (0 + 1, c)) contents
    /\ Forall2 (fun row c =>
         exists d, row = JObject d
           /\ Forall2 (fun k p => dict_get d k = Some (JPrim p)) [lit "id"; lit "name"]
                (row_values d [lit "id"; lit "name"])
           /\ map_row_values_to_primitives (parse_delimited_values c COMMA)
              = Ok (row_values d [lit "id"; lit "name"]))
       [JObject [(lit "id", JPrim (PInt 1)); (lit "name", JPrim (PStr (lit "Ada, L.")))];
        JObject [(lit "name", JPrim (PStr (lit "Bob"))); (lit "id", JPrim (PInt 2))]]
       contents.
Proof.
  apply (tabular_rows_round_trip
           [JObject [(lit "id", JPrim (PInt 1)); (lit "name", JPrim (PStr (lit "Ada, L.")))];
        JObject [(lit "name", JPrim (PStr (lit "Bob"))); (lit "id", JPrim (PInt 2))]]
           [lit "id"; lit "name"] (Some (lit "users"))
           {| e_indent := 2; e_delimiter := COMMA; e_length_marker := None |} (new_writer 2) 0).
  - left. reflexivity.
  - reflexivity.
  - constructor; [|constructor; [|constructor]]; intros d E; inversion E; subst;
      repeat constructor.
Defined.

(** ** List items: [encode_list_item_value] and [decode_list_item] *)

Section ListItems.

Variable delimiter : ascii.

Lemma find_unquoted_char_loop_step c tl char q i :
  tl <> [] ->
  find_unquoted_char_loop (c :: tl) char q i
  = if ceq c BACKSLASH && q then find_unquoted_char_loop (List.tl tl) char q (i + 2)
    else if ceq c DOUBLE_QUOTE then find_unquoted_char_loop tl char (negb q) (i + 1)
    else if ceq c char && negb q then Some i
    else find_unquoted_char_loop tl char q (i + 1).
Proof. intro H. destruct tl as [|a tl]; [congruence|]. reflexivity. Qed.

Lemma find_unquoted_char_loop_plain char : forall t i,
  Forall (fun c => ceq c char = false /\ ceq c DOUBLE_QUOTE = false) t ->
  find_unquoted_char_loop t char false i = None.
Proof.
  induction t as [|c t IH]; intros i H; [reflexivity|].
  inversion H as [|? ? [Hc Hq] Ht]; subst.
  destruct t as [|a t].
  - cbn [find_unquoted_char_loop]. now rewrite Hq, Hc.
  - rewrite find_unquoted_char_loop_step by discriminate.
    rewrite andb_false_r, Hq, Hc. cbn [andb]. now apply IH.
Qed.

Lemma find_unquoted_char_loop_found char : forall t x i,
  Forall (fun c => ceq c char = false /\ ceq c DOUBLE_QUOTE = false) t ->
  ceq char DOUBLE_QUOTE = false ->
  find_unquoted_char_loop (t ++ char :: x) char false i = Some (i + length t).
Proof.
  induction t as [|c t IH]; intros x i H Hq.
  - cbn [app length]. rewrite Nat.add_0_r.
    destruct x as [|y x']; cbn [find_unquoted_char_loop]; unfold ceq in *;
      rewrite ?andb_false_r, Hq, Ascii.eqb_refl; reflexivity.
  - inversion H as [|? ? [Hc Hcq] Ht]; subst. cbn [app].
    rewrite find_unquoted_char_loop_step by (destruct t; discriminate).
    rewrite andb_false_r, Hcq, Hc. cbn [andb length].
    rewrite IH by assumption. f_equal. lia.
Qed.

Lemma find_unquoted_char_loop_escaped char s x : forall i,
  find_unquoted_char_loop (flat_map escape_char s ++ DOUBLE_QUOTE :: x) char true i
  = match x with
    | [] => None
    | _ :: _ => find_unquoted_char_loop x char false
                  (i + length (flat_map escape_char s) + 1)
    end.
Proof.
  induction s as [|c s IH]; intro i.
  - cbn [flat_map app length]. rewrite Nat.add_0_r.
    destruct x as [|y x']; [reflexivity|].
    rewrite find_unquoted_char_loop_step by discriminate.
    change (ceq DOUBLE_QUOTE BACKSLASH) with false.
    change (ceq DOUBLE_QUOTE DOUBLE_QUOTE) with true. reflexivity.
  - cbn [flat_map]. rewrite length_app, <- app_assoc.
    assert (Hne : flat_map escape_char s ++ DOUBLE_QUOTE :: x <> [])
      by (destruct (flat_map escape_char s); discriminate).
    destruct (is_escaped_char c) eqn:E.
    + assert (Hc : exists y, escape_char c = [BACKSLASH; y]).
      { revert E. destruct c as [[] [] [] [] [] [] [] []]; vm_compute; intro E;
          try discriminate E; eauto. }
      destruct Hc as [y ->]. cbn [app length].
      rewrite find_unquoted_char_loop_step by discriminate.
      change (ceq BACKSLASH BACKSLASH) with true. cbn [andb List.tl].
      rewrite IH. destruct x; [reflexivity|]. f_equal. lia.
    + rewrite (escape_char_plain c E). cbn [app length].
      assert (Hn : ceq c BACKSLASH = false /\ ceq c DOUBLE_QUOTE = false).
      { unfold is_escaped_char in E. rewrite !orb_false_iff in E. tauto. }
      destruct Hn as [Hb Hq].
      rewrite find_unquoted_char_loop_step by exact Hne.
      rewrite Hb, Hq, andb_false_r. cbn [andb negb].
      rewrite IH. destruct x; [reflexivity|]. f_equal. lia.
Qed.

(** No colon stands outside the quotes of a token. *)
Lemma token_no_field p :
  round_trip_primitive delimiter p ->
  find_unquoted_char (encode_primitive p delimiter) COLON 0 = None.
Proof.
  intro Hp.
  assert (Hbare : forall t, bare t -> find_unquoted_char t COLON 0 = None).
  { intros t [_ _ _ Hc]. unfold find_unquoted_char. cbn [skipn].
    apply find_unquoted_char_loop_plain. eapply Forall_impl; [|exact Hc].
    intros c H. unfold structural in H. rewrite !orb_false_iff in H. tauto. }
  assert (Hquoted : forall s, find_unquoted_char (quoted s) COLON 0 = None).
  { intro s. unfold find_unquoted_char, quoted. cbn [skipn app].
    rewrite find_unquoted_char_loop_step
      by (destruct (escape_string s); discriminate).
    change (ceq DOUBLE_QUOTE BACKSLASH) with false.
    change (ceq DOUBLE_QUOTE DOUBLE_QUOTE) with true. cbn [andb negb].
    rewrite escape_string_flat_map. apply find_unquoted_char_loop_escaped. }
  destruct p as [|b|n|f|s]; simpl round_trip_primitive in Hp.
  - apply Hbare. constructor; try exact I; try discriminate; try reflexivity.
    repeat constructor.
  - apply Hbare. destruct b; (constructor; try exact I; try discriminate; try reflexivity;
      repeat constructor).
  - apply Hbare, bare_str_int.
  - apply Hbare. now destruct (str_float_decodes f Hp).
  - cbn [encode_primitive]. unfold encode_string_literal.
    destruct (is_safe_unquoted s delimiter) eqn:E.
    + apply Hbare. apply is_safe_unquoted_spec in E. now apply (bare_safe_unquoted s delimiter).
    + apply Hquoted.
Qed.

(** The colon after a key is found outside quotes. *)
Lemma key_line_field key t :
  plain_key key ->
  is_some (find_unquoted_char (encode_key key ++ COLON :: t) COLON 0) = true.
Proof.
  intro Hk. unfold find_unquoted_char. cbn [skipn].
  destruct (encode_key_cases key Hk) as [(_ & Hp & ->)|(_ & ->)].
  - destruct (key_pattern_wordish key Hp) as [_ Hw].
    rewrite find_unquoted_char_loop_found; [reflexivity| |reflexivity].
    eapply Forall_impl; [|exact Hw]. intros c Hc.
    destruct (wordish_plain c Hc) as (_ & H1 & H2 & _). now split.
  - unfold quoted. cbn [app]. rewrite <- app_assoc. cbn [app].
    rewrite find_unquoted_char_loop_step
      by (destruct (escape_string key); discriminate).
    change (ceq DOUBLE_QUOTE BACKSLASH) with false.
    change (ceq DOUBLE_QUOTE DOUBLE_QUOTE) with true. cbn [andb negb].
    rewrite escape_string_flat_map, find_unquoted_char_loop_escaped.
    destruct t as [|y t']; cbn [find_unquoted_char_loop];
      rewrite ?andb_false_r; reflexivity.
Qed.

Lemma key_not_hyphen key x :
  plain_key key -> startswith (encode_key key ++ x) LIST_ITEM_PREFIX = false.
Proof.
  intro Hk. destruct (encode_key_cases key Hk) as [(_ & Hp & ->)|(_ & ->)].
  - destruct key as [|c r]; [discriminate Hp|]. cbn [key_pattern] in Hp.
    apply andb_true_iff in Hp. destruct Hp as [Hc _].
    cbn [app]. unfold LIST_ITEM_PREFIX. cbn [lit]. change (startswith (c :: r ++ x) (lit "- "))
      with (ceq "-"%char c && startswith (r ++ x) (lit " ")).
    replace (ceq "-"%char c) with false; [reflexivity|].
    revert Hc. destruct c as [[] [] [] [] [] [] [] []]; vm_compute; intro H;
      try discriminate H; reflexivity.
  - reflexivity.
Qed.

(** The lines of a list item: the depth and the content of each. *)
Definition item_rows (depth : nat) (item : JsonValue) : list (nat * str) :=
  match item with
  | JPrim p => [(depth, LIST_ITEM_PREFIX ++ encode_primitive p delimiter)]
  | JObject ((k, JPrim p) :: rest) =>
      (depth, LIST_ITEM_PREFIX ++ encode_key k ++ [COLON; SPACE]
              ++ encode_primitive p delimiter)
      :: object_rows delimiter (depth + 1) rest
  | JObject ((k, JObject d') :: rest) =>
      (depth, LIST_ITEM_PREFIX ++ encode_key k ++ [COLON])
      :: object_rows delimiter (depth + 2) d' ++ object_rows delimiter (depth + 1) rest
  | _ => []
  end.

(** The list items covered: a primitive, or a mapping with a first field,
    whose values are primitives or, to any depth, mappings of that kind. *)
Definition list_item_tree (item : JsonValue) : Prop :=
  match item with
  | JPrim p => round_trip_primitive delimiter p
  | JObject (_ :: _) => object_tree delimiter item
  | _ => False
  end.

Lemma object_tree_fields d :
  object_tree delimiter (JObject d) ->
  NoDup (map fst d)
  /\ Forall (fun kv => plain_key (fst kv) /\ object_tree delimiter (snd kv)
                       /\ bracket_free delimiter kv) d
  /\ Forall (fun kv => object_tree delimiter (snd kv)) d.
Proof.
  intro H. inversion H as [|d0 Hnd Hf]; subst. split; [exact Hnd|]. split; [exact Hf|].
  eapply Forall_impl; [|exact Hf]. intros kv (_ & Ht & _). exact Ht.
Qed.

Lemma encode_list_item_rows options item w depth :
  e_delimiter options = delimiter ->
  list_item_tree item ->
  encode_list_item_value options item w depth
  = {| w_lines := w_lines w ++ map (render (w_indentation_string w)) (item_rows depth item);
       w_indentation_string := w_indentation_string w |}.
Proof.
  intros Hd Hi. destruct item as [p|a|[|[k v] rest]]; try contradiction.
  - cbn [encode_list_item_value item_rows map]. unfold push_list_item, push, render.
    cbn [fst snd]. now rewrite Hd.
  - cbn [list_item_tree] in Hi.
    destruct (object_tree_fields _ Hi) as (_ & Hf & Htrees).
    inversion Htrees as [|? ? Hv Hrest]; subst. cbn [snd] in Hv.
    assert (Hfold : forall d w' dp,
      Forall (fun kv => object_tree delimiter (snd kv)) d ->
      fold_left (fun w0 kv => encode_key_value_pair options (fst kv) (snd kv) w0 dp) d w'
      = {| w_lines := w_lines w' ++ map (render (w_indentation_string w'))
                                        (object_rows delimiter dp d);
           w_indentation_string := w_indentation_string w' |}).
    { intros d w' dp Hdt.
      apply (encode_object_rows delimiter options (object_tree delimiter)
               (encode_entry_rows delimiter options Hd) d w' dp Hdt). }
    cbn [encode_list_item_value]. unfold encode_object_as_list_item_with.
    inversion Hv as [p Hp|d' Hnd' Hf']; subst.
    + rewrite Hfold by exact Hrest. unfold push_list_item, push, render.
      cbn [w_lines w_indentation_string item_rows map fst snd].
      rewrite Hd, <- app_assoc. reflexivity.
    + assert (Hnested : Forall (fun kv => object_tree delimiter (snd kv)) d')
        by (now destruct (object_tree_fields _ Hv) as (_ & _ & H)).
      unfold encode_object_with. rewrite !Hfold by assumption.
      unfold push_list_item, push, render.
      cbn [w_lines w_indentation_string item_rows map fst snd].
      rewrite map_app, <- !app_assoc. reflexivity.
Qed.

Lemma item_rows_flat depth item :
  list_item_tree item ->
  Forall (fun row => flat_line (snd row)) (item_rows depth item).
Proof.
  intro Hi.
  assert (Hfirst : forall x, Forall (fun c => ceq c NEWLINE = false) x ->
                   flat_line (LIST_ITEM_PREFIX ++ x)).
  { intros x Hx. split; [reflexivity|]. now repeat constructor. }
  assert (Hkey : forall k, plain_key k ->
                 Forall (fun c => ceq c NEWLINE = false) (encode_key k)).
  { intros k Hk. now destruct (encode_key_head k Hk) as (_ & _ & _ & _ & _ & H). }
  assert (Htok : forall p, round_trip_primitive delimiter p ->
                 Forall (fun c => ceq c NEWLINE = false) (encode_primitive p delimiter)).
  { intros p Hp. now destruct (encode_primitive_decodes delimiter p Hp) as [[] _]. }
  destruct item as [p|a|[|[k v] rest]]; try contradiction.
  - cbn [item_rows]. constructor; [|constructor]. apply Hfirst. now apply Htok.
  - cbn [list_item_tree] in Hi.
    destruct (object_tree_fields _ Hi) as (_ & Hf & _).
    inversion Hf as [|? ? (Hk & Hv & _) Hrest]; subst. cbn [fst snd] in Hk, Hv.
    inversion Hv as [p Hp|d' Hnd' Hf']; subst; cbn [item_rows].
    + constructor; [|now apply object_rows_flat]. apply Hfirst.
      apply Forall_app. split; [now apply Hkey|].
      constructor; [reflexivity|]. constructor; [reflexivity|now apply Htok].
    + constructor.
      * apply Hfirst. apply Forall_app. split; [now apply Hkey|now repeat constructor].
      * apply Forall_app. split; now apply object_rows_flat.
Qed.

(** The loop of [decode_object_from_list_item] over the lines of the fields
    after the first. *)
Lemma list_item_loop_reads options : forall rest,
  Forall (fun kv => plain_key (fst kv) /\ object_tree delimiter (snd kv)
                    /\ bracket_free delimiter kv) rest ->
  forall follow pls post obj fuel cursor,
    rows_parsed (object_rows delimiter follow rest) pls ->
    remaining cursor = pls ++ post ->
    clear_of follow (reach follow rest) post ->
    2 * entries_lines rest < fuel ->
    decode_object_from_list_item_loop fuel cursor follow options obj
    = Ok (set_all obj rest, advance_by (length pls) cursor).
Proof.
  induction rest as [|[k v] d IH];
    intros Hf follow pls post obj fuel cursor H2 Hrem Hpost Hfuel.
  - inversion H2; subst. cbn [app] in Hrem.
    destruct fuel as [|fuel]; [lia|]. cbn [decode_object_from_list_item_loop].
    rewrite peek_remaining, Hrem. cbn [length]. rewrite advance_by_zero.
    unfold clear_of, reach in Hpost. cbn [fold_left] in Hpost.
    destruct (hd_error post) as [pl|]; [|reflexivity].
    destruct Hpost as [Hlt|Hgt].
    + replace (depth pl <? follow) with true by (symmetry; now apply Nat.ltb_lt).
      reflexivity.
    + replace (depth pl <? follow) with false by (symmetry; apply Nat.ltb_ge; lia).
      replace (depth pl =? follow) with false by (symmetry; apply Nat.eqb_neq; lia).
      reflexivity.
  - inversion Hf as [|? ? (Hk & Ht & Hb) Hd]; subst. cbn [fst snd] in *.
    specialize (IH Hd).
    assert (Htrees : Forall (fun kv => object_tree delimiter (snd kv)) d).
    { eapply Forall_impl; [|exact Hd]. intros kv (_ & H & _). exact H. }
    assert (Hrest : clear_of follow (reach follow d) post).
    { rewrite reach_cons in Hpost. destruct d as [|kv2 d2]; [|exact Hpost].
      cbn [snd] in Hpost. unfold clear_of, reach in *. cbn [fold_left].
      destruct (hd_error post) as [pl|]; [|exact I].
      pose proof (reach_value_ge delimiter v Ht follow). lia. }
    rewrite entries_lines_cons in Hfuel. cbn [snd] in Hfuel.
    pose proof (value_lines_positive v) as Hpos.
    unfold object_rows in H2. cbn [flat_map fst snd] in H2.
    fold (object_rows delimiter follow d) in H2.
    apply Forall2_app_inv_l in H2. destruct H2 as (pls1 & pls2 & H21 & H22 & ->).
    destruct (entry_rows_head delimiter follow k v Ht) as (t & rows & E).
    pose proof H21 as H21'. rewrite E in H21'.
    inversion H21' as [|? pl ? pls1' [Hc Hdp] _]; subst pls1. cbn [fst snd] in Hc, Hdp.
    change (((pl :: pls1') ++ pls2) ++ post) with (pl :: (pls1' ++ pls2) ++ post) in Hrem.
    rewrite <- app_assoc in Hrem.
    destruct (advance_remaining _ _ _ Hrem) as [Ha Hrem'].
    destruct fuel as [|fuel]; [lia|].
    cbn [decode_object_from_list_item_loop]. rewrite peek_remaining, Hrem. cbn [hd_error].
    rewrite Hdp, Nat.ltb_irrefl, Nat.eqb_refl, Ha.
    replace (startswith (content pl) LIST_ITEM_PREFIX) with false
      by (rewrite Hc; symmetry; now apply key_not_hyphen).
    cbn [andb negb].
    rewrite (decode_key_value_entry delimiter options k v follow pl pls1' (pls2 ++ post) fuel _
               Hk Ht Hb (object_tree_reads delimiter options v Ht) H21 Hrem').
    + cbn [bind fst snd kv_key kv_value]. rewrite advance_by_add.
      rewrite (IH follow pls2 post _ fuel _ H22); [| |exact Hrest|lia].
      * rewrite advance_by_add. unfold set_all. cbn [fold_left fst snd].
        do 2 f_equal. unfold advance_by. f_equal. cbn [length app]. rewrite length_app. lia.
      * rewrite remaining_advance_by, Hrem.
        change (skipn (1 + length pls1') (pl :: pls1' ++ pls2 ++ post))
          with (skipn (length pls1') (pls1' ++ pls2 ++ post)).
        now apply skipn_length_app.
    + apply (rows_then_clear delimiter follow d); [exact Htrees|exact H22|].
      intros ->. rewrite reach_cons in Hpost. cbn [snd] in Hpost.
      unfold clear_of in *. destruct (hd_error post) as [nl|]; [|exact I]. lia.
    + lia.
Qed.

(** The lines of a list item, scanned. *)
Lemma scan_item_rows options item n strict depth :
  e_delimiter options = delimiter ->
  list_item_tree item ->
  n <> 0 ->
  exists pls,
    scan_lines (w_lines (encode_list_item_value options item (new_writer n) depth)) 1 n strict
    = Ok (pls, [])
    /\ rows_parsed (item_rows depth item) pls.
Proof.
  intros Hd Hi Hn. rewrite (encode_list_item_rows options item _ depth Hd Hi).
  cbn [w_lines new_writer w_indentation_string app].
  apply scan_rows; [exact Hn|now apply item_rows_flat].
Qed.

Lemma whole_cursor pls :
  remaining (new_cursor pls []) = pls ++ []
  /\ forall k, advance_by k (new_cursor pls [])
               = {| c_lines := pls; c_index := k; c_blank_lines := [] |}.
Proof. split; [unfold remaining; cbn; now rewrite app_nil_r|reflexivity]. Qed.

(** The list items that are read back: a primitive, or a mapping whose first
    field holds a primitive. *)
Definition list_item_plain (item : JsonValue) : Prop :=
  list_item_tree item
  /\ match item with JObject ((_, JObject _) :: _) => False | _ => True end.

(** What follows a list item: nothing, or a line no deeper than the item. *)
Definition shallow (item_depth : nat) (post : list ParsedLine) : Prop :=
  match hd_error post with
  | Some pl => depth pl <= item_depth
  | None => True
  end.

Lemma item_rows_head item_depth item :
  list_item_tree item ->
  exists x rows, item_rows item_depth item
                 = (item_depth, "-"%char :: " "%char :: x) :: rows.
Proof.
  intro Hi. destruct item as [p|a|[|[k v] rest]]; try contradiction.
  - eexists _, _. reflexivity.
  - cbn [list_item_tree] in Hi.
    destruct (object_tree_fields _ Hi) as (_ & _ & Ht).
    inversion Ht as [|? ? Hv _]; subst. cbn [snd] in Hv.
    destruct v as [p|a|d']; [| inversion Hv |]; eexists _, _; reflexivity.
Qed.

(** [decode_list_item] on the lines of a list item, among other lines. *)
Lemma decode_list_item_reads options item item_depth pls post fuel cursor active_delimiter :
  list_item_plain item ->
  rows_parsed (item_rows item_depth item) pls ->
  remaining cursor = pls ++ post ->
  shallow item_depth post ->
  2 * length pls + 2 < fuel ->
  decode_list_item fuel cursor item_depth active_delimiter options
  = Ok (item, advance_by (length pls) cursor).
Proof.
  intros [Hi Hfirst] H2 Hrem Hpost Hfuel.
  assert (Hslice : forall x, slice_from ("-"%char :: " "%char :: x) (length LIST_ITEM_PREFIX)
                              = x) by reflexivity.
  destruct fuel as [|fuel]; [lia|]. cbn [decode_list_item]. unfold next.
  rewrite peek_remaining, Hrem.
  destruct item as [p|a|[|[k v] rest]]; try contradiction.
  - (* a primitive *)
    cbn [item_rows] in H2. cbn [list_item_tree] in Hi.
    inversion H2 as [|? pl ? ? [Hc _] H2']; subst. inversion H2'; subst.
    change (content pl = "-"%char :: " "%char :: encode_primitive p delimiter) in Hc.
    cbn [app hd_error]. rewrite Hc, !Hslice.
    destruct (encode_primitive_decodes delimiter p Hi) as [[Hne Hh Hl _ Hnh _] Hparse].
    assert (Hs : strip (encode_primitive p delimiter) = encode_primitive p delimiter)
      by (apply strip_fixed; now split).
    unfold is_array_header_after_hyphen, is_object_first_field_after_hyphen.
    rewrite Hs, Hnh, (token_no_field p Hi). cbn [andb is_some].
    rewrite Hparse. cbn [bind app] in *.
    destruct (advance_remaining _ _ _ Hrem) as [-> _]. reflexivity.
  - (* a mapping *)
    cbn [list_item_tree] in Hi.
    destruct (object_tree_fields _ Hi) as (Hnd & Hf & _).
    inversion Hf as [|? ? (Hk & Hv & Hb) Hrest]; subst. cbn [fst snd] in Hk, Hv.
    destruct v as [p|a|d']; [|inversion Hv|exfalso; exact Hfirst].
    inversion Hv as [? Hp|]; subst. cbn [item_rows] in H2.
    inversion H2 as [|? pl ? pls' [Hc _] H2']; subst. cbn [snd] in Hc.
    change (content pl = "-"%char :: " "%char
                         :: encode_key k ++ COLON :: SPACE :: encode_primitive p delimiter)
      in Hc.
    cbn [app hd_error]. rewrite Hc, !Hslice.
    unfold is_object_first_field_after_hyphen.
    rewrite (key_line_field k _ Hk).
    rewrite (key_line_not_header k _ Hk).
    2:{ destruct (encode_primitive_decodes delimiter p Hp) as [[Hne _ Hl _ _ _] _].
        rewrite rev_app_distr. cbn [rev].
        destruct (rev (encode_primitive p delimiter)) as [|x xs] eqn:Er.
        - apply (f_equal (@rev ascii)) in Er. rewrite rev_involutive in Er.
          simpl in Er. congruence.
        - exact Hl. }
    cbn [app] in Hrem. destruct (advance_remaining _ _ _ Hrem) as [Ha Hrem'].
    rewrite Ha. cbn [length] in Hfuel.
    destruct fuel as [|fuel]; [lia|].
    change (encode_key k ++ COLON :: SPACE :: encode_primitive p delimiter)
      with (encode_key k ++ [COLON; SPACE] ++ encode_primitive p delimiter).
    rewrite (decode_key_value_field fuel k p delimiter _ item_depth options Hk Hp
               (Hb p eq_refl)).
    cbn [bind kv_followDepth kv_key kv_value].
    rewrite (list_item_loop_reads options rest Hrest (item_depth + 1) pls' post _
               (S fuel) _ H2' Hrem').
    + cbn [bind fst snd]. rewrite advance_by_add.
      rewrite set_all_fresh.
      * reflexivity.
      * now inversion Hnd.
      * intros key Hin [E|[]]. cbn [fst] in E. subst key. now inversion Hnd.
    + unfold shallow, clear_of in *. destruct (hd_error post) as [nl|]; [|exact I]. lia.
    + rewrite <- (object_rows_length delimiter (item_depth + 1) rest).
      * rewrite (Forall2_length H2'). lia.
      * eapply Forall_impl; [|exact Hrest]. intros kv (_ & H & _). exact H.
Qed.

End ListItems.

(** The lines [encode_list_item_value] writes for a list item are scanned
    and then decoded by [decode_list_item] as the item, all of them
    consumed: for a primitive that reads back as a token, and for a mapping
    whose first field holds such a primitive and whose other fields hold
    primitives or, to any depth, mappings (keys pairwise distinct in every
    mapping, each quoted by the encoder or matching the unquoted-key pattern
    in full, no opening bracket in a primitive under an unquoted key), when
    the decoder runs with the encoder's indent, which is not zero, strict or
    not. *)
Theorem list_item_round_trip (item : JsonValue) (eopts : ResolvedEncodeOptions)
  (dopts : ResolvedDecodeOptions) (item_depth : nat) (active_delimiter : ascii) :
  list_item_plain (e_delimiter eopts) item ->
  e_indent eopts <> 0 ->
  d_indent dopts = e_indent eopts ->
  exists pls,
    scan_lines
      (w_lines (encode_list_item_value eopts item (new_writer (e_indent eopts)) item_depth))
      1 (d_indent dopts) (d_strict dopts) = Ok (pls, [])
    /\ forall fuel, 2 * length pls + 2 < fuel ->
       decode_list_item fuel (new_cursor pls []) item_depth active_delimiter dopts
       = Ok (item, {| c_lines := pls; c_index := length pls; c_blank_lines := [] |}).
Proof.
  intros Hi Hn Hind. set (delimiter := e_delimiter eopts) in *.
  rewrite Hind.
  destruct (scan_item_rows delimiter eopts item (e_indent eopts) (d_strict dopts) item_depth
              eq_refl (proj1 Hi) Hn) as (pls & Hscan & H2).
  exists pls. split; [exact Hscan|]. intros fuel Hfuel.
  destruct (whole_cursor pls) as [Hrem Hadv].
  rewrite (decode_list_item_reads delimiter dopts item item_depth pls [] fuel
             (new_cursor pls []) active_delimiter Hi H2 Hrem I Hfuel).
  now rewrite Hadv.
Qed.

Lemma list_item_round_trip_witness :
  exists pls,
    scan_lines
      (w_lines (encode_list_item_value
                  {| e_indent := 2; e_delimiter := COMMA; e_length_marker := None |}
                  (JObject [(lit "id", JPrim (PInt 1));
                            (lit "geo", JObject [(lit "lat", JPrim (PInt 5))])])
                  (new_writer 2) 1))
      1 2 true = Ok (pls, [])
    /\ forall fuel, 2 * length pls + 2 < fuel ->
       decode_list_item fuel (new_cursor pls []) 1 COMMA {| d_indent := 2; d_strict := true |}
       = Ok (JObject [(lit "id", JPrim (PInt 1));
                      (lit "geo", JObject [(lit "lat", JPrim (PInt 5))])],
             {| c_lines := pls; c_index := length pls; c_blank_lines := [] |}).
Proof.
  apply (list_item_round_trip
           (JObject [(lit "id", JPrim (PInt 1));
                     (lit "geo", JObject [(lit "lat", JPrim (PInt 5))])])
           {| e_indent := 2; e_delimiter := COMMA; e_length_marker := None |}
           {| d_indent := 2; d_strict := true |} 1 COMMA).
  - split; [|exact I]. apply tree_object.
    + repeat constructor; simpl; intuition discriminate.
    + constructor; [|constructor; [|constructor]].
      * split; [left; reflexivity|]. split.
        -- apply tree_prim. simpl. reflexivity.
        -- intros p E _. cbn [snd] in E. inversion E. reflexivity.
      * split; [left; reflexivity|]. split.
        -- apply tree_object.
           ++ repeat constructor. intros [].
           ++ constructor; [|constructor]. split; [left; reflexivity|]. split.
              ** apply tree_prim. simpl. reflexivity.
              ** intros p E _. cbn [snd] in E. inversion E. reflexivity.
        -- intros p E. cbn [snd] in E. discriminate E.
  - discriminate.
  - reflexivity.
Defined.

(** A list item that is a mapping whose first field holds a mapping is not
    read back.  The encoder writes the fields of the inner mapping two levels
    below the hyphen and the other fields of the item one level below;
    [decode_key_value] looks for the inner mapping one level below.  With a
    non-empty inner mapping [decode_list_item] returns the item with that
    field alone and an empty mapping under it, the cursor left on the second
    line; with an empty inner mapping it returns the item with that field
    alone and the other fields of the item as the mapping under it.  Only an
    item whose single field holds an empty mapping is returned as it is. *)
Theorem list_item_first_object_misread (k : str) (inner rest : list (str * JsonValue))
  (eopts : ResolvedEncodeOptions) (dopts : ResolvedDecodeOptions) (item_depth : nat)
  (active_delimiter : ascii) :
  object_tree (e_delimiter eopts) (JObject ((k, JObject inner) :: rest)) ->
  e_indent eopts <> 0 ->
  d_indent dopts = e_indent eopts ->
  exists pls,
    scan_lines
      (w_lines (encode_list_item_value eopts (JObject ((k, JObject inner) :: rest))
                  (new_writer (e_indent eopts)) item_depth))
      1 (d_indent dopts) (d_strict dopts) = Ok (pls, [])
    /\ forall fuel, 2 * length pls + 2 < fuel ->
       decode_list_item fuel (new_cursor pls []) item_depth active_delimiter dopts
       = Ok (JObject [(k, JObject match inner with [] => rest | _ :: _ => [] end)],
             {| c_lines := pls;
                c_index := match inner with [] => length pls | _ :: _ => 1 end;
                c_blank_lines := [] |}).
Proof.
  intros Hi Hn Hind. set (delimiter := e_delimiter eopts) in *.
  rewrite Hind.
  destruct (scan_item_rows delimiter eopts (JObject ((k, JObject inner) :: rest))
              (e_indent eopts) (d_strict dopts) item_depth eq_refl Hi Hn) as (pls & Hscan & H2).
  exists pls. split; [exact Hscan|]. intros fuel Hfuel.
  destruct (whole_cursor pls) as [Hrem Hadv].
  assert (Hslice : forall x, slice_from ("-"%char :: " "%char :: x) (length LIST_ITEM_PREFIX)
                              = x) by reflexivity.
  destruct (object_tree_fields _ _ Hi) as (Hnd & Hf & _).
  inversion Hf as [|? ? (Hk & Hv & Hb) Hrest]; subst. cbn [fst snd] in Hk, Hv.
  destruct (object_tree_fields _ _ Hv) as (_ & Hinner & Htrees).
  cbn [item_rows] in H2.
  inversion H2 as [|? pl ? pls' [Hc _] H2']; subst. cbn [snd] in Hc.
  change (content pl = "-"%char :: " "%char :: encode_key k ++ [COLON]) in Hc.
  cbn [app] in Hrem. destruct (advance_remaining _ _ _ Hrem) as [Ha Hrem'].
  destruct fuel as [|fuel]; [lia|]. cbn [decode_list_item]. unfold next.
  rewrite peek_remaining, Hrem. cbn [hd_error]. rewrite Hc, !Hslice.
  unfold is_object_first_field_after_hyphen.
  rewrite (key_line_field k _ Hk).
  rewrite (key_line_not_header k _ Hk) by (rewrite rev_app_distr; exact eq_refl).
  rewrite Ha. cbn [length] in Hfuel.
  destruct inner as [|[k' v'] inner'].
  - (* the other fields are taken for the inner mapping *)
    change (object_rows delimiter (item_depth + 2) []
            ++ object_rows delimiter (item_depth + 1) rest)
      with (object_rows delimiter (item_depth + 1) rest) in H2'.
    assert (Hrest_tree : object_tree delimiter (JObject rest)).
    { apply tree_object; [now inversion Hnd|exact Hrest]. }
    rewrite (decode_key_value_entry delimiter dopts k (JObject rest) item_depth
               {| raw := []; indent := 0; content := encode_key k ++ [COLON];
                  depth := item_depth; line_number := 0 |} pls' [] fuel _ Hk Hrest_tree).
    + cbn [bind kv_followDepth kv_key kv_value].
      destruct fuel as [|fuel]; [lia|]. cbn [decode_object_from_list_item_loop].
      rewrite peek_remaining, remaining_advance_by, Hrem'.
      rewrite app_nil_r, skipn_all. cbn [hd_error bind fst snd].
      rewrite advance_by_add, Hadv. reflexivity.
    + intros p E. discriminate E.
    + now apply object_tree_reads.
    + cbn [entry_rows]. constructor; [split; reflexivity|exact H2'].
    + exact Hrem'.
    + exact I.
    + change (value_lines (JObject rest)) with (S (entries_lines rest)).
      rewrite <- (object_rows_length delimiter (item_depth + 1) rest).
      * rewrite (Forall2_length H2'). lia.
      * eapply Forall_impl; [|exact Hrest]. intros kv (_ & H & _). exact H.
  - (* the inner mapping is not found *)
    inversion Htrees as [|? ? Hv' _]; subst. cbn [snd] in Hv'.
    destruct (entry_rows_head delimiter (item_depth + 2) k' v' Hv') as (t & rows & E).
    unfold object_rows in H2' at 1. cbn [flat_map fst snd] in H2'. rewrite E in H2'.
    cbn [app] in H2'.
    inversion H2' as [|? pl1 ? pls1 [_ Hd1] _]; subst. cbn [fst] in Hd1.
    destruct fuel as [|fuel]; [lia|].
    rewrite (decode_key_value_object fuel k _ item_depth dopts Hk).
    rewrite peek_remaining, Hrem'. cbn [app hd_error].
    replace (item_depth <? depth pl1) with true by (symmetry; apply Nat.ltb_lt; lia).
    destruct fuel as [|fuel]; [cbn [length] in Hfuel; lia|].
    cbn [decode_object_loop]. rewrite peek_remaining, Hrem'. cbn [app hd_error].
    replace (depth pl1 <? item_depth + 1) with false by (symmetry; apply Nat.ltb_ge; lia).
    replace (depth pl1 =? item_depth + 1) with false
      by (symmetry; apply Nat.eqb_neq; lia).
    cbn [bind fst snd kv_followDepth kv_key kv_value decode_object_from_list_item_loop].
    rewrite peek_remaining, Hrem'. cbn [app hd_error].
    replace (depth pl1 <? item_depth + 1) with false by (symmetry; apply Nat.ltb_ge; lia).
    replace (depth pl1 =? item_depth + 1) with false
      by (symmetry; apply Nat.eqb_neq; lia).
    cbn [andb bind fst snd]. rewrite Hadv. reflexivity.
Qed.

Lemma list_item_first_object_misread_witness :
  exists pls,
    scan_lines
      (w_lines (encode_list_item_value
                  {| e_indent := 2; e_delimiter := COMMA; e_length_marker := None |}
                  (JObject [(lit "geo", JObject []); (lit "id", JPrim (PInt 1))])
                  (new_writer 2) 1))
      1 2 true = Ok (pls, [])
    /\ forall fuel, 2 * length pls + 2 < fuel ->
       decode_list_item fuel (new_cursor pls []) 1 COMMA {| d_indent := 2; d_strict := true |}
       = Ok (JObject [(lit "geo", JObject [(lit "id", JPrim (PInt 1))])],
             {| c_lines := pls; c_index := length pls; c_blank_lines := [] |}).
Proof.
  apply (list_item_first_object_misread (lit "geo") [] [(lit "id", JPrim (PInt 1))]
           {| e_indent := 2; e_delimiter := COMMA; e_length_marker := None |}
           {| d_indent := 2; d_strict := true |} 1 COMMA).
  - apply tree_object.
    + repeat constructor; simpl; intuition discriminate.
    + constructor; [|constructor; [|constructor]].
      * split; [left; reflexivity|]. split.
        -- apply tree_object; constructor.
        -- intros p E. cbn [snd] in E. discriminate E.
      * split; [left; reflexivity|]. split.
        -- apply tree_prim. simpl. reflexivity.
        -- intros p E _. cbn [snd] in E. inversion E. reflexivity.
  - discriminate.
  - reflexivity.
Defined.

(** ** List arrays: [encode_mixed_array_as_list_items] and the loop of
    [decode_list_array] *)

Section ListArrays.

Variable delimiter : ascii.

Lemma at_end_remaining c pl r : remaining c = pl :: r -> at_end c = false.
Proof.
  intro H. unfold at_end. apply Nat.leb_gt. unfold remaining in H.
  destruct (Nat.lt_ge_cases (c_index c) (length (c_lines c))) as [L|L]; [exact L|].
  rewrite skipn_all2 in H by exact L. discriminate.
Qed.

(** The lines of the items of a list array. *)
Definition items_rows (item_depth : nat) (items : list JsonValue) : list (nat * str) :=
  flat_map (item_rows delimiter item_depth) items.

(** The loop of [decode_list_array] over the lines of the items. *)
Lemma list_array_loop_reads options header item_depth : forall items,
  Forall (list_item_plain delimiter) items ->
  forall pls post init start_line end_line fuel cursor,
    rows_parsed (items_rows item_depth items) pls ->
    remaining cursor = pls ++ post ->
    shallow item_depth post ->
    h_length header = Z.of_nat (length init + length items) ->
    2 * length pls + length items + 2 < fuel ->
    exists start_line' end_line',
      decode_list_array_loop fuel header cursor item_depth options init start_line end_line
      = Ok (init ++ items, start_line', end_line', advance_by (length pls) cursor).
Proof.
  induction items as [|item items IH];
    intros Hitems pls post init start_line end_line fuel cursor H2 Hrem Hpost Hlen Hfuel.
  - inversion H2; subst. exists start_line, end_line.
    destruct fuel as [|fuel]; [lia|]. cbn [decode_list_array_loop].
    cbn [length] in Hlen. rewrite Nat.add_0_r in Hlen. rewrite Hlen, Z.ltb_irrefl.
    cbn [negb]. rewrite orb_true_r, app_nil_r.
    cbn [length]. now rewrite advance_by_zero.
  - inversion Hitems as [|? ? Hitem Hitems']; subst.
    unfold items_rows in H2. cbn [flat_map] in H2. fold (items_rows item_depth items) in H2.
    apply Forall2_app_inv_l in H2. destruct H2 as (pls1 & pls2 & H21 & H22 & ->).
    destruct (item_rows_head delimiter item_depth item (proj1 Hitem)) as (x & rows & E).
    pose proof H21 as H21'. rewrite E in H21'.
    inversion H21' as [|? pl ? pls1' [Hc Hdp] _]; subst pls1. cbn [fst snd] in Hc, Hdp.
    rewrite <- app_assoc in Hrem.
    destruct fuel as [|fuel]; [lia|]. cbn [decode_list_array_loop].
    rewrite (at_end_remaining cursor pl _ Hrem). cbn [orb].
    replace (Z.of_nat (length init) <? h_length header)%Z with true
      by (symmetry; apply Z.ltb_lt; rewrite Hlen; cbn [length]; lia).
    cbn [negb]. rewrite peek_remaining, Hrem. cbn [app hd_error].
    rewrite Hdp, Nat.ltb_irrefl, Nat.eqb_refl, Hc. cbn [andb]. clear Hdp.
    assert (Hsw : startswith ("-"%char :: " "%char :: x) LIST_ITEM_PREFIX = true).
    { change LIST_ITEM_PREFIX with ["-"%char; " "%char]. cbn [startswith].
      now rewrite startswith_nil. }
    rewrite Hsw. cbn iota.
    rewrite (decode_list_item_reads delimiter options item item_depth (pl :: pls1') (pls2 ++ post)
               fuel cursor (h_delimiter header) Hitem H21 Hrem).
    + cbn [bind].
      destruct (IH Hitems' pls2 post (init ++ [item])
                  (match start_line with None => Some (line_number pl) | Some s => Some s end)
                  (match current (advance_by (length (pl :: pls1')) cursor) with
                   | Some current_line => Some (line_number current_line)
                   | None => Some (line_number pl)
                   end)
                  fuel (advance_by (length (pl :: pls1')) cursor) H22)
        as (s' & e' & Hloop).
      * rewrite remaining_advance_by, Hrem. now apply skipn_length_app.
      * exact Hpost.
      * rewrite Hlen, length_app. cbn [length]. f_equal. lia.
      * rewrite length_app in Hfuel. cbn [length] in Hfuel. lia.
      * exists s', e'. rewrite Hloop, advance_by_add, <- app_assoc. cbn [app].
        do 2 f_equal. unfold advance_by. f_equal. cbn [length]. rewrite length_app. lia.
    + destruct items as [|item2 items2].
      * inversion H22; subst. exact Hpost.
      * inversion Hitems' as [|? ? Hitem2 _]; subst.
        destruct (item_rows_head delimiter item_depth item2 (proj1 Hitem2)) as (x2 & rows2 & E2).
        unfold items_rows in H22. cbn [flat_map] in H22. rewrite E2 in H22.
        inversion H22 as [|? pl2 ? ? [_ Hd2] _]; subst. unfold shallow. cbn [app hd_error].
        cbn [fst] in Hd2. lia.
    + rewrite length_app in Hfuel. cbn [length] in *. lia.
Qed.

Lemma encode_items_rows options item_depth : forall items w,
  e_delimiter options = delimiter ->
  Forall (list_item_tree delimiter) items ->
  fold_left (fun w0 item => encode_list_item_value options item w0 item_depth) items w
  = {| w_lines := w_lines w ++ map (render (w_indentation_string w))
                                   (items_rows item_depth items);
       w_indentation_string := w_indentation_string w |}.
Proof.
  induction items as [|item items IH]; intros w Hd Hi; cbn [fold_left].
  - unfold items_rows. cbn [flat_map map]. rewrite app_nil_r. now destruct w.
  - inversion Hi as [|? ? Hitem Hitems]; subst.
    rewrite (encode_list_item_rows delimiter options item w item_depth Hd Hitem).
    rewrite IH by assumption. cbn [w_lines w_indentation_string].
    unfold items_rows. cbn [flat_map]. now rewrite map_app, app_assoc.
Qed.

Hypothesis delimiter_ok : valid_delimiter delimiter.

Lemma header_flat n key length_marker :
  array_key key -> flat_line (format_header n key None delimiter length_marker).
Proof.
  intro Hk.
  rewrite <- (app_nil_r (format_header n key None delimiter length_marker)).
  rewrite format_header_text.
  assert (Hb : Forall (fun x => ceq x NEWLINE = false)
                 (OPEN_BRACKET :: bracket_text n delimiter length_marker
                  ++ [CLOSE_BRACKET; COLON])).
  { constructor; [reflexivity|]. apply Forall_app. split; [|now repeat constructor].
    eapply Forall_impl; [|apply (bracket_text_chars n delimiter length_marker delimiter_ok)].
    intros y [_ Hy]. exact Hy. }
  destruct key as [k|]; cbn [array_key] in Hk.
  - destruct (key_pattern_wordish k Hk) as [Hne Hw].
    assert (Ev : is_valid_unquoted_key k = true).
    { unfold is_valid_unquoted_key, re_match_anchored. now rewrite Hk. }
    assert (Ek : encode_key k = k) by (unfold encode_key; now rewrite Ev).
    destruct k as [|c r]; [congruence|]. cbn [is_empty]. rewrite Ek. split.
    + inversion Hw as [|? ? Hc _]; subst. cbn [app]. now apply wordish_plain.
    + apply Forall_app. split; [|exact Hb].
      eapply Forall_impl; [|exact Hw]. intros y Hy. now apply wordish_plain.
  - cbn [app]. split; [reflexivity|exact Hb].
Qed.

End ListArrays.

(** A list array is read back item by item.  The lines that
    [encode_mixed_array_as_list_items] writes are scanned to a header line
    and the lines of the items; [parse_array_header_line] reads from the
    header line the key and the number of items; and the loop of
    [decode_list_array], started after the header line, returns the items in
    order, all lines consumed.  For each of the three delimiters, no key or
    an unquoted key that matches the key pattern in full, and items that are
    primitives that read back as tokens or mappings whose first field holds
    such a primitive and whose other fields hold primitives or, to any depth,
    mappings; the decoder runs with the encoder's indent, which is not zero,
    strict or not. *)
Theorem list_array_round_trip (items : list JsonValue) (key : option str)
  (eopts : ResolvedEncodeOptions) (dopts : ResolvedDecodeOptions) (array_depth : nat) :
  valid_delimiter (e_delimiter eopts) ->
  array_key key ->
  Forall (list_item_plain (e_delimiter eopts)) items ->
  e_indent eopts <> 0 ->
  d_indent dopts = e_indent eopts ->
  exists header_line pls header,
    scan_lines
      (w_lines (encode_mixed_array_as_list_items_with eopts (encode_list_item_value eopts)
                  key items (new_writer (e_indent eopts)) array_depth))
      1 (d_indent dopts) (d_strict dopts) = Ok (header_line :: pls, [])
    /\ parse_array_header_line (content header_line) DEFAULT_DELIMITER
       = Ok (Some (header, None))
    /\ h_key header = key
    /\ h_length header = Z.of_nat (length items)
    /\ h_fields header = None
    /\ forall fuel, 2 * length pls + length items + 2 < fuel ->
       exists start_line end_line,
         decode_list_array_loop fuel header
           {| c_lines := header_line :: pls; c_index := 1; c_blank_lines := [] |}
           (array_depth + 1) dopts [] None None
         = Ok (items, start_line, end_line,
               {| c_lines := header_line :: pls; c_index := 1 + length pls;
                  c_blank_lines := [] |}).
Proof.
  intros Hd Hk Hitems Hn Hind. set (delimiter := e_delimiter eopts) in *.
  rewrite Hind.
  assert (Htrees : Forall (list_item_tree delimiter) items).
  { eapply Forall_impl; [|exact Hitems]. intros item [H _]. exact H. }
  set (head := format_header (length items) key None delimiter (e_length_marker eopts)).
  set (rows := (array_depth, head) :: items_rows delimiter (array_depth + 1) items).
  assert (Hlines :
    w_lines (encode_mixed_array_as_list_items_with eopts (encode_list_item_value eopts)
               key items (new_writer (e_indent eopts)) array_depth)
    = map (render (repeat SPACE (e_indent eopts))) rows).
  { unfold encode_mixed_array_as_list_items_with.
    rewrite (encode_items_rows delimiter eopts (array_depth + 1) items _ eq_refl Htrees).
    reflexivity. }
  assert (Hflat : Forall (fun row => flat_line (snd row)) rows).
  { constructor; [now apply header_flat|].
    unfold items_rows. clear - Htrees.
    induction Htrees as [|item items Hitem _ IH]; [constructor|].
    cbn [flat_map]. apply Forall_app. split; [now apply item_rows_flat|exact IH]. }
  destruct (scan_rows (e_indent eopts) (d_strict dopts) Hn rows 1 Hflat)
    as (pls0 & Hscan & H2).
  unfold rows in H2. inversion H2 as [|? hl ? pls [Hc _] H2']; subst pls0.
  cbn [snd] in Hc.
  exists hl, pls,
    {| h_key := key; h_length := Z.of_nat (length items); h_delimiter := delimiter;
       h_fields := None; h_has_length_marker := marker_on (e_length_marker eopts) |}.
  split; [rewrite Hlines; exact Hscan|].
  split.
  { rewrite Hc. unfold head.
    rewrite <- (app_nil_r (format_header _ key None delimiter (e_length_marker eopts))).
    now rewrite (header_line_parsed delimiter Hd _ key _ [] Hk). }
  split; [reflexivity|]. split; [reflexivity|]. split; [reflexivity|].
  intros fuel Hfuel.
  destruct (list_array_loop_reads delimiter dopts
              {| h_key := key; h_length := Z.of_nat (length items); h_delimiter := delimiter;
                 h_fields := None; h_has_length_marker := marker_on (e_length_marker eopts) |}
              (array_depth + 1) items Hitems pls [] [] None None fuel
              {| c_lines := hl :: pls; c_index := 1; c_blank_lines := [] |} H2')
    as (s & e & Hloop).
  - unfold remaining. cbn [c_lines c_index skipn]. now rewrite app_nil_r.
  - exact I.
  - reflexivity.
  - exact Hfuel.
  - exists s, e. rewrite Hloop. reflexivity.
Qed.

Lemma list_array_round_trip_witness :
  exists header_line pls header,
    scan_lines
      (w_lines (encode_mixed_array_as_list_items_with
                  {| e_indent := 2; e_delimiter := COMMA; e_length_marker := None |}
                  (encode_list_item_value
                     {| e_indent := 2; e_delimiter := COMMA; e_length_marker := None |})
                  (Some (lit "rows"))
                  [JPrim (PInt 1); JObject [(lit "id", JPrim (PStr (lit "a: b")))]]
                  (new_writer 2) 0))
      1 2 true = Ok (header_line :: pls, [])
    /\ parse_array_header_line (content header_line) DEFAULT_DELIMITER
       = Ok (Some (header, None))
    /\ h_key header = Some (lit "rows")
    /\ h_length header
       = Z.of_nat (length [JPrim (PInt 1); JObject [(lit "id", JPrim (PStr (lit "a: b")))]])
    /\ h_fields header = None
    /\ forall fuel,
       2 * length pls
       + length [JPrim (PInt 1); JObject [(lit "id", JPrim (PStr (lit "a: b")))]] + 2 < fuel ->
       exists start_line end_line,
         decode_list_array_loop fuel header
           {| c_lines := header_line :: pls; c_index := 1; c_blank_lines := [] |}
           (0 + 1) {| d_indent := 2; d_strict := true |} [] None None
         = Ok ([JPrim (PInt 1); JObject [(lit "id", JPrim (PStr (lit "a: b")))]],
               start_line, end_line,
               {| c_lines := header_line :: pls; c_index := 1 + length pls;
                  c_blank_lines := [] |}).
Proof.
  apply (list_array_round_trip
           [JPrim (PInt 1); JObject [(lit "id", JPrim (PStr (lit "a: b")))]]
           (Some (lit "rows"))
           {| e_indent := 2; e_delimiter := COMMA; e_length_marker := None |}
           {| d_indent := 2; d_strict := true |} 0).
  - left. reflexivity.
  - reflexivity.
  - constructor; [|constructor; [|constructor]].
    + split; [|exact I]. simpl. reflexivity.
    + split; [|exact I]. apply tree_object.
      * repeat constructor. intros [].
      * constructor; [|constructor]. split; [left; reflexivity|]. split.
        -- apply tree_prim. intro H. discriminate H.
        -- intros p E _. cbn [snd] in E. inversion E. reflexivity.
  - discriminate.
  - reflexivity.
Defined.

(** An empty mapping in a list array is written as a lone hyphen, and the
    loop of [decode_list_array] does not take that line for an item, since it
    does not start with a hyphen and a space: wherever the cursor stands on
    such a line the loop stops and returns the items read so far, so the
    array comes back without the empty mapping and without the items after
    it. *)
Theorem empty_mapping_list_item_skipped (eopts : ResolvedEncodeOptions)
  (dopts : ResolvedDecodeOptions) (item_depth first_line : nat) :
  e_indent eopts <> 0 ->
  d_indent dopts = e_indent eopts ->
  exists pl,
    scan_lines
      (w_lines (encode_list_item_value eopts (JObject []) (new_writer (e_indent eopts))
                  item_depth))
      first_line (d_indent dopts) (d_strict dopts) = Ok ([pl], [])
    /\ depth pl = item_depth
    /\ forall fuel header cursor items start_line end_line,
       peek cursor = Some pl ->
       decode_list_array_loop (S fuel) header cursor item_depth dopts items start_line end_line
       = Ok (items, start_line, end_line, cursor).
Proof.
  intros Hn Hind. rewrite Hind.
  destruct (scan_rows (e_indent eopts) (d_strict dopts) Hn [(item_depth, LIST_ITEM_MARKER)]
              first_line) as (pls & Hscan & H2).
  { constructor; [|constructor]. split; [reflexivity|now repeat constructor]. }
  inversion H2 as [|? pl ? ? [Hc Hd] H2']; subst. inversion H2'; subst.
  cbn [fst snd] in Hc, Hd.
  exists pl. split; [exact Hscan|]. split; [exact Hd|].
  intros fuel header cursor items start_line end_line Hpeek.
  cbn [decode_list_array_loop]. rewrite Hpeek, Hc, Hd.
  rewrite Nat.ltb_irrefl, Nat.eqb_refl.
  change (startswith LIST_ITEM_MARKER LIST_ITEM_PREFIX) with false. cbn [andb].
  now destruct (at_end cursor || negb (Z.of_nat (length items) <? h_length header)%Z).
Qed.

Lemma empty_mapping_list_item_skipped_witness :
  exists pl,
    scan_lines
      (w_lines (encode_list_item_value
                  {| e_indent := 2; e_delimiter := COMMA; e_length_marker := None |}
                  (JObject []) (new_writer 2) 1))
      2 2 true = Ok ([pl], [])
    /\ depth pl = 1
    /\ forall fuel header cursor items start_line end_line,
       peek cursor = Some pl ->
       decode_list_array_loop (S fuel) header cursor 1 {| d_indent := 2; d_strict := true |}
         items start_line end_line
       = Ok (items, start_line, end_line, cursor).
Proof.
  apply (empty_mapping_list_item_skipped
           {| e_indent := 2; e_delimiter := COMMA; e_length_marker := None |}
           {| d_indent := 2; d_strict := true |} 1 2).
  - discriminate.
  - reflexivity.
Defined.
